(** * The randomized minibatch source of the HTKMLF reader

    A shallow embedding of [utterancesourcemultiNew.h]
    (class [minibatchutterancesourcemulti] and its nested [randomizer]),
    and the properties of the randomization, paging and batch assembly
    that its specification states.

    Conventions of the embedding:
    - [size_t] values are [N] with the 64-bit wrap-around of every
      addition, subtraction and multiplication written out ([SizeT]);
    - a [std::vector] is a list, indexed with [vget] ([None] when the index
      is out of range, which the code does not check: the embedding then
      stops with [Undefined]);
    - exceptions and the other ways of not returning are the constructors of
      [failure]; code that can throw lives in the [outcome] monad;
    - [assert] is the C macro: compiled out when [NDEBUG] is defined, so
      every function that asserts takes the build flag [ndebug];
    - an iterator into [allchunks] is the index of the element, so that the
      randomized chunk sequence aliases the chunk store as in the code. *)

From Stdlib Require Import NArith List Lia Bool Ascii String.
From stdpp Require Import base option list gmap strings.

Local Open Scope N_scope.

(** ** [size_t] arithmetic *)

Module SizeT.
Definition modulus : N := 2 ^ 64.
Definition SIZE_MAX : N := modulus - 1.
Definition wrap (n : N) : N := n mod modulus.
Definition add (a b : N) : N := wrap (a + b).
Definition sub (a b : N) : N := wrap (a + (modulus - wrap b)).
Definition mul (a b : N) : N := wrap (a * b).
(** [(unsigned int) x] *)
Definition to_uint (n : N) : N := n mod 2 ^ 32.
Definition uint_add (a b : N) : N := (a + b) mod 2 ^ 32.
End SizeT.

(** ** Failures and the [outcome] monad *)

Inductive logic_error : Set :=
| LE_push_back_in_ram           (* utterancechunkdata: frames already paged into RAM *)
| LE_getutteranceframes         (* getutteranceframes: data have not been paged in *)
| LE_requiredata_virgin         (* requiredata: cannot page in virgin block *)
| LE_requiredata_in_memory      (* requiredata: called when data is already in memory *)
| LE_releasedata_virgin         (* releasedata: cannot page out virgin block *)
| LE_releasedata_not_in_memory  (* releasedata: called when data is not memory *)
| LE_randomization_mangled      (* lazyrandomization: randomization logic mangled! *)
| LE_frame_randomization_wrong  (* lazyrandomization: nope, you got frame randomization wrong, dude *)
| LE_chunkforframepos           (* chunkforframepos: dude, learn STL! *)
| LE_release_inconsistent       (* releaserandomizedchunk: some inputs have chunks in ram, some not *)
| LE_require_outside_window     (* requirerandomizedchunk: requested utterance outside in-memory chunk range *)
| LE_require_inconsistent       (* requirerandomizedchunk: some inputs need chunks paged in, some not *)
| LE_shiftedvector_bounds       (* shiftedvector: index out of bounds *)
| LE_boundary_marker            (* getclassids: expected boundary marker not found *)
| LE_label_duration             (* minibatchutterancesource: label duration inconsistent with feature file *)
| LE_classids_out_of_sync.      (* minibatchutterancesource: classids[] out of sync *)

Inductive runtime_error : Set :=
| RE_shuffle_too_large          (* randomshuffle: too large set *)
| RE_stream_cardinality         (* all feature files must have same number of utterances *)
| RE_too_short                  (* utterances < 2 frames not supported *)
| RE_too_many_inconsistent      (* too many files with inconsistent durations *)
| RE_labels_not_consecutive     (* labels not in consecutive order MLF *)
| RE_classid_exceeds_dim        (* class id exceeds model output dimension *)
| RE_classidtype_bits           (* CLASSIDTYPE has too few bits *)
| RE_too_many_missing.          (* too many files not found in label set *)

Inductive failure : Set :=
| LogicError (e : logic_error)
| RuntimeError (e : runtime_error)
| IOError                       (* an exception of the feature or lattice reader *)
| AssertionFailed               (* a failed [assert], builds without NDEBUG *)
| Undefined                     (* undefined behaviour: index out of range, division by zero *)
| OutOfFuel.                    (* a loop of the code did not finish within the fuel given *)

Inductive outcome (A : Type) : Type :=
| Done (a : A)
| Fail (f : failure).
Arguments Done {A} a.
Arguments Fail {A} f.

#[export] Instance outcome_ret : MRet outcome := @Done.
#[export] Instance outcome_bind : MBind outcome := fun A B f m =>
  match m with
  | Done a => f a
  | Fail e => Fail e
  end.

Definition throw {A} (f : failure) : outcome A := Fail f.

(** [assert (b)] under the build flag. *)
Definition assert (ndebug b : bool) : outcome unit :=
  if ndebug then Done tt else if b then Done tt else Fail AssertionFailed.

(** Unchecked indexing [v[i]]. *)
Definition vget {A} (v : list A) (i : N) : option A := v !! N.to_nat i.
Definition vsize {A} (v : list A) : N := N.of_nat (length v).
Definition vat {A} (v : list A) (i : N) : outcome A :=
  match vget v i with
  | Some a => Done a
  | None => Fail Undefined
  end.
Definition vset {A} (v : list A) (i : N) (a : A) : list A := <[N.to_nat i := a]> v.

(** [0, 1, ..., n-1] as [size_t] values: the index range of a counting loop. *)
Definition N_range (n : N) : list N := map N.of_nat (seq 0 (N.to_nat n)).
Definition indices {A} (v : list A) : list N := map N.of_nat (seq 0 (length v)).

(** A loop over a list that threads a state and stops at the first failure. *)
Fixpoint foldM {A B} (f : B → A → outcome B) (l : list A) (b : B) : outcome B :=
  match l with
  | [] => Done b
  | a :: l' => b' ← f b a; foldM f l' b'
  end.

Fixpoint mapO {A B} (f : A → outcome B) (l : list A) : outcome (list B) :=
  match l with
  | [] => Done []
  | a :: l' => b ← f a; bs ← mapO f l'; Done (b :: bs)
  end.

(** ** The chunk store *)

(** [msra::asr::htkfeatreader::parsedpath]: the logical path and the frame
    range given with it; only its frame count and the logical path are used
    here. *)
Record parsedpath := {
  logicalpath : string;
  pp_numframes : N
}.

Record utterancedesc := {
  ud_parsedpath : parsedpath;
  classidsbegin : N
}.
Definition numframes (u : utterancedesc) : N := pp_numframes (ud_parsedpath u).

(** [utterancechunkdata].  [frames] is the matrix as its dimensions
    (rows, columns); [lattices] is the vector of lattice pairs, as the keys
    they were read for. *)
Record utterancechunkdata := {
  utteranceset : list utterancedesc;
  firstframes : list N;
  frames : N * N;
  totalframes : N;
  lattices : list string
}.

Definition cd_numutterances (c : utterancechunkdata) : N := vsize (utteranceset c).
Definition cd_numframes (c : utterancechunkdata) (i : N) : outcome N :=
  u ← vat (utteranceset c) i; Done (numframes u).
Definition getclassidsbegin (c : utterancechunkdata) (i : N) : outcome N :=
  u ← vat (utteranceset c) i; Done (classidsbegin u).

(** [frames.empty()] *)
Definition matrix_empty (m : N * N) : bool := (fst m * snd m =? 0).
Definition isinram (c : utterancechunkdata) : bool := negb (matrix_empty (frames c)).

Definition empty_chunkdata : utterancechunkdata :=
  {| utteranceset := []; firstframes := []; frames := (0, 0); totalframes := 0; lattices := [] |}.

Definition push_back (c : utterancechunkdata) (utt : utterancedesc) : outcome utterancechunkdata :=
  if isinram c then throw (LogicError LE_push_back_in_ram)
  else Done {| utteranceset := utteranceset c ++ [utt];
               firstframes := firstframes c ++ [totalframes c];
               frames := frames c;
               totalframes := SizeT.add (totalframes c) (numframes utt);
               lattices := lattices c |}.

(** ** The randomizer *)

(** [randomizer::chunk]: [uttchunkdata] is the iterator into [allchunks[i]],
    as the index it points at.  The window fields are left uninitialised by
    the constructor; they read 0 here until they are assigned. *)
Record chunk := {
  uttchunkdata : N;
  utteranceposbegin : N;
  globalts : N;
  windowbegin : N;
  windowend : N
}.

Definition getchunkdata (ac : list utterancechunkdata) (c : chunk) : outcome utterancechunkdata :=
  vat ac (uttchunkdata c).
Definition chunk_numutterances (ac : list utterancechunkdata) (c : chunk) : outcome N :=
  cd ← getchunkdata ac c; Done (cd_numutterances cd).
Definition chunk_numframes (ac : list utterancechunkdata) (c : chunk) : outcome N :=
  cd ← getchunkdata ac c; Done (totalframes cd).
Definition utteranceposend (ac : list utterancechunkdata) (c : chunk) : outcome N :=
  n ← chunk_numutterances ac c; Done (SizeT.add (utteranceposbegin c) n).
Definition globalte (ac : list utterancechunkdata) (c : chunk) : outcome N :=
  n ← chunk_numframes ac c; Done (SizeT.add (globalts c) n).

Definition set_window (c : chunk) (wb we : N) : chunk :=
  {| uttchunkdata := uttchunkdata c; utteranceposbegin := utteranceposbegin c;
     globalts := globalts c; windowbegin := wb; windowend := we |}.

Record sequenceref := {
  chunkindex : N;
  utteranceindex : N;
  sr_numframes : N;
  sr_globalts : N;
  frameindex : N
}.

(** [sequenceref (chunkindex, utteranceindex, frameindex)] *)
Definition mk_sequenceref (k i m : N) : sequenceref :=
  {| chunkindex := k; utteranceindex := i; sr_numframes := 0;
     sr_globalts := SizeT.SIZE_MAX; frameindex := m |}.
Definition sr_globalte (r : sequenceref) : N := SizeT.add (sr_globalts r) (sr_numframes r).
Definition sr_triple (r : sequenceref) : N * N * N :=
  (chunkindex r, utteranceindex r, frameindex r).

(** [positionchunkwindow]: the iterator [definingchunk] into
    [randomizedchunks[0]], as an index; the window is read through it. *)
Definition pcw_windowbegin (rc0 : list chunk) (definingchunk : N) : outcome N :=
  c ← vat rc0 definingchunk; Done (windowbegin c).
Definition pcw_windowend (rc0 : list chunk) (definingchunk : N) : outcome N :=
  c ← vat rc0 definingchunk; Done (windowend c).
Definition isvalidforthisposition (rc0 : list chunk) (definingchunk : N) (s : sequenceref)
  : outcome bool :=
  wb ← pcw_windowbegin rc0 definingchunk;
  we ← pcw_windowend rc0 definingchunk;
  Done ((wb <=? chunkindex s) && (chunkindex s <? we)).

Record randomizer := {
  framemode : bool;
  _totalframes : N;
  rz_numutterances : N;
  randomizationrange : N;
  currentsweep : N;
  randomizedchunks : list (list chunk);
  randomizedutterancerefs : list sequenceref;
  randomizedutteranceposmap : gmap N N;
  positionchunkwindows : list N
}.

(** [randomizer (verbosity, framemode, totalframes, numutterances, randomizationrange)] *)
Definition mk_randomizer (fm : bool) (tf nu rr : N) : randomizer :=
  {| framemode := fm; _totalframes := tf; rz_numutterances := nu; randomizationrange := rr;
     currentsweep := SizeT.SIZE_MAX; randomizedchunks := []; randomizedutterancerefs := [];
     randomizedutteranceposmap := ∅; positionchunkwindows := [] |}.

(** [::swap (v[i], v[j])] *)
Definition vswap {A} (v : list A) (i j : N) : outcome (list A) :=
  a ← vat v i; b ← vat v j; Done (vset (vset v i b) j a).

Section Randomizer.
(** The C library's generator: [srand (seed)] gives its state, [::rand ()]
    the next raw number.  [RAND_MAX] is the platform's constant. *)
Context {G : Type} (srand : N → G) (crand : G → N * G) (RAND_MAX : N).
(** Whether the build defines [NDEBUG]. *)
Context (ndebug : bool).

Definition assertM (c : outcome bool) : outcome unit :=
  if ndebug then Done tt
  else b ← c; if (b : bool) then Done tt else Fail AssertionFailed.

(** Modelled from the spec: [msra::dbn::rand (begin, end)] of
    minibatchsourcehelpers.h, which is not among the sources.  The spec has
    it pick a location in [[begin, end)]; the pick is the generator's next
    raw number reduced into that range.  An empty range has no pick. *)
Definition rand (g : G) (begin end_ : N) : outcome (N * G) :=
  if end_ <=? begin then Fail Undefined
  else let '(r, g') := crand g in Done (begin + r mod (end_ - begin), g').

(** [randomshuffle (v, randomseed)] *)
Definition randomshuffle_step {A} (st : list A * G) (i : N) : outcome (list A * G) :=
  let '(v, g) := st in
  '(irand, g') ← rand g 0 (vsize v);
  if irand =? i then Done (v, g')
  else v' ← vswap v i irand; Done (v', g').

Definition randomshuffle {A} (v : list A) (randomseed : N) : outcome (list A) :=
  if SizeT.mul RAND_MAX RAND_MAX <? vsize v
  then throw (RuntimeError RE_shuffle_too_large)
  else '(v', _) ← foldM randomshuffle_step (indices v) (v, srand (SizeT.to_uint randomseed));
       Done v'.

(** *** The steps of [lazyrandomization] *)

(** "first randomize chunks": the iterators to the chunks of one stream,
    shuffled with the sweep as seed. *)
Definition randomize_chunkrefs (ac : list utterancechunkdata) (sweep : N) : outcome (list N) :=
  let refs := indices ac in
  _ ← assertM (Done (vsize refs =? vsize ac));
  randomshuffle refs sweep.

(** "place them onto the global timeline".  The constructor of [chunk]
    gives [windowbegin] and [windowend] no value; the code writes them
    afterwards for the chunks of the first stream only and reads no others.
    They start at 0 here; the properties of the randomization read the
    windows of the first stream only. *)
Definition place_chunk (ac : list utterancechunkdata) (sweepts : N)
    (rc : list chunk) (ref : N) : outcome (list chunk) :=
  upos ← match last rc with
         | None => Done 0
         | Some b => utteranceposend ac b
         end;
  gts ← match last rc with
        | None => Done sweepts
        | Some b => globalte ac b
        end;
  Done (rc ++ [ {| uttchunkdata := ref; utteranceposbegin := upos; globalts := gts;
                   windowbegin := 0; windowend := 0 |} ]).

Definition place_chunks (ac : list utterancechunkdata) (refs : list N) (sweepts : N)
  : outcome (list chunk) :=
  foldM (place_chunk ac sweepts) refs [].

Definition placed_ok (fm_totalframes numutts : N) (ac : list utterancechunkdata)
    (sweepts : N) (rc : list chunk) : outcome bool :=
  match last rc with
  | None => Done true
  | Some b =>
      pe ← utteranceposend ac b;
      te ← globalte ac b;
      Done ((pe =? numutts) && (te =? SizeT.add sweepts fm_totalframes))
  end.

(** "for each chunk, compute the randomization range": the two [while]
    loops.  Each iteration moves the bound one chunk to the right and the
    first one reads [rc[windowbegin]], so [S (length rc)] iterations are
    enough for either loop to end or to leave the vector. *)
Fixpoint advance_windowbegin (fuel : nat) (rc : list chunk) (gts half wb : N) : outcome N :=
  match fuel with
  | O => Fail OutOfFuel
  | S fuel' =>
      c ← vat rc wb;
      if half <? SizeT.sub gts (globalts c)
      then advance_windowbegin fuel' rc gts half (SizeT.add wb 1)
      else Done wb
  end.

Fixpoint advance_windowend (fuel : nat) (ac : list utterancechunkdata) (rc : list chunk)
    (gts half we : N) : outcome N :=
  match fuel with
  | O => Fail OutOfFuel
  | S fuel' =>
      if we <? vsize rc then
        c ← vat rc we;
        te ← globalte ac c;
        if SizeT.sub te gts <? half
        then advance_windowend fuel' ac rc gts half (SizeT.add we 1)
        else Done we
      else Done we
  end.

Definition compute_window (ac : list utterancechunkdata) (range : N)
    (rc : list chunk) (k : N) : outcome (list chunk) :=
  c ← vat rc k;
  '(wb0, we0) ← (if k =? 0 then Done (0, 1)
                 else p ← vat rc (k - 1); Done (windowbegin p, windowend p));
  wb ← advance_windowbegin (S (length rc)) rc (globalts c) (range / 2) wb0;
  we ← advance_windowend (S (length rc)) ac rc (globalts c) (range / 2) we0;
  Done (vset rc k (set_window c wb we)).

Definition compute_windows (ac : list utterancechunkdata) (range : N) (rc : list chunk)
  : outcome (list chunk) :=
  foldM (compute_window ac range) (indices rc) rc.

(** The nested loops over the utterances [i] of a chunk and the sequences
    [m] of an utterance (its frames in frame mode, itself otherwise). *)
Definition sequences_of_chunk {A} (fm : bool) (f : N → N → N → A) (k : N)
    (cd : utterancechunkdata) : list A :=
  concat (imap (fun i u => map (f k (N.of_nat i)) (N_range (if fm then numframes u else 1)))
               (utteranceset cd)).

(** ... and over the randomized chunks [k], pushing [f k i m]. *)
Definition enumerate_step {A} (fm : bool) (f : N → N → N → A) (ac0 : list utterancechunkdata)
    (rc0 : list chunk) (acc : list A) (k : N) : outcome (list A) :=
  c ← vat rc0 k;
  cd ← getchunkdata ac0 c;
  Done (acc ++ sequences_of_chunk fm f k cd).

Definition enumerate_sequences {A} (fm : bool) (f : N → N → N → A)
    (ac0 : list utterancechunkdata) (rc0 : list chunk) : outcome (list A) :=
  foldM (enumerate_step fm f ac0 rc0) (indices rc0) [].

(** "check we got those setup right" (an [assert] per position) *)
Definition check_setup (rc0 : list chunk) (pcw : list N) (refs : list sequenceref)
  : outcome unit :=
  foldM (fun _ i =>
           assertM (w ← vat pcw i; r ← vat refs i; isvalidforthisposition rc0 w r))
        (indices refs) tt.

(** The [for (;;)] loop that picks the position to swap position [i] with. *)
Fixpoint pick_and_swap (fuel : nat) (rc0 : list chunk) (pcw : list N)
    (i posbegin posend : N) (refs : list sequenceref) (g : G)
  : outcome (list sequenceref * G) :=
  match fuel with
  | O => Fail OutOfFuel
  | S fuel' =>
      '(j, g') ← rand g posbegin posend;
      if i =? j then Done (refs, g')
      else
        wi ← vat pcw i;
        rj ← vat refs j;
        ok1 ← isvalidforthisposition rc0 wi rj;
        if negb ok1 then pick_and_swap fuel' rc0 pcw i posbegin posend refs g'
        else
          wj ← vat pcw j;
          ri ← vat refs i;
          ok2 ← isvalidforthisposition rc0 wj ri;
          if negb ok2 then pick_and_swap fuel' rc0 pcw i posbegin posend refs g'
          else refs' ← vswap refs i j; Done (refs', g')
  end.

(** The randomization range of position [i], in positions. *)
Definition position_range (fm : bool) (ac0 : list utterancechunkdata) (rc0 : list chunk)
    (pcw : list N) (sweepts i : N) : outcome (N * N) :=
  w ← vat pcw i;
  wb ← pcw_windowbegin rc0 w;
  we ← pcw_windowend rc0 w;
  cb ← vat rc0 wb;
  ce ← vat rc0 (SizeT.sub we 1);
  if fm then
    te ← globalte ac0 ce;
    Done (SizeT.sub (globalts cb) sweepts, SizeT.sub te sweepts)
  else
    pe ← utteranceposend ac0 ce;
    Done (utteranceposbegin cb, pe).

Definition shuffle_position (fuel : nat) (fm : bool) (ac0 : list utterancechunkdata)
    (rc0 : list chunk) (pcw : list N) (sweepts : N)
    (st : list sequenceref * G) (i : N) : outcome (list sequenceref * G) :=
  '(posbegin, posend) ← position_range fm ac0 rc0 pcw sweepts i;
  pick_and_swap fuel rc0 pcw i posbegin posend st.1 st.2.

Definition shuffle_sequences (fuel : nat) (fm : bool) (ac0 : list utterancechunkdata)
    (rc0 : list chunk) (pcw : list N) (sweep sweepts : N) (refs : list sequenceref)
  : outcome (list sequenceref) :=
  '(refs', _) ← foldM (shuffle_position fuel fm ac0 rc0 pcw sweepts) (indices refs)
                      (refs, srand (SizeT.uint_add (SizeT.to_uint sweep) 1));
  Done refs'.

(** The pass that assigns [globalts] and [numframes]. *)
Definition assign_time (fm : bool) (ac0 : list utterancechunkdata) (rc0 : list chunk)
    (st : list sequenceref * N) (i : N) : outcome (list sequenceref * N) :=
  let '(refs, t) := st in
  r ← vat refs i;
  nf ← (if fm then Done 1
        else c ← vat rc0 (chunkindex r); cd ← getchunkdata ac0 c;
             cd_numframes cd (utteranceindex r));
  let r' := {| chunkindex := chunkindex r; utteranceindex := utteranceindex r;
               sr_numframes := nf; sr_globalts := t; frameindex := frameindex r |} in
  Done (vset refs i r', sr_globalte r').

Definition assign_times (fm : bool) (ac0 : list utterancechunkdata) (rc0 : list chunk)
    (sweepts : N) (refs : list sequenceref) : outcome (list sequenceref * N) :=
  foldM (assign_time fm ac0 rc0) (indices refs) (refs, sweepts).

(** "verify that we got it right" *)
Definition verify_position (rc0 : list chunk) (pcw : list N) (refs : list sequenceref)
    (_ : unit) (i : N) : outcome unit :=
  r ← vat refs i;
  w ← vat pcw i;
  wb ← pcw_windowbegin rc0 w;
  we ← pcw_windowend rc0 w;
  if (chunkindex r <? wb) || (we <=? chunkindex r)
  then throw (LogicError LE_randomization_mangled)
  else Done tt.

Definition verify_positions (rc0 : list chunk) (pcw : list N) (refs : list sequenceref)
  : outcome unit :=
  foldM (verify_position rc0 pcw refs) (indices refs) tt.

(** "create lookup table for (globalts values -> pos)" *)
Definition build_posmap (refs : list sequenceref) : gmap N N :=
  fold_left (fun m pos =>
               match vget refs pos with
               | Some r => <[sr_globalts r := pos]> m
               | None => m
               end) (indices refs) ∅.

(** "check it --my head spins" *)
Definition recheck_sequence (refs : list sequenceref) (poswindowbegin poswindowend : N)
    (t : N) (_ : unit) : outcome N :=
  r ← vat refs t;
  if (chunkindex r <? poswindowbegin) || (poswindowend <=? chunkindex r)
  then throw (LogicError LE_frame_randomization_wrong)
  else Done (SizeT.add t 1).

Definition recheck_chunk (fm : bool) (ac0 : list utterancechunkdata) (rc0 : list chunk)
    (refs : list sequenceref) (t : N) (i : N) : outcome N :=
  c ← vat rc0 i;
  cd ← getchunkdata ac0 c;
  foldM (recheck_sequence refs (windowbegin c) (windowend c))
        (sequences_of_chunk fm (fun _ _ _ => tt) i cd) t.

Definition recheck (fm : bool) (ac0 : list utterancechunkdata) (rc0 : list chunk)
    (refs : list sequenceref) : outcome N :=
  foldM (recheck_chunk fm ac0 rc0 refs) (indices rc0) 0.

(** *** [lazyrandomization (globalts, allchunks)]

    [fuel] bounds the retries of each position's [for (;;)] loop.  The
    result is the sweep and the randomizer with its caches rebuilt. *)
Definition rebuild (fuel : nat) (rz : randomizer) (sweep : N)
    (allchunks : list (list utterancechunkdata)) : outcome randomizer :=
  let fm := framemode rz in
  let sweepts := SizeT.mul sweep (_totalframes rz) in
  randomizedchunkrefs ← mapO (fun ac => randomize_chunkrefs ac sweep) allchunks;
  rcs ← mapO (fun '(ac, refs) =>
                rc ← place_chunks ac refs sweepts;
                _ ← assertM (Done (vsize rc =? vsize ac));
                _ ← assertM (placed_ok (_totalframes rz) (rz_numutterances rz) ac sweepts rc);
                Done rc)
             (zip allchunks randomizedchunkrefs);
  rcs ← match allchunks, rcs with
        | ac0 :: _, rc0 :: rest =>
            rc0' ← compute_windows ac0 (randomizationrange rz) rc0; Done (rc0' :: rest)
        | _, _ => Done rcs
        end;
  let numsequences := if fm then _totalframes rz else rz_numutterances rz in
  ac0 ← vat allchunks 0;
  rc0 ← vat rcs 0;
  pcw ← enumerate_sequences fm (fun k _ _ => k) ac0 rc0;
  _ ← assertM (Done (vsize pcw =? numsequences));
  refs ← enumerate_sequences fm mk_sequenceref ac0 rc0;
  _ ← assertM (Done (vsize refs =? numsequences));
  _ ← check_setup rc0 pcw refs;
  refs ← shuffle_sequences fuel fm ac0 rc0 pcw sweep sweepts refs;
  '(refs, t) ← assign_times fm ac0 rc0 sweepts refs;
  _ ← assertM (Done (t =? SizeT.add sweepts (_totalframes rz)));
  _ ← verify_positions rc0 pcw refs;
  let posmap := build_posmap refs in
  t ← recheck fm ac0 rc0 refs;
  _ ← assertM (Done (t =? numsequences));
  Done {| framemode := fm; _totalframes := _totalframes rz;
          rz_numutterances := rz_numutterances rz;
          randomizationrange := randomizationrange rz;
          currentsweep := sweep;
          randomizedchunks := rcs;
          randomizedutterancerefs := refs;
          randomizedutteranceposmap := posmap;
          positionchunkwindows := pcw |}.

Definition lazyrandomization (fuel : nat) (rz : randomizer) (globalts_ : N)
    (allchunks : list (list utterancechunkdata)) : outcome (N * randomizer) :=
  if _totalframes rz =? 0 then Fail Undefined
  else
    let sweep := globalts_ / _totalframes rz in
    if sweep =? currentsweep rz then Done (sweep, rz)
    else rz' ← rebuild fuel rz sweep allchunks; Done (sweep, rz').

End Randomizer.

(** ** State and exceptions

    The pager and [getbatch] change the source (the residency of the chunks,
    the feature information, the cached randomization) and the world of the
    external readers, and an exception leaves the changes made so far in
    place: [catch] blocks and the retry combinator run on that state. *)

Definition stateful (S A : Type) : Type := S → outcome A * S.

#[export] Instance stateful_ret {S} : MRet (stateful S) := λ A a s, (Done a, s).
#[export] Instance stateful_bind {S} : MBind (stateful S) := λ A B f m s,
  match m s with
  | (Done a, s') => f a s'
  | (Fail e, s') => (Fail e, s')
  end.

Definition sget {S} : stateful S S := λ s, (Done s, s).
Definition sput {S} (s : S) : stateful S unit := λ _, (Done tt, s).
Definition smodify {S} (f : S → S) : stateful S unit := λ s, (Done tt, f s).
Definition lift {S A} (o : outcome A) : stateful S A := λ s, (o, s).
Definition sthrow {S A} (f : failure) : stateful S A := λ s, (Fail f, s).

Fixpoint foldS {S A B} (f : B → A → stateful S B) (l : list A) (b : B) : stateful S B :=
  match l with
  | [] => mret b
  | a :: l' => b' ← f b a; foldS f l' b'
  end.

(** What a C++ [catch (const std::exception &)] or [catch (...)] can catch. *)
Definition is_exception (f : failure) : bool :=
  match f with
  | LogicError _ | RuntimeError _ | IOError => true
  | AssertionFailed | Undefined | OutOfFuel => false
  end.

(** [try { body } catch (...) { handler; throw; }] *)
Definition try_catch_rethrow {S A} (body : stateful S A) (handler : stateful S unit)
  : stateful S A := λ s,
  match body s with
  | (Done a, s') => (Done a, s')
  | (Fail e, s') =>
      if is_exception e then
        match handler s' with
        | (Done _, s'') => (Fail e, s'')
        | (Fail e', s'') => (Fail e', s'')
        end
      else (Fail e, s')
  end.

(** Modelled from the spec: [msra::util::attempt (retries, body)] of
    Basics.h, which is not among the sources; "a small combinator that takes
    a fallible action and attempts up to N times with exception/error
    propagation on exhaustion". *)
Fixpoint attempt_from {S} (remaining : nat) (body : stateful S unit) : stateful S unit :=
  λ s,
  match body s with
  | (Done a, s') => (Done a, s')
  | (Fail e, s') =>
      match remaining with
      | O => (Fail e, s')
      | S n => if is_exception e then attempt_from n body s' else (Fail e, s')
      end
  end.

Definition attempt {S} (retries : nat) (body : stateful S unit) : stateful S unit :=
  attempt_from (retries - 1) body.

(** ** The source *)

Record htkmlfentry := {
  firstframe : N;
  e_numframes : N;
  classid : N;
  phonestart : N
}.

(** The readers and helpers the class consumes through their interfaces, on a
    world [W] of files and network, and the constants of headers that are
    not among the sources. *)
Record collaborators (W : Type) := {
  (** [htkfeatreader::getinfo (path, featkind, featdim, sampperiod)] *)
  reader_getinfo : parsedpath → W → outcome (string * N * N) * W;
  (** [htkfeatreader::read (path, featkind, sampperiod, stripe)] *)
  reader_read : parsedpath → string → N → N * N → W → outcome unit * W;
  (** [latticesource]: [empty ()], [haslattice (key)], [getlattices (key, L, numframes)] *)
  lat_empty : bool;
  haslattice : string → bool;
  getlattices : string → N → W → outcome unit * W;
  (** [augmentationextent (rawdim, vdim)] *)
  augmentationextent : N → N → N;
  (** the widths of [CLASSIDTYPE] and [HMMIDTYPE] *)
  CLASSIDTYPE_bits : N;
  HMMIDTYPE_bits : N
}.
Arguments reader_getinfo {W} _.
Arguments reader_read {W} _.
Arguments lat_empty {W} _.
Arguments haslattice {W} _.
Arguments getlattices {W} _.
Arguments augmentationextent {W} _.
Arguments CLASSIDTYPE_bits {W} _.
Arguments HMMIDTYPE_bits {W} _.

(** [(CLASSIDTYPE) x] and [(HMMIDTYPE) x]; [(CLASSIDTYPE) -1] is the marker. *)
Definition cast_classid {W} (env : collaborators W) (x : N) : N := x mod 2 ^ CLASSIDTYPE_bits env.
Definition cast_hmmid {W} (env : collaborators W) (x : N) : N := x mod 2 ^ HMMIDTYPE_bits env.
Definition classid_marker {W} (env : collaborators W) : N := 2 ^ CLASSIDTYPE_bits env - 1.
Definition hmmid_marker {W} (env : collaborators W) : N := 2 ^ HMMIDTYPE_bits env - 1.

Record source := {
  vdim : list N;
  leftcontext : list N;
  rightcontext : list N;
  sampperiod : list N;
  featkind : list string;
  featdim : list N;
  src_framemode : bool;
  counts : list (list N);
  allchunks : list (list utterancechunkdata);
  classids : list (list N);
  phoneboundaries : list (list N);
  numutterances : N;
  src_totalframes : N;
  chunksinram : N;
  rand_ : option randomizer
}.

Definition issupervised (src : source) : bool :=
  match classids src with [] => false | _ => true end.

Definition set_chunks (src : source) (ac : list (list utterancechunkdata)) : source :=
  {| vdim := vdim src; leftcontext := leftcontext src; rightcontext := rightcontext src;
     sampperiod := sampperiod src; featkind := featkind src; featdim := featdim src;
     src_framemode := src_framemode src; counts := counts src; allchunks := ac;
     classids := classids src; phoneboundaries := phoneboundaries src;
     numutterances := numutterances src; src_totalframes := src_totalframes src;
     chunksinram := chunksinram src; rand_ := rand_ src |}.

Definition set_featinfo (src : source) (fk : list string) (fd sp : list N) : source :=
  {| vdim := vdim src; leftcontext := leftcontext src; rightcontext := rightcontext src;
     sampperiod := sp; featkind := fk; featdim := fd;
     src_framemode := src_framemode src; counts := counts src; allchunks := allchunks src;
     classids := classids src; phoneboundaries := phoneboundaries src;
     numutterances := numutterances src; src_totalframes := src_totalframes src;
     chunksinram := chunksinram src; rand_ := rand_ src |}.

Definition set_chunksinram (src : source) (n : N) : source :=
  {| vdim := vdim src; leftcontext := leftcontext src; rightcontext := rightcontext src;
     sampperiod := sampperiod src; featkind := featkind src; featdim := featdim src;
     src_framemode := src_framemode src; counts := counts src; allchunks := allchunks src;
     classids := classids src; phoneboundaries := phoneboundaries src;
     numutterances := numutterances src; src_totalframes := src_totalframes src;
     chunksinram := n; rand_ := rand_ src |}.

Definition set_rand (src : source) (rz : randomizer) : source :=
  {| vdim := vdim src; leftcontext := leftcontext src; rightcontext := rightcontext src;
     sampperiod := sampperiod src; featkind := featkind src; featdim := featdim src;
     src_framemode := src_framemode src; counts := counts src; allchunks := allchunks src;
     classids := classids src; phoneboundaries := phoneboundaries src;
     numutterances := numutterances src; src_totalframes := src_totalframes src;
     chunksinram := chunksinram src; rand_ := Some rz |}.

Definition set_frames (c : utterancechunkdata) (fr : N * N) (lat : list string)
  : utterancechunkdata :=
  {| utteranceset := utteranceset c; firstframes := firstframes c; frames := fr;
     totalframes := totalframes c; lattices := lat |}.

(** [utterancechunkdata::getutteranceframes (i)]: the stripe (first column, columns). *)
Definition getutteranceframes (c : utterancechunkdata) (i : N) : outcome (N * N) :=
  if negb (isinram c) then throw (LogicError LE_getutteranceframes)
  else ts ← vat (firstframes c) i; n ← cd_numframes c i; Done (ts, n).

(** [utterancedesc::key ()]: the logical path without its extension, which is
    what the regular expression [\.[^\.\\/:]*$] deletes. *)
Definition is_ext_stop (a : Ascii.ascii) : bool :=
  bool_decide (a = "."%char) || bool_decide (a = "\"%char)
  || bool_decide (a = "/"%char) || bool_decide (a = ":"%char).

Fixpoint drop_extension_rev (l : list Ascii.ascii) : option (list Ascii.ascii) :=
  match l with
  | [] => None
  | a :: l' =>
      if bool_decide (a = "."%char) then Some l'
      else if is_ext_stop a then None
      else drop_extension_rev l'
  end.

Definition remove_extension (s : string) : string :=
  match drop_extension_rev (rev (String.list_ascii_of_string s)) with
  | Some l => String.string_of_list_ascii (rev l)
  | None => s
  end.

Definition key (u : utterancedesc) : string := remove_extension (logicalpath (ud_parsedpath u)).

(** [shiftedvector]: a vector read from index [first], [n] elements long. *)
Record shiftedvector := {
  sv_v : list N;
  sv_first : N;
  sv_n : N
}.
Definition sv_at (s : shiftedvector) (i : N) : outcome N :=
  if sv_n s <=? i then throw (LogicError LE_shiftedvector_bounds)
  else vat (sv_v s) (SizeT.add (sv_first s) i).

(** One column of an output feature matrix: the frame that
    [augmentneighbors] was called for, and the context it was given. *)
Record column := {
  col_chunkindex : N;
  col_utteranceindex : N;
  col_frameindex : N;
  col_leftextent : N;
  col_rightextent : N
}.

(** What [getbatch] gives back: its return value [readfromdisk] and the
    output parameters it writes. *)
Record batch := {
  readfromdisk : bool;
  framesadvanced : N;
  feat : list (list (option column));
  uids : list (list N)
}.

Section Source.
Context {G : Type} (srand : N → G) (crand : G → N * G) (RAND_MAX : N).
Context (ndebug : bool).
Context {W : Type} (env : collaborators W).

Definition machine : Type := source * W.

Definition sassert (b : bool) : stateful machine unit := lift (assert ndebug b).

Definition the_rand (src : source) : outcome randomizer :=
  match rand_ src with
  | Some rz => Done rz
  | None => Fail Undefined
  end.

(** [randomizer::getChunkData (streamIndex, randomizedChunkIndex)], as the
    place of the chunk in [allchunks[streamIndex]] ... *)
Definition chunk_place (src : source) (m k : N) : outcome N :=
  rz ← the_rand src;
  _ ← assert ndebug (m <? vsize (randomizedchunks rz));
  rcm ← vat (randomizedchunks rz) m;
  _ ← assert ndebug (k <? vsize rcm);
  c ← vat rcm k;
  Done (uttchunkdata c).

(** ... and as the chunk itself. *)
Definition getChunkData (src : source) (m k : N) : outcome utterancechunkdata :=
  idx ← chunk_place src m k;
  ac ← vat (allchunks src) m;
  vat ac idx.

Definition put_chunkdata (m idx : N) (cd : utterancechunkdata) : stateful machine unit :=
  smodify (λ '(src, w),
    match vget (allchunks src) m with
    | Some ac => (set_chunks src (vset (allchunks src) m (vset ac idx cd)), w)
    | None => (src, w)
    end).

Definition get_chunkdata (m idx : N) : stateful machine utterancechunkdata :=
  '(src, _) ← sget; lift (ac ← vat (allchunks src) m; vat ac idx).

Definition call_world {A} (f : W → outcome A * W) : stateful machine A :=
  λ '(src, w), let '(r, w') := f w in (r, (src, w')).

(** [utterancechunkdata::releasedata ()] on the chunk at [allchunks[m][idx]] *)
Definition releasedata (m idx : N) : stateful machine unit :=
  cd ← get_chunkdata m idx;
  if cd_numutterances cd =? 0 then sthrow (LogicError LE_releasedata_virgin)
  else if negb (isinram cd) then sthrow (LogicError LE_releasedata_not_in_memory)
  else put_chunkdata m idx (set_frames cd (0, 0) []).

(** The body of the [try] block of [requiredata]. *)
Definition read_utterance (m idx : N) (_ : unit) (i : N) : stateful machine unit :=
  '(src, _) ← sget;
  cd ← get_chunkdata m idx;
  uttframes ← lift (getutteranceframes cd i);
  u ← lift (vat (utteranceset cd) i);
  fk ← lift (vat (featkind src) m);
  sp ← lift (vat (sampperiod src) m);
  _ ← call_world (reader_read env (ud_parsedpath u) fk sp uttframes);
  if negb (lat_empty env) then
    _ ← lift (vat (lattices cd) i);
    _ ← call_world (getlattices env (key u) (snd uttframes));
    cd ← get_chunkdata m idx;
    put_chunkdata m idx (set_frames cd (frames cd) (vset (lattices cd) i (key u)))
  else mret tt.

Definition requiredata_body (m idx : N) : stateful machine unit :=
  '(src, _) ← sget;
  cd ← get_chunkdata m idx;
  fd ← lift (vat (featdim src) m);
  _ ← (if fd =? 0 then
         u0 ← lift (vat (utteranceset cd) 0);
         '(fk, fd', sp) ← call_world (reader_getinfo env (ud_parsedpath u0));
         smodify (λ '(src, w), (set_featinfo src (vset (featkind src) m fk)
                                             (vset (featdim src) m fd')
                                             (vset (sampperiod src) m sp), w))
       else mret tt);
  '(src, _) ← sget;
  fd ← lift (vat (featdim src) m);
  _ ← put_chunkdata m idx
        (set_frames cd (fd, totalframes cd)
           (if negb (lat_empty env) then replicate (length (utteranceset cd)) ""%string
            else lattices cd));
  foldS (read_utterance m idx) (indices (utteranceset cd)) tt.

(** [utterancechunkdata::requiredata (featkind, featdim, sampperiod, latticesource)]
    on the chunk at [allchunks[m][idx]], with the feature information of
    stream [m]. *)
Definition requiredata (m idx : N) : stateful machine unit :=
  cd ← get_chunkdata m idx;
  if cd_numutterances cd =? 0 then sthrow (LogicError LE_requiredata_virgin)
  else if isinram cd then sthrow (LogicError LE_requiredata_in_memory)
  else try_catch_rethrow (requiredata_body m idx) (releasedata m idx).

Definition stream_indices (src : source) : list N := indices (allchunks src).

(** [releaserandomizedchunk (k)] *)
Definition release_stream (k : N) (numreleased : N) (m : N) : stateful machine N :=
  '(src, _) ← sget;
  idx ← lift (chunk_place src m k);
  cd ← get_chunkdata m idx;
  if isinram cd then
    _ ← releasedata m idx; mret (SizeT.add numreleased 1)
  else mret numreleased.

Definition releaserandomizedchunk (k : N) : stateful machine unit :=
  '(src, _) ← sget;
  let numStreams := vsize (allchunks src) in
  numreleased ← foldS (release_stream k) (stream_indices src) 0;
  if (0 <? numreleased) && (numreleased <? numStreams)
  then sthrow (LogicError LE_release_inconsistent)
  else if numreleased =? numStreams
       then smodify (λ '(src, w), (set_chunksinram src (SizeT.sub (chunksinram src) 1), w))
       else mret tt.

(** [requirerandomizedchunk (chunkindex, windowbegin, windowend)] *)
Definition count_inram (k : N) (numinram : N) (m : N) : stateful machine N :=
  '(src, _) ← sget;
  cd ← lift (getChunkData src m k);
  mret (if isinram cd then SizeT.add numinram 1 else numinram).

Definition page_in_stream (k : N) (_ : unit) (m : N) : stateful machine unit :=
  '(src, _) ← sget;
  idx ← lift (chunk_place src m k);
  _ ← get_chunkdata m idx;
  attempt 5 (requiredata m idx).

(** The branch [numinram == 0]: the loop over the streams that pages the
    chunk in, [chunksinram++] and [return true]. *)
Definition page_in_chunk (src : source) (k : N) : stateful machine bool :=
  _ ← foldS (page_in_stream k) (stream_indices src) tt;
  _ ← smodify (λ '(src, w), (set_chunksinram src (SizeT.add (chunksinram src) 1), w));
  mret true.

Definition requirerandomizedchunk (k wb we : N) : stateful machine bool :=
  if (k <? wb) || (we <=? k) then sthrow (LogicError LE_require_outside_window)
  else
    '(src, _) ← sget;
    let numStreams := vsize (allchunks src) in
    numinram ← foldS (count_inram k) (stream_indices src) 0;
    if numinram =? numStreams then mret false
    else if numinram =? 0 then page_in_chunk src k
    else sthrow (LogicError LE_require_inconsistent).

(** On how many streams the randomized chunk [k] is resident, and that the
    chunk is there to be looked at on every stream. *)
Definition resident (src : source) (k m : N) : bool :=
  match getChunkData src m k with
  | Done cd => isinram cd
  | Fail _ => false
  end.
Definition numresident (src : source) (k : N) : N :=
  vsize (filter (λ m, resident src k m = true) (stream_indices src)).
Definition chunk_known (src : source) (k : N) : Prop :=
  ∀ m, m ∈ stream_indices src → ∃ cd, getChunkData src m k = Done cd.

(** [getclassids (uttref)]; [marker_view] is the body of its loop over the
    class-id vectors: the check of the boundary marker, and the view. *)
Definition marker_view (cb n : N) (v : list N) : outcome shiftedvector :=
  marker ← vat v (SizeT.add cb n);
  if negb (marker =? classid_marker env)
  then throw (LogicError LE_boundary_marker)
  else Done {| sv_v := v; sv_first := cb; sv_n := n |}.

Definition getclassids (src : source) (uttref : sequenceref) : outcome (list shiftedvector) :=
  if negb (issupervised src) then
    Done (map (λ v, {| sv_v := v; sv_first := 0; sv_n := 0 |}) (classids src))
  else
    chunkdata ← getChunkData src 0 (chunkindex uttref);
    cb ← getclassidsbegin chunkdata (utteranceindex uttref);
    n ← cd_numframes chunkdata (utteranceindex uttref);
    mapO (marker_view cb n) (classids src).

End Source.

(** [v.resize (n, x)] *)
Definition vresize {A} (n : N) (x : A) (v : list A) : list A :=
  take (N.to_nat n) v ++ replicate (N.to_nat n - length v) x.

(** [a, a+1, ..., b-1]: the index range of [for (k = a; k < b; k++)]. *)
Definition N_range_from (a b : N) : list N := map (N.add a) (N_range (b - a)).

(** [a % b]; the remainder by zero is undefined. *)
Definition size_mod (a b : N) : outcome N :=
  if b =? 0 then Fail Undefined else Done (a mod b).

Section Batch.
Context {G : Type} (srand : N → G) (crand : G → N * G) (RAND_MAX : N).
Context (ndebug : bool).
Context {W : Type} (env : collaborators W).

(** [std::lower_bound] over [randomizedchunks[0]] with the comparison
    [chunk.globalte () <= t], as the bisection of the standard library. *)
Fixpoint lower_bound (fuel : nat) (ac0 : list utterancechunkdata) (rc0 : list chunk)
    (t first len : N) : outcome N :=
  match fuel with
  | O => Fail OutOfFuel
  | S fuel' =>
      if len =? 0 then Done first
      else
        let half := len / 2 in
        let middle := first + half in
        c ← vat rc0 middle;
        te ← globalte ac0 c;
        if te <=? t then lower_bound fuel' ac0 rc0 t (middle + 1) (len - half - 1)
        else lower_bound fuel' ac0 rc0 t first half
  end.

(** [randomizer::chunkforframepos (t)] *)
Definition chunkforframepos (rz : randomizer) (ac0 : list utterancechunkdata) (t : N)
  : outcome N :=
  rc0 ← vat (randomizedchunks rz) 0;
  chunkindex ← lower_bound (S (length rc0)) ac0 rc0 t 0 (vsize rc0);
  c ← vat rc0 chunkindex;
  te ← globalte ac0 c;
  if (t <? globalts c) || (te <=? t) then throw (LogicError LE_chunkforframepos)
  else Done chunkindex.

Definition getChunkWindowBegin (rz : randomizer) (k : N) : outcome N :=
  rc0 ← vat (randomizedchunks rz) 0;
  _ ← assert ndebug (k <? vsize rc0);
  c ← vat rc0 k;
  Done (windowbegin c).

Definition getChunkWindowEnd (rz : randomizer) (k : N) : outcome N :=
  rc0 ← vat (randomizedchunks rz) 0;
  _ ← assert ndebug (k <? vsize rc0);
  c ← vat rc0 k;
  Done (windowend c).

Definition getSequenceRef (rz : randomizer) (i : N) : outcome sequenceref :=
  _ ← assert ndebug (i <? vsize (randomizedutterancerefs rz));
  vat (randomizedutterancerefs rz) i.

Local Abbreviation machine := (@machine W).

(** The first pass over the frames of the minibatch: how many fall to each subset. *)
Definition count_subset (rz : randomizer) (totalframes_ globalts_ numsubsets : N)
    (subsetsizes : list N) (i : N) : outcome (list N) :=
  let framepos := SizeT.add globalts_ i mod totalframes_ in
  frameref ← getSequenceRef rz framepos;
  s ← size_mod (chunkindex frameref) numsubsets;
  c ← vat subsetsizes s;
  Done (vset subsetsizes s (SizeT.add c 1)).

(** What the second pass carries from frame to frame. *)
Record assembly := {
  as_feat : list (list (option column));
  as_uids : list (list N);
  as_readfromdisk : bool;
  currmpinodeframecount : N
}.

(** The copy of one frame into column [count] of the matrix of stream [i]. *)
Definition copy_frame (frameref : sequenceref) (count : N)
    (st : list (list (option column)) * list (list N)) (i : N)
  : stateful machine (list (list (option column)) * list (list N)) :=
  let '(ft, ui) := st in
  '(src, _) ← sget;
  chunkdata ← lift (getChunkData ndebug src i (chunkindex frameref));
  uttframes ← lift (getutteranceframes chunkdata (utteranceindex frameref));
  _ ← lift (assertM ndebug (n ← cd_numframes chunkdata (utteranceindex frameref);
                            Done (n =? snd uttframes)));
  let t := frameindex frameref in
  lc ← lift (vat (leftcontext src) i);
  rc ← lift (vat (rightcontext src) i);
  vd ← lift (vat (vdim src) i);
  let '(leftextent, rightextent) :=
    if (lc =? 0) && (rc =? 0)
    then (augmentationextent env (fst (frames chunkdata)) vd,
          augmentationextent env (fst (frames chunkdata)) vd)
    else (lc, rc) in
  fi ← lift (vat ft i);
  _ ← lift (vat fi count);
  let ft' := vset ft i (vset fi count
               (Some {| col_chunkindex := chunkindex frameref;
                        col_utteranceindex := utteranceindex frameref;
                        col_frameindex := t;
                        col_leftextent := leftextent;
                        col_rightextent := rightextent |})) in
  if issupervised src && (i =? 0) then
    frameclassids ← lift (getclassids ndebug env src frameref);
    ui' ← lift (foldM (λ ui k,
                         sv ← vat frameclassids k;
                         x ← sv_at sv t;
                         uk ← vat ui k;
                         _ ← vat uk count;
                         Done (vset ui k (vset uk count x)))
                      (indices ui) ui);
    mret (ft', ui')
  else mret (ft', ui).

(** The second pass, from frame [j] on; it ends at the [break] or after the
    last frame of [js]. *)
Fixpoint assemble (rz : randomizer) (totalframes_ globalts_ subsetnum numsubsets wb we : N)
    (js : list N) (st : assembly) : stateful machine assembly :=
  match js with
  | [] => mret st
  | j :: js' =>
      f0 ← lift (vat (as_feat st) 0);
      if vsize f0 <=? currmpinodeframecount st then mret st
      else
        let framepos := SizeT.add globalts_ j mod totalframes_ in
        frameref ← lift (getSequenceRef rz framepos);
        s ← lift (size_mod (chunkindex frameref) numsubsets);
        if negb (s =? subsetnum)
        then assemble rz totalframes_ globalts_ subsetnum numsubsets wb we js' st
        else
          r ← requirerandomizedchunk ndebug env (chunkindex frameref) wb we;
          '(src, _) ← sget;
          '(ft, ui) ← foldS (copy_frame frameref (currmpinodeframecount st))
                            (stream_indices src) (as_feat st, as_uids st);
          assemble rz totalframes_ globalts_ subsetnum numsubsets wb we js'
            {| as_feat := ft; as_uids := ui;
               as_readfromdisk := as_readfromdisk st || r;
               currmpinodeframecount := SizeT.add (currmpinodeframecount st) 1 |}
  end.

(** [getbatch (globalts, framesrequested, subsetnum, numsubsets, framesadvanced,
    feat, uids, ...)].  [feat0] and [uids0] are the caller's vectors as they
    come in; [fuel] is handed to [lazyrandomization]. *)
Definition getbatch (fuel : nat) (globalts_ framesrequested subsetnum numsubsets : N)
    (feat0 : list (list (option column))) (uids0 : list (list N))
  : stateful machine batch :=
  '(src, _) ← sget;
  _ ← lift (assert ndebug (0 <? src_totalframes src));
  rz ← lift (the_rand src);
  '(sweep, rz) ← lift (lazyrandomization srand crand RAND_MAX ndebug fuel rz globalts_
                                         (allchunks src));
  _ ← smodify (λ '(src, w), (set_rand src rz, w));
  if negb (src_framemode src) then
    _ ← lift (assert ndebug false);
    mret {| readfromdisk := false; framesadvanced := 0; feat := feat0; uids := uids0 |}
  else
    let sweepts := SizeT.mul sweep (src_totalframes src) in
    let sweepte := SizeT.add sweepts (src_totalframes src) in
    let globalte_ := N.min (SizeT.add globalts_ framesrequested) sweepte in
    let mbframes := SizeT.sub globalte_ globalts_ in
    ac0 ← lift (vat (allchunks src) 0);
    firstchunk ← lift (chunkforframepos rz ac0 globalts_);
    lastchunk ← lift (chunkforframepos rz ac0 (SizeT.sub globalte_ 1));
    _ ← lift (assert ndebug (lastchunk <=? SizeT.add firstchunk 1));
    wb ← lift (getChunkWindowBegin rz firstchunk);
    we ← lift (getChunkWindowEnd rz lastchunk);
    let numChunks := vsize ac0 in
    let numStreams := vsize (allchunks src) in
    _ ← foldS (λ _ k, releaserandomizedchunk ndebug k) (N_range wb) tt;
    rfd ← foldS (λ (rfd : bool) k,
                   s ← lift (size_mod k numsubsets);
                   if s =? subsetnum
                   then r ← requirerandomizedchunk ndebug env k wb we; mret (rfd || r)
                   else mret rfd)
                (N_range_from wb we) false;
    _ ← foldS (λ _ k, releaserandomizedchunk ndebug k) (N_range_from we numChunks) tt;
    subsetsizes ← lift (foldM (count_subset rz (src_totalframes src) globalts_ numsubsets)
                              (N_range mbframes)
                              (replicate (N.to_nat numsubsets) 0));
    j ← lift (vat subsetsizes subsetnum);
    let ft := map (λ _, replicate (N.to_nat j) None) (vdim src) in
    _ ← lift (assert ndebug (vsize ft =? numStreams));
    let ui := map (λ u, if issupervised src then vresize j 0 u else [])
                  (vresize (vsize (classids src)) [] uids0) in
    a ← assemble rz (src_totalframes src) globalts_ subsetnum numsubsets wb we
           (N_range mbframes)
           {| as_feat := ft; as_uids := ui; as_readfromdisk := rfd;
              currmpinodeframecount := 0 |};
    mret {| readfromdisk := as_readfromdisk a; framesadvanced := mbframes;
            feat := as_feat a; uids := as_uids a |}.

End Batch.

(** ** The constructor

    [infiles] are the paths as parsed by [htkfeatreader::parsedpath]
    (the parser is not among the sources; a path that does not parse makes
    the constructor throw before anything below).  [htkmlfentry] is declared
    in htkfeatio.h; its fields are taken as naturals and their sums as
    exact. *)

Record ctor_state := {
  cs_classids : list (list N);
  cs_phoneboundaries : list (list N);
  cs_totalframes : N;
  cs_uttisvalid : list bool;
  cs_classidsbegin : list N;
  cs_nomlf : N;
  cs_nolat : N;
  cs_numclasses : list N;
  cs_counts : list (list N);
  cs_utteranceset : list utterancedesc
}.

Definition cs_set_labels (st : ctor_state) (cls pbs : list (list N)) (ncl : list N)
    (cnt : list (list N)) : ctor_state :=
  {| cs_classids := cls; cs_phoneboundaries := pbs; cs_totalframes := cs_totalframes st;
     cs_uttisvalid := cs_uttisvalid st; cs_classidsbegin := cs_classidsbegin st;
     cs_nomlf := cs_nomlf st; cs_nolat := cs_nolat st; cs_numclasses := ncl;
     cs_counts := cnt; cs_utteranceset := cs_utteranceset st |}.

Definition cs_set_valid (st : ctor_state) (v : list bool) : ctor_state :=
  {| cs_classids := cs_classids st; cs_phoneboundaries := cs_phoneboundaries st;
     cs_totalframes := cs_totalframes st; cs_uttisvalid := v;
     cs_classidsbegin := cs_classidsbegin st; cs_nomlf := cs_nomlf st;
     cs_nolat := cs_nolat st; cs_numclasses := cs_numclasses st;
     cs_counts := cs_counts st; cs_utteranceset := cs_utteranceset st |}.

Definition cs_set_classidsbegin (st : ctor_state) (cb : list N) : ctor_state :=
  {| cs_classids := cs_classids st; cs_phoneboundaries := cs_phoneboundaries st;
     cs_totalframes := cs_totalframes st; cs_uttisvalid := cs_uttisvalid st;
     cs_classidsbegin := cb; cs_nomlf := cs_nomlf st;
     cs_nolat := cs_nolat st; cs_numclasses := cs_numclasses st;
     cs_counts := cs_counts st; cs_utteranceset := cs_utteranceset st |}.

Definition cs_set_missing (st : ctor_state) (nomlf nolat : N) : ctor_state :=
  {| cs_classids := cs_classids st; cs_phoneboundaries := cs_phoneboundaries st;
     cs_totalframes := cs_totalframes st; cs_uttisvalid := cs_uttisvalid st;
     cs_classidsbegin := cs_classidsbegin st; cs_nomlf := nomlf;
     cs_nolat := nolat; cs_numclasses := cs_numclasses st;
     cs_counts := cs_counts st; cs_utteranceset := cs_utteranceset st |}.

(** [utteranceset.push_back (utterance)] *)
Definition cs_push_utterance (st : ctor_state) (u : utterancedesc) : ctor_state :=
  {| cs_classids := cs_classids st; cs_phoneboundaries := cs_phoneboundaries st;
     cs_totalframes := cs_totalframes st; cs_uttisvalid := cs_uttisvalid st;
     cs_classidsbegin := cs_classidsbegin st; cs_nomlf := cs_nomlf st;
     cs_nolat := cs_nolat st; cs_numclasses := cs_numclasses st;
     cs_counts := cs_counts st; cs_utteranceset := cs_utteranceset st ++ [u] |}.

(** [_totalframes += uttframes] *)
Definition cs_add_totalframes (st : ctor_state) (uttframes : N) : ctor_state :=
  {| cs_classids := cs_classids st; cs_phoneboundaries := cs_phoneboundaries st;
     cs_totalframes := SizeT.add (cs_totalframes st) uttframes;
     cs_uttisvalid := cs_uttisvalid st;
     cs_classidsbegin := cs_classidsbegin st; cs_nomlf := cs_nomlf st;
     cs_nolat := cs_nolat st; cs_numclasses := cs_numclasses st;
     cs_counts := cs_counts st; cs_utteranceset := cs_utteranceset st |}.

Definition cs_set_utteranceset (st : ctor_state) (us : list utterancedesc) : ctor_state :=
  {| cs_classids := cs_classids st; cs_phoneboundaries := cs_phoneboundaries st;
     cs_totalframes := cs_totalframes st; cs_uttisvalid := cs_uttisvalid st;
     cs_classidsbegin := cs_classidsbegin st; cs_nomlf := cs_nomlf st;
     cs_nolat := cs_nolat st; cs_numclasses := cs_numclasses st;
     cs_counts := cs_counts st; cs_utteranceset := us |}.

Definition nonempty {A} (l : list A) : bool := match l with [] => false | _ => true end.

(** [v] with its positions: the pairs of a [foreach_index] loop. *)
Definition indexed {A} (v : list A) : list (N * A) := zip (indices v) v.

Section Constructor.
Context (ndebug : bool).
Context {W : Type} (env : collaborators W).

(** "first check consistency across feature streams": one file of stream [m]. *)
Definition probe_file (m : N) (st : list bool * list N) (f : N * parsedpath)
  : outcome (list bool * list N) :=
  let '(uttisvalid, uttduration) := st in
  let '(i, pp) := f in
  let uttframes := pp_numframes pp in
  if uttframes <? 2 then throw (RuntimeError RE_too_short)
  else if 65535 <? uttframes then Done (vset uttisvalid i false, vset uttduration i 0)
  else if m =? 0 then Done (vset uttisvalid i true, vset uttduration i uttframes)
  else
    d ← vat uttduration i;
    if negb (d =? uttframes) then Done (vset uttisvalid i false, vset uttduration i 0)
    else Done (uttisvalid, uttduration).

Definition probe_stream (st : list bool * list N) (s : N * list parsedpath)
  : outcome (list bool * list N) :=
  let '(m, files) := s in
  st ← (if m =? 0
        then Done (replicate (length files) true, replicate (length files) 0)
        else if negb (vsize files =? vsize st.1)
             then throw (RuntimeError RE_stream_cardinality)
             else Done st);
  foldM (probe_file m) (indexed files) st.

Definition count_invalid (uttisvalid : list bool) : N :=
  vsize (filter (λ b, b = false) uttisvalid).

(** The first part of the constructor's body, up to the count of the invalid
    utterances: the validity flags and the durations. *)
Definition probe_durations (infiles : list (list parsedpath)) : outcome (list bool * list N) :=
  st ← foldM probe_stream (indexed infiles) ([], []);
  let invalidutts := count_invalid st.1 in
  _ ← assert ndebug (invalidutts =? 0);
  if vsize st.1 / 2 <? invalidutts then throw (RuntimeError RE_too_many_inconsistent)
  else Done st.

(** "expand classid sequence into flat array": one entry of a label sequence. *)
Definition expand_entry (udim_j : N) (labseq : list htkmlfentry)
    (st : list N * list N * N * list N) (i : N) : outcome (list N * list N * N * list N) :=
  let '(cls, pbs, ncl, cnt) := st in
  e ← vat labseq i;
  p ← (if 0 <? i then vat labseq (i - 1) else Done e);
  if ((0 <? i) && negb (firstframe p + e_numframes p =? firstframe e))
     || ((i =? 0) && negb (firstframe e =? 0))
  then throw (RuntimeError RE_labels_not_consecutive)
  else if udim_j <=? classid e then throw (RuntimeError RE_classid_exceeds_dim)
  else if negb (classid e =? cast_classid env (classid e))
  then throw (RuntimeError RE_classidtype_bits)
  else
    let n := N.to_nat (e_numframes e) in
    let cls' := cls ++ replicate n (classid e) in
    let pbs' := pbs ++ match n with
                       | O => []
                       | S n' => (if phonestart e =? 0 then 0
                                  else cast_hmmid env (phonestart e)) :: replicate n' 0
                       end in
    let ncl' := N.max ncl (SizeT.to_uint (1 + classid e)) in
    let cnt' := vresize ncl' 0 cnt in
    c ← vat cnt' (classid e);
    Done (cls', pbs', ncl', vset cnt' (classid e) (SizeT.add c (e_numframes e))).

Definition find_labels (labels_j : gmap string (list htkmlfentry)) (k : string)
  : outcome (list htkmlfentry) :=
  match labels_j !! k with
  | Some labseq => Done labseq
  | None => Fail Undefined
  end.

(** "then parse each mlf if the durations are consistent": label stream [j]
    of one utterance. *)
Definition push_labels (labels : list (gmap string (list htkmlfentry))) (udim : list N)
    (k : string) (st : ctor_state) (j : N) : outcome ctor_state :=
  labels_j ← vat labels j;
  labseq ← find_labels labels_j k;
  cls ← vat (cs_classids st) j;
  pbs ← vat (cs_phoneboundaries st) j;
  ncl ← vat (cs_numclasses st) j;
  cnt ← vat (cs_counts st) j;
  '(cls, pbs, ncl, cnt) ←
    foldM (λ acc i, udim_j ← vat udim j; expand_entry udim_j labseq acc i)
          (indices labseq) (cls, pbs, ncl, cnt);
  let cls := cls ++ [classid_marker env] in
  let pbs := pbs ++ [hmmid_marker env] in
  let st := cs_set_labels st (vset (cs_classids st) j cls) (vset (cs_phoneboundaries st) j pbs)
                          (vset (cs_numclasses st) j ncl) (vset (cs_counts st) j cnt) in
  let consistent := vsize cls =? SizeT.add (cs_totalframes st) (vsize (cs_utteranceset st)) in
  if negb (bool_decide (labels_j = ∅)) && negb consistent
  then throw (LogicError LE_label_duration)
  else _ ← assert ndebug (bool_decide (labels_j = ∅) || consistent); Done st.

(** "first verify that all the label files have the proper duration": the
    loop ends at the first mismatch. *)
Fixpoint durations_match (labels : list (gmap string (list htkmlfentry))) (k : string)
    (uttframes : N) : outcome bool :=
  match labels with
  | [] => Done true
  | labels_j :: rest =>
      labseq ← find_labels labels_j k;
      let labframes := match last labseq with
                       | None => 0
                       | Some e => firstframe e + e_numframes e
                       end in
      if negb (labframes =? uttframes) then Done false
      else durations_match rest k uttframes
  end.

(** One file of stream [m] in "now process the features and labels". *)
Definition process_file (labels : list (gmap string (list htkmlfentry))) (udim : list N)
    (uttduration : list N) (m : N) (st : ctor_state) (f : N * parsedpath)
  : outcome ctor_state :=
  let '(i, pp) := f in
  st ← (if (m =? 0) && nonempty labels
        then c0 ← vat (cs_classids st) 0;
             Done (cs_set_classidsbegin st (cs_classidsbegin st ++ [vsize c0]))
        else Done st);
  valid ← vat (cs_uttisvalid st) i;
  if negb valid then Done st
  else
    cb ← (if nonempty labels then vat (cs_classidsbegin st) i else Done 0);
    let utterance := {| ud_parsedpath := pp; classidsbegin := cb |} in
    let uttframes := numframes utterance in
    _ ← assertM ndebug (d ← vat uttduration i; Done (uttframes =? d));
    let k := key utterance in
    '(st, lacksmlf, skip) ←
      (if nonempty labels then
         labels0 ← vat labels 0;
         let lacksmlf := bool_decide (labels0 !! k = None) in
         let lackslat := negb (lat_empty env) && negb (haslattice env k) in
         let st := cs_set_missing st
                     (if lacksmlf then SizeT.add (cs_nomlf st) 1 else cs_nomlf st)
                     (if lackslat then SizeT.add (cs_nolat st) 1 else cs_nolat st) in
         if lacksmlf || lackslat
         then Done (cs_set_valid st (vset (cs_uttisvalid st) i false), lacksmlf, true)
         else Done (st, lacksmlf, false)
       else Done (st, true, false));
    if (skip : bool) then Done st
    else if m =? 0 then
      if nonempty labels && negb lacksmlf then
        ok ← durations_match labels k uttframes;
        if negb ok then
          Done (cs_set_valid (cs_set_missing st (SizeT.add (cs_nomlf st) 1) (cs_nolat st))
                             (vset (cs_uttisvalid st) i false))
        else
          foldM (push_labels labels udim k) (indices labels)
                (cs_add_totalframes (cs_push_utterance st utterance) uttframes)
      else
        _ ← assert ndebug (negb (nonempty (cs_classids st)) && negb (nonempty labels));
        Done (cs_add_totalframes (cs_push_utterance st utterance) uttframes)
    else Done (cs_push_utterance st utterance).

(** "classids[] out of sync": the marker of every utterance, in every label stream. *)
Definition check_markers (labels : list (gmap string (list htkmlfentry))) (st : ctor_state)
  : outcome unit :=
  foldM (λ _ j,
           cid ← vat (cs_classids st) j;
           foldM (λ _ u,
                    x ← vat cid (SizeT.add (classidsbegin u) (numframes u));
                    if negb (x =? classid_marker env)
                    then throw (LogicError LE_classids_out_of_sync)
                    else Done tt)
                 (cs_utteranceset st) tt)
        (indices labels) tt.

(** "distribute them over chunks" *)
Definition chunkframes : N := 15 * 60 * 100.

Definition distribute (thisallchunks : list utterancechunkdata) (u : utterancedesc)
  : outcome (list utterancechunkdata) :=
  let thisallchunks :=
    match last thisallchunks with
    | None => thisallchunks ++ [empty_chunkdata]
    | Some b =>
        if (chunkframes <? totalframes b) || (65535 <=? cd_numutterances b)
        then thisallchunks ++ [empty_chunkdata]
        else thisallchunks
    end in
  currentchunk ← match last thisallchunks with
                 | Some b => Done b
                 | None => Fail Undefined
                 end;
  currentchunk ← push_back currentchunk u;
  Done (vset thisallchunks (vsize thisallchunks - 1) currentchunk).

(** What the loop over the streams carries: the construction state, the chunk
    store, [utterancesetsize], [numutterances] and [rand]. *)
Record ctor_streams := {
  st_state : ctor_state;
  st_allchunks : list (list utterancechunkdata);
  st_utterancesetsize : N;
  st_numutterances : N;
  st_rand : option randomizer
}.

Definition process_stream (labels : list (gmap string (list htkmlfentry))) (udim : list N)
    (uttduration : list N) (randomizationrange_ : N) (framemode_ : bool)
    (acc : ctor_streams) (s : N * list parsedpath) : outcome ctor_streams :=
  let '(m, files) := s in
  let st := cs_set_utteranceset (st_state acc) [] in
  let st := if m =? 0 then cs_set_classidsbegin st [] else st in
  st ← foldM (process_file labels udim uttduration m) (indexed files) st;
  let size := vsize (cs_utteranceset st) in
  _ ← (if m =? 0 then Done tt else assert ndebug (size =? st_utterancesetsize acc));
  let utterancesetsize := if m =? 0 then size else st_utterancesetsize acc in
  _ ← (if nonempty labels then check_markers labels st else Done tt);
  let missing := SizeT.add (cs_nomlf st) (cs_nolat st) in
  _ ← (if (0 <? missing) && (vsize files / 2 <? missing)
       then throw (RuntimeError RE_too_many_missing) else Done tt);
  _ ← assert ndebug (missing =? 0);
  thisallchunks ← foldM distribute (cs_utteranceset st) [];
  _ ← vat (st_allchunks acc) m;
  Done {| st_state := st;
          st_allchunks := vset (st_allchunks acc) m thisallchunks;
          st_utterancesetsize := utterancesetsize;
          st_numutterances := size;
          st_rand := Some (mk_randomizer framemode_ (cs_totalframes st) size
                                         randomizationrange_) |}.

(** [minibatchutterancesourcemulti (infiles, labels, vdim, udim, leftcontext,
    rightcontext, randomizationrange, lattices, allwordtranscripts, framemode)] *)
Definition construct (infiles : list (list parsedpath))
    (labels : list (gmap string (list htkmlfentry)))
    (vdim_ udim leftcontext_ rightcontext_ : list N) (randomizationrange_ : N)
    (framemode_ : bool) : outcome source :=
  _ ← assert ndebug (vsize infiles =? 1);
  _ ← assert ndebug (vsize leftcontext_ =? 1);
  _ ← assertM ndebug (x ← vat leftcontext_ 0; Done (x =? 0));
  _ ← assert ndebug (vsize rightcontext_ =? 1);
  _ ← assertM ndebug (x ← vat rightcontext_ 0; Done (x =? 0));
  _ ← assert ndebug (vsize labels =? 1);
  let S := length infiles in
  '(uttisvalid, uttduration) ← probe_durations infiles;
  let st := {| cs_classids := map (λ _, []) labels;
               cs_phoneboundaries := map (λ _, []) labels;
               cs_totalframes := 0; cs_uttisvalid := uttisvalid;
               cs_classidsbegin := []; cs_nomlf := 0; cs_nolat := 0;
               cs_numclasses := map (λ _, 0) labels;
               cs_counts := map (λ _, []) labels;
               cs_utteranceset := [] |} in
  acc ← foldM (process_stream labels udim uttduration randomizationrange_ framemode_)
              (indexed infiles)
              {| st_state := st; st_allchunks := replicate S [];
                 st_utterancesetsize := 0; st_numutterances := 0; st_rand := None |};
  Done {| vdim := vdim_; leftcontext := leftcontext_; rightcontext := rightcontext_;
          sampperiod := replicate S 0; featkind := replicate S ""%string;
          featdim := replicate S 0; src_framemode := framemode_;
          counts := cs_counts (st_state acc);
          allchunks := st_allchunks acc;
          classids := cs_classids (st_state acc);
          phoneboundaries := cs_phoneboundaries (st_state acc);
          numutterances := st_numutterances acc;
          src_totalframes := cs_totalframes (st_state acc);
          chunksinram := 0;
          rand_ := st_rand acc |}.

End Constructor.

(** ** Notions used to state the properties *)

Definition sumN (l : list N) : N := foldr N.add 0 l.

(** [push_back] keeps [totalframes] the sum of the utterances' frames. *)
Definition chunk_wf (cd : utterancechunkdata) : Prop :=
  totalframes cd = sumN (map numframes (utteranceset cd)).

Definition stream_frames (ac : list utterancechunkdata) : N :=
  sumN (map (λ cd, sumN (map numframes (utteranceset cd))) ac).
Definition stream_utterances (ac : list utterancechunkdata) : N :=
  sumN (map cd_numutterances ac).

(** The utterances of the catalog, in the order of the first stream's chunks. *)
Definition catalog_utterances (src : source) : list utterancedesc :=
  match allchunks src with
  | ac0 :: _ => concat (map utteranceset ac0)
  | [] => []
  end.

Definition too_long (pp : parsedpath) : bool := 65535 <? pp_numframes pp.

(** The chunk a randomized chunk refers to (the empty chunk if the iterator
    points outside the store), its frames and its utterances. *)
Definition chunk_at (ac : list utterancechunkdata) (ref : N) : utterancechunkdata :=
  default empty_chunkdata (vget ac ref).
Definition cd_of (ac : list utterancechunkdata) (c : chunk) : utterancechunkdata :=
  chunk_at ac (uttchunkdata c).

(** The timeline of the randomized chunks: chunk [k] starts where the chunks
    before it end, in frames from [sweepts] and in utterances from 0. *)
Definition timeline (ac : list utterancechunkdata) (sweepts : N) (rc : list chunk) : Prop :=
  ∀ k c, rc !! k = Some c →
    globalts c = SizeT.wrap (sweepts + sumN (map (λ c, totalframes (cd_of ac c)) (take k rc)))
    ∧ utteranceposbegin c
      = SizeT.wrap (sumN (map (λ c, cd_numutterances (cd_of ac c)) (take k rc))).

Definition same_place (c c' : chunk) : Prop :=
  uttchunkdata c = uttchunkdata c' ∧ utteranceposbegin c = utteranceposbegin c'
  ∧ globalts c = globalts c'.

(** The sequences of the randomized chunks in catalog order, each given by [f]. *)
Definition seqs {A} (fm : bool) (f : N → N → N → A) (ac0 : list utterancechunkdata)
    (rc0 : list chunk) : list A :=
  concat (imap (λ k c, sequences_of_chunk fm f (N.of_nat k) (cd_of ac0 c)) rc0).

(** How many sequences a chunk holds. *)
Definition numseq (fm : bool) (cd : utterancechunkdata) : N :=
  if fm then sumN (map numframes (utteranceset cd)) else cd_numutterances cd.

(** The first position of the randomized chunk [k]. *)
Definition firstpos (fm : bool) (ac0 : list utterancechunkdata) (rc0 : list chunk) (k : nat)
  : N :=
  sumN (map (λ c, numseq fm (cd_of ac0 c)) (take k rc0)).

(** The sequence [s] may be used at a position whose defining chunk is [w]. *)
Definition valid_at (rc0 : list chunk) (w : N) (s : sequenceref) : Prop :=
  ∃ c, vget rc0 w = Some c ∧ windowbegin c ≤ chunkindex s ∧ chunkindex s < windowend c.

(** Every randomized chunk points at a chunk of the store. *)
Definition resolved (ac : list utterancechunkdata) (rc : list chunk) : Prop :=
  Forall (λ c, is_Some (vget ac (uttchunkdata c))) rc.

(** What the probe of the durations makes of one path of the first stream. *)
Definition probe_valid (pp : parsedpath) : bool := negb (too_long pp).
Definition probe_duration (pp : parsedpath) : N :=
  if too_long pp then 0 else pp_numframes pp.
Definition long_enough (pp : parsedpath) : bool := negb (pp_numframes pp <? 2).

Definition paged_out (c : utterancechunkdata) : Prop := frames c = (0, 0).



Section RebuildTrace.
Context {G : Type} (srand : N → G) (crand : G → N * G) (RAND_MAX : N) (ndebug : bool).

(** What a rebuild that returns has computed on the way. *)
Inductive rebuild_trace (fuel : nat) (rz : randomizer) (sweep : N)
    (allchunks : list (list utterancechunkdata)) (rz' : randomizer) : Prop :=
| RebuildTrace
    (ac0 : list utterancechunkdata)
    (rest : list (list utterancechunkdata))
    (chunkrefs : list N)
    (placed : list chunk)
    (rc0 : list chunk)
    (refss : list (list N))
    (rcs : list (list chunk))
    (shuffled : list sequenceref)
    (t : N)
    (rt_allchunks : allchunks = ac0 :: rest)
    (rt_rest_randomize :
       mapO (λ ac, randomize_chunkrefs srand crand RAND_MAX ndebug ac sweep) rest = Done refss)
    (rt_rest_place :
       mapO (λ '(ac, refs),
               rc ← place_chunks ac refs (SizeT.mul sweep (_totalframes rz));
               _ ← assertM ndebug (Done (vsize rc =? vsize ac));
               _ ← assertM ndebug (placed_ok (_totalframes rz) (rz_numutterances rz) ac
                                              (SizeT.mul sweep (_totalframes rz)) rc);
               Done rc)
            (zip rest refss) = Done rcs)
    (rt_randomize : randomize_chunkrefs srand crand RAND_MAX ndebug ac0 sweep = Done chunkrefs)
    (rt_place : place_chunks ac0 chunkrefs (SizeT.mul sweep (_totalframes rz)) = Done placed)
    (rt_windows : compute_windows ac0 (randomizationrange rz) placed = Done rc0)
    (rt_resolved : resolved ac0 rc0)
    (rt_shuffle :
       shuffle_sequences srand crand fuel (framemode rz) ac0 rc0
         (seqs (framemode rz) (λ k _ _, k) ac0 rc0) sweep
         (SizeT.mul sweep (_totalframes rz))
         (seqs (framemode rz) mk_sequenceref ac0 rc0) = Done shuffled)
    (rt_assign :
       assign_times (framemode rz) ac0 rc0 (SizeT.mul sweep (_totalframes rz)) shuffled
       = Done (randomizedutterancerefs rz', t))
    (rt_verify :
       verify_positions rc0 (seqs (framemode rz) (λ k _ _, k) ac0 rc0)
         (randomizedutterancerefs rz') = Done tt)
    (rt_chunks : randomizedchunks rz' = rc0 :: rcs)
    (rt_pcw : positionchunkwindows rz' = seqs (framemode rz) (λ k _ _, k) ac0 rc0)
    (rt_posmap : randomizedutteranceposmap rz' = build_posmap (randomizedutterancerefs rz'))
    (rt_framemode : framemode rz' = framemode rz)
    (rt_totalframes : _totalframes rz' = _totalframes rz)
    (rt_numutterances : rz_numutterances rz' = rz_numutterances rz)
    (rt_range : randomizationrange rz' = randomizationrange rz)
    (rt_sweep : currentsweep rz' = sweep).

End RebuildTrace.

(** The identity initial assignment in the words of the specification: every
    chunk [k] of the randomized chunk sequence, every utterance [i] in it,
    and every internal sequence index [m] ([0] only in utterance mode, the
    frames of the utterance in frame mode). *)
Definition catalog_triples (fm : bool) (ac0 : list utterancechunkdata) (rc0 : list chunk)
  : list (N * N * N) :=
  k ← indices rc0;
  let cd := match vget rc0 k with
            | Some c => cd_of ac0 c
            | None => empty_chunkdata
            end in
  i ← indices (utteranceset cd);
  let n := match vget (utteranceset cd) i with
           | Some u => if fm then numframes u else 1
           | None => 0
           end in
  m ← N_range n;
  [(k, i, m)].

(** The frames of the sequence [r], as the pass over the shuffled sequences
    reads them. *)
Definition frames_of (fm : bool) (ac0 : list utterancechunkdata) (rc0 : list chunk)
    (r : sequenceref) : N :=
  if fm then 1
  else match vget rc0 (chunkindex r) with
       | Some c => match vget (utteranceset (cd_of ac0 c)) (utteranceindex r) with
                   | Some u => numframes u
                   | None => 0
                   end
       | None => 0
       end.

Definition with_time (r : sequenceref) (nf t : N) : sequenceref :=
  {| chunkindex := chunkindex r; utteranceindex := utteranceindex r;
     sr_numframes := nf; sr_globalts := t; frameindex := frameindex r |}.

(** The sequences with their times: position [p] starts where the positions
    before it end. *)
Definition timed (fm : bool) (ac0 : list utterancechunkdata) (rc0 : list chunk)
    (sweepts : N) (refs : list sequenceref) : list sequenceref :=
  imap (λ p r, with_time r (frames_of fm ac0 rc0 r)
                 (SizeT.wrap (sweepts + sumN (map (frames_of fm ac0 rc0) (take p refs)))))
       refs.

(** The positions of the sweep fit into [size_t]. *)
Definition positions_fit (fm : bool) (ac0 : list utterancechunkdata) (rc0 : list chunk)
    (sweepts : N) : Prop :=
  if fm then sweepts + firstpos fm ac0 rc0 (length rc0) < SizeT.modulus
  else firstpos fm ac0 rc0 (length rc0) < SizeT.modulus.

(** Every position holds a sequence that its window allows. *)
Definition all_valid (rc0 : list chunk) (pcw : list N) (refs : list sequenceref) : Prop :=
  ∀ p r, vget refs p = Some r → ∃ w, vget pcw p = Some w ∧ valid_at rc0 w r.

Definition no_logic_error {A} (o : outcome A) : Prop := ∀ e, o ≠ Fail (LogicError e).

(** *** The properties of a randomization *)

Definition numsequences (rz : randomizer) : N :=
  if framemode rz then _totalframes rz else rz_numutterances rz.

(** The chunk window of position [p]: that of its defining chunk. *)
Definition position_window (rz : randomizer) (p : N) : option (N * N) :=
  w ← vget (positionchunkwindows rz) p;
  rc0 ← vget (randomizedchunks rz) 0;
  c ← vget rc0 w;
  Some (windowbegin c, windowend c).

Definition window_containment (rz : randomizer) : Prop :=
  ∀ p, p < numsequences rz →
    ∃ r wb we, vget (randomizedutterancerefs rz) p = Some r
               ∧ position_window rz p = Some (wb, we)
               ∧ wb ≤ chunkindex r ∧ chunkindex r < we.

(** The randomizer was built for this catalog, whose chunks are as
    [push_back] leaves them, and the sweep's frames and the catalog's sizes
    are [size_t] values. *)
Definition catalog_fits (rz : randomizer) (sweep : N)
    (allchunks : list (list utterancechunkdata)) : Prop :=
  ∃ ac0 rest,
    allchunks = ac0 :: rest
    ∧ Forall chunk_wf ac0
    ∧ _totalframes rz = stream_frames ac0
    ∧ rz_numutterances rz = stream_utterances ac0
    ∧ (sweep + 1) * _totalframes rz < SizeT.modulus
    ∧ rz_numutterances rz < SizeT.modulus
    ∧ vsize ac0 < SizeT.modulus.

(** The timeline of the randomized sequences tiles sweep [s]. *)
Definition timeline_tiles (rz : randomizer) (s : N) : Prop :=
  let refs := randomizedutterancerefs rz in
  sumN (map sr_numframes refs) = _totalframes rz
  ∧ (∃ r0, vget refs 0 = Some r0 ∧ sr_globalts r0 = s * _totalframes rz)
  ∧ (∀ p r, refs !! p = Some r →
       sr_globalts r = s * _totalframes rz + sumN (map sr_numframes (take p refs)))
  ∧ (∃ rl, last refs = Some rl ∧ sr_globalte rl = (s + 1) * _totalframes rz).

(** The randomized sequences are a permutation of the initial assignment. *)
Definition permutation_identity (rz : randomizer)
    (allchunks : list (list utterancechunkdata)) : Prop :=
  ∃ ac0 rc0,
    head allchunks = Some ac0 ∧ head (randomizedchunks rz) = Some rc0
    ∧ map sr_triple (randomizedutterancerefs rz) ≡ₚ catalog_triples (framemode rz) ac0 rc0
    ∧ NoDup (map sr_triple (randomizedutterancerefs rz)).

(** The state a randomizer holds for its current sweep is one that
    [rebuild] produced for that sweep from this catalog: [lazyrandomization]
    is the only writer of the randomization state. *)
Section BuiltFor.
Context {G : Type} (srand : N → G) (crand : G → N * G) (RAND_MAX : N) (ndebug : bool).

Definition built_for (allchunks : list (list utterancechunkdata)) (rz : randomizer) : Prop :=
  ∃ fuel0 rz0,
    rebuild srand crand RAND_MAX ndebug fuel0 rz0 (currentsweep rz) allchunks = Done rz.

(** Whenever [lazyrandomization] finds the sweep of [globalts_] current, the
    state is one it built itself. *)
Definition current_is_built (rz : randomizer) (globalts_ : N)
    (allchunks : list (list utterancechunkdata)) : Prop :=
  currentsweep rz = globalts_ / _totalframes rz → built_for allchunks rz.

End BuiltFor.

(** *** Paging and the consumption of a sweep *)

(** What paging leaves alone: the mode, the frame count, the randomizer and
    the number of streams. *)
Definition stable {W} (m m' : @machine W) : Prop :=
  src_framemode (fst m') = src_framemode (fst m)
  ∧ src_totalframes (fst m') = src_totalframes (fst m)
  ∧ rand_ (fst m') = rand_ (fst m)
  ∧ length (allchunks (fst m')) = length (allchunks (fst m)).

Definition keeps {W A} (op : stateful (@machine W) A) : Prop :=
  ∀ m r m', op m = (r, m') → stable m m'.

(** The frames a batch holds: the columns of the first stream's matrix, as
    the sequences they were copied from. *)
Definition col_triple (c : column) : N * N * N :=
  (col_chunkindex c, col_utteranceindex c, col_frameindex c).
Definition returned_frames (b : batch) : list (N * N * N) :=
  match feat b with
  | f0 :: _ => omap (option_map col_triple) f0
  | [] => []
  end.

(** [frameref.chunkindex % numsubsets == subsetnum] *)
Definition in_subset (numsubsets subsetnum : N) (r : sequenceref) : bool :=
  chunkindex r mod numsubsets =? subsetnum.

(** The requests of a caller cover the time from [globalts_] to [te]: every
    call starts before [te], asks for a number of frames that [size_t] can
    add to its start, and the next call starts where it stops, which is at
    [te] at the latest. *)
Fixpoint covers (te globalts_ : N) (requests : list N) : Prop :=
  match requests with
  | [] => globalts_ = te
  | framesrequested :: requests' =>
      globalts_ < te ∧ globalts_ + framesrequested < SizeT.modulus
      ∧ covers te (globalts_ + N.min framesrequested (te - globalts_)) requests'
  end.

Section Sweep.
Context {G : Type} (srand : N → G) (crand : G → N * G) (RAND_MAX : N) (ndebug : bool).
Context {W : Type} (env : collaborators W).

(** Modelled from the spec: the caller of [getbatch], which "uses
    [framesadvanced] to progress [globalts]": one call per requested size,
    each starting where the one before it stopped, on the vectors the call
    before left.  It gives the batches and the time reached. *)
Fixpoint consume (fuel : nat) (requests : list N) (globalts_ subsetnum numsubsets : N)
    (feat0 : list (list (option column))) (uids0 : list (list N))
  : stateful (@machine W) (list batch * N) :=
  match requests with
  | [] => mret ([], globalts_)
  | framesrequested :: requests' =>
      b ← getbatch srand crand RAND_MAX ndebug env fuel globalts_ framesrequested
            subsetnum numsubsets feat0 uids0;
      '(bs, te) ← consume fuel requests' (SizeT.add globalts_ (framesadvanced b))
                    subsetnum numsubsets (feat b) (uids b);
      mret (b :: bs, te)
  end.

End Sweep.

(** The subsets partition the frames [refs] of a sweep: subset [sn] was
    given the frames of the chunks with [chunkindex mod numsubsets = sn], in
    the order of the sweep, every frame falls to exactly that subset, and
    all that was returned is a rearrangement of the sweep. *)
Definition subsets_partition_frames (numsubsets totalframes_ : N) (refs : list sequenceref)
    (returned : N → list (N * N * N)) : Prop :=
  vsize refs = totalframes_
  ∧ (∀ sn, sn < numsubsets →
       returned sn = map sr_triple (filter (λ r, in_subset numsubsets sn r = true) refs))
  ∧ (∀ r sn, r ∈ refs → sn < numsubsets →
       (in_subset numsubsets sn r = true ↔ sn = chunkindex r mod numsubsets))
  ∧ concat (map returned (N_range numsubsets)) ≡ₚ map sr_triple refs.


(** *** The boundary markers of the labels *)

(** The number of frames a label sequence spans: where its last entry ends. *)
Definition labframes_of (labseq : list htkmlfentry) : N :=
  match last labseq with
  | None => 0
  | Some e => firstframe e + e_numframes e
  end.

(** The label vectors hold their markers at the end of utterance [u]. *)
Definition sentinel_at {W} (env : collaborators W) (cls pbs : list (list N))
    (u : utterancedesc) : Prop :=
  let pos := N.to_nat (classidsbegin u + numframes u) in
  (∀ c, c ∈ cls → c !! pos = Some (classid_marker env))
  ∧ (∀ p, p ∈ pbs → p !! pos = Some (hmmid_marker env)).

(** While the first stream is read: all label vectors are equally long, the
    next utterance will begin at their end, and every utterance kept so far
    has its markers. *)
Definition labels_in_step {W} (env : collaborators W) (st : ctor_state) : Prop :=
  ∃ len : nat,
    (∀ c, c ∈ cs_classids st → length c = len)
    ∧ (∀ p, p ∈ cs_phoneboundaries st → length p = len)
    ∧ length (cs_phoneboundaries st) = length (cs_classids st)
    ∧ ∀ u, u ∈ cs_utteranceset st →
           sentinel_at env (cs_classids st) (cs_phoneboundaries st) u.

(** What the loop over the streams keeps once the first stream is read: the
    utterances of the first stream's chunks have their markers. *)
Definition stream_sentinels {W} (env : collaborators W) (acc : ctor_streams) : Prop :=
  ∀ ac0 u, st_allchunks acc !! 0%nat = Some ac0 → u ∈ concat (map utteranceset ac0) →
           sentinel_at env (cs_classids (st_state acc)) (cs_phoneboundaries (st_state acc)) u.

(** The invariant of the constructed source, as [getclassids] and
    [getphonebound] read it: at [classidsbegin + numframes] of every
    utterance of the catalog every class-id vector holds [(CLASSIDTYPE) -1]
    and every phone-boundary vector [(HMMIDTYPE) -1]. *)
Definition label_sentinels {W} (env : collaborators W) (src : source) : Prop :=
  ∀ u, u ∈ catalog_utterances src →
    (∀ c, c ∈ classids src →
       vget c (SizeT.add (classidsbegin u) (numframes u)) = Some (classid_marker env))
    ∧ (∀ p, p ∈ phoneboundaries src →
       vget p (SizeT.add (classidsbegin u) (numframes u)) = Some (hmmid_marker env)).

(** ** A small catalog and a generator, to run the definitions on *)

Definition lcg_srand (seed : N) : N := seed.
Definition lcg_rand (g : N) : N * N :=
  let g' := (g * 1103515245 + 12345) mod 2 ^ 31 in (g' / 65536 mod 32768, g').

Definition example_path (name : string) (n : N) : parsedpath :=
  {| logicalpath := name; pp_numframes := n |}.
Definition example_utterance (n : N) : utterancedesc :=
  {| ud_parsedpath := example_path "utt.mfc" n; classidsbegin := 0 |}.
Fixpoint example_firstframes (first : N) (l : list N) : list N :=
  match l with
  | [] => []
  | n :: l' => first :: example_firstframes (first + n) l'
  end.
Definition example_chunk (l : list N) : utterancechunkdata :=
  {| utteranceset := map example_utterance l; firstframes := example_firstframes 0 l;
     frames := (0, 0); totalframes := sumN l; lattices := [] |}.
Definition example_catalog : list (list utterancechunkdata) :=
  [[example_chunk [4; 6]; example_chunk [3; 2]; example_chunk [5]]].
Definition example_randomizer (fm : bool) : randomizer := mk_randomizer fm 20 5 30.

(** Readers that always succeed, without lattices. *)
Definition example_env : collaborators unit :=
  {| reader_getinfo := λ _ w, (Done ("MFCC"%string, 2, 100000), w);
     reader_read := λ _ _ _ _ w, (Done tt, w);
     lat_empty := true; haslattice := λ _, false;
     getlattices := λ _ _ w, (Done tt, w);
     augmentationextent := λ _ _, 0;
     CLASSIDTYPE_bits := 16; HMMIDTYPE_bits := 16 |}.

(** An unsupervised frame-mode source over the small catalog, nothing paged in. *)
Definition example_source : source :=
  {| vdim := [2]; leftcontext := [0]; rightcontext := [0]; sampperiod := [0];
     featkind := [""%string]; featdim := [0]; src_framemode := true; counts := [];
     allchunks := example_catalog; classids := []; phoneboundaries := [];
     numutterances := 5; src_totalframes := 20; chunksinram := 0;
     rand_ := Some (example_randomizer true) |}.

(** The same source once the randomizer has run for sweep 0. *)
Definition example_source_randomized : source := Eval vm_compute in
  match lazyrandomization lcg_srand lcg_rand 32767 false 100 (example_randomizer true) 0
          example_catalog with
  | Done (_, rz) => set_rand example_source rz
  | Fail _ => example_source
  end.

(** A caller that consumes sweep 0 of the small source in three requests, as
    subset [sn] of two. *)
Definition example_requests : list N := [7; 7; 7].
Definition example_run (sn : N) : outcome (list batch * N) * (source * unit) :=
  consume lcg_srand lcg_rand 32767 false example_env 100 example_requests 0 sn 2 [] []
    (example_source, tt).
Definition example_batches (sn : N) : list batch :=
  match example_run sn with
  | (Done (bs, _), _) => bs
  | (Fail _, _) => []
  end.


(** Three files with their labels: two entries each, a phone start on the
    first. *)
Definition example_labelled_files : list parsedpath :=
  [example_path "a.mfc" 4; example_path "b.mfc" 6; example_path "c.mfc" 10].
Definition example_labseq (n : N) : list htkmlfentry :=
  [{| firstframe := 0; e_numframes := 2; classid := 1; phonestart := 1 |};
   {| firstframe := 2; e_numframes := n - 2; classid := 0; phonestart := 0 |}].
Definition example_labels : gmap string (list htkmlfentry) :=
  <["a"%string := example_labseq 4]>
    (<["b"%string := example_labseq 6]> (<["c"%string := example_labseq 10]> ∅)).

(** ** Further members of the source *)

(** [randomizer::getNumSequences ()] *)
Definition getNumSequences (rz : randomizer) : N := vsize (randomizedutterancerefs rz).

Section FirstValid.
Context {G : Type} (srand : N → G) (crand : G → N * G) (RAND_MAX : N).
Context (ndebug : bool).
Context {W : Type} (env : collaborators W).

(** The loop of [firstvalidglobalts] over the positions [ps]: the start of
    the first sequence that does not start before [globalts_], if the loop
    returns from inside. *)
Fixpoint first_start_from (rz : randomizer) (globalts_ : N) (ps : list N)
  : outcome (option N) :=
  match ps with
  | [] => Done None
  | pos :: ps' =>
      r ← getSequenceRef ndebug rz pos;
      if globalts_ <=? sr_globalts r
      then r' ← getSequenceRef ndebug rz pos; Done (Some (sr_globalts r'))
      else first_start_from rz globalts_ ps'
  end.

(** [firstvalidglobalts (globalts)]; [fuel] is handed to [lazyrandomization]. *)
Definition firstvalidglobalts (fuel : nat) (globalts_ : N) : stateful (@machine W) N :=
  '(src, _) ← sget;
  rz ← lift (the_rand src);
  '(sweep, rz) ← lift (lazyrandomization srand crand RAND_MAX ndebug fuel rz globalts_
                                         (allchunks src));
  _ ← smodify (λ '(src, w), (set_rand src rz, w));
  if src_framemode src then mret globalts_
  else
    _ ← lift (assert ndebug
                ((SizeT.mul sweep (src_totalframes src) <=? globalts_)
                 && (globalts_ <? SizeT.mul (SizeT.add sweep 1) (src_totalframes src))));
    found ← lift (first_start_from rz globalts_ (N_range (getNumSequences rz)));
    match found with
    | Some t => mret t
    | None =>
        r ← lift (getSequenceRef ndebug rz (SizeT.sub (getNumSequences rz) 1));
        mret (sr_globalte r)
    end.

(** [getbatch (globalts, framesrequested, feat, uids, transcripts, lattices,
    sentendmark, phoneboundaries)]: the call without subsetting. *)
Definition getbatch_whole (fuel : nat) (globalts_ framesrequested : N)
    (feat0 : list (list (option column))) (uids0 : list (list N))
  : stateful (@machine W) batch :=
  getbatch srand crand RAND_MAX ndebug env fuel globalts_ framesrequested 0 1 feat0 uids0.

End FirstValid.

(** ** Further notions used to state the properties *)

(** The chunk at [allchunks[m][idx]]. *)
Definition chunk_of (src : source) (m idx : N) : option utterancechunkdata :=
  ac ← vget (allchunks src) m; vget ac idx.

(** An operation leaves a property of the state in place, whatever its
    outcome. *)
Definition preserves {W A} (P : @machine W → Prop) (op : stateful (@machine W) A) : Prop :=
  ∀ s r s', P s → op s = (r, s') → P s'.

(** The chunk at [allchunks[m][idx]] is there and holds the utterances [us]. *)
Definition holds {W} (m idx : N) (us : list utterancedesc) (s : @machine W) : Prop :=
  ∃ cd, chunk_of (fst s) m idx = Some cd ∧ utteranceset cd = us.

(** Readers that know the feature kind, but fail to read the frames. *)
Definition example_env_unreadable : collaborators unit :=
  {| reader_getinfo := λ _ w, (Done ("MFCC"%string, 2, 100000), w);
     reader_read := λ _ _ _ _ w, (Fail IOError, w);
     lat_empty := true; haslattice := λ _, false;
     getlattices := λ _ _ w, (Done tt, w);
     augmentationextent := λ _ _, 0;
     CLASSIDTYPE_bits := 16; HMMIDTYPE_bits := 16 |}.

(** Readers that fail to open the first file. *)
Definition example_env_offline : collaborators unit :=
  {| reader_getinfo := λ _ w, (Fail IOError, w);
     reader_read := λ _ _ _ _ w, (Fail IOError, w);
     lat_empty := true; haslattice := λ _, false;
     getlattices := λ _ _ w, (Done tt, w);
     augmentationextent := λ _ _, 0;
     CLASSIDTYPE_bits := 16; HMMIDTYPE_bits := 16 |}.

(** The randomizer of the small catalog after it has run, in frame mode, for
    the sweep of time 25. *)
Definition example_randomized : randomizer := Eval vm_compute in
  match lazyrandomization lcg_srand lcg_rand 32767 false 100 (example_randomizer true) 25
          example_catalog with
  | Done (_, rz) => rz
  | Fail _ => example_randomizer true
  end.

(** The small source in utterance mode, and its randomizer after it has run
    for the sweep of time 47. *)
Definition example_source_utterances : source :=
  {| vdim := [2]; leftcontext := [0]; rightcontext := [0]; sampperiod := [0];
     featkind := [""%string]; featdim := [0]; src_framemode := false; counts := [];
     allchunks := example_catalog; classids := []; phoneboundaries := [];
     numutterances := 5; src_totalframes := 20; chunksinram := 0;
     rand_ := Some (example_randomizer false) |}.
Definition example_randomized_utterances : randomizer := Eval vm_compute in
  match lazyrandomization lcg_srand lcg_rand 32767 false 100 (example_randomizer false) 47
          example_catalog with
  | Done (_, rz) => rz
  | Fail _ => example_randomizer false
  end.

(** The source constructed from the three labelled files, after its
    randomizer has run for sweep 0. *)
Definition example_source_labelled : source := Eval vm_compute in
  match construct false example_env [example_labelled_files] [example_labels]
          [2] [3] [0] [0] 20 true with
  | Done src =>
      match rand_ src with
      | Some rz0 =>
          match lazyrandomization lcg_srand lcg_rand 32767 false 100 rz0 0 (allchunks src) with
          | Done (_, rz) => set_rand src rz
          | Fail _ => src
          end
      | None => src
      end
  | Fail _ => example_source
  end.

Definition example_utterance_at (name : string) (n cb : N) : utterancedesc :=
  {| ud_parsedpath := example_path name n; classidsbegin := cb |}.

(** A chunk that the distribution over chunks closes: it is over the target
    size, or holds as many utterances as a chunk may hold. *)
Definition chunk_full (cd : utterancechunkdata) : Prop :=
  chunkframes < totalframes cd ∨ 65535 ≤ cd_numutterances cd.

(** A chunk as the distribution fills it: paged out, with the frame count of
    its utterances, and not full before its last utterance was added. *)
Definition chunk_filled (cd : utterancechunkdata) : Prop :=
  paged_out cd ∧ chunk_wf cd
  ∧ ∃ us0 u, utteranceset cd = us0 ++ [u]
             ∧ sumN (map numframes us0) ≤ chunkframes ∧ vsize us0 < 65535.

(** The source constructed from the three labelled files. *)
Definition example_source_constructed : source := Eval vm_compute in
  match construct false example_env [example_labelled_files] [example_labels]
          [2] [3] [0] [0] 20 true with
  | Done src => src
  | Fail _ => example_source
  end.

(** The windows of the randomized chunks only move right: the window of a
    chunk begins at the chunk or before it, neither bound of a later chunk
    is left of that of an earlier one, and no window ends beyond the chunks. *)
Definition windows_monotone (rc : list chunk) : Prop :=
  ∀ k k' c c', (k ≤ k')%nat → rc !! k = Some c → rc !! k' = Some c' →
    windowbegin c ≤ windowbegin c' ∧ windowend c ≤ windowend c'
    ∧ windowbegin c ≤ N.of_nat k ∧ 1 ≤ windowend c ∧ windowend c ≤ vsize rc.

(** The chunk at [allchunks[m][idx]] is there and satisfies [Q]. *)
Definition chunk_has {W} (m idx : N) (Q : utterancechunkdata → Prop) (s : @machine W)
  : Prop :=
  ∃ cd, chunk_of (fst s) m idx = Some cd ∧ Q cd.

(** The reader reports a feature dimension that is not 0. *)
Definition getinfo_positive {W} (env : collaborators W) : Prop :=
  ∀ pp w fk fd sp w', reader_getinfo env pp w = (Done (fk, fd, sp), w') → 0 < fd.

(** What paging a chunk of stream [m] leaves as it is in [src0]: the
    randomizer, the count of the chunks in RAM, the number of streams and
    the chunks of every other stream. *)
Definition outside_stream {W} (m : N) (src0 : source) (s : @machine W) : Prop :=
  rand_ (fst s) = rand_ src0 ∧ chunksinram (fst s) = chunksinram src0
  ∧ length (allchunks (fst s)) = length (allchunks src0)
  ∧ ∀ m', m' ≠ m → vget (allchunks (fst s)) m' = vget (allchunks src0) m'.

(** What [lazyrandomization] writes of a randomized chunk on every stream:
    the chunk it refers to and its place in the sweep.  The randomization
    window is computed for the chunks of the first stream only. *)
Definition chunk_placement (c : chunk) : N * N * N :=
  (uttchunkdata c, utteranceposbegin c, globalts c).


(** [body] run again after every failure with an exception: the outcome and
    the state of run number [n], counted from 0, when the [n] runs before it
    have each failed with an exception. *)
Fixpoint nth_run {St} (n : nat) (body : stateful St unit) (s : St)
  : option (outcome unit * St) :=
  match n with
  | O => Some (body s)
  | S n' =>
      match body s with
      | (Fail e, s') => if is_exception e then nth_run n' body s' else None
      | (Done _, _) => None
      end
  end.

(** [body], tried at most [retries] times from [s], ends with [r] in [s']:
    one of the runs ends so after runs that failed with an exception, and
    if it fails with an exception itself it is the last run allowed. *)
Definition ends_within {St} (retries : nat) (body : stateful St unit) (s : St)
    (r : outcome unit) (s' : St) : Prop :=
  ∃ j, (j < retries)%nat ∧ nth_run j body s = Some (r, s')
       ∧ match r with
         | Done _ => True
         | Fail e => is_exception e = true → S j = retries
         end.

(** Readers on a line that drops: the world counts the reads that still
    fail. *)
Definition example_env_flaky : collaborators nat :=
  {| reader_getinfo := λ _ w, (Done ("MFCC"%string, 2, 100000), w);
     reader_read := λ _ _ _ _ w,
       match w with
       | O => (Done tt, O)
       | S w' => (Fail IOError, w')
       end;
     lat_empty := true; haslattice := λ _, false;
     getlattices := λ _ _ w, (Done tt, w);
     augmentationextent := λ _ _, 0;
     CLASSIDTYPE_bits := 16; HMMIDTYPE_bits := 16 |}.

(** * Properties

    The lemmas below are about the definitions above; the theorems that
    state the properties of the specification name the property they settle. *)

(** * Reasoning about [outcome] *)

Lemma bind_Done {A B} (m : outcome A) (f : A → outcome B) (b : B) :
  m ≫= f = Done b → ∃ a, m = Done a ∧ f a = Done b.
Proof. destruct m as [a|e]; simpl; [eauto | discriminate]. Qed.

Lemma bind_Fail {A B} (m : outcome A) (f : A → outcome B) (e : failure) :
  m ≫= f = Fail e → m = Fail e ∨ ∃ a, m = Done a ∧ f a = Fail e.
Proof. destruct m as [a|e']; simpl; [eauto | intros [= ->]; auto]. Qed.

Ltac inv_bind H :=
  let a := fresh "x" in
  let E := fresh "E" in
  apply bind_Done in H as (a & E & H).

Tactic Notation "obind" hyp(H) "as" simple_intropattern(a) ident(E) :=
  apply bind_Done in H as (a & E & H).

Lemma vat_Done {A} (v : list A) i a : vat v i = Done a ↔ vget v i = Some a.
Proof. unfold vat. destruct (vget v i); split; congruence. Qed.

Lemma vget_lt {A} (v : list A) i a : vget v i = Some a → i < vsize v.
Proof. unfold vget, vsize. intros H%lookup_lt_Some. lia. Qed.

Lemma vget_is_Some {A} (v : list A) i : i < vsize v → is_Some (vget v i).
Proof. unfold vget, vsize. intros H. apply lookup_lt_is_Some. lia. Qed.

Lemma vsize_vset {A} (v : list A) i a : vsize (vset v i a) = vsize v.
Proof. unfold vsize, vset. by rewrite length_insert. Qed.

Lemma length_vset {A} (v : list A) i a : length (vset v i a) = length v.
Proof. apply length_insert. Qed.

Lemma vget_vset {A} (v : list A) i j a :
  vget (vset v i a) j = if decide (i = j) then (if decide (i < vsize v) then Some a else None) else vget v j.
Proof.
  unfold vget, vset, vsize. case_decide as Hij.
  - subst. case_decide.
    + apply list_lookup_insert_eq. lia.
    + rewrite list_insert_ge by lia. apply lookup_ge_None. lia.
  - apply list_lookup_insert_ne. lia.
Qed.

Lemma foldM_app {A B} (f : B → A → outcome B) l1 l2 b :
  foldM f (l1 ++ l2) b = (foldM f l1 b ≫= foldM f l2).
Proof.
  revert b. induction l1 as [|a l1 IH]; intros b; simpl; [done|].
  destruct (f b a); simpl; auto.
Qed.

(** The loop invariant rule: [P] holds of the elements done so far and the state. *)
Lemma foldM_invariant {A B} (P : list A → B → Prop) (f : B → A → outcome B) l b r :
  P [] b →
  (∀ done a rest b b', l = done ++ a :: rest → P done b → f b a = Done b' → P (done ++ [a]) b') →
  foldM f l b = Done r → P l r.
Proof.
  intros H0 Hstep.
  assert (∀ done todo b, l = done ++ todo → P done b → foldM f todo b = Done r → P l r) as Hgen.
  { intros done todo. revert done. induction todo as [|a todo IH]; intros done b' Hl HP Hf.
    - simpl in Hf. injection Hf as <-. rewrite app_nil_r in Hl. by subst.
    - simpl in Hf. inv_bind Hf.
      apply (IH (done ++ [a]) x); [by rewrite <- app_assoc | | done].
      eapply Hstep; eauto. }
  intros Hf. eapply (Hgen [] l b); eauto.
Qed.

Lemma indices_length {A} (v : list A) : length (indices v) = length v.
Proof. unfold indices. by rewrite length_map, length_seq. Qed.

Lemma indices_split {A} (v : list A) done a rest :
  indices v = done ++ a :: rest → a = N.of_nat (length done) ∧ (length done < length v)%nat.
Proof.
  unfold indices. intros H.
  assert (Hl : length (map N.of_nat (seq 0 (length v))) = length (done ++ a :: rest)) by (by rewrite H).
  rewrite length_map, length_seq, length_app in Hl. simpl in Hl.
  split; [|lia].
  assert (Hn : (map N.of_nat (seq 0 (length v))) !! length done = Some a).
  { rewrite H. by rewrite list_lookup_middle. }
  rewrite list_lookup_fmap in Hn.
  destruct (seq 0 (length v) !! length done) as [n|] eqn:En; [|done].
  apply lookup_seq in En as [-> _]. simpl in Hn. by injection Hn as <-.
Qed.

Lemma vswap_Done {A} (v : list A) i j v' :
  vswap v i j = Done v' →
  ∃ a b, vget v i = Some a ∧ vget v j = Some b ∧ v' = vset (vset v i b) j a.
Proof.
  unfold vswap. intros H. inv_bind H. inv_bind H. injection H as <-.
  apply vat_Done in E, E0. eauto.
Qed.

Lemma vswap_Permutation {A} (v : list A) i j v' : vswap v i j = Done v' → v ≡ₚ v'.
Proof.
  intros (a & b & Ha & Hb & ->)%vswap_Done. unfold vget, vset in *.
  set (n := N.to_nat i) in *. set (m := N.to_nat j) in *. clearbody n m. clear i j.
  revert n m Ha Hb. induction v as [|x v IH]; intros [|n] [|m] Ha Hb; simpl in *; try done.
  - by simplify_eq.
  - simplify_eq. clear IH. revert m Hb. induction v as [|y v IH]; intros [|m] Hb; simpl in *; simplify_eq.
    + apply perm_swap.
    + etrans; [apply perm_swap|]. etrans; [|apply perm_swap]. constructor.
      specialize (IH m Hb). done.
  - simplify_eq. clear IH. revert n Ha. induction v as [|y v IH]; intros [|n] Ha; simpl in *; simplify_eq.
    + apply perm_swap.
    + etrans; [apply perm_swap|]. etrans; [|apply perm_swap]. constructor.
      specialize (IH n Ha). done.
  - constructor. by apply IH.
Qed.

Lemma assert_Done ndebug b : assert ndebug b = Done tt ∨ (ndebug = false ∧ b = false ∧ assert ndebug b = Fail AssertionFailed).
Proof. unfold assert. destruct ndebug, b; auto. Qed.

Lemma assert_true b : assert true b = Done tt.
Proof. done. Qed.

Lemma assertM_true c : assertM true c = Done tt.
Proof. done. Qed.

(** * The probe of the durations *)

Lemma indexed_cons {A} (x : A) (l : list A) :
  indexed (x :: l) = (0, x) :: zip (map N.of_nat (seq 1 (length l))) l.
Proof. reflexivity. Qed.

Lemma vset_app_head {A} (pre : list A) x y rest :
  vset (pre ++ x :: rest) (N.of_nat (length pre)) y = pre ++ y :: rest.
Proof.
  unfold vset. rewrite Nat2N.id. rewrite insert_app_r_alt by lia.
  by rewrite Nat.sub_diag.
Qed.

Lemma probe_stream0_fold (files : list parsedpath) (pre_v : list bool) (pre_d : list N) :
  length pre_v = length pre_d →
  foldM (probe_file 0)
        (zip (map N.of_nat (seq (length pre_v) (length files))) files)
        (pre_v ++ replicate (length files) true, pre_d ++ replicate (length files) 0)
  = if forallb long_enough files
    then Done (pre_v ++ map probe_valid files, pre_d ++ map probe_duration files)
    else Fail (RuntimeError RE_too_short).
Proof.
  revert pre_v pre_d. induction files as [|pp files IH]; intros pre_v pre_d Hlen; simpl.
  - by rewrite !app_nil_r.
  - unfold long_enough at 1. destruct (pp_numframes pp <? 2) eqn:E2; simpl; [done|].
    assert (Hstep : ∀ (b : bool) (d : N),
      foldM (probe_file 0) (zip (map N.of_nat (seq (S (length pre_v)) (length files))) files)
        (pre_v ++ b :: replicate (length files) true, pre_d ++ d :: replicate (length files) 0)
      = if forallb long_enough files
        then Done (pre_v ++ b :: map probe_valid files, pre_d ++ d :: map probe_duration files)
        else Fail (RuntimeError RE_too_short)).
    { intros b d. specialize (IH (pre_v ++ [b]) (pre_d ++ [d])).
      rewrite !length_app in IH. simpl in IH. rewrite Nat.add_1_r in IH.
      rewrite <- !app_assoc in IH. simpl in IH. apply IH. lia. }
    unfold probe_valid at 1, probe_duration at 1, too_long.
    destruct (65535 <? pp_numframes pp) eqn:E3; simpl;
      rewrite vset_app_head, Hlen, vset_app_head, <- Hlen; apply Hstep.
Qed.

Lemma probe_stream0 (files : list parsedpath) st :
  probe_stream st (0, files)
  = if forallb long_enough files
    then Done (map probe_valid files, map probe_duration files)
    else Fail (RuntimeError RE_too_short).
Proof.
  unfold probe_stream. simpl.
  apply (probe_stream0_fold files [] []). done.
Qed.




(** * Chunking *)

Lemma vset_last {A} (l0 : list A) b b' :
  vset (l0 ++ [b]) (vsize (l0 ++ [b]) - 1) b' = l0 ++ [b'].
Proof.
  unfold vsize. rewrite length_app. simpl.
  replace (N.of_nat (length l0 + 1) - 1) with (N.of_nat (length l0)) by lia.
  apply vset_app_head.
Qed.


Lemma push_back_paged_out c u :
  paged_out c →
  ∃ c', push_back c u = Done c' ∧ paged_out c'
        ∧ utteranceset c' = utteranceset c ++ [u]
        ∧ totalframes c' = SizeT.add (totalframes c) (numframes u)
        ∧ firstframes c' = firstframes c ++ [totalframes c].
Proof.
  intros Hp. unfold push_back, isinram. rewrite Hp. simpl.
  eexists. split; [done|]. done.
Qed.

Lemma distribute_paged_out acc u :
  Forall paged_out acc →
  ∃ l0 b b', distribute acc u = Done (l0 ++ [b']) ∧ Forall paged_out (l0 ++ [b'])
    ∧ (acc = l0 ++ [b] ∨ (l0 = acc ∧ b = empty_chunkdata))
    ∧ push_back b u = Done b'
    ∧ (acc = l0 ++ [b] → (chunkframes <? totalframes b) = false ∧ (65535 <=? cd_numutterances b) = false).
Proof.
  intros Hacc. unfold distribute.
  destruct (last acc) as [b|] eqn:El.
  - apply last_Some in El as [l0 ->].
    destruct ((chunkframes <? totalframes b) || (65535 <=? cd_numutterances b)) eqn:Enew.
    + rewrite last_snoc. cbn -[push_back vset vsize].
      destruct (push_back_paged_out empty_chunkdata u) as (c' & Hc' & Hp' & _); [done|].
      rewrite Hc'. cbn -[push_back vset vsize]. rewrite vset_last.
      exists (l0 ++ [b]), empty_chunkdata, c'.
      split; [done|]. split; [apply Forall_app; split; [done|by constructor]|].
      split; [by right|]. split; [done|].
      intros Heq. apply app_inj_tail in Heq as [_ ->]. discriminate Enew.
    + rewrite last_snoc. cbn -[push_back vset vsize].
      apply Forall_app in Hacc as [Hl0 Hb]. apply Forall_inv in Hb.
      destruct (push_back_paged_out b u) as (c' & Hc' & Hp' & _); [done|].
      rewrite Hc'. cbn -[push_back vset vsize]. rewrite vset_last.
      exists l0, b, c'.
      split; [done|]. split; [apply Forall_app; split; [done|by constructor]|].
      split; [by left|]. split; [done|].
      intros _. by apply orb_false_iff in Enew.
  - apply last_None in El as ->. cbn -[push_back vset vsize].
    destruct (push_back_paged_out empty_chunkdata u) as (c' & Hc' & Hp' & _); [done|].
    rewrite Hc'. cbn -[push_back].
    exists [], empty_chunkdata, c'.
    split; [done|]. split; [by constructor|].
    split; [by right|]. split; [done|].
    intros Heq. by destruct (app_cons_not_nil [] [] empty_chunkdata).
Qed.

Lemma push_back_utteranceset c u c' :
  push_back c u = Done c' → utteranceset c' = utteranceset c ++ [u].
Proof. unfold push_back. destruct (isinram c); [done|]. by intros [= <-]. Qed.

Lemma distribute_utterances acc u :
  Forall paged_out acc →
  ∃ chunks, distribute acc u = Done chunks ∧ Forall paged_out chunks
    ∧ concat (map utteranceset chunks) = concat (map utteranceset acc) ++ [u].
Proof.
  intros Hacc.
  destruct (distribute_paged_out acc u Hacc) as (l0 & b & b' & Hd & Hp & Hcase & Hpb & _).
  exists (l0 ++ [b']). split_and!; auto.
  apply push_back_utteranceset in Hpb.
  rewrite map_app, concat_app. simpl. rewrite Hpb, app_nil_r.
  destruct Hcase as [-> | [-> ->]].
  - rewrite map_app, concat_app. simpl. by rewrite app_nil_r, app_assoc.
  - done.
Qed.

Lemma distribute_all us acc :
  Forall paged_out acc →
  ∃ chunks, foldM distribute us acc = Done chunks ∧ Forall paged_out chunks
    ∧ concat (map utteranceset chunks) = concat (map utteranceset acc) ++ us.
Proof.
  revert acc. induction us as [|u us IH]; intros acc Hacc; simpl.
  - exists acc. by rewrite app_nil_r.
  - destruct (distribute_utterances acc u Hacc) as (c1 & -> & Hp1 & Hu1). simpl.
    destruct (IH c1 Hp1) as (c2 & -> & Hp2 & Hu2).
    exists c2. split_and!; auto. rewrite Hu2, Hu1. by rewrite <- app_assoc.
Qed.

Lemma distribute_all_Done us acc chunks :
  Forall paged_out acc → foldM distribute us acc = Done chunks →
  concat (map utteranceset chunks) = concat (map utteranceset acc) ++ us.
Proof.
  intros Hacc Hd. destruct (distribute_all us acc Hacc) as (c & Hc & _ & Hu). congruence.
Qed.

(** * Construction without labels *)

Section Unsupervised.
Context {W : Type} (env : collaborators W).







End Unsupervised.

(** * [size_t] arithmetic without overflow *)

Lemma modulus_pos : 0 < SizeT.modulus.
Proof. done. Qed.

Lemma wrap_small n : n < SizeT.modulus → SizeT.wrap n = n.
Proof. unfold SizeT.wrap. apply N.mod_small. Qed.

Lemma wrap_lt n : SizeT.wrap n < SizeT.modulus.
Proof. unfold SizeT.wrap. apply N.mod_lt. done. Qed.

Lemma wrap_le n : SizeT.wrap n ≤ n.
Proof. unfold SizeT.wrap. apply N.Div0.mod_le. Qed.

Lemma wrap_wrap n : SizeT.wrap (SizeT.wrap n) = SizeT.wrap n.
Proof. unfold SizeT.wrap. apply N.Div0.mod_mod. Qed.

Lemma add_wrap_l a b : SizeT.add (SizeT.wrap a) b = SizeT.wrap (a + b).
Proof. unfold SizeT.add, SizeT.wrap. by rewrite N.Div0.add_mod_idemp_l. Qed.

Lemma add_small a b : a + b < SizeT.modulus → SizeT.add a b = a + b.
Proof. apply wrap_small. Qed.

Lemma add_lt a b : SizeT.add a b < SizeT.modulus.
Proof. apply wrap_lt. Qed.

Lemma mul_small a b : a * b < SizeT.modulus → SizeT.mul a b = a * b.
Proof. apply wrap_small. Qed.

Lemma sub_small a b : b ≤ a → a < SizeT.modulus → SizeT.sub a b = a - b.
Proof.
  intros Hle Hlt. unfold SizeT.sub. rewrite (wrap_small b) by lia.
  unfold SizeT.wrap.
  replace (a + (SizeT.modulus - b)) with ((a - b) + 1 * SizeT.modulus) by lia.
  rewrite N.Div0.mod_add. apply N.mod_small. lia.
Qed.

Lemma sub_one_le a : 1 ≤ a → SizeT.sub a 1 ≤ a - 1.
Proof.
  intros Ha. unfold SizeT.sub. rewrite (wrap_small 1) by done.
  unfold SizeT.wrap.
  replace (a + (SizeT.modulus - 1)) with ((a - 1) + 1 * SizeT.modulus)
    by (pose proof modulus_pos; lia).
  rewrite N.Div0.mod_add. apply N.Div0.mod_le.
Qed.

Lemma sub_zero_one : SizeT.sub 0 1 = SizeT.modulus - 1.
Proof. done. Qed.

(** * Sums *)

Lemma sumN_app l1 l2 : sumN (l1 ++ l2) = sumN l1 + sumN l2.
Proof. unfold sumN. induction l1 as [|x l1 IH]; simpl; [done|]. rewrite IH. lia. Qed.

Lemma sumN_Permutation l1 l2 : l1 ≡ₚ l2 → sumN l1 = sumN l2.
Proof. unfold sumN. induction 1; simpl; lia. Qed.

Lemma sumN_take_le (l : list N) (a b : nat) : (a ≤ b)%nat → sumN (take a l) ≤ sumN (take b l).
Proof.
  intros Hab. replace b with (a + (b - a))%nat by lia.
  rewrite <- take_take_drop. rewrite sumN_app. lia.
Qed.

Lemma sumN_take_all_le (l : list N) (a : nat) : sumN (take a l) ≤ sumN l.
Proof.
  rewrite <- (take_drop a l) at 2. rewrite sumN_app. lia.
Qed.

Lemma sumN_replicate n x : sumN (replicate n x) = N.of_nat n * x.
Proof. unfold sumN. induction n as [|n IH]; simpl; [done|]. rewrite IH. lia. Qed.

(** * The shuffles permute *)

Section ShuffleFacts.
Context {G : Type} (srand : N → G) (crand : G → N * G) (RAND_MAX : N).

Lemma rand_Done g b e j g' :
  rand crand g b e = Done (j, g') → b ≤ j ∧ j < e.
Proof.
  unfold rand. destruct (e <=? b) eqn:E; [done|].
  destruct (crand g) as [r g1]. intros [= <- <-].
  apply N.leb_gt in E.
  assert (r mod (e - b) < e - b) by (apply N.mod_lt; lia).
  generalize dependent (r mod (e - b)). intros; lia.
Qed.

Lemma randomshuffle_Permutation {A} (v v' : list A) seed :
  randomshuffle srand crand RAND_MAX v seed = Done v' → v ≡ₚ v'.
Proof.
  unfold randomshuffle. destruct (_ <? _); [done|].
  intros H. inv_bind H. destruct x as [v1 g1]. injection H as <-.
  apply (foldM_invariant (λ _ st, v ≡ₚ st.1)) in E; [done|done|].
  intros done a rest [w g] [w' g'] _ Hw Hstep. simpl in *.
  unfold randomshuffle_step in Hstep. inv_bind Hstep. destruct x as [j g2].
  destruct (j =? a).
  - by injection Hstep as <- <-.
  - inv_bind Hstep. injection Hstep as <- <-.
    etrans; [done|]. by eapply vswap_Permutation.
Qed.

Lemma randomize_chunkrefs_Permutation ndebug ac sweep refs :
  randomize_chunkrefs srand crand RAND_MAX ndebug ac sweep = Done refs →
  indices ac ≡ₚ refs.
Proof.
  unfold randomize_chunkrefs. intros H. inv_bind H.
  by apply randomshuffle_Permutation in H.
Qed.

End ShuffleFacts.

(** * The timeline of the randomized chunks *)

Lemma getchunkdata_Done ac c cd :
  getchunkdata ac c = Done cd → vget ac (uttchunkdata c) = Some cd ∧ cd_of ac c = cd.
Proof.
  unfold getchunkdata. intros H%vat_Done. split; [done|].
  unfold cd_of, chunk_at. by rewrite H.
Qed.

Lemma utteranceposend_Done ac c x :
  utteranceposend ac c = Done x →
  x = SizeT.add (utteranceposbegin c) (cd_numutterances (cd_of ac c))
  ∧ is_Some (vget ac (uttchunkdata c)).
Proof.
  unfold utteranceposend, chunk_numutterances. intros H. inv_bind H. inv_bind E.
  injection E as <-. injection H as <-.
  apply getchunkdata_Done in E0 as [E1 <-]. eauto.
Qed.

Lemma globalte_Done ac c x :
  globalte ac c = Done x →
  x = SizeT.add (globalts c) (totalframes (cd_of ac c))
  ∧ is_Some (vget ac (uttchunkdata c)).
Proof.
  unfold globalte, chunk_numframes. intros H. inv_bind H. inv_bind E.
  injection E as <-. injection H as <-.
  apply getchunkdata_Done in E0 as [E1 <-]. eauto.
Qed.

Lemma place_chunks_timeline ac refs sweepts rc :
  sweepts < SizeT.modulus →
  place_chunks ac refs sweepts = Done rc →
  map uttchunkdata rc = refs ∧ timeline ac sweepts rc.
Proof.
  intros Hs H. unfold place_chunks in H.
  apply (foldM_invariant (λ done rc, map uttchunkdata rc = done ∧ timeline ac sweepts rc)) in H;
    [done| |].
  { split; [done|]. intros k c Hk. by rewrite lookup_nil in Hk. }
  clear H. intros done ref rest cur cur' _ [Hmap Htl] Hstep.
  unfold place_chunk in Hstep. inv_bind Hstep. inv_bind Hstep. injection Hstep as <-.
  split.
  { rewrite map_app. simpl. by rewrite Hmap. }
  intros k c Hk. apply lookup_app_Some in Hk as [Hk | [Hge Hk]].
  - rewrite take_app_le by (apply lookup_lt_Some in Hk; lia). by apply Htl.
  - apply list_lookup_singleton_Some in Hk as [Hk0 <-].
    assert (k = length cur) as -> by lia. rewrite take_app_length. simpl.
    destruct (last cur) as [b|] eqn:El.
    + apply last_Some in El as [l0 ->].
      apply utteranceposend_Done in E as [-> _]. apply globalte_Done in E0 as [-> _].
      destruct (Htl (length l0) b) as [-> ->]; [by rewrite list_lookup_middle|].
      rewrite take_app_length, !add_wrap_l, !map_app, !sumN_app. simpl.
      split; f_equal; lia.
    + apply last_None in El as ->. injection E as <-. injection E0 as <-. simpl.
      rewrite N.add_0_r. split; [by rewrite wrap_small|done].
Qed.

Lemma place_chunks_length ac refs sweepts rc :
  place_chunks ac refs sweepts = Done rc → length rc = length refs.
Proof.
  intros H. unfold place_chunks in H.
  apply (foldM_invariant (λ done rc, length rc = length done)) in H; [done|done|].
  intros done ref rest cur cur' _ Hl Hstep.
  unfold place_chunk in Hstep. inv_bind Hstep. inv_bind Hstep. injection Hstep as <-.
  rewrite !length_app. simpl. lia.
Qed.

(** * The windows leave the timeline alone *)

Lemma same_place_refl c : same_place c c.
Proof. done. Qed.

Lemma compute_window_same_place ac range rc k rc' :
  compute_window ac range rc k = Done rc' → Forall2 same_place rc rc'.
Proof.
  unfold compute_window. intros H. inv_bind H. inv_bind H. destruct x0 as [wb0 we0].
  inv_bind H. inv_bind H. injection H as <-.
  apply vat_Done in E. unfold vget in E. unfold vset.
  rewrite <- (list_insert_id rc (N.to_nat k) x E) at 1.
  apply Forall2_insert; [|done].
  apply Forall2_same_length_lookup_2; [done|]. intros i a b Ha Hb. by simplify_eq.
Qed.

Lemma same_place_trans c1 c2 c3 : same_place c1 c2 → same_place c2 c3 → same_place c1 c3.
Proof. unfold same_place. intros (?&?&?) (?&?&?). split_and!; congruence. Qed.

Lemma compute_windows_same_place ac range rc rc' :
  compute_windows ac range rc = Done rc' → Forall2 same_place rc rc'.
Proof.
  unfold compute_windows.
  generalize (indices rc) at 1. intros ks. revert rc.
  induction ks as [|k ks IH]; intros rc H; simpl in H.
  - injection H as <-. apply Forall2_same_length_lookup_2; [done|].
    intros i a b Ha Hb. by simplify_eq.
  - inv_bind H. apply compute_window_same_place in E. apply IH in H.
    eapply Forall2_trans; [|exact E|exact H]. apply same_place_trans.
Qed.

Lemma same_place_map {A} (g : utterancechunkdata → A) ac rc rc' :
  Forall2 same_place rc rc' →
  map (λ c, g (cd_of ac c)) rc = map (λ c, g (cd_of ac c)) rc'.
Proof.
  induction 1 as [|c c' rc rc' (Hu & _ & _) _ IH]; simpl; [done|].
  unfold cd_of at 1 3. rewrite Hu. by rewrite IH.
Qed.

Lemma timeline_same_place ac sweepts rc rc' :
  Forall2 same_place rc rc' → timeline ac sweepts rc → timeline ac sweepts rc'.
Proof.
  intros Hsp Htl k c' Hk.
  destruct (Forall2_lookup_r _ _ _ _ _ Hsp Hk) as (c & Hc & (_ & Hupb & Hgts)).
  destruct (Htl k c Hc) as [Hg Hu].
  rewrite <- Hgts, <- Hupb, Hg, Hu.
  by rewrite !(same_place_map _ ac (take k rc) (take k rc')) by by apply Forall2_take.
Qed.

(** * The enumeration of the sequences *)

Lemma seqs_snoc {A} fm (f : N → N → N → A) ac0 rc0 c :
  seqs fm f ac0 (rc0 ++ [c])
  = seqs fm f ac0 rc0 ++ sequences_of_chunk fm f (N.of_nat (length rc0)) (cd_of ac0 c).
Proof.
  unfold seqs. rewrite imap_app, concat_app. simpl.
  by rewrite Nat.add_0_r, app_nil_r.
Qed.

Lemma enumerate_sequences_Done {A} fm (f : N → N → N → A) ac0 rc0 l :
  enumerate_sequences fm f ac0 rc0 = Done l → l = seqs fm f ac0 rc0 ∧ resolved ac0 rc0.
Proof.
  intros H. unfold enumerate_sequences in H.
  apply (foldM_invariant (λ done acc,
           acc = seqs fm f ac0 (take (length done) rc0)
           ∧ resolved ac0 (take (length done) rc0))) in H.
  - rewrite indices_length, firstn_all in H. done.
  - split; [done|]. rewrite take_0. constructor.
  - clear H. intros done k rest acc acc' Hsplit [-> Hres] Hstep.
    apply indices_split in Hsplit as [-> Hlt].
    unfold enumerate_step in Hstep. inv_bind Hstep. inv_bind Hstep. injection Hstep as <-.
    apply vat_Done in E. unfold vget in E. rewrite Nat2N.id in E.
    apply getchunkdata_Done in E0 as [E1 E2].
    rewrite length_app. simpl. rewrite Nat.add_1_r.
    rewrite (take_S_r _ _ _ E). rewrite seqs_snoc.
    rewrite length_take_le by lia. rewrite E2. split; [done|].
    apply Forall_app. split; [done|]. constructor; [|constructor]. by rewrite E1.
Qed.

Lemma sequences_of_chunk_map {A B} (g : A → B) fm (f : N → N → N → A) k cd :
  sequences_of_chunk fm (λ k i m, g (f k i m)) k cd = map g (sequences_of_chunk fm f k cd).
Proof.
  unfold sequences_of_chunk.
  generalize (utteranceset cd). intros us.
  assert (∀ (us : list utterancedesc) (h1 : nat → utterancedesc → list B)
            (h2 : nat → utterancedesc → list A),
            (∀ i u, h1 i u = map g (h2 i u)) →
            concat (imap h1 us) = map g (concat (imap h2 us))) as Hgen.
  { clear. intros us. induction us as [|u us IH]; intros h1 h2 Hh; simpl; [done|].
    rewrite map_app, Hh. f_equal. apply IH. intros i u'. apply Hh. }
  apply Hgen. intros i u. by rewrite map_map.
Qed.

Lemma seqs_map {A B} (g : A → B) fm (f : N → N → N → A) ac0 rc0 :
  seqs fm (λ k i m, g (f k i m)) ac0 rc0 = map g (seqs fm f ac0 rc0).
Proof.
  induction rc0 as [|c rc0 IH] using rev_ind; [done|].
  rewrite !seqs_snoc, map_app, IH. by rewrite sequences_of_chunk_map.
Qed.

Lemma N_range_length n : length (N_range n) = N.to_nat n.
Proof. unfold N_range. by rewrite length_map, length_seq. Qed.

Lemma sequences_of_chunk_length {A} fm (f : N → N → N → A) k cd :
  N.of_nat (length (sequences_of_chunk fm f k cd)) = numseq fm cd.
Proof.
  unfold sequences_of_chunk, numseq, cd_numutterances, vsize.
  generalize (utteranceset cd). intros us.
  assert (∀ (us : list utterancedesc) (h : nat → utterancedesc → list A) (w : utterancedesc → N),
            (∀ i u, N.of_nat (length (h i u)) = w u) →
            N.of_nat (length (concat (imap h us))) = sumN (map w us)) as Hgen.
  { clear. intros us. induction us as [|u us IH]; intros h w Hh; simpl; [done|].
    rewrite length_app, Nat2N.inj_add, Hh. f_equal. apply IH. intros i u'. apply Hh. }
  destruct fm.
  - apply Hgen. intros i u. rewrite length_map, N_range_length. lia.
  - rewrite (Hgen us _ (λ _, 1)).
    + clear. induction us as [|u us IH]; simpl; [done|]. rewrite IH. lia.
    + intros i u. by rewrite length_map, N_range_length.
Qed.

Lemma seqs_length {A} fm (f : N → N → N → A) ac0 rc0 :
  N.of_nat (length (seqs fm f ac0 rc0)) = firstpos fm ac0 rc0 (length rc0).
Proof.
  unfold firstpos. rewrite firstn_all.
  induction rc0 as [|c rc0 IH] using rev_ind; [done|].
  rewrite seqs_snoc, length_app, Nat2N.inj_add, IH, sequences_of_chunk_length.
  rewrite map_app, sumN_app. simpl. lia.
Qed.

(** * The steps of a rebuild *)

Section RebuildSteps.
Context {G : Type} (srand : N → G) (crand : G → N * G) (RAND_MAX : N) (ndebug : bool).

Lemma rebuild_Done fuel rz sweep allchunks rz' :
  rebuild srand crand RAND_MAX ndebug fuel rz sweep allchunks = Done rz' →
  rebuild_trace srand crand RAND_MAX ndebug fuel rz sweep allchunks rz'.
Proof.
  unfold rebuild. intros H.
  obind H as chunkrefs Hrefs.
  obind H as rcs Hplace.
  obind H as rcs' Hwin.
  obind H as ac0 Hac0.
  obind H as rc0 Hrc0.
  obind H as pcw Hpcw.
  obind H as ? Ha1.
  obind H as refs0 Hrefs0.
  obind H as ? Ha2.
  obind H as ? Hsetup.
  obind H as refs1 Hshuf.
  obind H as [refs2 t] Hassign.
  obind H as ? Ha3.
  obind H as ? Hverify.
  obind H as ? Hrecheck.
  obind H as ? Ha4.
  injection H as <-.
  destruct allchunks as [|ac0' rest]; [done|].
  apply vat_Done in Hac0. injection Hac0 as ->.
  simpl in Hrefs. obind Hrefs as refs Hr0.
  obind Hrefs as refss Hrs. injection Hrefs as <-.
  simpl in Hplace. obind Hplace as rcp Hp0. obind Hplace as rcps Hps.
  injection Hplace as <-.
  obind Hp0 as placed Hpl. obind Hp0 as ? Ha5. obind Hp0 as ? Ha6.
  injection Hp0 as <-.
  obind Hwin as rc0' Hw. injection Hwin as <-.
  apply vat_Done in Hrc0. injection Hrc0 as <-.
  apply enumerate_sequences_Done in Hpcw as [-> Hres].
  apply enumerate_sequences_Done in Hrefs0 as [-> _].
  destruct x3.
  econstructor; simpl; eauto.
Qed.

End RebuildSteps.

(** * The shuffle of the sequences *)

Lemma isvalidforthisposition_Done rc0 w s b :
  isvalidforthisposition rc0 w s = Done b →
  ∃ c, vget rc0 w = Some c
       ∧ b = (windowbegin c <=? chunkindex s) && (chunkindex s <? windowend c).
Proof.
  unfold isvalidforthisposition, pcw_windowbegin, pcw_windowend. intros H.
  obind H as wb Hwb. obind H as we Hwe. injection H as <-.
  obind Hwb as c Hc. injection Hwb as <-.
  obind Hwe as c' Hc'. injection Hwe as <-.
  apply vat_Done in Hc, Hc'. simplify_eq. eauto.
Qed.

Lemma isvalidforthisposition_true rc0 w s :
  isvalidforthisposition rc0 w s = Done true → valid_at rc0 w s.
Proof.
  intros (c & Hc & Hb)%isvalidforthisposition_Done. exists c. split; [done|].
  symmetry in Hb. apply andb_true_iff in Hb as [H1 H2].
  apply N.leb_le in H1. apply N.ltb_lt in H2. done.
Qed.

Section ShuffleSequences.
Context {G : Type} (srand : N → G) (crand : G → N * G).

(** The loop of one position ends without a swap, with the position inside
    its own range, or with a swap that both positions allow. *)
Lemma pick_and_swap_Done fuel rc0 pcw i pb pe refs g refs' g' :
  pick_and_swap crand fuel rc0 pcw i pb pe refs g = Done (refs', g') →
  (refs' = refs ∧ pb ≤ i ∧ i < pe)
  ∨ (∃ j wi wj ri rj,
        i ≠ j ∧ vget pcw i = Some wi ∧ vget pcw j = Some wj
        ∧ vget refs i = Some ri ∧ vget refs j = Some rj
        ∧ valid_at rc0 wi rj ∧ valid_at rc0 wj ri
        ∧ refs' = vset (vset refs i rj) j ri).
Proof.
  revert g. induction fuel as [|fuel IH]; intros g H; [done|]. simpl in H.
  obind H as [j g1] Hrand. apply rand_Done in Hrand.
  destruct (i =? j) eqn:Eij.
  { apply N.eqb_eq in Eij as <-. injection H as <- <-. left. split; [done|]. lia. }
  apply N.eqb_neq in Eij.
  obind H as wi Hwi. obind H as rj Hrj. obind H as ok1 Hok1.
  destruct ok1; simpl in H; [|by eapply IH].
  obind H as wj Hwj. obind H as ri Hri. obind H as ok2 Hok2.
  destruct ok2; simpl in H; [|by eapply IH].
  obind H as refs2 Hswap. injection H as <- <-.
  apply vat_Done in Hwi, Hrj, Hwj, Hri.
  apply vswap_Done in Hswap as (a & b & Ha & Hb & ->).
  rewrite Hri in Ha. rewrite Hrj in Hb. injection Ha as <-. injection Hb as <-.
  right. exists j, wi, wj, ri, rj. split_and!; auto using isvalidforthisposition_true.
Qed.

Lemma pick_and_swap_Permutation fuel rc0 pcw i pb pe refs g refs' g' :
  pick_and_swap crand fuel rc0 pcw i pb pe refs g = Done (refs', g') → refs ≡ₚ refs'.
Proof.
  intros [[-> _] | (j & wi & wj & ri & rj & _ & _ & _ & Hi & Hj & _ & _ & ->)]%pick_and_swap_Done;
    [done|].
  apply (vswap_Permutation refs i j). unfold vswap, vat. by rewrite Hi, Hj.
Qed.

Lemma shuffle_sequences_Permutation fuel fm ac0 rc0 pcw sweep sweepts refs refs' :
  shuffle_sequences srand crand fuel fm ac0 rc0 pcw sweep sweepts refs = Done refs' →
  refs ≡ₚ refs'.
Proof.
  unfold shuffle_sequences. intros H. obind H as [r g] Hf. injection H as <-.
  apply (foldM_invariant (λ _ st, refs ≡ₚ st.1)) in Hf; [done|done|].
  intros done i rest [r0 g0] [r1 g1] _ Hperm Hstep. simpl in *.
  unfold shuffle_position in Hstep. obind Hstep as [pb pe] Hrange. simpl in Hstep.
  etrans; [done|]. by eapply pick_and_swap_Permutation.
Qed.

End ShuffleSequences.

(** * The pass that assigns the times *)

Lemma assign_time_Done fm ac0 rc0 refs t i refs' t' :
  assign_time fm ac0 rc0 (refs, t) i = Done (refs', t') →
  ∃ r, vget refs i = Some r
       ∧ refs' = vset refs i (with_time r (frames_of fm ac0 rc0 r) t)
       ∧ t' = SizeT.add t (frames_of fm ac0 rc0 r).
Proof.
  unfold assign_time. intros H. obind H as r Hr. obind H as nf Hnf. injection H as <- <-.
  apply vat_Done in Hr. exists r. split; [done|].
  assert (nf = frames_of fm ac0 rc0 r) as ->; [|done].
  unfold frames_of. destruct fm; [by injection Hnf|].
  obind Hnf as c Hc. obind Hnf as cd Hcd. apply vat_Done in Hc. rewrite Hc.
  apply getchunkdata_Done in Hcd as [_ ->].
  unfold cd_numframes in Hnf. obind Hnf as u Hu. injection Hnf as <-.
  apply vat_Done in Hu. by rewrite Hu.
Qed.

Lemma assign_times_Done fm ac0 rc0 sweepts refs refs' t :
  sweepts < SizeT.modulus →
  assign_times fm ac0 rc0 sweepts refs = Done (refs', t) →
  refs' = timed fm ac0 rc0 sweepts refs
  ∧ t = SizeT.wrap (sweepts + sumN (map (frames_of fm ac0 rc0) refs)).
Proof.
  intros Hs H. unfold assign_times in H.
  apply (foldM_invariant (λ done st,
           st.1 = take (length done) (timed fm ac0 rc0 sweepts refs) ++ drop (length done) refs
           ∧ st.2 = SizeT.wrap (sweepts + sumN (map (frames_of fm ac0 rc0)
                                                     (take (length done) refs))))) in H.
  - simpl in H. rewrite indices_length in H. destruct H as [-> ->].
    rewrite drop_all, app_nil_r, !firstn_all.
    rewrite take_ge; [done|]. unfold timed. by rewrite length_imap.
  - simpl. rewrite N.add_0_r, wrap_small by done. done.
  - clear H. intros done i rest [cur tc] [cur' tc'] Hsplit [Hcur Ht] Hstep. simpl in *.
    apply indices_split in Hsplit as [-> Hlt].
    apply assign_time_Done in Hstep as (r & Hr & -> & ->).
    set (n := length done) in *.
    assert (Hlen : length (take n (timed fm ac0 rc0 sweepts refs)) = n).
    { rewrite length_take. unfold timed. rewrite length_imap. lia. }
    assert (Hrn : refs !! n = Some r).
    { unfold vget in Hr. rewrite Nat2N.id, Hcur in Hr.
      rewrite lookup_app_r in Hr by lia. rewrite Hlen, Nat.sub_diag in Hr.
      rewrite lookup_drop in Hr. by rewrite Nat.add_0_r in Hr. }
    rewrite length_app. simpl. rewrite Nat.add_1_r.
    split.
    + unfold vset. rewrite Nat2N.id, Hcur.
      rewrite insert_app_r_alt by lia. rewrite Hlen, Nat.sub_diag.
      rewrite (drop_S _ _ _ Hrn). simpl.
      rewrite (take_S_r _ n (with_time r (frames_of fm ac0 rc0 r) tc)).
      * by rewrite <- app_assoc.
      * unfold timed. rewrite list_lookup_imap, Hrn. simpl. by rewrite Ht.
    + rewrite Ht, add_wrap_l. fold n. rewrite (take_S_r _ _ _ Hrn), map_app, sumN_app. simpl.
      f_equal. lia.
Qed.

Lemma timed_lookup fm ac0 rc0 sweepts refs p r' :
  timed fm ac0 rc0 sweepts refs !! p = Some r' →
  ∃ r, refs !! p = Some r
       ∧ r' = with_time r (frames_of fm ac0 rc0 r)
                (SizeT.wrap (sweepts + sumN (map (frames_of fm ac0 rc0) (take p refs)))).
Proof.
  unfold timed. rewrite list_lookup_imap.
  destruct (refs !! p) as [r|]; [|done]. intros [= <-]. eauto.
Qed.

Lemma timed_length fm ac0 rc0 sweepts refs :
  length (timed fm ac0 rc0 sweepts refs) = length refs.
Proof. unfold timed. apply length_imap. Qed.

Lemma timed_triples fm ac0 rc0 sweepts refs :
  map sr_triple (timed fm ac0 rc0 sweepts refs) = map sr_triple refs.
Proof.
  apply list_eq. intros p. rewrite !list_lookup_fmap.
  destruct (timed fm ac0 rc0 sweepts refs !! p) as [r'|] eqn:E.
  - apply timed_lookup in E as (r & -> & ->). done.
  - apply lookup_ge_None in E. rewrite timed_length in E.
    apply lookup_ge_None in E. by rewrite E.
Qed.

Lemma timed_chunkindex fm ac0 rc0 sweepts refs :
  map chunkindex (timed fm ac0 rc0 sweepts refs) = map chunkindex refs.
Proof.
  apply list_eq. intros p. rewrite !list_lookup_fmap.
  destruct (timed fm ac0 rc0 sweepts refs !! p) as [r'|] eqn:E.
  - apply timed_lookup in E as (r & -> & ->). done.
  - apply lookup_ge_None in E. rewrite timed_length in E.
    apply lookup_ge_None in E. by rewrite E.
Qed.

(** * The initial assignment is the catalog's enumeration *)

Lemma indices_snoc {A} (l : list A) x :
  indices (l ++ [x]) = indices l ++ [N.of_nat (length l)].
Proof.
  unfold indices. rewrite length_app. simpl. rewrite seq_app, map_app. done.
Qed.

Lemma indices_lt {A} (l : list A) i : i ∈ indices l → (N.to_nat i < length l)%nat.
Proof.
  unfold indices. intros (n & -> & Hn)%list_elem_of_fmap.
  apply elem_of_seq in Hn. lia.
Qed.

Lemma list_bind_ext_in {A B} (f g : A → list B) (l : list A) :
  (∀ x, x ∈ l → f x = g x) → l ≫= f = l ≫= g.
Proof.
  induction l as [|x l IH]; intros H; [done|].
  rewrite !bind_cons, H by apply list_elem_of_here.
  f_equal. apply IH. intros y Hy. apply H. by apply list_elem_of_further.
Qed.

(** A loop over a vector with its index is the loop over the indices. *)
Lemma concat_imap_indices {A B} (h : nat → A → list B) (l : list A) :
  concat (imap h l)
  = (i ← indices l; match vget l i with Some x => h (N.to_nat i) x | None => [] end).
Proof.
  induction l as [|x l IH] using rev_ind; [done|].
  rewrite imap_app, concat_app, indices_snoc, bind_app, bind_singleton. simpl.
  rewrite app_nil_r, Nat.add_0_r. f_equal.
  - rewrite IH. apply list_bind_ext_in. intros i Hi%indices_lt.
    unfold vget. by rewrite lookup_app_l.
  - unfold vget. rewrite Nat2N.id. by rewrite list_lookup_middle.
Qed.

Lemma map_as_bind {A B} (f : A → B) (l : list A) : map f l = (x ← l; [f x]).
Proof. induction l as [|x l IH]; [done|]. rewrite bind_cons. simpl. by rewrite IH. Qed.

Lemma seqs_catalog_triples fm ac0 rc0 :
  seqs fm (λ k i m, (k, i, m)) ac0 rc0 = catalog_triples fm ac0 rc0.
Proof.
  unfold seqs, catalog_triples. rewrite concat_imap_indices.
  apply list_bind_ext_in. intros k Hk%indices_lt.
  destruct (vget rc0 k) as [c|] eqn:Ec.
  2:{ apply lookup_ge_None in Ec. lia. }
  cbv zeta. rewrite N2Nat.id. unfold sequences_of_chunk. rewrite concat_imap_indices.
  apply list_bind_ext_in. intros i Hi%indices_lt.
  destruct (vget (utteranceset (cd_of ac0 c)) i) as [u|] eqn:Eu.
  2:{ apply lookup_ge_None in Eu. lia. }
  rewrite N2Nat.id. apply map_as_bind.
Qed.

Lemma indices_NoDup {A} (l : list A) : NoDup (indices l).
Proof.
  unfold indices. apply (NoDup_fmap_2 N.of_nat). apply NoDup_seq.
Qed.

Lemma N_range_NoDup n : NoDup (N_range n).
Proof.
  unfold N_range. apply (NoDup_fmap_2 N.of_nat). apply NoDup_seq.
Qed.

(** No chunk, utterance and frame is enumerated twice. *)
Lemma catalog_triples_NoDup fm ac0 rc0 : NoDup (catalog_triples fm ac0 rc0).
Proof.
  unfold catalog_triples. apply NoDup_bind; [| |apply indices_NoDup].
  { intros k1 k2 [[k i] m] _ _ H1 H2.
    apply list_elem_of_bind in H1 as (i1 & H1 & _), H2 as (i2 & H2 & _).
    apply list_elem_of_bind in H1 as (m1 & H1 & _), H2 as (m2 & H2 & _).
    apply list_elem_of_singleton in H1, H2. congruence. }
  intros k _. apply NoDup_bind; [| |apply indices_NoDup].
  { intros i1 i2 [[k' i] m] _ _ H1 H2.
    apply list_elem_of_bind in H1 as (m1 & H1 & _), H2 as (m2 & H2 & _).
    apply list_elem_of_singleton in H1, H2. congruence. }
  intros i _. apply NoDup_bind; [| |apply N_range_NoDup].
  { intros m1 m2 [[k' i'] m] _ _ H1 H2.
    apply list_elem_of_singleton in H1, H2. congruence. }
  intros m _. apply NoDup_singleton.
Qed.

(** * Positions and their defining chunks *)

Lemma firstpos_app_le fm ac0 rc0 l k :
  (k ≤ length rc0)%nat → firstpos fm ac0 (rc0 ++ l) k = firstpos fm ac0 rc0 k.
Proof. intros Hk. unfold firstpos. by rewrite take_app_le. Qed.

Lemma firstpos_length {A} fm (f : N → N → N → A) ac0 rc0 :
  firstpos fm ac0 rc0 (length rc0) = N.of_nat (length (seqs fm f ac0 rc0)).
Proof. by rewrite seqs_length. Qed.

Lemma firstpos_S fm ac0 rc0 k c :
  rc0 !! k = Some c →
  firstpos fm ac0 rc0 (S k) = firstpos fm ac0 rc0 k + numseq fm (cd_of ac0 c).
Proof.
  intros Hk. unfold firstpos. rewrite (take_S_r _ _ _ Hk), map_app, sumN_app. simpl. lia.
Qed.

Lemma firstpos_mono fm ac0 rc0 a b :
  (a ≤ b)%nat → firstpos fm ac0 rc0 a ≤ firstpos fm ac0 rc0 b.
Proof.
  intros Hab. unfold firstpos. rewrite <- !firstn_map. by apply sumN_take_le.
Qed.

Lemma firstpos_le_total fm ac0 rc0 a :
  firstpos fm ac0 rc0 a ≤ firstpos fm ac0 rc0 (length rc0).
Proof.
  destruct (decide (a ≤ length rc0)%nat); [by apply firstpos_mono|].
  unfold firstpos. rewrite !take_ge by lia. lia.
Qed.

Lemma sequences_of_chunk_const fm k0 cd x :
  x ∈ sequences_of_chunk fm (λ k _ _, k) k0 cd → x = k0.
Proof.
  change (sequences_of_chunk fm (λ k _ _, k) k0 cd)
    with (sequences_of_chunk fm (λ k i m, (λ _ : unit, k0) ((λ _ _ _, tt) k i m)) k0 cd).
  rewrite sequences_of_chunk_map. intros (y & -> & _)%list_elem_of_fmap. done.
Qed.

(** Position [p] is defined by the chunk whose range of positions holds it. *)
Lemma pcw_lookup fm ac0 rc0 p w :
  seqs fm (λ k _ _, k) ac0 rc0 !! p = Some w →
  ∃ k c, w = N.of_nat k ∧ rc0 !! k = Some c
         ∧ firstpos fm ac0 rc0 k ≤ N.of_nat p
         ∧ N.of_nat p < firstpos fm ac0 rc0 (S k).
Proof.
  induction rc0 as [|c rc0 IH] using rev_ind; [by intros H; cbn in H|].
  rewrite seqs_snoc. intros [Hl | [Hge Hr]]%lookup_app_Some.
  - destruct (IH Hl) as (k & c0 & -> & Hk & Hlo & Hhi).
    pose proof (lookup_lt_Some _ _ _ Hk).
    exists k, c0. rewrite !firstpos_app_le by lia.
    split_and!; auto. by apply lookup_app_l_Some.
  - pose proof (lookup_lt_Some _ _ _ Hr) as Hlt.
    apply list_elem_of_lookup_2, sequences_of_chunk_const in Hr as ->.
    exists (length rc0), c. split; [done|]. split; [by rewrite list_lookup_middle|].
    rewrite firstpos_app_le by lia.
    rewrite (firstpos_length fm (λ k _ _, k)).
    replace (S (length rc0)) with (length (rc0 ++ [c])) by (rewrite length_app; simpl; lia).
    rewrite (firstpos_length fm (λ k _ _, k)), seqs_snoc, length_app. lia.
Qed.

(** * The timeline in positions *)

Lemma firstpos_frames ac0 rc0 k :
  Forall (λ c, chunk_wf (cd_of ac0 c)) rc0 →
  firstpos true ac0 rc0 k = sumN (map (λ c, totalframes (cd_of ac0 c)) (take k rc0)).
Proof.
  intros Hwf. unfold firstpos.
  pose proof (Forall_take _ k _ Hwf) as H. revert H. generalize (take k rc0).
  intros l H. induction H as [|c l Hc _ IH]; [done|].
  cbn [map sumN foldr]. unfold sumN in IH. rewrite IH.
  unfold numseq. unfold chunk_wf in Hc. by rewrite Hc.
Qed.

Lemma firstpos_utterances ac0 rc0 k :
  firstpos false ac0 rc0 k = sumN (map (λ c, cd_numutterances (cd_of ac0 c)) (take k rc0)).
Proof. done. Qed.

(** The first and the last position of a chunk, as the code computes them. *)
Lemma chunk_posbegin fm ac0 rc0 sweepts k c :
  Forall (λ c, chunk_wf (cd_of ac0 c)) rc0 →
  timeline ac0 sweepts rc0 →
  positions_fit fm ac0 rc0 sweepts →
  rc0 !! k = Some c →
  (if fm then SizeT.sub (globalts c) sweepts else utteranceposbegin c)
  = firstpos fm ac0 rc0 k.
Proof.
  intros Hwf Htl Hfit Hk. destruct (Htl k c Hk) as [Hg Hu].
  pose proof (firstpos_le_total fm ac0 rc0 k) as Hle.
  unfold positions_fit in Hfit. destruct fm.
  - rewrite <- firstpos_frames in Hg by done.
    rewrite wrap_small in Hg by lia. rewrite Hg, sub_small by lia. lia.
  - rewrite <- firstpos_utterances in Hu. by rewrite wrap_small in Hu by lia.
Qed.

Lemma chunk_posend fm ac0 rc0 sweepts k c :
  Forall (λ c, chunk_wf (cd_of ac0 c)) rc0 →
  timeline ac0 sweepts rc0 →
  positions_fit fm ac0 rc0 sweepts →
  rc0 !! k = Some c →
  (if fm then SizeT.sub (SizeT.add (globalts c) (totalframes (cd_of ac0 c))) sweepts
   else SizeT.add (utteranceposbegin c) (cd_numutterances (cd_of ac0 c)))
  = firstpos fm ac0 rc0 (S k).
Proof.
  intros Hwf Htl Hfit Hk. destruct (Htl k c Hk) as [Hg Hu].
  pose proof (firstpos_le_total fm ac0 rc0 (S k)) as Hle.
  pose proof (firstpos_S fm ac0 rc0 k c Hk) as HS.
  assert (Hc : chunk_wf (cd_of ac0 c)).
  { rewrite Forall_forall in Hwf. apply Hwf. by eapply list_elem_of_lookup_2. }
  unfold positions_fit in Hfit. destruct fm.
  - rewrite <- firstpos_frames in Hg by done.
    rewrite Hg, add_wrap_l. unfold numseq in HS. unfold chunk_wf in Hc. rewrite <- Hc in HS.
    rewrite wrap_small by lia. rewrite sub_small by lia. lia.
  - rewrite <- firstpos_utterances in Hu.
    rewrite Hu, add_wrap_l. unfold numseq in HS. rewrite wrap_small by lia. lia.
Qed.

(** The range of positions that [position_range] gives for a position. *)
Lemma position_range_Done fm ac0 rc0 sweepts pcw i pb pe :
  Forall (λ c, chunk_wf (cd_of ac0 c)) rc0 →
  timeline ac0 sweepts rc0 →
  positions_fit fm ac0 rc0 sweepts →
  position_range fm ac0 rc0 pcw sweepts i = Done (pb, pe) →
  ∃ w cw kb ke,
    vget pcw i = Some w ∧ vget rc0 w = Some cw
    ∧ windowbegin cw = N.of_nat kb ∧ SizeT.sub (windowend cw) 1 = N.of_nat ke
    ∧ (kb < length rc0)%nat ∧ (ke < length rc0)%nat
    ∧ pb = firstpos fm ac0 rc0 kb ∧ pe = firstpos fm ac0 rc0 (S ke).
Proof.
  intros Hwf Htl Hfit.
  unfold position_range, pcw_windowbegin, pcw_windowend. intros H.
  obind H as w Hw. obind H as wb Hwb. obind H as we Hwe.
  obind H as cb Hcb. obind H as ce Hce.
  obind Hwb as cw Hcw. injection Hwb as <-.
  obind Hwe as cw' Hcw'. injection Hwe as <-.
  apply vat_Done in Hw, Hcw, Hcw', Hcb, Hce. simplify_eq.
  exists w, cw, (N.to_nat (windowbegin cw)), (N.to_nat (SizeT.sub (windowend cw) 1)).
  rewrite !N2Nat.id.
  pose proof (lookup_lt_Some _ _ _ Hcb). pose proof (lookup_lt_Some _ _ _ Hce).
  pose proof (chunk_posbegin fm _ _ _ _ _ Hwf Htl Hfit Hcb) as Hb.
  pose proof (chunk_posend fm _ _ _ _ _ Hwf Htl Hfit Hce) as He.
  split_and!; auto.
  - destruct fm; obind H as te Hte; injection H as <- <-; done.
  - destruct fm; obind H as te Hte; injection H as <- <-.
    + apply globalte_Done in Hte as [-> _]. done.
    + apply utteranceposend_Done in Hte as [-> _]. done.
Qed.

(** A position that lies in its own range of positions is defined by a chunk
    that lies in its own window. *)
Lemma own_window fm ac0 rc0 sweepts i pb pe w :
  Forall (λ c, chunk_wf (cd_of ac0 c)) rc0 →
  timeline ac0 sweepts rc0 →
  positions_fit fm ac0 rc0 sweepts →
  vsize rc0 < SizeT.modulus →
  position_range fm ac0 rc0 (seqs fm (λ k _ _, k) ac0 rc0) sweepts i = Done (pb, pe) →
  vget (seqs fm (λ k _ _, k) ac0 rc0) i = Some w →
  pb ≤ i → i < pe →
  ∃ cw, vget rc0 w = Some cw ∧ windowbegin cw ≤ w ∧ w < windowend cw.
Proof.
  intros Hwf Htl Hfit Hsize Hrange Hw Hlo Hhi.
  apply position_range_Done in Hrange
    as (w' & cw & kb & ke & Hw' & Hcw & Hkb & Hke & Hkbl & Hkel & -> & ->); [|done..].
  rewrite Hw in Hw'. injection Hw' as <-.
  apply pcw_lookup in Hw as (k & c & -> & Hk & Hklo & Hkhi).
  rewrite N2Nat.id in Hklo, Hkhi.
  exists cw. split; [done|].
  assert (kb ≤ k)%nat.
  { destruct (decide (kb ≤ k)%nat); [done|].
    pose proof (firstpos_mono fm ac0 rc0 (S k) kb). lia. }
  assert (k ≤ ke)%nat.
  { destruct (decide (k ≤ ke)%nat); [done|].
    pose proof (firstpos_mono fm ac0 rc0 (S ke) k). lia. }
  split; [lia|].
  destruct (decide (windowend cw = 0)) as [Hz|Hnz].
  - rewrite Hz, sub_zero_one in Hke. unfold vsize in Hsize. lia.
  - pose proof (sub_one_le (windowend cw)). lia.
Qed.

(** * The shuffle keeps every sequence inside the window of its position *)

Lemma vget_vset_eq {A} (v : list A) i a : i < vsize v → vget (vset v i a) i = Some a.
Proof. intros H. rewrite vget_vset. rewrite decide_True by done. by rewrite decide_True. Qed.

Lemma vget_vset_ne {A} (v : list A) i j a : i ≠ j → vget (vset v i a) j = vget v j.
Proof. intros H. rewrite vget_vset. by rewrite decide_False. Qed.

Section ShuffleValid.
Context {G : Type} (srand : N → G) (crand : G → N * G).

Lemma shuffle_sequences_valid fuel fm ac0 rc0 sweep sweepts refs' :
  Forall (λ c, chunk_wf (cd_of ac0 c)) rc0 →
  timeline ac0 sweepts rc0 →
  positions_fit fm ac0 rc0 sweepts →
  vsize rc0 < SizeT.modulus →
  shuffle_sequences srand crand fuel fm ac0 rc0 (seqs fm (λ k _ _, k) ac0 rc0) sweep sweepts
    (seqs fm mk_sequenceref ac0 rc0) = Done refs' →
  all_valid rc0 (seqs fm (λ k _ _, k) ac0 rc0) refs'.
Proof.
  intros Hwf Htl Hfit Hsize Hshuf.
  pose proof (shuffle_sequences_Permutation _ _ _ _ _ _ _ _ _ _ _ Hshuf) as Hperm.
  apply Permutation_length in Hperm.
  set (pcw := seqs fm (λ k _ _, k) ac0 rc0) in *.
  set (refs0 := seqs fm mk_sequenceref ac0 rc0) in *.
  unfold shuffle_sequences in Hshuf. obind Hshuf as [r g] Hf. injection Hshuf as <-.
  set (P := λ (done : list N) (st : list sequenceref * G),
           ∀ p r, vget st.1 p = Some r →
             ∃ w, vget pcw p = Some w
                  ∧ (valid_at rc0 w r ∨ (N.of_nat (length done) ≤ p ∧ chunkindex r = w))).
  assert (HP : P (indices refs0) (r, g)); [eapply (foldM_invariant P); [| |exact Hf]|];
    unfold P in *; clear P.
  3:{ intros p r' Hp. destruct (HP p r' Hp) as (w & Hw & [Hv | [Hge _]]); [by eauto|].
      rewrite indices_length in Hge. apply vget_lt in Hp. unfold vsize in Hp. lia. }
  - simpl. intros p r' Hp. exists (chunkindex r'). split; [|right; split; [lia|done]].
    unfold pcw.
    change (seqs fm (λ k _ _, k) ac0 rc0)
      with (seqs fm (λ k i m, chunkindex (mk_sequenceref k i m)) ac0 rc0).
    rewrite seqs_map. fold refs0. unfold vget in *. rewrite list_lookup_fmap.
    change (refs0 !! N.to_nat p) with (refs0 !! N.to_nat p). by rewrite Hp.
  - clear Hf. intros done i rest [cur g0] [cur' g1] Hsplit Hinv Hstep. simpl in *.
    apply indices_split in Hsplit as [-> Hlt].
    unfold shuffle_position in Hstep. obind Hstep as [pb pe] Hrange. simpl in Hstep.
    rewrite length_app. simpl.
    apply pick_and_swap_Done in Hstep
      as [(-> & Hlo & Hhi) | (j & wi & wj & ri & rj & Hne & Hwi & Hwj & Hri & Hrj & Hvi & Hvj & ->)].
    + intros p r' Hp. destruct (Hinv p r' Hp) as (w & Hw & [Hv | [Hge Hci]]); [by eauto|].
      exists w. split; [done|].
      destruct (decide (p = N.of_nat (length done))) as [->|Hnp]; [|right; split; [lia|done]].
      left.
      destruct (own_window fm ac0 rc0 sweepts _ pb pe w Hwf Htl Hfit Hsize Hrange Hw Hlo Hhi)
        as (cw & Hcw & H1 & H2).
      exists cw. rewrite Hci. done.
    + intros p r' Hp.
      pose proof (vget_lt _ _ _ Hri) as Hilt. pose proof (vget_lt _ _ _ Hrj) as Hjlt.
      destruct (decide (j = p)) as [<-|Hjp].
      { rewrite vget_vset_eq in Hp by by rewrite vsize_vset. injection Hp as <-. eauto. }
      rewrite vget_vset_ne in Hp by done.
      destruct (decide (N.of_nat (length done) = p)) as [<-|Hip].
      { rewrite vget_vset_eq in Hp by done. injection Hp as <-. eauto. }
      rewrite vget_vset_ne in Hp by done.
      destruct (Hinv p r' Hp) as (w & Hw & [Hv | [Hge Hci]]); [by eauto|].
      exists w. split; [done|]. right. split; [lia|done].
Qed.

End ShuffleValid.

(** * The self-checks pass on such a shuffle *)

Lemma foldM_unit_Done {A} (f : unit → A → outcome unit) (l : list A) :
  (∀ a, a ∈ l → f tt a = Done tt) → foldM f l tt = Done tt.
Proof.
  induction l as [|a l IH]; intros H; [done|]. simpl.
  rewrite H by apply list_elem_of_here. simpl. apply IH.
  intros b Hb. apply H. by apply list_elem_of_further.
Qed.

Lemma verify_positions_valid rc0 pcw refs :
  all_valid rc0 pcw refs → verify_positions rc0 pcw refs = Done tt.
Proof.
  intros Hv. unfold verify_positions. apply foldM_unit_Done.
  intros i Hi%indices_lt. unfold verify_position.
  destruct (vget_is_Some refs i) as [r Hr]; [unfold vsize; lia|].
  destruct (Hv i r Hr) as (w & Hw & c & Hc & H1 & H2).
  unfold vat, pcw_windowbegin, pcw_windowend, vat. rewrite Hr, Hw. simpl. rewrite Hc. simpl.
  apply N.ltb_ge in H1. apply N.leb_gt in H2. by rewrite H1, H2.
Qed.

Lemma verify_positions_Done rc0 pcw refs :
  verify_positions rc0 pcw refs = Done tt → all_valid rc0 pcw refs.
Proof.
  intros H p r Hp. unfold verify_positions in H.
  assert (Hin : p ∈ indices refs).
  { unfold indices. apply list_elem_of_fmap. exists (N.to_nat p).
    split; [lia|]. apply elem_of_seq. apply vget_lt in Hp. unfold vsize in Hp. lia. }
  apply list_elem_of_split in Hin as (l1 & l2 & Hsplit).
  rewrite Hsplit, foldM_app in H. obind H as u1 H1. simpl in H. obind H as u2 H2.
  clear H H1. unfold verify_position in H2.
  obind H2 as r' Hr'. obind H2 as w Hw. obind H2 as wb Hwb. obind H2 as we Hwe.
  apply vat_Done in Hr', Hw. rewrite Hp in Hr'. injection Hr' as <-.
  unfold pcw_windowbegin in Hwb. unfold pcw_windowend in Hwe.
  obind Hwb as c Hc. injection Hwb as <-. obind Hwe as c' Hc'. injection Hwe as <-.
  apply vat_Done in Hc, Hc'. rewrite Hc in Hc'. injection Hc' as <-.
  destruct ((chunkindex r <? windowbegin c) || (windowend c <=? chunkindex r)) eqn:E; [done|].
  apply orb_false_iff in E as [E1 E2]. apply N.ltb_ge in E1. apply N.leb_gt in E2.
  exists w. split; [done|]. exists c. done.
Qed.

(** * The second self-check *)

Lemma recheck_sequence_Done refs wb we t u r :
  vget refs t = Some r → wb ≤ chunkindex r → chunkindex r < we →
  recheck_sequence refs wb we t u = Done (SizeT.add t 1).
Proof.
  intros Hr H1 H2. unfold recheck_sequence, vat. rewrite Hr. simpl.
  apply N.ltb_ge in H1. apply N.leb_gt in H2. by rewrite H1, H2.
Qed.

Lemma recheck_sequences_Done refs wb we (l : list unit) t :
  t + N.of_nat (length l) < SizeT.modulus →
  (∀ q, (q < length l)%nat →
     ∃ r, vget refs (t + N.of_nat q) = Some r ∧ wb ≤ chunkindex r ∧ chunkindex r < we) →
  foldM (recheck_sequence refs wb we) l t = Done (t + N.of_nat (length l)).
Proof.
  revert t. induction l as [|u l IH]; intros t Hfit Hall.
  - simpl. f_equal. lia.
  - cbn [foldM].
    destruct (Hall 0%nat) as (r & Hr & H1 & H2); [simpl; lia|].
    rewrite N.add_0_r in Hr. rewrite (recheck_sequence_Done _ _ _ _ _ r) by done.
    cbn [mbind outcome_bind].
    simpl in Hfit. rewrite add_small by lia.
    rewrite IH.
    + f_equal. simpl. lia.
    + lia.
    + intros q Hq. destruct (Hall (S q)) as (r' & Hr' & H3); [simpl; lia|].
      exists r'. split; [|done]. rewrite <- Hr'. f_equal. lia.
Qed.

Lemma indices_take {A} (l : list A) k :
  (k ≤ length l)%nat → indices (take k l) = take k (indices l).
Proof.
  intros Hk. unfold indices. rewrite length_take_le by done.
  rewrite firstn_map. f_equal. by rewrite take_seq, Nat.min_l.
Qed.

Lemma pcw_unique fm ac0 rc0 p w k :
  seqs fm (λ k _ _, k) ac0 rc0 !! p = Some w →
  firstpos fm ac0 rc0 k ≤ N.of_nat p → N.of_nat p < firstpos fm ac0 rc0 (S k) →
  w = N.of_nat k.
Proof.
  intros (k' & c & -> & Hk' & Hlo & Hhi)%pcw_lookup Hlo' Hhi'. f_equal.
  destruct (decide (k' < k)%nat).
  { pose proof (firstpos_mono fm ac0 rc0 (S k') k). lia. }
  destruct (decide (k < k')%nat).
  { pose proof (firstpos_mono fm ac0 rc0 (S k) k'). lia. }
  lia.
Qed.

Lemma recheck_Done fm ac0 rc0 refs :
  resolved ac0 rc0 →
  all_valid rc0 (seqs fm (λ k _ _, k) ac0 rc0) refs →
  vsize refs = firstpos fm ac0 rc0 (length rc0) →
  vsize refs < SizeT.modulus →
  recheck fm ac0 rc0 refs = Done (vsize refs).
Proof.
  intros Hres Hvalid Hlen Hfit. unfold recheck.
  assert (Hgen : ∀ k, (k ≤ length rc0)%nat →
            foldM (recheck_chunk fm ac0 rc0 refs) (take k (indices rc0)) 0
            = Done (firstpos fm ac0 rc0 k)).
  { induction k as [|k IH]; intros Hk; [done|].
    assert (Hik : indices rc0 !! k = Some (N.of_nat k)).
    { unfold indices. rewrite list_lookup_fmap, lookup_seq_lt by lia. done. }
    rewrite (take_S_r _ _ _ Hik), foldM_app, IH by lia. cbn [mbind outcome_bind foldM].
    destruct (lookup_lt_is_Some_2 rc0 k) as [c Hc]; [lia|].
    unfold recheck_chunk, vat, vget. rewrite Nat2N.id, Hc. cbn [mbind outcome_bind].
    assert (Hcd : getchunkdata ac0 c = Done (cd_of ac0 c)).
    { unfold resolved in Hres. rewrite Forall_forall in Hres.
      destruct (Hres c) as [cd Hcd]; [by eapply list_elem_of_lookup_2|].
      unfold getchunkdata, vat, cd_of, chunk_at. by rewrite Hcd. }
    rewrite Hcd. cbn [mbind outcome_bind].
    pose proof (firstpos_S fm ac0 rc0 k c Hc) as HS.
    pose proof (firstpos_le_total fm ac0 rc0 (S k)) as Hle.
    pose proof (sequences_of_chunk_length fm (λ _ _ _, tt) (N.of_nat k) (cd_of ac0 c)) as Hn.
    rewrite recheck_sequences_Done.
    - cbn [mbind outcome_bind foldM]. f_equal. lia.
    - lia.
    - intros q Hq.
      destruct (vget_is_Some refs (firstpos fm ac0 rc0 k + N.of_nat q)) as [r Hr]; [lia|].
      exists r. split; [done|].
      destruct (Hvalid _ _ Hr) as (w & Hw & cw & Hcw & H1 & H2).
      unfold vget in Hw.
      apply (pcw_unique _ _ _ _ _ k) in Hw as ->; [|lia..].
      unfold vget in Hcw. rewrite Nat2N.id, Hc in Hcw. injection Hcw as <-. done. }
  specialize (Hgen (length rc0)).
  rewrite take_ge in Hgen by (rewrite indices_length; lia).
  rewrite Hgen, Hlen by lia. done.
Qed.

(** * Steps that raise no logic error *)

Lemma nle_Done {A} (a : A) : no_logic_error (Done a).
Proof. by intros e. Qed.

Lemma nle_bind {A B} (m : outcome A) (f : A → outcome B) :
  no_logic_error m → (∀ a, m = Done a → no_logic_error (f a)) → no_logic_error (m ≫= f).
Proof.
  intros Hm Hf e H. apply bind_Fail in H as [H | (a & Ha & H)].
  - by apply (Hm e).
  - by apply (Hf a Ha e).
Qed.

Lemma nle_vat {A} (v : list A) i : no_logic_error (vat v i).
Proof. unfold vat. by destruct (vget v i); intros e. Qed.

Lemma nle_assert ndebug b : no_logic_error (assert ndebug b).
Proof. unfold assert. by destruct ndebug, b; intros e. Qed.

Lemma nle_foldM {A B} (f : B → A → outcome B) l b :
  (∀ b a, no_logic_error (f b a)) → no_logic_error (foldM f l b).
Proof.
  intros Hf. revert b. induction l as [|a l IH]; intros b; [apply nle_Done|].
  simpl. apply nle_bind; [apply Hf|]. intros b' _. apply IH.
Qed.

Lemma nle_mapO {A B} (f : A → outcome B) l :
  (∀ a, no_logic_error (f a)) → no_logic_error (mapO f l).
Proof.
  intros Hf. induction l as [|a l IH]; [apply nle_Done|].
  simpl. apply nle_bind; [apply Hf|]. intros b _.
  apply nle_bind; [apply IH|]. intros bs _. apply nle_Done.
Qed.

Ltac nle_step :=
  lazymatch goal with
  | |- no_logic_error (Done _) => apply nle_Done
  | |- no_logic_error (Fail _) => by intros ?
  | |- no_logic_error (throw _) => by intros ?
  | |- no_logic_error (mbind _ _) => apply nle_bind; [|intros ? ?]
  | |- no_logic_error (foldM _ _ _) => apply nle_foldM; intros ? ?
  | |- no_logic_error (mapO _ _) => apply nle_mapO; intros ?
  | |- no_logic_error (vat _ _) => apply nle_vat
  | |- no_logic_error (assert _ _) => apply nle_assert
  | |- no_logic_error (if ?b then _ else _) => destruct b
  | |- no_logic_error (match ?x with _ => _ end) => destruct x
  end.
Ltac nle := repeat nle_step.

Lemma nle_getchunkdata ac c : no_logic_error (getchunkdata ac c).
Proof. unfold getchunkdata. nle. Qed.

Lemma nle_globalte ac c : no_logic_error (globalte ac c).
Proof. unfold globalte, chunk_numframes. nle; apply nle_getchunkdata. Qed.

Lemma nle_utteranceposend ac c : no_logic_error (utteranceposend ac c).
Proof. unfold utteranceposend, chunk_numutterances. nle; apply nle_getchunkdata. Qed.

Lemma nle_isvalid rc0 w s : no_logic_error (isvalidforthisposition rc0 w s).
Proof. unfold isvalidforthisposition, pcw_windowbegin, pcw_windowend. nle. Qed.

Lemma nle_vswap {A} (v : list A) i j : no_logic_error (vswap v i j).
Proof. unfold vswap. nle. Qed.

Section NoLogicError.
Context {G : Type} (srand : N → G) (crand : G → N * G) (RAND_MAX : N) (ndebug : bool).

Lemma nle_assertM c : no_logic_error c → no_logic_error (assertM ndebug c).
Proof. intros Hc. unfold assertM. nle. done. Qed.

Lemma nle_rand g b e : no_logic_error (rand crand g b e).
Proof. unfold rand. destruct (e <=? b); [by intros ?|]. destruct (crand g). apply nle_Done. Qed.

Lemma nle_randomshuffle {A} (v : list A) seed :
  no_logic_error (randomshuffle srand crand RAND_MAX v seed).
Proof.
  unfold randomshuffle. destruct (_ <? _); [by intros ?|].
  apply nle_bind; [|intros [v' g'] _; apply nle_Done].
  apply nle_foldM. intros [w g] i. unfold randomshuffle_step.
  apply nle_bind; [apply nle_rand|]. intros [j g1] _.
  destruct (j =? i); [apply nle_Done|].
  apply nle_bind; [apply nle_vswap|]. intros; apply nle_Done.
Qed.

Lemma nle_randomize_chunkrefs ac sweep :
  no_logic_error (randomize_chunkrefs srand crand RAND_MAX ndebug ac sweep).
Proof.
  unfold randomize_chunkrefs. nle; [apply nle_assertM, nle_Done|apply nle_randomshuffle].
Qed.

Lemma nle_place_chunks ac refs sweepts : no_logic_error (place_chunks ac refs sweepts).
Proof.
  unfold place_chunks. nle. unfold place_chunk.
  nle; auto using nle_utteranceposend, nle_globalte.
Qed.

Lemma nle_placed_ok tf nu ac sweepts rc : no_logic_error (placed_ok tf nu ac sweepts rc).
Proof. unfold placed_ok. nle; auto using nle_utteranceposend, nle_globalte. Qed.

Lemma nle_advance_windowbegin fuel rc gts half wb :
  no_logic_error (advance_windowbegin fuel rc gts half wb).
Proof.
  revert wb. induction fuel as [|fuel IH]; intros wb; simpl; [by intros ?|].
  nle. apply IH.
Qed.

Lemma nle_advance_windowend fuel ac rc gts half we :
  no_logic_error (advance_windowend fuel ac rc gts half we).
Proof.
  revert we. induction fuel as [|fuel IH]; intros we; simpl; [by intros ?|].
  nle; [apply nle_globalte|apply IH].
Qed.

Lemma nle_compute_windows ac range rc : no_logic_error (compute_windows ac range rc).
Proof.
  unfold compute_windows. nle. unfold compute_window.
  nle; auto using nle_advance_windowbegin, nle_advance_windowend.
Qed.

Lemma nle_enumerate_sequences {A} fm (f : N → N → N → A) ac0 rc0 :
  no_logic_error (enumerate_sequences fm f ac0 rc0).
Proof.
  unfold enumerate_sequences. nle. unfold enumerate_step. nle. apply nle_getchunkdata.
Qed.

Lemma nle_check_setup rc0 pcw refs : no_logic_error (check_setup ndebug rc0 pcw refs).
Proof. unfold check_setup. nle. apply nle_assertM. nle. apply nle_isvalid. Qed.

Lemma nle_pick_and_swap fuel rc0 pcw i pb pe refs g :
  no_logic_error (pick_and_swap crand fuel rc0 pcw i pb pe refs g).
Proof.
  revert g. induction fuel as [|fuel IH]; intros g; simpl; [by intros ?|].
  apply nle_bind; [apply nle_rand|]. intros [j g'] _.
  nle; auto using nle_isvalid, nle_vswap.
Qed.

Lemma nle_position_range fm ac0 rc0 pcw sweepts i :
  no_logic_error (position_range fm ac0 rc0 pcw sweepts i).
Proof.
  unfold position_range, pcw_windowbegin, pcw_windowend.
  nle; auto using nle_utteranceposend, nle_globalte.
Qed.

Lemma nle_shuffle_sequences fuel fm ac0 rc0 pcw sweep sweepts refs :
  no_logic_error (shuffle_sequences srand crand fuel fm ac0 rc0 pcw sweep sweepts refs).
Proof.
  unfold shuffle_sequences. nle. unfold shuffle_position.
  apply nle_bind; [apply nle_position_range|]. intros [pb pe] _. apply nle_pick_and_swap.
Qed.

Lemma nle_assign_times fm ac0 rc0 sweepts refs :
  no_logic_error (assign_times fm ac0 rc0 sweepts refs).
Proof.
  unfold assign_times. nle. unfold assign_time. destruct b.
  nle. - apply nle_getchunkdata. - unfold cd_numframes. nle.
Qed.

End NoLogicError.

(** * The randomized chunks are the catalog's chunks *)

Lemma chunk_at_indices ac : map (chunk_at ac) (indices ac) = ac.
Proof.
  apply list_eq. intros i. unfold indices. rewrite !list_lookup_fmap.
  destruct (ac !! i) as [cd|] eqn:E.
  - rewrite lookup_seq_lt by (by eapply lookup_lt_Some). simpl.
    unfold chunk_at, vget. by rewrite Nat2N.id, E.
  - rewrite lookup_seq_ge by (by apply lookup_ge_None). done.
Qed.

Lemma firstpos_total fm ac0 rc0 :
  map uttchunkdata rc0 ≡ₚ indices ac0 →
  firstpos fm ac0 rc0 (length rc0) = sumN (map (numseq fm) ac0).
Proof.
  intros Hperm. unfold firstpos. rewrite firstn_all.
  transitivity (sumN (map (λ ref, numseq fm (chunk_at ac0 ref)) (indices ac0))).
  - change (map (λ c, numseq fm (cd_of ac0 c)) rc0)
      with (map (λ c, (λ ref, numseq fm (chunk_at ac0 ref)) (uttchunkdata c)) rc0).
    rewrite <- (map_map uttchunkdata (λ ref, numseq fm (chunk_at ac0 ref))).
    apply sumN_Permutation. by apply Permutation_map.
  - rewrite <- (map_map (chunk_at ac0) (numseq fm)). by rewrite chunk_at_indices.
Qed.

Lemma chunk_wf_cd_of ac0 rc0 :
  Forall chunk_wf ac0 → Forall (λ c, chunk_wf (cd_of ac0 c)) rc0.
Proof.
  intros Hwf. apply Forall_forall. intros c _. unfold cd_of, chunk_at.
  destruct (vget ac0 (uttchunkdata c)) as [cd|] eqn:E; simpl; [|done].
  rewrite Forall_forall in Hwf. apply Hwf. by eapply list_elem_of_lookup_2.
Qed.

Lemma same_place_uttchunkdata rc rc' :
  Forall2 same_place rc rc' → map uttchunkdata rc = map uttchunkdata rc'.
Proof. induction 1 as [|c c' rc rc' (Hu & _) _ IH]; simpl; congruence. Qed.

Lemma all_valid_timed rc0 pcw fm ac0 sweepts refs :
  all_valid rc0 pcw refs → all_valid rc0 pcw (timed fm ac0 rc0 sweepts refs).
Proof.
  intros Hv p r' Hp. unfold vget in Hp.
  apply timed_lookup in Hp as (r & Hr & ->).
  destruct (Hv p r Hr) as (w & Hw & c & Hc & H1 & H2). exists w. split; [done|].
  exists c. done.
Qed.

(** * What a rebuild establishes *)

Section Core.
Context {G : Type} (srand : N → G) (crand : G → N * G) (RAND_MAX : N) (ndebug : bool).

Lemma rebuild_core fuel fm T nu range sweep ac0 chunkrefs placed rc0 shuffled refs' t :
  Forall chunk_wf ac0 →
  T = stream_frames ac0 → nu = stream_utterances ac0 →
  (sweep + 1) * T < SizeT.modulus → nu < SizeT.modulus → vsize ac0 < SizeT.modulus →
  randomize_chunkrefs srand crand RAND_MAX ndebug ac0 sweep = Done chunkrefs →
  place_chunks ac0 chunkrefs (SizeT.mul sweep T) = Done placed →
  compute_windows ac0 range placed = Done rc0 →
  shuffle_sequences srand crand fuel fm ac0 rc0 (seqs fm (λ k _ _, k) ac0 rc0) sweep
    (SizeT.mul sweep T) (seqs fm mk_sequenceref ac0 rc0) = Done shuffled →
  assign_times fm ac0 rc0 (SizeT.mul sweep T) shuffled = Done (refs', t) →
  SizeT.mul sweep T = sweep * T
  ∧ all_valid rc0 (seqs fm (λ k _ _, k) ac0 rc0) refs'
  ∧ vsize refs' = (if fm then T else nu)
  ∧ vsize refs' = firstpos fm ac0 rc0 (length rc0)
  ∧ refs' = timed fm ac0 rc0 (sweep * T) shuffled
  ∧ seqs fm mk_sequenceref ac0 rc0 ≡ₚ shuffled
  ∧ firstpos true ac0 rc0 (length rc0) = T
  ∧ Forall (λ c, chunk_wf (cd_of ac0 c)) rc0
  ∧ t = SizeT.wrap (sweep * T + sumN (map (frames_of fm ac0 rc0) shuffled)).
Proof.
  intros Hwf HT Hnu Hfit Hnufit Hsize Hrand Hplace Hwin Hshuf Hassign.
  assert (Hmul : SizeT.mul sweep T = sweep * T) by (apply mul_small; lia).
  rewrite Hmul in *.
  apply randomize_chunkrefs_Permutation in Hrand.
  apply place_chunks_timeline in Hplace as [Hmap Htl]; [|lia].
  apply compute_windows_same_place in Hwin.
  apply (timeline_same_place _ _ _ _ Hwin) in Htl.
  assert (Hperm : map uttchunkdata rc0 ≡ₚ indices ac0).
  { rewrite <- (same_place_uttchunkdata _ _ Hwin), Hmap. done. }
  pose proof (chunk_wf_cd_of ac0 rc0 Hwf) as Hwf'.
  pose proof (firstpos_total fm ac0 rc0 Hperm) as Htotal.
  pose proof (firstpos_total true ac0 rc0 Hperm) as Htotalf.
  assert (Hlen0 : vsize rc0 = vsize ac0).
  { unfold vsize. f_equal. apply Permutation_length in Hperm.
    rewrite length_map, indices_length in Hperm. done. }
  assert (Hpf : positions_fit fm ac0 rc0 (sweep * T)).
  { unfold positions_fit. rewrite Htotal. destruct fm.
    - change (sumN (map (numseq true) ac0)) with (stream_frames ac0). lia.
    - change (sumN (map (numseq false) ac0)) with (stream_utterances ac0). lia. }
  pose proof (shuffle_sequences_Permutation _ _ _ _ _ _ _ _ _ _ _ Hshuf) as Hsp.
  eapply shuffle_sequences_valid in Hshuf; [|done|done|done|lia].
  apply assign_times_Done in Hassign as [-> ->]; [|lia].
  assert (Hvs : vsize (timed fm ac0 rc0 (sweep * T) shuffled) = firstpos fm ac0 rc0 (length rc0)).
  { unfold vsize. rewrite timed_length. apply Permutation_length in Hsp. rewrite <- Hsp.
    apply seqs_length. }
  split_and!; auto.
  - by apply all_valid_timed.
  - rewrite Hvs, Htotal. destruct fm; [by rewrite HT|by rewrite Hnu].
  - by rewrite Htotalf, HT.
Qed.

End Core.

Section Lazyrandomization.
Context {G : Type} (srand : N → G) (crand : G → N * G) (RAND_MAX : N) (ndebug : bool).

Lemma nle_rebuild fuel rz sweep allchunks :
  catalog_fits rz sweep allchunks →
  no_logic_error (rebuild srand crand RAND_MAX ndebug fuel rz sweep allchunks).
Proof.
  intros (ac0 & rest & -> & Hwf & HT & Hnu & Hfit & Hnufit & Hsize).
  unfold rebuild.
  apply nle_bind; [apply nle_mapO; intros; apply nle_randomize_chunkrefs|].
  intros crs Hcrs. simpl in Hcrs. obind Hcrs as chunkrefs Hrand.
  obind Hcrs as refss Hrs. injection Hcrs as <-.
  apply nle_bind.
  { apply nle_mapO. intros [ac refs].
    apply nle_bind; [apply nle_place_chunks|]. intros rc _.
    apply nle_bind; [apply nle_assertM, nle_Done|]. intros _ _.
    apply nle_bind; [apply nle_assertM, nle_placed_ok|]. intros _ _. apply nle_Done. }
  intros rcs Hrcs. simpl in Hrcs. obind Hrcs as rcp Hp0. obind Hrcs as rcps Hps.
  injection Hrcs as <-.
  obind Hp0 as placed Hplace. obind Hp0 as u1 Ha1. obind Hp0 as u2 Ha2. injection Hp0 as <-.
  apply nle_bind.
  { apply nle_bind; [apply nle_compute_windows|]. intros; apply nle_Done. }
  intros rcs' Hwin. obind Hwin as rc0 Hw. injection Hwin as <-.
  apply nle_bind; [apply nle_vat|]. intros ac0' Hac0. apply vat_Done in Hac0.
  injection Hac0 as <-.
  apply nle_bind; [apply nle_vat|]. intros rc0' Hrc0. apply vat_Done in Hrc0.
  injection Hrc0 as <-.
  apply nle_bind; [apply nle_enumerate_sequences|]. intros pcw Hpcw.
  apply enumerate_sequences_Done in Hpcw as [-> Hres].
  apply nle_bind; [apply nle_assertM, nle_Done|]. intros _ _.
  apply nle_bind; [apply nle_enumerate_sequences|]. intros refs0 Hrefs0.
  apply enumerate_sequences_Done in Hrefs0 as [-> _].
  apply nle_bind; [apply nle_assertM, nle_Done|]. intros _ _.
  apply nle_bind; [apply nle_check_setup|]. intros _ _.
  apply nle_bind; [apply nle_shuffle_sequences|]. intros shuffled Hshuf.
  apply nle_bind; [apply nle_assign_times|]. intros [refs' t] Hassign.
  apply nle_bind; [apply nle_assertM, nle_Done|]. intros _ _.
  destruct (rebuild_core srand crand RAND_MAX ndebug fuel (framemode rz) (_totalframes rz)
              (rz_numutterances rz) (randomizationrange rz) sweep ac0 chunkrefs placed rc0
              shuffled refs' t)
    as (Hmul & Hvalid & Hvs & Hvs' & _); try done.
  rewrite (verify_positions_valid _ _ _ Hvalid). cbn [mbind outcome_bind].
  rewrite recheck_Done; [|done|done|done|].
  - cbn [mbind outcome_bind]. apply nle_bind; [apply nle_assertM, nle_Done|].
    intros _ _. apply nle_Done.
  - rewrite Hvs. destruct (framemode rz); [|done].
    assert (_totalframes rz ≤ (sweep + 1) * _totalframes rz) by lia. lia.
Qed.

Lemma rebuild_window_containment fuel rz sweep allchunks rz' :
  catalog_fits rz sweep allchunks →
  rebuild srand crand RAND_MAX ndebug fuel rz sweep allchunks = Done rz' →
  window_containment rz'.
Proof.
  intros (ac0 & rest & -> & Hwf & HT & Hnu & Hfit & Hnufit & Hsize) Hreb.
  destruct (rebuild_Done _ _ _ _ _ _ _ _ _ Hreb)
    as [ac0' rest' chunkrefs placed rc0 refss rcs shuffled t Hac Hrr Hrp Hrand Hplace Hwin Hres Hshuf
        Hassign Hverify Hchunks Hpcw Hposmap Hfm HT' Hnu' Hrange Hsweep].
  injection Hac as <- <-.
  destruct (rebuild_core srand crand RAND_MAX ndebug fuel (framemode rz) (_totalframes rz)
              (rz_numutterances rz) (randomizationrange rz) sweep ac0 chunkrefs placed rc0
              shuffled (randomizedutterancerefs rz') t)
    as (Hmul & Hvalid & Hvs & _); try done.
  intros p Hp. unfold numsequences in Hp. rewrite Hfm, HT', Hnu', <- Hvs in Hp.
  destruct (vget_is_Some _ _ Hp) as [r Hr].
  destruct (Hvalid p r Hr) as (w & Hw & c & Hc & H1 & H2).
  exists r, (windowbegin c), (windowend c). split; [done|]. split; [|done].
  unfold position_window. rewrite Hpcw, Hw, Hchunks. simpl. rewrite Hc. done.
Qed.

End Lazyrandomization.

(** * The frames of the sequences add up to the catalog's frames *)

Lemma timed_numframes fm ac0 rc0 sweepts refs :
  map sr_numframes (timed fm ac0 rc0 sweepts refs) = map (frames_of fm ac0 rc0) refs.
Proof.
  apply list_eq. intros p. rewrite !list_lookup_fmap.
  destruct (timed fm ac0 rc0 sweepts refs !! p) as [r'|] eqn:E.
  - apply timed_lookup in E as (r & -> & ->). done.
  - apply lookup_ge_None in E. rewrite timed_length in E.
    apply lookup_ge_None in E. by rewrite E.
Qed.

Lemma sumN_ones {A} (l : list A) : sumN (map (λ _, 1) l) = N.of_nat (length l).
Proof. induction l as [|x l IH]; [done|]. cbn [map sumN foldr length]. unfold sumN in IH. lia. Qed.

Lemma N_range_1 : N_range 1 = [0].
Proof. done. Qed.

Lemma frames_of_chunk ac0 rc0 k c :
  rc0 !! k = Some c →
  sumN (map (frames_of false ac0 rc0)
            (sequences_of_chunk false mk_sequenceref (N.of_nat k) (cd_of ac0 c)))
  = sumN (map numframes (utteranceset (cd_of ac0 c))).
Proof.
  intros Hk. unfold sequences_of_chunk. set (us := utteranceset (cd_of ac0 c)).
  assert (Hgen : ∀ j, (j ≤ length us)%nat →
    sumN (map (frames_of false ac0 rc0)
              (concat (imap (λ i (u : utterancedesc),
                               map (mk_sequenceref (N.of_nat k) (N.of_nat i)) (N_range 1))
                            (take j us))))
    = sumN (map numframes (take j us))).
  { induction j as [|j IH]; intros Hj; [done|].
    destruct (lookup_lt_is_Some_2 us j) as [u Hu]; [lia|].
    rewrite (take_S_r _ _ _ Hu), imap_app, concat_app, !map_app, !sumN_app, IH by lia.
    f_equal. cbn [imap concat map app]. rewrite N_range_1. cbn [map app sumN foldr].
    rewrite length_take_le, Nat.add_0_r by lia.
    unfold frames_of. cbn [chunkindex utteranceindex mk_sequenceref].
    unfold vget. rewrite !Nat2N.id, Hk. fold us. by rewrite Hu. }
  specialize (Hgen (length us)). rewrite firstn_all in Hgen. by apply Hgen.
Qed.

Lemma frames_of_catalog ac0 rc0 :
  sumN (map (frames_of false ac0 rc0) (seqs false mk_sequenceref ac0 rc0))
  = firstpos true ac0 rc0 (length rc0).
Proof.
  assert (Hgen : ∀ k, (k ≤ length rc0)%nat →
    sumN (map (frames_of false ac0 rc0) (seqs false mk_sequenceref ac0 (take k rc0)))
    = firstpos true ac0 rc0 k).
  { induction k as [|k IH]; intros Hk; [done|].
    destruct (lookup_lt_is_Some_2 rc0 k) as [c Hc]; [lia|].
    rewrite (take_S_r _ _ _ Hc), seqs_snoc, map_app, sumN_app, IH by lia.
    rewrite length_take_le by lia. rewrite (frames_of_chunk _ _ _ _ Hc).
    by rewrite (firstpos_S true _ _ _ _ Hc). }
  specialize (Hgen (length rc0)). rewrite firstn_all in Hgen. by apply Hgen.
Qed.

Lemma sumN_cons x l : sumN (x :: l) = x + sumN l.
Proof. done. Qed.

Lemma stream_frames_utterances ac0 : 0 < stream_frames ac0 → 0 < stream_utterances ac0.
Proof.
  unfold stream_frames, stream_utterances.
  induction ac0 as [|cd ac0 IH]; [done|].
  cbn [map]. rewrite !sumN_cons. unfold cd_numutterances at 1, vsize.
  destruct (utteranceset cd) as [|u us] eqn:E; intros H.
  - change (sumN (map numframes [])) with 0 in H. simpl length.
    assert (0 < sumN (map cd_numutterances ac0)) by (apply IH; lia). lia.
  - simpl length. lia.
Qed.

(** * A rebuild does not depend on the fuel it was given *)

Section Determinism.
Context {G : Type} (srand : N → G) (crand : G → N * G) (RAND_MAX : N) (ndebug : bool).

Lemma pick_and_swap_fuel f1 f2 rc0 pcw i pb pe refs g r1 r2 :
  pick_and_swap crand f1 rc0 pcw i pb pe refs g = Done r1 →
  pick_and_swap crand f2 rc0 pcw i pb pe refs g = Done r2 →
  r1 = r2.
Proof.
  revert f2 g. induction f1 as [|f1 IH]; intros [|f2] g H1 H2; try done.
  simpl in H1, H2.
  obind H1 as [j g1] Hrand. rewrite Hrand in H2. simpl in H2.
  destruct (i =? j); [congruence|].
  obind H1 as wi Hwi. rewrite Hwi in H2. simpl in H2.
  obind H1 as rj Hrj. rewrite Hrj in H2. simpl in H2.
  obind H1 as ok1 Hok1. rewrite Hok1 in H2. simpl in H2.
  destruct ok1; simpl in H1, H2; [|by eapply IH].
  obind H1 as wj Hwj. rewrite Hwj in H2. simpl in H2.
  obind H1 as ri Hri. rewrite Hri in H2. simpl in H2.
  obind H1 as ok2 Hok2. rewrite Hok2 in H2. simpl in H2.
  destruct ok2; simpl in H1, H2; [|by eapply IH].
  congruence.
Qed.

Lemma foldM_deterministic {A B} (f1 f2 : B → A → outcome B) l b r1 r2 :
  (∀ b a x y, f1 b a = Done x → f2 b a = Done y → x = y) →
  foldM f1 l b = Done r1 → foldM f2 l b = Done r2 → r1 = r2.
Proof.
  intros Hf. revert b. induction l as [|a l IH]; intros b H1 H2; simpl in *; [congruence|].
  obind H1 as x Hx. obind H2 as y Hy. rewrite (Hf _ _ _ _ Hx Hy) in H1. by eapply IH.
Qed.

Lemma shuffle_sequences_fuel f1 f2 fm ac0 rc0 pcw sweep sweepts refs r1 r2 :
  shuffle_sequences srand crand f1 fm ac0 rc0 pcw sweep sweepts refs = Done r1 →
  shuffle_sequences srand crand f2 fm ac0 rc0 pcw sweep sweepts refs = Done r2 →
  r1 = r2.
Proof.
  unfold shuffle_sequences. intros H1 H2.
  obind H1 as [x1 g1] Hx. obind H2 as [x2 g2] Hy. injection H1 as <-. injection H2 as <-.
  assert ((x1, g1) = (x2, g2)) as [= -> _]; [|done].
  eapply foldM_deterministic; [|exact Hx|exact Hy].
  intros [b g] a x y Ha Hb. unfold shuffle_position in Ha, Hb.
  obind Ha as [pb pe] Hr. rewrite Hr in Hb. simpl in Ha, Hb.
  by eapply pick_and_swap_fuel.
Qed.

(** The rebuilt state is a function of the randomizer's parameters, the
    sweep and the catalog. *)
Lemma rebuild_deterministic f1 f2 rz1 rz2 sweep allchunks rz1' rz2' :
  framemode rz1 = framemode rz2 →
  _totalframes rz1 = _totalframes rz2 →
  rz_numutterances rz1 = rz_numutterances rz2 →
  randomizationrange rz1 = randomizationrange rz2 →
  rebuild srand crand RAND_MAX ndebug f1 rz1 sweep allchunks = Done rz1' →
  rebuild srand crand RAND_MAX ndebug f2 rz2 sweep allchunks = Done rz2' →
  rz1' = rz2'.
Proof.
  intros Hfm HT Hnu Hrange H1 H2.
  destruct (rebuild_Done _ _ _ _ _ _ _ _ _ H1)
    as [ac0 rest chunkrefs placed rc0 refss rcs shuffled t Hac Hrr Hrp Hrand Hplace Hwin Hres
        Hshuf Hassign Hverify Hchunks Hpcw Hposmap Hfm1 HT1 Hnu1 Hrange1 Hsweep1].
  destruct (rebuild_Done _ _ _ _ _ _ _ _ _ H2)
    as [ac0' rest' chunkrefs' placed' rc0' refss' rcs' shuffled' t' Hac' Hrr' Hrp' Hrand' Hplace'
        Hwin' Hres' Hshuf' Hassign' Hverify' Hchunks' Hpcw' Hposmap' Hfm2 HT2 Hnu2 Hrange2
        Hsweep2].
  subst allchunks. injection Hac' as <- <-.
  rewrite <- Hfm, <- HT, <- Hnu, <- Hrange in *.
  assert (chunkrefs' = chunkrefs) as -> by congruence.
  assert (placed' = placed) as -> by congruence.
  assert (rc0' = rc0) as -> by congruence.
  assert (refss' = refss) as -> by congruence.
  assert (rcs' = rcs) as -> by congruence.
  assert (shuffled' = shuffled) as -> by (by eapply shuffle_sequences_fuel).
  rewrite Hassign in Hassign'. injection Hassign' as Href _.
  destruct rz1', rz2'. simpl in *. subst. done.
Qed.

End Determinism.

Section RandomizationProperties.
Context {G : Type} (srand : N → G) (crand : G → N * G) (RAND_MAX : N) (ndebug : bool).

Lemma lazyrandomization_Done fuel rz globalts_ allchunks sweep rz' :
  lazyrandomization srand crand RAND_MAX ndebug fuel rz globalts_ allchunks = Done (sweep, rz') →
  sweep = globalts_ / _totalframes rz ∧ 0 < _totalframes rz
  ∧ ((currentsweep rz = sweep ∧ rz' = rz)
     ∨ (currentsweep rz ≠ sweep
        ∧ rebuild srand crand RAND_MAX ndebug fuel rz sweep allchunks = Done rz')).
Proof.
  unfold lazyrandomization. destruct (_totalframes rz =? 0) eqn:ET; [done|].
  apply N.eqb_neq in ET.
  destruct (globalts_ / _totalframes rz =? currentsweep rz) eqn:Es.
  - apply N.eqb_eq in Es. intros [= <- <-]. split_and!; [done|lia|]. left. done.
  - apply N.eqb_neq in Es. intros H. obind H as rz'' Hreb. injection H as <- <-.
    split_and!; [done|lia|]. right. done.
Qed.

Lemma rebuild_timeline_tiles fuel rz sweep allchunks rz' :
  catalog_fits rz sweep allchunks → 0 < _totalframes rz →
  rebuild srand crand RAND_MAX ndebug fuel rz sweep allchunks = Done rz' →
  timeline_tiles rz' sweep.
Proof.
  intros (ac0 & rest & -> & Hwf & HT & Hnu & Hfit & Hnufit & Hsize) Hpos Hreb.
  destruct (rebuild_Done _ _ _ _ _ _ _ _ _ Hreb)
    as [ac0' rest' chunkrefs placed rc0 refss rcs shuffled t Hac Hrr Hrp Hrand Hplace Hwin Hres
        Hshuf Hassign Hverify Hchunks Hpcw Hposmap Hfm HT' Hnu' Hrange Hsweep].
  injection Hac as <- <-.
  destruct (rebuild_core srand crand RAND_MAX ndebug fuel (framemode rz) (_totalframes rz)
              (rz_numutterances rz) (randomizationrange rz) sweep ac0 chunkrefs placed rc0
              shuffled (randomizedutterancerefs rz') t)
    as (Hmul & Hvalid & Hvs & Hvs' & Hrefs & Hperm & Htot & Hwf' & Ht); try done.
  unfold timeline_tiles. rewrite HT'. cbv zeta.
  set (T := _totalframes rz) in *. set (F := frames_of (framemode rz) ac0 rc0) in *.
  set (refs' := randomizedutterancerefs rz') in *.
  assert (Hnf : map sr_numframes refs' = map F shuffled).
  { rewrite Hrefs. apply timed_numframes. }
  assert (Hsum : sumN (map F shuffled) = T).
  { unfold F. destruct (framemode rz) eqn:Efm.
    - change (map (frames_of true ac0 rc0) shuffled) with (map (λ _ : sequenceref, 1) shuffled).
      rewrite sumN_ones. rewrite <- Hvs. unfold vsize. f_equal.
      rewrite Hrefs. by rewrite timed_length.
    - rewrite <- (sumN_Permutation _ _ (Permutation_map _ Hperm)).
      rewrite frames_of_catalog. done. }
  assert (Hprefix : ∀ p, sumN (map F (take p shuffled)) ≤ T).
  { intros p. rewrite <- Hsum, <- firstn_map. apply sumN_take_all_le. }
  assert (Hlen : length refs' = length shuffled).
  { rewrite Hrefs. apply timed_length. }
  assert (Hne : (0 < length refs')%nat).
  { assert (0 < vsize refs'); [|unfold vsize in *; lia].
    rewrite Hvs. destruct (framemode rz); [done|].
    rewrite Hnu. apply stream_frames_utterances. unfold T in *. by rewrite <- HT. }
  assert (Hts : ∀ p r, refs' !! p = Some r →
            sr_globalts r = sweep * T + sumN (map F (take p shuffled))
            ∧ sr_numframes r = F (default r (shuffled !! p))
            ∧ is_Some (shuffled !! p)).
  { intros p r Hp. rewrite Hrefs in Hp. apply timed_lookup in Hp as (r0 & Hr0 & ->).
    cbn [sr_globalts sr_numframes with_time]. rewrite Hr0. cbn [default].
    specialize (Hprefix p). fold F. rewrite wrap_small by lia. eauto. }
  split; [by rewrite Hnf|]. split; [|split].
  - destruct (lookup_lt_is_Some_2 refs' 0%nat) as [r0 Hr0]; [lia|].
    exists r0. split; [done|]. destruct (Hts _ _ Hr0) as [-> _]. simpl. lia.
  - intros p r Hp. destruct (Hts _ _ Hp) as [-> _]. f_equal.
    rewrite <- !firstn_map. by rewrite Hnf.
  - destruct (last refs') as [rl|] eqn:El.
    2:{ apply last_None in El. rewrite El in Hne. simpl in Hne. lia. }
    exists rl. split; [done|]. rewrite last_lookup in El.
    destruct (Hts _ _ El) as (Hg & Hn & [r0 Hr0]). rewrite Hr0 in Hn. simpl in Hn.
    unfold sr_globalte. rewrite Hg, Hn.
    assert (sumN (map F (take (Init.Nat.pred (length refs')) shuffled)) + F r0 = T) as HS.
    { rewrite <- Hsum.
      pose proof (take_drop (Init.Nat.pred (length refs')) shuffled) as Htd.
      rewrite (drop_S _ _ _ Hr0) in Htd. rewrite drop_ge in Htd by lia.
      rewrite <- Htd at 2. rewrite map_app, sumN_app. f_equal. simpl. lia. }
    rewrite add_small by lia. lia.
Qed.

Lemma rebuild_permutation_identity fuel rz sweep allchunks rz' :
  rebuild srand crand RAND_MAX ndebug fuel rz sweep allchunks = Done rz' →
  permutation_identity rz' allchunks.
Proof.
  intros Hreb.
  destruct (rebuild_Done _ _ _ _ _ _ _ _ _ Hreb)
    as [ac0 rest chunkrefs placed rc0 refss rcs shuffled t Hac Hrr Hrp Hrand Hplace Hwin Hres
        Hshuf Hassign Hverify Hchunks Hpcw Hposmap Hfm HT' Hnu' Hrange Hsweep].
  subst allchunks. exists ac0, rc0. rewrite Hchunks, Hfm. split; [done|]. split; [done|].
  apply shuffle_sequences_Permutation in Hshuf.
  apply assign_times_Done in Hassign as [Hrefs _]; [|apply wrap_lt].
  assert (Hp : map sr_triple (randomizedutterancerefs rz')
               ≡ₚ catalog_triples (framemode rz) ac0 rc0).
  { rewrite Hrefs, timed_triples, <- seqs_catalog_triples.
    change (seqs (framemode rz) (λ k i m, (k, i, m)) ac0 rc0)
      with (seqs (framemode rz) (λ k i m, sr_triple (mk_sequenceref k i m)) ac0 rc0).
    rewrite seqs_map. symmetry. by apply Permutation_map. }
  split; [done|]. rewrite Hp. apply catalog_triples_NoDup.
Qed.

End RandomizationProperties.

Section LazyrandomizationState.
Context {G : Type} (srand : N → G) (crand : G → N * G) (RAND_MAX : N) (ndebug : bool).

Lemma rebuild_parameters fuel rz sweep allchunks rz' :
  rebuild srand crand RAND_MAX ndebug fuel rz sweep allchunks = Done rz' →
  framemode rz' = framemode rz ∧ _totalframes rz' = _totalframes rz
  ∧ rz_numutterances rz' = rz_numutterances rz
  ∧ randomizationrange rz' = randomizationrange rz ∧ currentsweep rz' = sweep.
Proof.
  intros Hreb.
  destruct (rebuild_Done _ _ _ _ _ _ _ _ _ Hreb)
    as [ac0 rest chunkrefs placed rc0 refss rcs shuffled t Hac Hrr Hrp Hrand Hplace Hwin Hres
        Hshuf Hassign Hverify Hchunks Hpcw Hposmap Hfm HT' Hnu' Hrange Hsweep].
  done.
Qed.

Lemma catalog_fits_parameters rz0 rz sweep allchunks :
  _totalframes rz = _totalframes rz0 → rz_numutterances rz = rz_numutterances rz0 →
  catalog_fits rz sweep allchunks → catalog_fits rz0 sweep allchunks.
Proof.
  intros HT Hnu (ac0 & rest & -> & Hwf & HT' & Hnu' & Hfit & Hnufit & Hsize).
  exists ac0, rest. rewrite <- HT, <- Hnu. done.
Qed.

(** A completed [lazyrandomization] leaves a state that [rebuild] produced for
    the returned sweep, from a randomizer with the same parameters. *)
Lemma lazyrandomization_built fuel rz globalts_ allchunks sweep rz' :
  current_is_built srand crand RAND_MAX ndebug rz globalts_ allchunks →
  lazyrandomization srand crand RAND_MAX ndebug fuel rz globalts_ allchunks = Done (sweep, rz') →
  sweep = globalts_ / _totalframes rz ∧ 0 < _totalframes rz
  ∧ ∃ fuel0 rz0, framemode rz0 = framemode rz ∧ _totalframes rz0 = _totalframes rz
      ∧ rz_numutterances rz0 = rz_numutterances rz
      ∧ randomizationrange rz0 = randomizationrange rz
      ∧ rebuild srand crand RAND_MAX ndebug fuel0 rz0 sweep allchunks = Done rz'.
Proof.
  intros Hcur H. apply lazyrandomization_Done in H as (Hs & HT & [[Hc ->]|[Hc Hreb]]).
  - split; [done|]. split; [done|]. destruct Hcur as (fuel0 & rz0 & Hreb); [congruence|].
    destruct (rebuild_parameters _ _ _ _ _ Hreb) as (? & ? & ? & ? & _).
    exists fuel0, rz0. rewrite <- Hc. done.
  - split; [done|]. split; [done|]. exists fuel, rz. done.
Qed.

End LazyrandomizationState.

Section LazyrandomizationTheorems.
Context {G : Type} (srand : N → G) (crand : G → N * G) (RAND_MAX : N) (ndebug : bool).

(** C1 (window containment): on a catalog that fits [size_t], and from a
    state that is either of another sweep or was built by [rebuild] for this
    catalog, [lazyrandomization] never raises a logic error, and when it
    completes, every sequence position [p] below the number of sequences
    (the total frames in frame mode, the number of utterances in utterance
    mode) holds a sequence whose chunk index lies in the half-open window of
    the chunk that defines position [p]. *)
Theorem lazyrandomization_window_containment fuel rz globalts_ allchunks :
  catalog_fits rz (globalts_ / _totalframes rz) allchunks →
  current_is_built srand crand RAND_MAX ndebug rz globalts_ allchunks →
  no_logic_error (lazyrandomization srand crand RAND_MAX ndebug fuel rz globalts_ allchunks)
  ∧ ∀ sweep rz',
      lazyrandomization srand crand RAND_MAX ndebug fuel rz globalts_ allchunks
        = Done (sweep, rz') →
      window_containment rz'.
Proof.
  intros Hfit Hcur. split.
  - unfold lazyrandomization. destruct (_totalframes rz =? 0); [intros e; discriminate|].
    destruct (_ =? currentsweep rz); [intros e; discriminate|].
    apply nle_bind; [by apply nle_rebuild|]. intros rz' _ e. discriminate.
  - intros sweep rz' H.
    destruct (lazyrandomization_built _ _ _ _ _ _ _ _ _ _ Hcur H)
      as (-> & _ & fuel0 & rz0 & _ & HT & Hnu & _ & Hreb).
    eapply rebuild_window_containment; [|exact Hreb].
    eapply catalog_fits_parameters; [| |exact Hfit]; done.
Qed.

(** C3 (timeline covers the sweep): after [lazyrandomization] for sweep [s]
    on a catalog that fits [size_t], from a state of another sweep or built
    by [rebuild] for this catalog, the frame counts of the randomized
    sequences sum to the total frames, entry 0 starts at [s * totalframes],
    every entry starts at [s * totalframes] plus the frames of the entries
    before it, and the last entry ends at [(s + 1) * totalframes]. *)
Theorem lazyrandomization_timeline_tiles fuel rz globalts_ allchunks s rz' :
  catalog_fits rz (globalts_ / _totalframes rz) allchunks →
  current_is_built srand crand RAND_MAX ndebug rz globalts_ allchunks →
  lazyrandomization srand crand RAND_MAX ndebug fuel rz globalts_ allchunks = Done (s, rz') →
  s = globalts_ / _totalframes rz
  ∧ _totalframes rz' = _totalframes rz
  ∧ timeline_tiles rz' s.
Proof.
  intros Hfit Hcur H.
  destruct (lazyrandomization_built _ _ _ _ _ _ _ _ _ _ Hcur H)
    as (-> & Hpos & fuel0 & rz0 & _ & HT & Hnu & _ & Hreb).
  split; [done|].
  destruct (rebuild_parameters _ _ _ _ _ _ _ _ _ Hreb) as (_ & HT' & _).
  split; [congruence|].
  eapply rebuild_timeline_tiles; [| |exact Hreb].
  - eapply catalog_fits_parameters; [| |exact Hfit]; done.
  - by rewrite HT.
Qed.

(** C4 (permutation identity): after [lazyrandomization] from a state of
    another sweep or built by [rebuild] for this catalog, the triples
    (chunk index, utterance index, frame index) of the randomized sequences
    are a permutation of the triples enumerated from the randomized chunk
    sequence: every chunk [k], every utterance [i] of it and every internal
    index [m] (0 only in utterance mode, all of [0, numframes i) in frame
    mode); and no triple occurs twice. *)
Theorem lazyrandomization_permutation_identity fuel rz globalts_ allchunks s rz' :
  current_is_built srand crand RAND_MAX ndebug rz globalts_ allchunks →
  lazyrandomization srand crand RAND_MAX ndebug fuel rz globalts_ allchunks = Done (s, rz') →
  framemode rz' = framemode rz ∧ permutation_identity rz' allchunks.
Proof.
  intros Hcur H.
  destruct (lazyrandomization_built _ _ _ _ _ _ _ _ _ _ Hcur H)
    as (-> & Hpos & fuel0 & rz0 & Hfm & _ & _ & _ & Hreb).
  destruct (rebuild_parameters _ _ _ _ _ _ _ _ _ Hreb) as (Hfm' & _).
  split; [congruence|]. eapply rebuild_permutation_identity; exact Hreb.
Qed.

End LazyrandomizationTheorems.

Lemma example_catalog_fits fm sweep :
  sweep < 1000 → catalog_fits (example_randomizer fm) sweep example_catalog.
Proof.
  intros Hs. eexists _, _. split; [reflexivity|]. split.
  { repeat constructor. }
  split; [reflexivity|]. split; [reflexivity|].
  unfold SizeT.modulus. cbn. change (2 ^ 64) with 18446744073709551616.
  split; [lia|]. split; [lia|]. vm_compute; reflexivity.
Qed.

Lemma example_randomizer_fresh fm globalts_ :
  globalts_ < 1000 →
  current_is_built lcg_srand lcg_rand 32767 false (example_randomizer fm) globalts_ example_catalog.
Proof.
  intros Hg Hc. exfalso. cbn in Hc.
  assert (globalts_ / 20 ≤ globalts_) by (apply N.Div0.div_le_upper_bound; lia).
  change SizeT.SIZE_MAX with 18446744073709551615 in Hc. lia.
Qed.

Lemma lazyrandomization_window_containment_witness :
  ∃ rz', lazyrandomization lcg_srand lcg_rand 32767 false 100 (example_randomizer true) 25
           example_catalog = Done (1, rz')
         ∧ window_containment rz'.
Proof.
  eexists. split; [vm_compute; reflexivity|].
  refine (proj2 (lazyrandomization_window_containment lcg_srand lcg_rand 32767 false 100
                   (example_randomizer true) 25 example_catalog _ _) 1 _ _).
  - apply example_catalog_fits. vm_compute; reflexivity.
  - apply example_randomizer_fresh. vm_compute; reflexivity.
  - vm_compute; reflexivity.
Defined.

Lemma lazyrandomization_timeline_tiles_witness :
  ∃ rz', lazyrandomization lcg_srand lcg_rand 32767 false 100 (example_randomizer false) 47
           example_catalog = Done (2, rz')
         ∧ timeline_tiles rz' 2.
Proof.
  eexists. split; [vm_compute; reflexivity|].
  refine (proj2 (proj2 (lazyrandomization_timeline_tiles lcg_srand lcg_rand 32767 false 100
                   (example_randomizer false) 47 example_catalog 2 _ _ _ _))).
  - apply example_catalog_fits. vm_compute; reflexivity.
  - apply example_randomizer_fresh. vm_compute; reflexivity.
  - vm_compute; reflexivity.
Defined.

Lemma lazyrandomization_permutation_identity_witness :
  ∃ rz', lazyrandomization lcg_srand lcg_rand 32767 false 100 (example_randomizer true) 3
           example_catalog = Done (0, rz')
         ∧ permutation_identity rz' example_catalog.
Proof.
  eexists. split; [vm_compute; reflexivity|].
  refine (proj2 (lazyrandomization_permutation_identity lcg_srand lcg_rand 32767 false 100
                   (example_randomizer true) 3 example_catalog 0 _ _ _)).
  - apply example_randomizer_fresh. vm_compute; reflexivity.
  - vm_compute; reflexivity.
Defined.

(** * The state monad of the source *)

Lemma sbind_Done {S A B} (m : stateful S A) (k : A → stateful S B) s b s' :
  (m ≫= k) s = (Done b, s') → ∃ a s1, m s = (Done a, s1) ∧ k a s1 = (Done b, s').
Proof.
  unfold mbind, stateful_bind. destruct (m s) as [[a|e] s1]; [eauto|done].
Qed.

Lemma lift_Done {S A} (o : outcome A) (s : S) a s' :
  lift o s = (Done a, s') → o = Done a ∧ s' = s.
Proof. unfold lift. intros [= -> ->]. done. Qed.

Lemma sget_Done {S} (s : S) a s' : sget s = (Done a, s') → a = s ∧ s' = s.
Proof. unfold sget. intros [= -> ->]. done. Qed.

Lemma smodify_Done {S} (f : S → S) (s : S) a s' :
  smodify f s = (Done a, s') → s' = f s.
Proof. unfold smodify. intros [= _ <-]. done. Qed.

Lemma mret_Done {S A} (x : A) (s : S) a s' :
  (mret x : stateful S A) s = (Done a, s') → a = x ∧ s' = s.
Proof. unfold mret, stateful_ret. intros [= -> ->]. done. Qed.

Tactic Notation "sbind" hyp(H) "as" simple_intropattern(a) simple_intropattern(s) ident(E) :=
  apply sbind_Done in H as (a & s & E & H).

Tactic Notation "slift" hyp(H) "as" simple_intropattern(a) ident(E) :=
  let s := fresh "s" in
  apply sbind_Done in H as (a & s & E & H); apply lift_Done in E as [E ->].

Section GetbatchAdvance.
Context {G : Type} (srand : N → G) (crand : G → N * G) (RAND_MAX : N) (ndebug : bool).
Context {W : Type} (env : collaborators W).

(** What a completed frame-mode [getbatch] reports as [framesadvanced]: the
    [mbframes] it computed from the sweep of [globalts_] before any subset
    filtering. *)
Lemma getbatch_framesadvanced fuel globalts_ framesrequested subsetnum numsubsets feat0 uids0
    src w b m' :
  src_framemode src = true →
  getbatch srand crand RAND_MAX ndebug env fuel globalts_ framesrequested subsetnum numsubsets
    feat0 uids0 (src, w) = (Done b, m') →
  ∃ rz sweep rz',
    rand_ src = Some rz
    ∧ lazyrandomization srand crand RAND_MAX ndebug fuel rz globalts_ (allchunks src)
        = Done (sweep, rz')
    ∧ framesadvanced b =
        SizeT.sub (N.min (SizeT.add globalts_ framesrequested)
                         (SizeT.add (SizeT.mul sweep (src_totalframes src))
                                    (src_totalframes src)))
                  globalts_.
Proof.
  intros Hfm H. unfold getbatch in H.
  sbind H as [src0 w0] s0 E0. apply sget_Done in E0 as [[= -> ->] ->].
  slift H as ? Eassert.
  slift H as rz Erz.
  slift H as [sweep rz'] Elazy.
  sbind H as ? s1 Emod.
  rewrite Hfm in H. cbn [negb] in H. cbv zeta in H.
  slift H as ac0 Eac0.
  slift H as firstchunk Efirst.
  slift H as lastchunk Elast.
  slift H as ? Easrt.
  slift H as wb Ewb.
  slift H as we Ewe.
  sbind H as ? s2 Erel1.
  sbind H as rfd s3 Ereq.
  sbind H as ? s4 Erel2.
  slift H as subsetsizes Ecount.
  slift H as j Ej.
  slift H as ? Easrt2.
  sbind H as a s5 Eassemble.
  apply mret_Done in H as [-> _].
  exists rz, sweep, rz'. split.
  { unfold the_rand in Erz. destruct (rand_ src); [|done]. by injection Erz as ->. }
  split; [done|]. reflexivity.
Qed.

End GetbatchAdvance.

Section GetbatchTheorem.
Context {G : Type} (srand : N → G) (crand : G → N * G) (RAND_MAX : N) (ndebug : bool).
Context {W : Type} (env : collaborators W).

(** The clipping of a request at the end of its sweep, without overflow. *)
Lemma mbframes_clip T g fr :
  0 < T → g + fr < SizeT.modulus → (g / T + 1) * T < SizeT.modulus →
  SizeT.sub (N.min (SizeT.add g fr) (SizeT.add (SizeT.mul (g / T) T) T)) g
  = N.min fr ((g / T + 1) * T - g).
Proof.
  intros HT Hreq Hsweep.
  assert (Hdiv : T * (g / T) ≤ g) by (apply N.Div0.mul_div_le).
  assert (Hlt : g < T * (g / T + 1)).
  { rewrite N.add_1_r. apply N.mul_succ_div_gt. lia. }
  rewrite (mul_small (g / T) T) by lia.
  rewrite (add_small (g / T * T) T) by lia.
  rewrite (add_small g fr) by lia.
  rewrite sub_small; [lia|lia|].
  apply N.min_lt_iff. left. done.
Qed.

(** C5 (frames advanced): a frame-mode [getbatch] that returns reports
    [framesadvanced = min (framesrequested, (sweep + 1) * totalframes - globalts)]
    with [sweep = globalts / totalframes], whatever [subsetnum] and
    [numsubsets] are; the randomizer counts the frames of the source, and the
    end of the request and of the sweep are [size_t] values. *)
Theorem getbatch_framesadvanced_min fuel globalts_ framesrequested subsetnum numsubsets
    feat0 uids0 src w b m' :
  src_framemode src = true →
  (∀ rz, rand_ src = Some rz → _totalframes rz = src_totalframes src) →
  globalts_ + framesrequested < SizeT.modulus →
  (globalts_ / src_totalframes src + 1) * src_totalframes src < SizeT.modulus →
  getbatch srand crand RAND_MAX ndebug env fuel globalts_ framesrequested subsetnum numsubsets
    feat0 uids0 (src, w) = (Done b, m') →
  0 < src_totalframes src
  ∧ framesadvanced b
    = N.min framesrequested
        ((globalts_ / src_totalframes src + 1) * src_totalframes src - globalts_).
Proof.
  intros Hfm Hrz Hreq Hsweep H.
  destruct (getbatch_framesadvanced _ _ _ _ _ _ _ _ _ _ _ _ _ _ _ _ Hfm H)
    as (rz & sweep & rz' & Hrand & Hlazy & ->).
  apply lazyrandomization_Done in Hlazy as (-> & HT & _).
  rewrite (Hrz _ Hrand) in *.
  split; [done|]. by apply mbframes_clip.
Qed.

End GetbatchTheorem.

Lemma getbatch_framesadvanced_min_witness :
  ∃ b m', getbatch lcg_srand lcg_rand 32767 false example_env 100 15 7 1 2 [] []
            (example_source, tt) = (Done b, m')
          ∧ framesadvanced b = 5.
Proof.
  eexists _, _. split; [vm_compute; reflexivity|].
  refine (proj2 (getbatch_framesadvanced_min lcg_srand lcg_rand 32767 false example_env
                   100 15 7 1 2 [] [] example_source tt _ _ eq_refl _ _ _ _)).
  - intros rz [= <-]. reflexivity.
  - vm_compute; reflexivity.
  - vm_compute; reflexivity.
  - vm_compute; reflexivity.
Defined.

Section Paging.
Context (ndebug : bool) {W : Type} (env : collaborators W).

Lemma count_inram_fold k src (w : W) (l : list N) n0 :
  (∀ m, m ∈ l → ∃ cd, getChunkData ndebug src m k = Done cd) →
  n0 + N.of_nat (length l) < SizeT.modulus →
  foldS (count_inram ndebug k) l n0 (src, w)
  = (Done (n0 + vsize (filter (λ m, resident ndebug src k m = true) l)), (src, w)).
Proof.
  revert n0. induction l as [|m l IH]; intros n0 Hknown Hfit.
  - cbn. rewrite N.add_0_r. done.
  - destruct (Hknown m) as [cd Hcd]; [left|].
    cbn [foldS]. unfold mbind at 1, stateful_bind at 1.
    assert (Hstep : count_inram ndebug k n0 m (src, w)
                    = (Done (if isinram cd then SizeT.add n0 1 else n0), (src, w))).
    { unfold count_inram, mbind, stateful_bind, sget, lift. rewrite Hcd. done. }
    rewrite Hstep. rewrite IH.
    + f_equal. f_equal. rewrite filter_cons.
      assert (Hres : resident ndebug src k m = isinram cd).
      { unfold resident. by rewrite Hcd. }
      rewrite Hres. cbn [length] in Hfit.
      destruct (isinram cd) eqn:Ein.
      * rewrite decide_True by done. unfold vsize. cbn [length].
        rewrite add_small by lia. lia.
      * rewrite decide_False by done. done.
    + intros m' Hm'. apply Hknown. by right.
    + cbn [length] in Hfit. destruct (isinram cd); [rewrite add_small by lia|]; lia.
Qed.

Lemma count_inram_all k src (w : W) :
  chunk_known ndebug src k → vsize (allchunks src) < SizeT.modulus →
  foldS (count_inram ndebug k) (stream_indices src) 0 (src, w)
  = (Done (numresident ndebug src k), (src, w)).
Proof.
  intros Hknown Hfit. rewrite count_inram_fold; [done|done|].
  unfold stream_indices. rewrite indices_length. unfold vsize in Hfit. lia.
Qed.

Lemma numresident_le src k : numresident ndebug src k ≤ vsize (allchunks src).
Proof.
  unfold numresident, vsize, stream_indices.
  rewrite <- (indices_length (allchunks src)).
  pose proof (length_filter (λ m, resident ndebug src k m = true) (indices (allchunks src))).
  lia.
Qed.

End Paging.

Section PagingTheorem.
Context (ndebug : bool) {W : Type} (env : collaborators W).

Lemma page_in_chunk_true src k (m : @machine W) b m' :
  page_in_chunk ndebug env src k m = (Done b, m') → b = true.
Proof.
  unfold page_in_chunk. intros H.
  sbind H as ? s1 E1. sbind H as ? s2 E2. apply mret_Done in H as [-> _]. done.
Qed.

End PagingTheorem.

(** * What paging leaves alone

    Paging writes the chunks of [allchunks], the feature information and
    [chunksinram]; the mode, the frame count, the number of streams and the
    randomizer stay as they are, whether the operation returns or throws. *)

Section Stable.
Context {W : Type}.

Lemma stable_refl (m : @machine W) : stable m m.
Proof. done. Qed.

Lemma stable_trans (m1 m2 m3 : @machine W) : stable m1 m2 → stable m2 m3 → stable m1 m3.
Proof. unfold stable. intros (? & ? & ? & ?) (? & ? & ? & ?). split_and!; congruence. Qed.

Lemma keeps_mret {A} (a : A) : keeps (W:=W) (mret a).
Proof. intros m r m' [= _ <-]. apply stable_refl. Qed.

Lemma keeps_lift {A} (o : outcome A) : keeps (W:=W) (lift o).
Proof. intros m r m' [= _ <-]. apply stable_refl. Qed.

Lemma keeps_sthrow {A} f : keeps (W:=W) (sthrow f : stateful _ A).
Proof. intros m r m' [= _ <-]. apply stable_refl. Qed.

Lemma keeps_sget : keeps (W:=W) sget.
Proof. intros m r m' [= _ <-]. apply stable_refl. Qed.

Lemma keeps_bind {A B} (op : stateful (@machine W) A) (k : A → stateful (@machine W) B) :
  keeps op → (∀ a, keeps (k a)) → keeps (op ≫= k).
Proof.
  intros Hop Hk m r m'. unfold mbind, stateful_bind.
  destruct (op m) as [[a|e] m1] eqn:E.
  - intros H. eapply stable_trans; [eapply Hop, E|eapply Hk, H].
  - intros [= _ <-]. eapply Hop, E.
Qed.

Lemma keeps_foldS {A B} (f : B → A → stateful (@machine W) B) l b :
  (∀ b a, keeps (f b a)) → keeps (foldS f l b).
Proof.
  intros Hf. revert b. induction l as [|a l IH]; intros b; simpl.
  - apply keeps_mret.
  - apply keeps_bind; [apply Hf|]. intros b'. apply IH.
Qed.

Lemma keeps_try_catch_rethrow {A} (body : stateful (@machine W) A) handler :
  keeps body → keeps handler → keeps (try_catch_rethrow body handler).
Proof.
  intros Hb Hh m r m'. unfold try_catch_rethrow.
  destruct (body m) as [[a|e] m1] eqn:E.
  - intros [= _ <-]. eapply Hb, E.
  - destruct (is_exception e).
    + destruct (handler m1) as [[u|e'] m2] eqn:E2; intros [= _ <-];
        (eapply stable_trans; [eapply Hb, E|eapply Hh, E2]).
    + intros [= _ <-]. eapply Hb, E.
Qed.

Lemma keeps_attempt_from n (body : stateful (@machine W) unit) :
  keeps body → keeps (attempt_from n body).
Proof.
  intros Hb. induction n as [|n IH]; intros m r m'; simpl;
    destruct (body m) as [[a|e] m1] eqn:E.
  - intros [= _ <-]. eapply Hb, E.
  - intros [= _ <-]. eapply Hb, E.
  - intros [= _ <-]. eapply Hb, E.
  - destruct (is_exception e).
    + intros H. eapply stable_trans; [eapply Hb, E|eapply IH, H].
    + intros [= _ <-]. eapply Hb, E.
Qed.

Lemma keeps_call_world {A} (f : W → outcome A * W) : keeps (call_world f).
Proof.
  intros [src w] r m'. unfold call_world. destruct (f w) as [r' w']. intros [= _ <-]. done.
Qed.

Lemma keeps_put_chunkdata m idx cd : keeps (W:=W) (put_chunkdata m idx cd).
Proof.
  intros [src w] r m'. unfold put_chunkdata, smodify. intros [= _ <-].
  unfold vget. destruct (allchunks src !! N.to_nat m) eqn:E; [|done].
  unfold stable. simpl. split_and!; try done. unfold vset. by rewrite length_insert.
Qed.

Lemma keeps_get_chunkdata m idx : keeps (W:=W) (get_chunkdata m idx).
Proof.
  unfold get_chunkdata. apply keeps_bind; [apply keeps_sget|]. intros [src w]. apply keeps_lift.
Qed.

Lemma keeps_set_chunksinram (f : source → N) :
  keeps (smodify (λ '(src, w), (set_chunksinram src (f src), w)) : stateful (@machine W) unit).
Proof. intros [src w] r m'. unfold smodify. intros [= _ <-]. done. Qed.

End Stable.

Ltac keeps_step :=
  lazymatch goal with
  | |- keeps (mret _) => apply keeps_mret
  | |- keeps (lift _) => apply keeps_lift
  | |- keeps (sthrow _) => apply keeps_sthrow
  | |- keeps sget => apply keeps_sget
  | |- keeps (call_world _) => apply keeps_call_world
  | |- keeps (put_chunkdata _ _ _) => apply keeps_put_chunkdata
  | |- keeps (get_chunkdata _ _) => apply keeps_get_chunkdata
  | |- keeps (_ ≫= _) => apply keeps_bind; [|intros ?]
  | |- keeps (foldS _ _ _) => apply keeps_foldS; intros ? ?
  | |- keeps (if ?b then _ else _) => destruct b
  | |- keeps (let '(_, _) := ?p in _) => destruct p
  | |- keeps (match ?p with (_, _) => _ end) => destruct p
  end.

Section StablePaging.
Context (ndebug : bool) {W : Type} (env : collaborators W).

Lemma keeps_releasedata m idx : keeps (releasedata (W:=W) m idx).
Proof. unfold releasedata. repeat keeps_step. Qed.

Lemma keeps_read_utterance m idx u i : keeps (read_utterance env m idx u i).
Proof. unfold read_utterance. repeat keeps_step. Qed.

Lemma keeps_requiredata_body m idx : keeps (requiredata_body env m idx).
Proof.
  unfold requiredata_body. repeat keeps_step.
  all: try apply keeps_read_utterance.
  intros [src' w'] r m' [= _ <-]. done.
Qed.

Lemma keeps_requiredata m idx : keeps (requiredata env m idx).
Proof.
  unfold requiredata. repeat keeps_step.
  apply keeps_try_catch_rethrow; [apply keeps_requiredata_body|apply keeps_releasedata].
Qed.

Lemma keeps_releaserandomizedchunk k : keeps (releaserandomizedchunk (W:=W) ndebug k).
Proof.
  unfold releaserandomizedchunk, release_stream. repeat keeps_step;
    try apply keeps_releasedata; try apply keeps_set_chunksinram.
Qed.

Lemma keeps_requirerandomizedchunk k wb we :
  keeps (requirerandomizedchunk ndebug env k wb we).
Proof.
  unfold requirerandomizedchunk, page_in_chunk, count_inram, page_in_stream.
  repeat keeps_step; try apply keeps_set_chunksinram;
    apply keeps_attempt_from, keeps_requiredata.
Qed.

End StablePaging.

Lemma size_mod_Done a b s : size_mod a b = Done s → b ≠ 0 ∧ s = a mod b.
Proof.
  unfold size_mod. destruct (b =? 0) eqn:E; [done|]. apply N.eqb_neq in E.
  intros [= <-]. done.
Qed.

Lemma getSequenceRef_Done ndebug rz i r :
  getSequenceRef ndebug rz i = Done r → vget (randomizedutterancerefs rz) i = Some r.
Proof.
  unfold getSequenceRef. intros H. obind H as ? E. by apply vat_Done in H.
Qed.

Lemma in_subset_filter_snoc ns s rs r :
  filter (λ r, in_subset ns s r = true) (rs ++ [r])
  = filter (λ r, in_subset ns s r = true) rs ++ (if in_subset ns s r then [r] else []).
Proof.
  rewrite filter_app. f_equal. rewrite filter_cons, filter_nil.
  destruct (in_subset ns s r); [by rewrite decide_True|by rewrite decide_False].
Qed.

Section FirstPass.
Context (ndebug : bool).

(** The first pass of [getbatch] looks every frame of the minibatch up and
    counts, for each subset, the frames whose chunk falls to it. *)
Lemma count_subset_pass rz T gts ns n sizes :
  foldM (count_subset ndebug rz T gts ns) (N_range n) (replicate (N.to_nat ns) 0) = Done sizes →
  n < SizeT.modulus →
  ∃ rs, Forall2 (λ j r, vget (randomizedutterancerefs rz) (SizeT.add gts j mod T) = Some r)
                (N_range n) rs
        ∧ ∀ s c, vget sizes s = Some c →
                 c = vsize (filter (λ r, in_subset ns s r = true) rs).
Proof.
  intros H Hn.
  set (P := λ (done : list N) (sizes : list N),
         ∃ rs, Forall2 (λ j r, vget (randomizedutterancerefs rz) (SizeT.add gts j mod T) = Some r)
                       done rs
               ∧ ∀ s c, vget sizes s = Some c →
                        c = vsize (filter (λ r, in_subset ns s r = true) rs)).
  assert (HP : P (N_range n) sizes); [|exact HP].
  eapply (foldM_invariant P); [| |exact H].
  - exists []. split; [constructor|]. intros s c Hc. unfold vget in Hc.
    apply lookup_replicate in Hc as [-> _]. done.
  - intros done a rest b b' Hl (rs & Hrs & Hcount) Hstep.
    unfold count_subset in Hstep.
    obind Hstep as frameref Eref. apply getSequenceRef_Done in Eref.
    obind Hstep as s Es. apply size_mod_Done in Es as [Hns ->].
    obind Hstep as c Ec. apply vat_Done in Ec. injection Hstep as <-.
    exists (rs ++ [frameref]). split.
    { apply Forall2_app; [done|]. by constructor. }
    intros s c' Hc'. rewrite in_subset_filter_snoc.
    assert (Hlen : N.of_nat (length rs) < n).
    { apply Forall2_length in Hrs. rewrite <- Hrs.
      pose proof (N_range_length n) as Hl'. rewrite Hl, length_app in Hl'. simpl in Hl'. lia. }
    destruct (decide (chunkindex frameref mod ns = s)) as [<-|Hne].
    + rewrite vget_vset_eq in Hc' by (by eapply vget_lt). injection Hc' as <-.
      assert (in_subset ns (chunkindex frameref mod ns) frameref = true) as ->
        by (unfold in_subset; apply N.eqb_refl).
      rewrite (Hcount _ _ Ec). unfold vsize. rewrite length_app. simpl.
      pose proof (length_filter (λ r, in_subset ns (chunkindex frameref mod ns) r = true) rs).
      rewrite add_small by lia. lia.
    + rewrite vget_vset_ne in Hc' by done.
      assert (in_subset ns s frameref = false) as ->
        by (unfold in_subset; by apply N.eqb_neq).
      rewrite app_nil_r. by apply Hcount.
Qed.

End FirstPass.

Section CopyFrame.
Context (ndebug : bool) {W : Type} (env : collaborators W).

(** One frame copied for stream [i] writes column [count] of matrix [i],
    and nothing of the source. *)
Lemma copy_frame_Done frameref count ft ui i (m : @machine W) ft' ui' m' :
  copy_frame ndebug env frameref count (ft, ui) i m = (Done (ft', ui'), m') →
  m' = m
  ∧ ∃ fi col, vget ft i = Some fi ∧ is_Some (vget fi count)
              ∧ ft' = vset ft i (vset fi count (Some col))
              ∧ col_triple col = sr_triple frameref.
Proof.
  unfold copy_frame. intros H.
  sbind H as [src w] s0 E0. apply sget_Done in E0 as [<- ->].
  slift H as chunkdata Ecd.
  slift H as uttframes Euf.
  slift H as ? Eas.
  slift H as lc Elc.
  slift H as rc Erc.
  slift H as vd Evd.
  destruct (if (lc =? 0) && (rc =? 0)
            then (augmentationextent env (fst (frames chunkdata)) vd,
                  augmentationextent env (fst (frames chunkdata)) vd)
            else (lc, rc)) as [leftextent rightextent].
  slift H as fi Efi. apply vat_Done in Efi.
  slift H as c0 Ec0. apply vat_Done in Ec0.
  destruct (issupervised src && (i =? 0)).
  - slift H as fc Efc. slift H as ui'' Eui. apply mret_Done in H as [[= -> ->] ->].
    split; [done|]. eexists fi, _. split; [done|]. split; [eauto|]. split; [reflexivity|done].
  - apply mret_Done in H as [[= -> ->] ->].
    split; [done|]. eexists fi, _. split; [done|]. split; [eauto|]. split; [reflexivity|done].
Qed.

Lemma copy_frames_other frameref count l ft ui (m : @machine W) ft' ui' m' :
  0 ∉ l →
  foldS (copy_frame ndebug env frameref count) l (ft, ui) m = (Done (ft', ui'), m') →
  m' = m ∧ vget ft' 0 = vget ft 0.
Proof.
  revert ft ui. induction l as [|i l IH]; intros ft ui Hnot H.
  - apply mret_Done in H as [[= -> ->] ->]. done.
  - cbn [foldS] in H. sbind H as [ft1 ui1] m1 E1.
    apply copy_frame_Done in E1 as (-> & fi & col & Hfi & _ & -> & _).
    apply IH in H as [-> ->]; [|by intros ?; apply Hnot; right].
    split; [done|]. apply vget_vset_ne. intros ->. apply Hnot. left.
Qed.

Lemma copy_frames_Done frameref count (src : source) ft ui (m : @machine W) ft' ui' m' :
  (0 < length (allchunks src))%nat →
  foldS (copy_frame ndebug env frameref count) (stream_indices src) (ft, ui) m
    = (Done (ft', ui'), m') →
  m' = m
  ∧ ∃ f0 col, vget ft 0 = Some f0 ∧ is_Some (vget f0 count)
              ∧ vget ft' 0 = Some (vset f0 count (Some col))
              ∧ col_triple col = sr_triple frameref.
Proof.
  intros Hlen H. unfold stream_indices, indices in H.
  destruct (length (allchunks src)) as [|n]; [lia|].
  cbn [seq map] in H. cbn [foldS] in H. sbind H as [ft1 ui1] m1 E1.
  apply copy_frame_Done in E1 as (-> & f0 & col & Hf0 & Hc & -> & Htriple).
  apply copy_frames_other in H as [-> Hsame].
  - split; [done|]. exists f0, col. split; [done|]. split; [done|]. split; [|done].
    rewrite Hsame. apply vget_vset_eq. by eapply vget_lt.
  - intros (k & Hk & Hin)%list_elem_of_fmap. apply elem_of_seq in Hin. lia.
Qed.

End CopyFrame.

Lemma vset_fill {A} (cols : list A) (k : nat) (c : A) :
  vset (map Some cols ++ None :: replicate k None) (N.of_nat (length cols)) (Some c)
  = map Some (cols ++ [c]) ++ replicate k None.
Proof.
  unfold vset. rewrite Nat2N.id.
  rewrite insert_app_r_alt by (rewrite length_map; lia).
  rewrite length_map, Nat.sub_diag. simpl.
  rewrite map_app. simpl. by rewrite <- app_assoc.
Qed.

Section Assemble.
Context (ndebug : bool) {W : Type} (env : collaborators W).

(** The second pass fills the columns left free with the frames of the
    subset, in the order of the minibatch. *)
Lemma assemble_Done rz T gts sn ns wb we js : ∀ rs st (m : @machine W) a m' cols,
  Forall2 (λ j r, vget (randomizedutterancerefs rz) (SizeT.add gts j mod T) = Some r) js rs →
  (0 < length (allchunks (fst m)))%nat →
  assemble ndebug env rz T gts sn ns wb we js st m = (Done a, m') →
  vget (as_feat st) 0
    = Some (map Some cols
            ++ replicate (length (filter (λ r, in_subset ns sn r = true) rs)) None) →
  currmpinodeframecount st = N.of_nat (length cols) →
  N.of_nat (length cols + length rs) < SizeT.modulus →
  stable m m'
  ∧ ∃ cols', vget (as_feat a) 0 = Some (map Some (cols ++ cols'))
             ∧ map col_triple cols'
               = map sr_triple (filter (λ r, in_subset ns sn r = true) rs).
Proof.
  induction js as [|j js IH]; intros rs st m a m' cols Hrs Hstreams H Hfeat Hcount Hfit.
  - apply Forall2_nil_inv_l in Hrs as ->. cbn [assemble] in H.
    apply mret_Done in H as [-> ->]. split; [apply stable_refl|].
    exists []. rewrite app_nil_r. rewrite filter_nil in *. cbn in Hfeat.
    rewrite app_nil_r in Hfeat. done.
  - apply Forall2_cons_inv_l in Hrs as (r & rs' & Hr & Hrs' & ->).
    cbn [assemble] in H.
    slift H as f0 Ef0. apply vat_Done in Ef0. rewrite Hfeat in Ef0. injection Ef0 as <-.
    rewrite Hcount in H. unfold vsize in H.
    rewrite length_app, length_map, length_replicate in H.
    rewrite filter_cons in *.
    destruct (in_subset ns sn r) eqn:Ein.
    + rewrite decide_True in * by done. cbn [length] in *.
      assert ((N.of_nat (length cols + S (length (filter (λ r, in_subset ns sn r = true) rs')))
               <=? N.of_nat (length cols)) = false) as Hle by (apply N.leb_gt; lia).
      rewrite Hle in H.
      slift H as frameref Eref. apply getSequenceRef_Done in Eref.
      rewrite Hr in Eref. injection Eref as <-.
      slift H as s Es. apply size_mod_Done in Es as [Hns ->].
      unfold in_subset in Ein. rewrite Ein in H. cbn [negb] in H.
      sbind H as r0 m1 Ereq.
      apply keeps_requirerandomizedchunk in Ereq as Hst1.
      sbind H as [src1 w1] m1' Eget. apply sget_Done in Eget as [<- ->].
      sbind H as [ft ui] m2 Ecopy.
      apply copy_frames_Done in Ecopy as (-> & f0 & col & Hf0 & _ & Hft & Htriple).
      2:{ destruct Hst1 as (_ & _ & _ & Hl). simpl in Hl. lia. }
      rewrite Hfeat in Hf0. injection Hf0 as <-.
      rewrite vset_fill in Hft.
      eapply (IH rs' _ _ a m' (cols ++ [col])) in H; [| | | | |]; try done.
      * destruct H as (Hst2 & cols' & Hfa & Htr). split; [by eapply stable_trans|].
        exists (col :: cols'). rewrite <- app_assoc in Hfa. split; [done|].
        cbn [map]. by rewrite Htriple, Htr.
      * destruct Hst1 as (_ & _ & _ & Hl). simpl in Hl. simpl. lia.
      * cbn [currmpinodeframecount]. rewrite length_app. simpl.
        rewrite add_small by lia. lia.
      * rewrite length_app. simpl. lia.
    + rewrite decide_False in * by done.
      destruct (N.of_nat (length cols + length (filter (λ r, in_subset ns sn r = true) rs'))
                <=? N.of_nat (length cols)) eqn:Hle.
      * apply N.leb_le in Hle.
        assert (length (filter (λ r, in_subset ns sn r = true) rs') = 0%nat) as H0 by lia.
        apply mret_Done in H as [-> ->]. split; [apply stable_refl|].
        exists []. rewrite app_nil_r. rewrite H0 in Hfeat. cbn in Hfeat.
        rewrite app_nil_r in Hfeat. split; [done|].
        apply length_zero_iff_nil in H0. by rewrite H0.
      * slift H as frameref Eref. apply getSequenceRef_Done in Eref.
        rewrite Hr in Eref. injection Eref as <-.
        slift H as s Es. apply size_mod_Done in Es as [Hns ->].
        unfold in_subset in Ein. rewrite Ein in H. cbn [negb] in H.
        eapply (IH rs' st m a m' cols) in H; try done.
        cbn [length] in Hfit. lia.
Qed.

End Assemble.

Lemma omap_map_Some {A B} (f : A → B) (l : list A) :
  omap (option_map f) (map Some l) = map f l.
Proof. induction l as [|x l IH]; [done|]. cbn. by rewrite IH. Qed.

Lemma omap_replicate_None {A B} (f : A → B) n :
  omap (option_map f) (replicate n None) = [].
Proof. induction n as [|n IH]; [done|]. cbn. by rewrite IH. Qed.

Section GetbatchContent.
Context {G : Type} (srand : N → G) (crand : G → N * G) (RAND_MAX : N) (ndebug : bool).
Context {W : Type} (env : collaborators W).

(** What a completed frame-mode [getbatch] returns: of the frames
    [globalts_ .. globalts_ + framesadvanced) of the randomized sequence,
    those of the chunks that fall to [subsetnum], in order; and it leaves
    the randomizer it used in place. *)
Lemma getbatch_returns fuel globalts_ framesrequested subsetnum numsubsets feat0 uids0
    src (w : W) b m' :
  src_framemode src = true →
  getbatch srand crand RAND_MAX ndebug env fuel globalts_ framesrequested subsetnum numsubsets
    feat0 uids0 (src, w) = (Done b, m') →
  ∃ rz sweep rz' rs,
    rand_ src = Some rz
    ∧ lazyrandomization srand crand RAND_MAX ndebug fuel rz globalts_ (allchunks src)
        = Done (sweep, rz')
    ∧ Forall2 (λ j r, vget (randomizedutterancerefs rz')
                           (SizeT.add globalts_ j mod src_totalframes src) = Some r)
              (N_range (framesadvanced b)) rs
    ∧ returned_frames b
      = map sr_triple (filter (λ r, in_subset numsubsets subsetnum r = true) rs)
    ∧ stable (set_rand src rz', w) m'.
Proof.
  intros Hfm H. unfold getbatch in H.
  sbind H as [src0 w0] s0 E0. apply sget_Done in E0 as [[= -> ->] ->].
  slift H as ? Eassert.
  slift H as rz Erz.
  slift H as [sweep rz'] Elazy.
  sbind H as ? s1 Emod. apply smodify_Done in Emod. cbv beta iota in Emod.
  rewrite Hfm in H. cbn [negb] in H. cbv zeta in H.
  set (mbframes := SizeT.sub _ globalts_) in H.
  slift H as ac0 Eac0.
  slift H as firstchunk Efirst.
  slift H as lastchunk Elast.
  slift H as ? Easrt.
  slift H as wb Ewb.
  slift H as we Ewe.
  sbind H as ? s2 Erel1.
  sbind H as rfd s3 Ereq.
  sbind H as ? s4 Erel2.
  slift H as subsetsizes Ecount.
  slift H as j Ej.
  slift H as ? Easrt2.
  sbind H as a s5 Eassemble.
  apply mret_Done in H as [-> ->].
  assert (Hst2 : stable s1 s2).
  { revert Erel1. apply keeps_foldS. intros ? ?. apply keeps_releaserandomizedchunk. }
  assert (Hst3 : stable s2 s3).
  { revert Ereq. apply keeps_foldS. intros ? ?. repeat keeps_step.
    all: apply keeps_requirerandomizedchunk. }
  assert (Hst4 : stable s3 s4).
  { revert Erel2. apply keeps_foldS. intros ? ?. apply keeps_releaserandomizedchunk. }
  assert (Hst14 : stable s1 s4).
  { eapply stable_trans; [exact Hst2|]. eapply stable_trans; [exact Hst3|exact Hst4]. }
  assert (Hmb : mbframes < SizeT.modulus) by apply wrap_lt.
  destruct (count_subset_pass _ _ _ _ _ _ _ Ecount Hmb) as (rs & Hrs & Hsizes).
  apply vat_Done in Ej. apply Hsizes in Ej.
  exists rz, sweep, rz', rs. split.
  { unfold the_rand in Erz. destruct (rand_ src); [|done]. by injection Erz as ->. }
  split; [done|]. cbn [framesadvanced feat].
  split; [done|].
  assert (Hstreams : (0 < length (allchunks (fst s4)))%nat).
  { destruct Hst14 as (_ & _ & _ & ->). subst s1. cbn.
    apply vat_Done, vget_lt in Eac0. unfold vsize in Eac0. lia. }
  assert (Hlen : length rs = N.to_nat mbframes).
  { apply Forall2_length in Hrs. rewrite <- Hrs. apply N_range_length. }
  destruct (vdim src) as [|vd vds] eqn:Evd.
  - cbn [map] in Eassemble.
    destruct (N_range mbframes) as [|j0 js] eqn:Ejs.
    + apply Forall2_nil_inv_l in Hrs as ->.
      cbn [assemble] in Eassemble. apply mret_Done in Eassemble as [-> ->].
      split; [done|]. subst s1. done.
    + cbn [assemble] in Eassemble. slift Eassemble as f0 Ef0. done.
  - cbn [map] in Eassemble.
    eapply (assemble_Done ndebug env _ _ _ _ _ _ _ _ rs _ _ _ _ []) in Eassemble; try done.
    + destruct Eassemble as (Hst5 & cols' & Hfa & Htr).
      split; [|subst s1; by eapply stable_trans].
      unfold returned_frames. unfold vget in Hfa.
      destruct (as_feat a) as [|f0 fs]; [done|]. cbn in Hfa. injection Hfa as ->.
      cbn [app feat]. by rewrite omap_map_Some.
    + cbn [as_feat]. unfold vget. cbn. f_equal. f_equal. rewrite Ej. unfold vsize.
      by rewrite Nat2N.id.
    + cbn. lia.
Qed.

End GetbatchContent.

(** * Lists of consecutive positions *)

Lemma Forall2_N_range_lookup {A} (l : list A) (f : N → N) (a n : N) (rs : list A) :
  (∀ j, j < n → f j = a + j) →
  Forall2 (λ j r, vget l (f j) = Some r) (N_range n) rs →
  rs = take (N.to_nat n) (drop (N.to_nat a) l).
Proof.
  intros Hf H. apply list_eq. intros i.
  pose proof (Forall2_length _ _ _ H) as Hlen. rewrite N_range_length in Hlen.
  destruct (decide (i < N.to_nat n)%nat) as [Hi|Hi].
  - rewrite lookup_take_lt by done. rewrite lookup_drop.
    destruct (lookup_lt_is_Some_2 rs i) as [r Hr]; [lia|].
    assert (Hj : N_range n !! i = Some (N.of_nat i)).
    { unfold N_range. rewrite list_lookup_fmap, lookup_seq_lt by done. done. }
    pose proof (Forall2_lookup_lr _ _ _ _ _ _ H Hj Hr) as Hl. unfold vget in Hl.
    rewrite Hf in Hl by lia.
    rewrite Hr, <- Hl. f_equal. lia.
  - rewrite lookup_take_ge by lia. apply lookup_ge_None. lia.
Qed.

Lemma take_drop_split {A} (l : list A) (p a b : nat) :
  take (a + b) (drop p l) = take a (drop p l) ++ take b (drop (p + a) l).
Proof. by rewrite <- take_take_drop, drop_drop. Qed.

(** * The subsets partition the frames *)

Lemma filter_disjoint_app {A} (P Q : A → Prop) `{∀ x, Decision (P x)} `{∀ x, Decision (Q x)}
    (l : list A) :
  (∀ x, P x → Q x → False) →
  filter P l ++ filter Q l ≡ₚ filter (λ x, P x ∨ Q x) l.
Proof.
  intros Hdis. induction l as [|x l IH]; [done|].
  rewrite !filter_cons.
  destruct (decide (P x)) as [HP|HP]; destruct (decide (Q x)) as [HQ|HQ].
  - destruct (Hdis _ HP HQ).
  - rewrite decide_True by (by left). simpl. by rewrite IH.
  - rewrite decide_True by (by right). rewrite <- Permutation_middle. by rewrite IH.
  - rewrite decide_False by (by intros [?|?]). done.
Qed.

Lemma subsets_concat ns (sns : list N) (refs : list sequenceref) :
  NoDup sns →
  concat (map (λ sn, filter (λ r, in_subset ns sn r = true) refs) sns)
  ≡ₚ filter (λ r, chunkindex r mod ns ∈ sns) refs.
Proof.
  induction 1 as [|sn sns Hnot Hnd IH].
  - cbn. induction refs as [|r refs IHr]; [done|].
    rewrite filter_cons. rewrite decide_False; [done|]. apply not_elem_of_nil.
  - cbn [map concat]. rewrite IH. rewrite filter_disjoint_app.
    + apply reflexive_eq. apply list_filter_iff. intros r. unfold in_subset.
      rewrite elem_of_cons, N.eqb_eq. done.
    + intros r Hr Hin. unfold in_subset in Hr. apply N.eqb_eq in Hr. by subst.
Qed.

Lemma subsets_partition ns (refs : list sequenceref) :
  ns ≠ 0 →
  concat (map (λ sn, filter (λ r, in_subset ns sn r = true) refs) (N_range ns)) ≡ₚ refs.
Proof.
  intros Hns. rewrite subsets_concat by apply N_range_NoDup.
  apply reflexive_eq. induction refs as [|r refs IH]; [done|].
  rewrite filter_cons, IH. rewrite decide_True; [done|].
  unfold N_range. apply list_elem_of_fmap. exists (N.to_nat (chunkindex r mod ns)).
  pose proof (N.mod_lt (chunkindex r) ns Hns) as Hlt.
  generalize dependent (chunkindex r mod ns). intros k Hlt.
  split; [lia|]. apply elem_of_seq. lia.
Qed.

Lemma sweep_of s T g : s * T ≤ g → g < (s + 1) * T → g / T = s.
Proof.
  intros Hlo Hhi. symmetry. apply (N.div_unique g T s (g - s * T)); lia.
Qed.

Lemma sweep_position s T g j : s * T ≤ g → g + j < (s + 1) * T → (g + j) mod T = g - s * T + j.
Proof.
  intros Hlo Hhi. symmetry. apply (N.mod_unique (g + j) T s); lia.
Qed.

Section ConsumeSweep.
Context {G : Type} (srand : N → G) (crand : G → N * G) (RAND_MAX : N) (ndebug : bool).
Context {W : Type} (env : collaborators W).

(** A randomizer that is current for sweep [s] answers every time of the
    sweep with itself. *)
Lemma lazyrandomization_current fuel rz g allchunks sweep rz' s :
  currentsweep rz = s → g / _totalframes rz = s →
  lazyrandomization srand crand RAND_MAX ndebug fuel rz g allchunks = Done (sweep, rz') →
  rz' = rz.
Proof.
  intros Hc Hg H. apply lazyrandomization_Done in H as (-> & _ & [[_ ->]|[Hne _]]); [done|].
  congruence.
Qed.

Lemma lazyrandomization_result fuel rz g allchunks sweep rz' :
  lazyrandomization srand crand RAND_MAX ndebug fuel rz g allchunks = Done (sweep, rz') →
  sweep = g / _totalframes rz ∧ currentsweep rz' = sweep ∧ _totalframes rz' = _totalframes rz.
Proof.
  intros H. apply lazyrandomization_Done in H as (-> & _ & [[Hc ->]|[_ Hreb]]); [done|].
  apply rebuild_parameters in Hreb as (_ & ? & _ & _ & ?). done.
Qed.

(** The calls of a caller whose requests cover the rest of sweep [s] return,
    for subset [sn], the frames of the rest of the sweep that fall to [sn],
    in order. *)
Lemma consume_from fuel s T rz' sn ns requests :
  ∀ gts feat0 uids0 (m : @machine W) bs te m',
  0 < T → (s + 1) * T < SizeT.modulus →
  src_framemode (fst m) = true → src_totalframes (fst m) = T →
  (∃ rz, rand_ (fst m) = Some rz ∧ _totalframes rz = T
         ∧ ∀ g sweep rz'', g / T = s →
             lazyrandomization srand crand RAND_MAX ndebug fuel rz g (allchunks (fst m))
               = Done (sweep, rz'') → rz'' = rz') →
  s * T ≤ gts →
  covers ((s + 1) * T) gts requests →
  consume srand crand RAND_MAX ndebug env fuel requests gts sn ns feat0 uids0 m
    = (Done (bs, te), m') →
  te = (s + 1) * T
  ∧ concat (map returned_frames bs)
    = map sr_triple
        (filter (λ r, in_subset ns sn r = true)
           (take (N.to_nat ((s + 1) * T - gts))
              (drop (N.to_nat (gts - s * T)) (randomizedutterancerefs rz'))))
  ∧ (gts - s * T ≤ vsize (randomizedutterancerefs rz') →
     T ≤ vsize (randomizedutterancerefs rz')).
Proof.
  induction requests as [|fr requests IH];
    intros gts feat0 uids0 m bs te m' HT Hfit Hfm HTm Hinv Hlo Hcov H.
  - cbn in Hcov. subst gts. cbn [consume] in H. apply mret_Done in H as [[= -> ->] ->].
    split; [done|]. rewrite N.sub_diag. cbn. split; [done|]. lia.
  - destruct Hcov as (Hhi & Hreq & Hcov). cbn [consume] in H.
    sbind H as b m1 Eb. sbind H as [bs' te'] m2 Erest.
    apply mret_Done in H as [[= -> ->] ->].
    destruct m as [src w]. cbn [fst] in *.
    destruct Hinv as (rz & Hrand & HTrz & Hlazy).
    assert (Hcons : ∀ rz0, rand_ src = Some rz0 → _totalframes rz0 = src_totalframes src).
    { intros rz0 Hrz0. congruence. }
    assert (Hsw : gts / T = s) by (by apply sweep_of).
    destruct (getbatch_framesadvanced _ _ _ _ _ _ _ _ _ _ _ _ _ _ _ _ Hfm Eb)
      as (rz1 & sweep1 & rz1' & Hrand1' & Hlazy1 & Hadv).
    apply lazyrandomization_Done in Hlazy1 as (-> & _ & _).
    rewrite (Hcons _ Hrand1'), HTm in Hadv.
    rewrite mbframes_clip in Hadv by (rewrite ?Hsw; done).
    rewrite Hsw in Hadv. clear rz1 rz1' Hrand1'.
    destruct (getbatch_returns _ _ _ _ _ _ _ _ _ _ _ _ _ _ _ _ Hfm Eb)
      as (rz0 & sweep & rz'' & rs & Hrand0 & Elazy & Hrs & Hret & Hst).
    rewrite Hrand in Hrand0. injection Hrand0 as <-.
    pose proof (Hlazy _ _ _ Hsw Elazy) as ->.
    apply lazyrandomization_result in Elazy as (-> & Hcur & HT').
    rewrite HTrz in Hcur, HT'. rewrite Hsw in Hcur.
    set (adv := framesadvanced b) in *.
    assert (Hadvle : adv ≤ (s + 1) * T - gts) by lia.
    rewrite (add_small gts adv) in Erest by lia.
    rewrite <- Hadv in Hcov.
    destruct Hst as (Hfm1 & HT1 & Hrand1 & _). simpl in Hfm1, HT1, Hrand1.
    pose proof (Forall2_length _ _ _ Hrs) as Hlrs. rewrite N_range_length in Hlrs.
    eapply IH in Erest; [|done|done| | | |lia|done].
    + destruct Erest as (-> & Hbs & Hlen). split; [done|].
      rewrite HTm in Hrs.
      apply (Forall2_N_range_lookup _ _ (gts - s * T)) in Hrs.
      2:{ intros j Hj. rewrite add_small by lia. apply sweep_position; lia. }
      set (refs := randomizedutterancerefs rz') in *. split.
      * cbn [map concat]. rewrite Hret, Hbs, <- map_app, <- filter_app. do 2 f_equal.
        rewrite Hrs.
        replace (N.to_nat ((s + 1) * T - gts))
          with (N.to_nat adv + N.to_nat ((s + 1) * T - (gts + adv)))%nat by lia.
        rewrite take_drop_split. do 3 f_equal. lia.
      * intros Hp. apply Hlen.
        rewrite Hrs, length_take, length_drop in Hlrs. unfold vsize in *. lia.
    + congruence.
    + congruence.
    + exists rz'. split; [congruence|]. split; [done|].
      intros g sweep rz3 Hg Hl. eapply lazyrandomization_current; [exact Hcur| |exact Hl].
      by rewrite HT'.
Qed.

End ConsumeSweep.

Lemma concat_map_map {A B C} (f : B → C) (g : A → list B) (l : list A) :
  concat (map (λ x, map f (g x)) l) = map f (concat (map g l)).
Proof. induction l as [|x l IH]; [done|]. cbn. by rewrite IH, map_app. Qed.

Section SubsetsTheorem.
Context {G : Type} (srand : N → G) (crand : G → N * G) (RAND_MAX : N) (ndebug : bool).
Context {W : Type} (env : collaborators W).

(** [lazyrandomization] looks at the time only through its sweep. *)
Lemma lazyrandomization_sweep fuel rz g1 g2 allchunks :
  g1 / _totalframes rz = g2 / _totalframes rz →
  lazyrandomization srand crand RAND_MAX ndebug fuel rz g1 allchunks
  = lazyrandomization srand crand RAND_MAX ndebug fuel rz g2 allchunks.
Proof. intros H. unfold lazyrandomization. by rewrite H. Qed.

(** C6 (subset completeness): in frame mode, let every subset [sn] of
    [numsubsets] consume sweep [s] from the same source with the same
    requests, which cover the sweep.  Then the sweep has [totalframes]
    randomized frames, subset [sn] is returned exactly those whose chunk index
    is [sn] modulo [numsubsets], so that every frame position falls to
    exactly one subset, and what all subsets return together is a
    rearrangement of the frames of the sweep. *)
Theorem subsets_partition_sweep fuel s requests numsubsets src (ws : N → W)
    (bss : N → list batch) (tes : N → N) (ms : N → @machine W) :
  src_framemode src = true →
  (∀ rz, rand_ src = Some rz → _totalframes rz = src_totalframes src) →
  1 ≤ numsubsets →
  0 < src_totalframes src →
  (s + 1) * src_totalframes src < SizeT.modulus →
  covers ((s + 1) * src_totalframes src) (s * src_totalframes src) requests →
  (∀ sn, sn < numsubsets →
     consume srand crand RAND_MAX ndebug env fuel requests (s * src_totalframes src)
       sn numsubsets [] [] (src, ws sn) = (Done (bss sn, tes sn), ms sn)) →
  ∃ rz rz',
    rand_ src = Some rz
    ∧ lazyrandomization srand crand RAND_MAX ndebug fuel rz (s * src_totalframes src)
        (allchunks src) = Done (s, rz')
    ∧ (∀ sn, sn < numsubsets → tes sn = (s + 1) * src_totalframes src)
    ∧ subsets_partition_frames numsubsets (src_totalframes src)
        (take (N.to_nat (src_totalframes src)) (randomizedutterancerefs rz'))
        (λ sn, concat (map returned_frames (bss sn))).
Proof.
  intros Hfm Hcons Hns HT Hfit Hcov Hruns.
  set (T := src_totalframes src) in *.
  assert (Hs : s * T / T = s) by (apply N.div_mul; lia).
  (* the randomization of the sweep, from the first call of subset 0 *)
  assert (∃ rz rz', rand_ src = Some rz
            ∧ lazyrandomization srand crand RAND_MAX ndebug fuel rz (s * T) (allchunks src)
              = Done (s, rz')) as (rz & rz' & Hrand & Hlazy).
  { destruct requests as [|fr requests]; [cbn in Hcov; lia|].
    pose proof (Hruns 0 ltac:(lia)) as H0. cbn [consume] in H0.
    sbind H0 as b m1 Eb.
    destruct (getbatch_returns _ _ _ _ _ _ _ _ _ _ _ _ _ _ _ _ Hfm Eb)
      as (rz & sweep & rz' & rs & Hrand & Elazy & _).
    exists rz, rz'. split; [done|].
    destruct (lazyrandomization_result _ _ _ _ _ _ _ _ _ _ Elazy) as (-> & _).
    rewrite (Hcons _ Hrand) in Elazy. fold T in Elazy. by rewrite Hs in Elazy. }
  exists rz, rz'. split; [done|]. split; [done|].
  assert (Hfrom : ∀ sn, sn < numsubsets →
            tes sn = (s + 1) * T
            ∧ concat (map returned_frames (bss sn))
              = map sr_triple
                  (filter (λ r, in_subset numsubsets sn r = true)
                     (take (N.to_nat T) (randomizedutterancerefs rz')))
            ∧ T ≤ vsize (randomizedutterancerefs rz')).
  { intros sn Hsn.
    destruct (consume_from srand crand RAND_MAX ndebug env fuel s T rz' sn numsubsets requests
                (s * T) [] [] (src, ws sn) (bss sn) (tes sn) (ms sn))
      as (Hte & Hret & Hlen); try done.
    - exists rz. split; [done|]. split; [by apply Hcons|].
      intros g sweep rz'' Hg Hl. cbn [fst] in Hl.
      rewrite (lazyrandomization_sweep fuel rz g (s * T)) in Hl.
      + rewrite Hlazy in Hl. by injection Hl as _ <-.
      + rewrite (Hcons _ Hrand). fold T. congruence.
    - by apply Hruns.
    - split; [done|]. split; [|apply Hlen; lia].
      rewrite Hret. do 3 f_equal; [lia|]. replace (s * T - s * T) with 0 by lia. done. }
  split; [intros sn Hsn; by apply Hfrom|].
  unfold subsets_partition_frames. split; [|split; [|split]].
  - destruct (Hfrom 0 ltac:(lia)) as (_ & _ & Hlen).
    unfold vsize in *. rewrite length_take. lia.
  - intros sn Hsn. by apply Hfrom.
  - intros r sn _ _. unfold in_subset. rewrite N.eqb_eq. split; congruence.
  - etrans; [|apply Permutation_map, (subsets_partition numsubsets); lia].
    rewrite <- concat_map_map. apply reflexive_eq. f_equal.
    apply map_ext_in. intros sn Hin. apply Hfrom.
    apply list_elem_of_In in Hin. unfold N_range in Hin.
    apply list_elem_of_fmap in Hin as (k & -> & Hk). apply elem_of_seq in Hk. lia.
Qed.

End SubsetsTheorem.

Lemma subsets_partition_sweep_witness :
  ∃ rz rz',
    rand_ example_source = Some rz
    ∧ lazyrandomization lcg_srand lcg_rand 32767 false 100 rz 0 example_catalog = Done (0, rz')
    ∧ (∀ sn, sn < 2 → snd (default ([], 0) (match fst (example_run sn) with
                                              | Done x => Some x | Fail _ => None end)) = 20)
    ∧ subsets_partition_frames 2 20 (take 20 (randomizedutterancerefs rz'))
        (λ sn, concat (map returned_frames (example_batches sn))).
Proof.
  refine (subsets_partition_sweep lcg_srand lcg_rand 32767 false example_env 100 0
            example_requests 2 example_source (λ _, tt) example_batches
            (λ sn, snd (default ([], 0) (match fst (example_run sn) with
                                         | Done x => Some x | Fail _ => None end)))
            (λ sn, snd (example_run sn)) eq_refl _ _ _ _ _ _).
  - intros rz [= <-]. reflexivity.
  - vm_compute. discriminate.
  - vm_compute; reflexivity.
  - vm_compute; reflexivity.
  - vm_compute. repeat split.
  - intros sn Hsn. assert (sn = 0 ∨ sn = 1) as [-> | ->] by lia; vm_compute; reflexivity.
Defined.




Section ShortAndLong.
Context {W : Type} (env : collaborators W).







End ShortAndLong.


Lemma last_take_S {A} (l : list A) i x : l !! i = Some x → last (take (S i) l) = Some x.
Proof.
  intros H. rewrite (take_S_r _ _ _ H). by rewrite last_snoc.
Qed.

Lemma labframes_of_take labseq i e :
  labseq !! i = Some e → labframes_of (take (S i) labseq) = firstframe e + e_numframes e.
Proof. intros H. unfold labframes_of. by rewrite (last_take_S _ _ _ H). Qed.

Section Labels.
Context (ndebug : bool) {W : Type} (env : collaborators W).

(** The entries of a label sequence that the expansion accepts are
    consecutive from frame 0, so it appends as many class ids, and as many
    phone boundaries, as the sequence spans frames. *)
Lemma expand_entries_Done udim j labseq cls pbs ncl cnt cls' pbs' ncl' cnt' :
  foldM (λ acc i, udim_j ← vat udim j; expand_entry env udim_j labseq acc i)
        (indices labseq) (cls, pbs, ncl, cnt) = Done (cls', pbs', ncl', cnt') →
  ∃ fc fp, cls' = cls ++ fc ∧ pbs' = pbs ++ fp ∧ length fc = length fp
           ∧ N.of_nat (length fc) = labframes_of labseq.
Proof.
  intros H.
  set (P := λ (done : list N) (acc : list N * list N * N * list N),
         ∃ fc fp, acc.1.1.1 = cls ++ fc ∧ acc.1.1.2 = pbs ++ fp ∧ length fc = length fp
                  ∧ N.of_nat (length fc) = labframes_of (take (length done) labseq)).
  assert (HP : P (indices labseq) (cls', pbs', ncl', cnt')).
  { eapply (foldM_invariant P); [| |exact H].
    - exists [], []. cbn. rewrite !app_nil_r. done.
    - intros done i rest [[[c1 p1] n1] t1] b' Hl (fc & fp & Hc & Hp & Hlen & Hsum) Hstep.
      cbn [fst snd] in Hc, Hp. subst c1 p1.
      apply indices_split in Hl as [-> Hi].
      obind Hstep as udim_j Eu. unfold expand_entry in Hstep.
      obind Hstep as e Ee. apply vat_Done in Ee. unfold vget in Ee. rewrite Nat2N.id in Ee.
      obind Hstep as p Ep.
      destruct (_ || _) eqn:Echeck in Hstep; [done|].
      destruct (udim_j <=? classid e); [done|].
      destruct (negb (classid e =? cast_classid env (classid e))); [done|].
      cbv zeta in Hstep. obind Hstep as c Ec. injection Hstep as <-.
      exists (fc ++ replicate (N.to_nat (e_numframes e)) (classid e)),
             (fp ++ match N.to_nat (e_numframes e) with
                    | O => []
                    | S n' => (if phonestart e =? 0 then 0 else cast_hmmid env (phonestart e))
                              :: replicate n' 0
                    end).
      cbn [fst snd]. rewrite <- !app_assoc. split; [done|]. split; [done|].
      rewrite !length_app, length_replicate. cbn [length].
      rewrite Nat.add_1_r. rewrite (labframes_of_take _ _ _ Ee).
      assert (Hfirst : N.of_nat (length fc) = firstframe e).
      { rewrite Hsum. apply orb_false_iff in Echeck as [E1 E2].
        destruct (length done) as [|k] eqn:Ek.
        - cbn. cbn in E2. apply negb_false_iff, N.eqb_eq in E2. unfold labframes_of. cbn. done.
        - assert ((0 <? N.of_nat (S k)) = true) as Hpos by (apply N.ltb_lt; lia).
          rewrite Hpos in Ep, E1. cbn [andb] in E1.
          apply negb_false_iff, N.eqb_eq in E1.
          apply vat_Done in Ep. unfold vget in Ep.
          replace (N.to_nat (N.of_nat (S k) - 1)) with k in Ep by lia.
          by rewrite (labframes_of_take _ _ _ Ep). }
      split.
      + rewrite Hlen. f_equal. destruct (N.to_nat (e_numframes e)); [done|].
        cbn. by rewrite length_replicate.
      + lia. }
  destruct HP as (fc & fp & Hc & Hp & Hlen & Hsum). cbn [fst snd] in Hc, Hp.
  exists fc, fp. split_and!; try done.
  rewrite Hsum. rewrite indices_length. by rewrite firstn_all.
Qed.

End Labels.

Lemma durations_match_true labels k n :
  durations_match labels k n = Done true →
  ∀ j labels_j labseq, labels !! j = Some labels_j → find_labels labels_j k = Done labseq →
                       labframes_of labseq = n.
Proof.
  induction labels as [|l labels IH]; intros H j labels_j labseq Hj Hfind; [done|].
  cbn [durations_match] in H. obind H as labseq0 E0.
  fold (labframes_of labseq0) in H.
  destruct (labframes_of labseq0 =? n) eqn:En; cbn [negb] in H; [|done].
  apply N.eqb_eq in En. destruct j as [|j]; cbn in Hj.
  - injection Hj as <-. congruence.
  - eapply IH; eauto.
Qed.

Section PushLabels.
Context (ndebug : bool) {W : Type} (env : collaborators W).

Lemma push_labels_Done labels udim k st j st' :
  push_labels ndebug env labels udim k st j = Done st' →
  ∃ labels_j labseq cls pbs fc fp,
    vget labels j = Some labels_j ∧ find_labels labels_j k = Done labseq
    ∧ vget (cs_classids st) j = Some cls ∧ vget (cs_phoneboundaries st) j = Some pbs
    ∧ cs_classids st' = vset (cs_classids st) j (cls ++ fc ++ [classid_marker env])
    ∧ cs_phoneboundaries st'
      = vset (cs_phoneboundaries st) j (pbs ++ fp ++ [hmmid_marker env])
    ∧ length fc = length fp ∧ N.of_nat (length fc) = labframes_of labseq
    ∧ cs_utteranceset st' = cs_utteranceset st
    ∧ cs_classidsbegin st' = cs_classidsbegin st.
Proof.
  unfold push_labels. intros H.
  obind H as labels_j El. apply vat_Done in El.
  obind H as labseq Ef.
  obind H as cls Ec. apply vat_Done in Ec.
  obind H as pbs Ep. apply vat_Done in Ep.
  obind H as ncl En. obind H as cnt Ect.
  obind H as [[[cls' pbs'] ncl'] cnt'] Ee.
  apply expand_entries_Done in Ee as (fc & fp & -> & -> & Hlen & Hsum).
  cbv zeta in H.
  destruct (_ && _) in H; [done|]. obind H as ? Ea. injection H as <-.
  exists labels_j, labseq, cls, pbs, fc, fp. cbn. rewrite <- !app_assoc. done.
Qed.

(** The labels of one utterance, pushed for every label stream: every
    class-id vector and every phone-boundary vector grows by the frames of
    the utterance and a marker. *)
Lemma push_all_labels labels udim k n st st' :
  (∀ j labels_j labseq, labels !! j = Some labels_j → find_labels labels_j k = Done labseq →
                        labframes_of labseq = n) →
  foldM (push_labels ndebug env labels udim k) (indices labels) st = Done st' →
  cs_utteranceset st' = cs_utteranceset st
  ∧ cs_classidsbegin st' = cs_classidsbegin st
  ∧ length (cs_classids st') = length (cs_classids st)
  ∧ length (cs_phoneboundaries st') = length (cs_phoneboundaries st)
  ∧ (∀ j, (j < length labels)%nat →
       (∃ c fc, cs_classids st !! j = Some c ∧ N.of_nat (length fc) = n
                ∧ cs_classids st' !! j = Some (c ++ fc ++ [classid_marker env]))
       ∧ (∃ p fp, cs_phoneboundaries st !! j = Some p ∧ N.of_nat (length fp) = n
                  ∧ cs_phoneboundaries st' !! j = Some (p ++ fp ++ [hmmid_marker env])))
  ∧ (∀ j, (length labels ≤ j)%nat →
       cs_classids st' !! j = cs_classids st !! j
       ∧ cs_phoneboundaries st' !! j = cs_phoneboundaries st !! j).
Proof.
  intros Hdur H.
  set (P := λ (done : list N) (st' : ctor_state),
         cs_utteranceset st' = cs_utteranceset st
         ∧ cs_classidsbegin st' = cs_classidsbegin st
         ∧ length (cs_classids st') = length (cs_classids st)
         ∧ length (cs_phoneboundaries st') = length (cs_phoneboundaries st)
         ∧ (∀ j, (j < length done)%nat →
              (∃ c fc, cs_classids st !! j = Some c ∧ N.of_nat (length fc) = n
                       ∧ cs_classids st' !! j = Some (c ++ fc ++ [classid_marker env]))
              ∧ (∃ p fp, cs_phoneboundaries st !! j = Some p ∧ N.of_nat (length fp) = n
                         ∧ cs_phoneboundaries st' !! j
                           = Some (p ++ fp ++ [hmmid_marker env])))
         ∧ (∀ j, (length done ≤ j)%nat →
              cs_classids st' !! j = cs_classids st !! j
              ∧ cs_phoneboundaries st' !! j = cs_phoneboundaries st !! j)).
  assert (HP : P (indices labels) st').
  { eapply (foldM_invariant P); [| |exact H].
    - unfold P. split_and!; try done. intros j Hj. simpl in Hj. lia.
    - intros done j rest b b' Hl (Hu & Hcb & Hlc & Hlp & Hlt & Hge) Hstep.
      apply indices_split in Hl as [-> Hi].
      apply push_labels_Done in Hstep
        as (labels_j & labseq & cls & pbs & fc & fp & El & Ef & Ec & Ep & Hc' & Hp' & Hlen
            & Hsum & Hu' & Hcb').
      unfold vget in El, Ec, Ep. rewrite Nat2N.id in El, Ec, Ep.
      pose proof (Hdur _ _ _ El Ef) as Hn.
      destruct (Hge (length done) ltac:(lia)) as [Hgc Hgp].
      rewrite Hgc in Ec. rewrite Hgp in Ep.
      unfold P. rewrite Hc', Hp', Hu', Hcb'. unfold vset. rewrite Nat2N.id.
      rewrite !length_insert, length_app. cbn [length].
      split_and!; try done.
      + intros j Hj. destruct (decide (j = length done)) as [->|Hne].
        * rewrite !list_lookup_insert_eq by (rewrite ?Hlc, ?Hlp; by eapply lookup_lt_Some).
          split; [exists cls, fc|exists pbs, fp]; split_and!; try done; lia.
        * rewrite !list_lookup_insert_ne by done. apply Hlt. lia.
      + intros j Hj. rewrite !list_lookup_insert_ne by lia. apply Hge. lia. }
  unfold P in HP. rewrite indices_length in HP. exact HP.
Qed.

End PushLabels.

Section ProcessFile.
Context (ndebug : bool) {W : Type} (env : collaborators W).

(** One file of the first stream, with labels: either the utterance is left
    out and the label vectors stay as they are, or it is kept, with the
    begin of its labels at the end of the first class-id vector, and its
    labels are pushed for every label stream. *)
Lemma process_file_supervised labels udim dur st i pp st' :
  nonempty labels = true →
  process_file ndebug env labels udim dur 0 st (i, pp) = Done st' →
  ∃ c0, vget (cs_classids st) 0 = Some c0
    ∧ ((cs_classids st' = cs_classids st
        ∧ cs_phoneboundaries st' = cs_phoneboundaries st
        ∧ cs_utteranceset st' = cs_utteranceset st
        ∧ cs_classidsbegin st' = cs_classidsbegin st ++ [vsize c0])
       ∨ (∃ cb st2,
            vget (cs_classidsbegin st ++ [vsize c0]) i = Some cb
            ∧ cs_classids st2 = cs_classids st
            ∧ cs_phoneboundaries st2 = cs_phoneboundaries st
            ∧ cs_utteranceset st2 = cs_utteranceset st
            ∧ cs_classidsbegin st2 = cs_classidsbegin st ++ [vsize c0]
            ∧ durations_match labels (key {| ud_parsedpath := pp; classidsbegin := cb |})
                (pp_numframes pp) = Done true
            ∧ foldM (push_labels ndebug env labels udim
                       (key {| ud_parsedpath := pp; classidsbegin := cb |}))
                    (indices labels)
                    (cs_add_totalframes
                       (cs_push_utterance st2 {| ud_parsedpath := pp; classidsbegin := cb |})
                       (pp_numframes pp)) = Done st')).
Proof.
  intros Hne H. unfold process_file in H. rewrite Hne in H. cbn [N.eqb andb] in H.
  obind H as st1 E1. obind E1 as c0 Ec0. apply vat_Done in Ec0. injection E1 as <-.
  exists c0. split; [done|].
  obind H as valid Ev. destruct valid; cbn [negb] in H.
  2:{ injection H as <-. left. done. }
  obind H as cb Ecb. apply vat_Done in Ecb. cbn [cs_classidsbegin cs_set_classidsbegin] in Ecb.
  obind H as ? Ea. cbv zeta in H.
  obind H as [[st2 lacksmlf] skip] E2.
  obind E2 as labels0 El0. cbv zeta in E2.
  destruct (bool_decide _ || _) eqn:Eskip in E2; injection E2 as <- <- <-.
  { injection H as <-. left. done. }
  apply orb_false_iff in Eskip as [Elack _]. rewrite Elack in H. cbn [negb andb] in H.
  obind H as ok Eok. destruct ok; cbn [negb] in H.
  2:{ injection H as <-. left. done. }
  right. eexists cb, _. split; [done|]. split_and!; [| | | |exact Eok|exact H]; done.
Qed.

Lemma lookup_grown {A} (c fc : list A) (x : A) (pos : nat) y :
  c !! pos = Some y → (c ++ fc ++ [x]) !! pos = Some y.
Proof. intros H. rewrite lookup_app_l; [done|]. by eapply lookup_lt_Some. Qed.

Lemma lookup_grown_last {A} (c fc : list A) (x : A) :
  (c ++ fc ++ [x]) !! (length c + length fc)%nat = Some x.
Proof.
  rewrite lookup_app_r by lia. rewrite lookup_app_r by lia.
  replace (length c + length fc - length c - length fc)%nat with 0%nat by lia. done.
Qed.

(** The step of the invariant: the labels stay in step over one file of the
    first stream. *)
Lemma process_file_in_step labels udim dur st i pp st' :
  nonempty labels = true →
  length (cs_classids st) = length labels →
  length (cs_classidsbegin st) = N.to_nat i →
  labels_in_step env st →
  process_file ndebug env labels udim dur 0 st (i, pp) = Done st' →
  labels_in_step env st'
  ∧ length (cs_classids st') = length labels
  ∧ length (cs_classidsbegin st') = S (N.to_nat i).
Proof.
  intros Hne HL Hcb (len & Hclen & Hplen & Hpl & Hsent) H.
  apply (process_file_supervised _ _ _ _ _ _ _ Hne) in H as (c0 & Hc0 & [Hout|Hkept]).
  - destruct Hout as (Hc & Hp & Hu & Hb). split; [|split].
    + exists len. rewrite Hc, Hp, Hu. split_and!; done.
    + congruence.
    + rewrite Hb, length_app. simpl. lia.
  - destruct Hkept as (cb & st2 & Hcbi & Hc2 & Hp2 & Hu2 & Hb2 & Hdur & Hpush).
    unfold vget in Hcbi. rewrite lookup_app_r in Hcbi by lia.
    rewrite Hcb, Nat.sub_diag in Hcbi. injection Hcbi as <-.
    assert (Hlen0 : length c0 = len).
    { apply Hclen. unfold vget in Hc0. by eapply list_elem_of_lookup_2. }
    set (u := {| ud_parsedpath := pp; classidsbegin := vsize c0 |}) in *.
    pose proof (durations_match_true _ _ _ Hdur) as Hd.
    destruct (push_all_labels ndebug env _ _ _ _ _ _ Hd Hpush)
      as (Hu' & Hb' & Hlc' & Hlp' & Hlt & _).
    cbn [cs_utteranceset cs_classidsbegin cs_classids cs_phoneboundaries
         cs_add_totalframes cs_push_utterance] in *.
    rewrite Hc2, Hp2 in *. rewrite Hu2 in Hu'. rewrite Hb2 in Hb'.
    assert (Hc' : ∀ c', c' ∈ cs_classids st' →
              ∃ c fc, c ∈ cs_classids st ∧ N.of_nat (length fc) = pp_numframes pp
                      ∧ c' = c ++ fc ++ [classid_marker env]).
    { intros c' (j & Hj)%list_elem_of_lookup_1.
      destruct (Hlt j) as [(c & fc & Hcj & Hfc & Hcj') _].
      { apply lookup_lt_Some in Hj. lia. }
      exists c, fc. split; [by eapply list_elem_of_lookup_2|]. split; [done|]. congruence. }
    assert (Hp' : ∀ p', p' ∈ cs_phoneboundaries st' →
              ∃ p fp, p ∈ cs_phoneboundaries st ∧ N.of_nat (length fp) = pp_numframes pp
                      ∧ p' = p ++ fp ++ [hmmid_marker env]).
    { intros p' (j & Hj)%list_elem_of_lookup_1.
      destruct (Hlt j) as [_ (p & fp & Hpj & Hfp & Hpj')].
      { apply lookup_lt_Some in Hj. lia. }
      exists p, fp. split; [by eapply list_elem_of_lookup_2|]. split; [done|]. congruence. }
    split; [|split]; [|congruence|rewrite Hb', length_app; simpl; lia].
    exists (len + N.to_nat (pp_numframes pp) + 1)%nat. split; [|split; [|split]].
    + intros c' (c & fc & Hin & Hfc & ->)%Hc'. rewrite !length_app. simpl.
      rewrite (Hclen _ Hin). lia.
    + intros p' (p & fp & Hin & Hfp & ->)%Hp'. rewrite !length_app. simpl.
      rewrite (Hplen _ Hin). lia.
    + congruence.
    + intros u0 Hu0. rewrite Hu' in Hu0. apply elem_of_app in Hu0 as [Hold|Hnew].
      * destruct (Hsent _ Hold) as [Hsc Hsp]. split.
        -- intros c' (c & fc & Hin & Hfc & ->)%Hc'. apply lookup_grown. by apply Hsc.
        -- intros p' (p & fp & Hin & Hfp & ->)%Hp'. apply lookup_grown. by apply Hsp.
      * apply list_elem_of_singleton in Hnew as ->. unfold sentinel_at, u, numframes, vsize.
        cbn [classidsbegin ud_parsedpath]. split.
        -- intros c' (c & fc & Hin & Hfc & ->)%Hc'.
           replace (N.to_nat (N.of_nat (length c0) + pp_numframes pp))
             with (length c + length fc)%nat by (rewrite (Hclen _ Hin); lia).
           apply lookup_grown_last.
        -- intros p' (p & fp & Hin & Hfp & ->)%Hp'.
           replace (N.to_nat (N.of_nat (length c0) + pp_numframes pp))
             with (length p + length fp)%nat by (rewrite (Hplen _ Hin); lia).
           apply lookup_grown_last.
Qed.

End ProcessFile.

Lemma indexed_split {A} (v : list A) done i x rest :
  indexed v = done ++ (i, x) :: rest → i = N.of_nat (length done).
Proof.
  intros H. assert (Hf : (indexed v).*1 = indices v).
  { unfold indexed. apply fst_zip. by rewrite indices_length. }
  rewrite H, fmap_app, fmap_cons in Hf. cbn in Hf. symmetry in Hf.
  apply indices_split in Hf as [-> _]. by rewrite length_fmap.
Qed.

Section Streams.
Context (ndebug : bool) {W : Type} (env : collaborators W).

Lemma process_files_in_step labels udim dur files st st' :
  nonempty labels = true →
  length (cs_classids st) = length labels →
  cs_classidsbegin st = [] →
  labels_in_step env st →
  foldM (process_file ndebug env labels udim dur 0) (indexed files) st = Done st' →
  labels_in_step env st'.
Proof.
  intros Hne HL Hcb Hin H.
  set (P := λ (done : list (N * parsedpath)) (st : ctor_state),
         labels_in_step env st ∧ length (cs_classids st) = length labels
         ∧ length (cs_classidsbegin st) = length done).
  assert (HP : P (indexed files) st'); [|by destruct HP].
  eapply (foldM_invariant P); [| |exact H].
  - unfold P. rewrite Hcb. done.
  - intros done [i pp] rest b b' Hl (Hb & HLb & Hcbb) Hstep.
    apply indexed_split in Hl as ->.
    eapply process_file_in_step in Hstep as (? & ? & Hlen); try done.
    + unfold P. rewrite length_app. simpl. rewrite Nat2N.id in Hlen. split_and!; try done. lia.
    + by rewrite Nat2N.id.
Qed.

Lemma process_file_other labels udim dur m st f st' :
  m ≠ 0 →
  process_file ndebug env labels udim dur m st f = Done st' →
  cs_classids st' = cs_classids st ∧ cs_phoneboundaries st' = cs_phoneboundaries st.
Proof.
  intros Hm H. destruct f as [i pp]. unfold process_file in H.
  assert ((m =? 0) = false) as Hm0 by (by apply N.eqb_neq). rewrite Hm0 in H.
  cbn [andb] in H. obind H as st1 E1. injection E1 as <-.
  obind H as valid Ev. destruct valid; cbn [negb] in H; [|by injection H as <-].
  obind H as cb Ecb. obind H as ? Ea. cbv zeta in H.
  obind H as [[st2 lacksmlf] skip] E2.
  assert (cs_classids st2 = cs_classids st ∧ cs_phoneboundaries st2 = cs_phoneboundaries st)
    as [Hc Hp].
  { destruct (nonempty labels).
    - obind E2 as labels0 El0. cbv zeta in E2.
      destruct (bool_decide _ || _) in E2; by injection E2 as <- <- <-.
    - by injection E2 as <- <- <-. }
  destruct skip; injection H as <-; done.
Qed.

Lemma process_files_other labels udim dur m l st st' :
  m ≠ 0 →
  foldM (process_file ndebug env labels udim dur m) l st = Done st' →
  cs_classids st' = cs_classids st ∧ cs_phoneboundaries st' = cs_phoneboundaries st.
Proof.
  intros Hm. revert st. induction l as [|f l IH]; intros st H.
  - by injection H as <-.
  - cbn [foldM] in H. obind H as st1 E1.
    apply process_file_other in E1 as [Hc Hp]; [|done].
    apply IH in H as [Hc' Hp']. split; congruence.
Qed.

Lemma process_stream_first labels udim dur rr fm acc files acc' :
  nonempty labels = true →
  length (cs_classids (st_state acc)) = length labels →
  length (cs_phoneboundaries (st_state acc)) = length labels →
  (∀ c, c ∈ cs_classids (st_state acc) → c = []) →
  (∀ p, p ∈ cs_phoneboundaries (st_state acc) → p = []) →
  process_stream ndebug env labels udim dur rr fm acc (0, files) = Done acc' →
  stream_sentinels env acc'.
Proof.
  intros Hne HLc HLp Hc0 Hp0 H. unfold process_stream in H. cbn [N.eqb] in H.
  obind H as st E. obind H as ? Ea. obind H as ? Em. obind H as ? Et. obind H as ? Easr.
  obind H as chunks Ed. obind H as ? Ev. injection H as <-.
  apply process_files_in_step in E; try done.
  2:{ exists 0%nat. cbn. split_and!.
      - intros c Hc. by rewrite (Hc0 c Hc).
      - intros p Hp. by rewrite (Hp0 p Hp).
      - congruence.
      - intros u Hu. by apply elem_of_nil in Hu. }
  destruct E as (len & _ & _ & _ & Hsent).
  intros ac0 u Hac0 Hu. cbn [st_allchunks st_state] in *.
  unfold vset in Hac0. cbn in Hac0.
  apply vat_Done in Ev. unfold vget in Ev. cbn in Ev.
  rewrite list_lookup_insert_eq in Hac0 by (by eapply lookup_lt_Some).
  injection Hac0 as <-.
  apply distribute_all_Done in Ed; [|constructor]. cbn in Ed. rewrite Ed in Hu.
  by apply Hsent.
Qed.

Lemma process_stream_other labels udim dur rr fm acc m files acc' :
  m ≠ 0 →
  stream_sentinels env acc →
  process_stream ndebug env labels udim dur rr fm acc (m, files) = Done acc' →
  stream_sentinels env acc'.
Proof.
  intros Hm Hinv H. unfold process_stream in H.
  assert ((m =? 0) = false) as Hm0 by (by apply N.eqb_neq). rewrite Hm0 in H.
  obind H as st E. obind H as ? Ea. obind H as ? Em. obind H as ? Et. obind H as ? Easr.
  obind H as chunks Ed. obind H as ? Ev. injection H as <-.
  apply process_files_other in E as [Hc Hp]; [|done].
  intros ac0 u Hac0 Hu. cbn [st_allchunks st_state] in *. rewrite Hc, Hp. cbn.
  unfold vset in Hac0. rewrite list_lookup_insert_ne in Hac0 by lia.
  by eapply Hinv.
Qed.

End Streams.

Lemma indexed_tail_nonzero {A} (x : A) (l : list A) m y :
  (m, y) ∈ zip (map N.of_nat (seq 1 (length l))) l → m ≠ 0.
Proof.
  intros Hin. apply elem_of_zip_l in Hin.
  apply list_elem_of_fmap in Hin as (k & -> & Hk). apply elem_of_seq in Hk. lia.
Qed.

Section ConstructLabels.
Context (ndebug : bool) {W : Type} (env : collaborators W).

Lemma process_streams_other labels udim dur rr fm l acc acc' :
  (∀ m y, (m, y) ∈ l → m ≠ 0) →
  stream_sentinels env acc →
  foldM (process_stream ndebug env labels udim dur rr fm) l acc = Done acc' →
  stream_sentinels env acc'.
Proof.
  revert acc. induction l as [|[m files] l IH]; intros acc Hl Hinv H.
  - by injection H as <-.
  - cbn [foldM] in H. obind H as acc1 E1.
    apply process_stream_other in E1; [| |done].
    + eapply IH; [|exact E1|exact H]. intros m' y Hin. eapply Hl. by right.
    + eapply Hl. left.
Qed.

(** The construction with labels leaves the markers of every utterance of
    the catalog in every label vector. *)
Lemma construct_sentinels infiles labels vdim_ udim lc rc rr fm src :
  labels ≠ [] →
  construct ndebug env infiles labels vdim_ udim lc rc rr fm = Done src →
  ∀ u, u ∈ catalog_utterances src →
       sentinel_at env (classids src) (phoneboundaries src) u.
Proof.
  intros Hlab H. unfold construct in H.
  do 6 (obind H as ? E; clear E).
  obind H as [uttisvalid uttduration] Eprobe. cbv zeta in H.
  obind H as acc Efold. injection H as <-.
  unfold catalog_utterances. cbn [allchunks classids phoneboundaries].
  destruct infiles as [|files rest].
  { cbn in Efold. injection Efold as <-. cbn. intros u Hu. by apply elem_of_nil in Hu. }
  rewrite indexed_cons in Efold. cbn [foldM] in Efold. obind Efold as acc1 E1.
  apply process_stream_first in E1.
  - eapply process_streams_other in Efold; [| |exact E1].
    + intros u Hu. destruct (st_allchunks acc) as [|ac0 acs] eqn:Eac.
      * by apply elem_of_nil in Hu.
      * eapply Efold; [|exact Hu]. by rewrite Eac.
    + intros m y Hin. by eapply (indexed_tail_nonzero files).
  - by destruct labels.
  - cbn. by rewrite length_map.
  - cbn. by rewrite length_map.
  - cbn. intros c (l & -> & _)%list_elem_of_fmap. done.
  - cbn. intros p (l & -> & _)%list_elem_of_fmap. done.
Qed.

End ConstructLabels.

Lemma mapO_all_Done {A B} (f : A → outcome B) (g : A → B) (l : list A) :
  (∀ a, a ∈ l → f a = Done (g a)) → mapO f l = Done (map g l).
Proof.
  induction l as [|a l IH]; intros H; [done|]. cbn [mapO map].
  rewrite (H a) by left. cbn. rewrite IH; [done|]. intros a' Ha'. apply H. by right.
Qed.

Lemma mapO_Fail {A B} (f : A → outcome B) (l : list A) e :
  mapO f l = Fail e → ∃ a, a ∈ l ∧ f a = Fail e.
Proof.
  induction l as [|a l IH]; intros H; [done|]. cbn [mapO] in H.
  destruct (f a) as [b|e'] eqn:Ea; cbn in H.
  - destruct (mapO f l) as [bs|e''] eqn:El; cbn in H; [done|].
    injection H as ->. destruct (IH eq_refl) as (a' & Hin & Hf). exists a'. split; [by right|done].
  - injection H as ->. exists a. split; [left|done].
Qed.

Lemma mapO_one_failure {A B} (f : A → outcome B) (l : list A) e :
  (∀ a, a ∈ l → (∃ b, f a = Done b) ∨ f a = Fail e) →
  (∃ a, a ∈ l ∧ f a = Fail e) →
  mapO f l = Fail e.
Proof.
  induction l as [|a l IH]; intros Hall (a0 & Hin & Hf); [by apply elem_of_nil in Hin|].
  cbn [mapO]. destruct (Hall a ltac:(left)) as [[b Hb]|Hb]; rewrite Hb; cbn; [|done].
  apply elem_of_cons in Hin as [->|Hin]; [congruence|].
  rewrite IH; [done| |by exists a0]. intros a' Ha'. apply Hall. by right.
Qed.

Section Getclassids.
Context (ndebug : bool) {W : Type} (env : collaborators W).

Lemma getclassids_supervised src r cd u :
  issupervised src = true →
  getChunkData ndebug src 0 (chunkindex r) = Done cd →
  vget (utteranceset cd) (utteranceindex r) = Some u →
  getclassids ndebug env src r
  = mapO (marker_view env (classidsbegin u) (numframes u)) (classids src).
Proof.
  intros Hsup Hcd Hu. unfold getclassids. rewrite Hsup. cbn [negb].
  rewrite Hcd. cbn [mbind outcome_bind].
  unfold getclassidsbegin, cd_numframes. rewrite (proj2 (vat_Done _ _ _) Hu). cbn. done.
Qed.

Lemma marker_view_Done cb n v :
  vget v (SizeT.add cb n) = Some (classid_marker env) →
  marker_view env cb n v = Done {| sv_v := v; sv_first := cb; sv_n := n |}.
Proof.
  intros H. unfold marker_view. rewrite (proj2 (vat_Done _ _ _) H). cbn.
  by rewrite N.eqb_refl.
Qed.

Lemma marker_view_LogicError cb n v e :
  marker_view env cb n v = Fail (LogicError e) ↔
  e = LE_boundary_marker ∧ ∃ x, vget v (SizeT.add cb n) = Some x ∧ x ≠ classid_marker env.
Proof.
  unfold marker_view, vat. destruct (vget v (SizeT.add cb n)) as [x|]; cbn.
  - destruct (x =? classid_marker env) eqn:E; cbn.
    + apply N.eqb_eq in E. split; [done|]. intros (_ & x' & [= <-] & Hne). done.
    + apply N.eqb_neq in E. split.
      * intros [= <-]. eauto.
      * intros [-> _]. done.
  - split; [done|]. intros (_ & x & Hx & _). done.
Qed.

Lemma catalog_of_chunk src k cd i u :
  getChunkData ndebug src 0 k = Done cd →
  vget (utteranceset cd) i = Some u →
  u ∈ catalog_utterances src.
Proof.
  intros Hcd Hu. unfold getChunkData in Hcd.
  obind Hcd as idx Eidx. obind Hcd as ac Eac. apply vat_Done in Eac, Hcd.
  unfold catalog_utterances. unfold vget in Eac. destruct (allchunks src) as [|ac0 acs]; [done|].
  cbn in Eac. injection Eac as ->.
  apply list_elem_of_In, in_concat. exists (utteranceset cd). split.
  - apply in_map, list_elem_of_In. unfold vget in Hcd. by eapply list_elem_of_lookup_2.
  - apply list_elem_of_In. unfold vget in Hu. by eapply list_elem_of_lookup_2.
Qed.

End Getclassids.

Section LabelTheorem.
Context (ndebug : bool) {W : Type} (env : collaborators W).

Lemma sentinel_position (c : list N) (cb n x : N) :
  c !! N.to_nat (cb + n) = Some x → vsize c < SizeT.modulus →
  vget c (SizeT.add cb n) = Some x.
Proof.
  intros H Hfit. apply lookup_lt_Some in H as Hlt. unfold vsize in Hfit.
  unfold vget. rewrite add_small by lia. done.
Qed.

(** C9 (label sentinels).  A construction with labels that succeeds leaves,
    for every utterance of the catalog, the marker [(CLASSIDTYPE) -1] at
    [classidsbegin + numframes] of every class-id vector and the marker
    [(HMMIDTYPE) -1] there in every phone-boundary vector (the vectors being
    of a [size_t] length).  [getclassids] of an utterance throws a logic error
    only when a class-id vector holds something else than the marker there,
    and does throw it then if the position can be read in every vector;
    where the markers are in place it returns, for every label stream, the
    view of exactly [numframes] labels from [classidsbegin]. *)
Theorem label_sentinels_getclassids :
  (∀ infiles labels vdim_ udim lc rc rr fm src,
     labels ≠ [] →
     construct ndebug env infiles labels vdim_ udim lc rc rr fm = Done src →
     Forall (λ c, vsize c < SizeT.modulus) (classids src) →
     Forall (λ p, vsize p < SizeT.modulus) (phoneboundaries src) →
     label_sentinels env src)
  ∧ (∀ src r cd u,
       issupervised src = true →
       getChunkData ndebug src 0 (chunkindex r) = Done cd →
       vget (utteranceset cd) (utteranceindex r) = Some u →
       (∀ e, getclassids ndebug env src r = Fail (LogicError e) →
             e = LE_boundary_marker
             ∧ ∃ c x, c ∈ classids src
                      ∧ vget c (SizeT.add (classidsbegin u) (numframes u)) = Some x
                      ∧ x ≠ classid_marker env)
       ∧ ((∀ c, c ∈ classids src →
                is_Some (vget c (SizeT.add (classidsbegin u) (numframes u)))) →
          (∃ c x, c ∈ classids src
                  ∧ vget c (SizeT.add (classidsbegin u) (numframes u)) = Some x
                  ∧ x ≠ classid_marker env) →
          getclassids ndebug env src r = Fail (LogicError LE_boundary_marker))
       ∧ (label_sentinels env src →
          getclassids ndebug env src r
          = Done (map (λ v, {| sv_v := v; sv_first := classidsbegin u;
                               sv_n := numframes u |}) (classids src)))).
Proof.
  split.
  - intros infiles labels vdim_ udim lc rc rr fm src Hlab Hc Hfc Hfp u Hu.
    destruct (construct_sentinels ndebug env _ _ _ _ _ _ _ _ _ Hlab Hc u Hu) as [Hsc Hsp].
    rewrite Forall_forall in Hfc, Hfp. split.
    + intros c Hin. apply sentinel_position; [by apply Hsc|by apply Hfc].
    + intros p Hin. apply sentinel_position; [by apply Hsp|by apply Hfp].
  - intros src r cd u Hsup Hcd Hu.
    rewrite (getclassids_supervised ndebug env src r cd u Hsup Hcd Hu).
    split; [|split].
    + intros e (c & Hin & Hf)%mapO_Fail. apply marker_view_LogicError in Hf as (-> & x & Hx & Hne).
      split; [done|]. by exists c, x.
    + intros Hread (c & x & Hin & Hx & Hne). apply mapO_one_failure.
      * intros c' Hin'. destruct (Hread c' Hin') as [x' Hx'].
        destruct (decide (x' = classid_marker env)) as [->|Hne'].
        -- left. eexists. by apply marker_view_Done.
        -- right. apply marker_view_LogicError. split; [done|]. by exists x'.
      * exists c. split; [done|]. apply marker_view_LogicError. split; [done|]. by exists x.
    + intros Hsent. apply mapO_all_Done. intros c Hin. apply marker_view_Done.
      apply (Hsent u); [|done]. by eapply catalog_of_chunk.
Qed.

End LabelTheorem.

Lemma label_sentinels_getclassids_witness :
  ∃ src, construct false example_env [example_labelled_files] [example_labels]
           [2] [3] [0] [0] 20 true = Done src
         ∧ label_sentinels example_env src.
Proof.
  eexists. split; [vm_compute; reflexivity|].
  refine (proj1 (label_sentinels_getclassids false example_env)
            [example_labelled_files] [example_labels] [2] [3] [0] [0] 20 true _ _ _ _ _).
  - discriminate.
  - vm_compute; reflexivity.
  - repeat constructor.
  - repeat constructor.
Defined.

Section EntryAssertions.
Context {W : Type} (env : collaborators W).

(** C10 (the constructor's precondition): in a build with assertions, a
    constructor input with another number of feature streams than one, with
    another number of label streams than one, or whose first left or right
    context width is missing or not zero fails an assertion at entry; nothing
    is built for it. *)
Theorem construct_requires_single_stream (infiles : list (list parsedpath))
    (labels : list (gmap string (list htkmlfentry)))
    (vdim_ udim lc rc : list N) (rr : N) (fm : bool) :
  vsize infiles ≠ 1 ∨ vsize labels ≠ 1 ∨ vget lc 0 ≠ Some 0 ∨ vget rc 0 ≠ Some 0 →
  construct false env infiles labels vdim_ udim lc rc rr fm = Fail AssertionFailed.
Proof.
  intros Hv. unfold construct, assert, assertM.
  destruct (vsize infiles =? 1) eqn:E1; simpl; [|reflexivity].
  destruct (vsize lc =? 1) eqn:E2; simpl; [|reflexivity].
  destruct (vget_is_Some lc 0) as [x E3]; [apply N.eqb_eq in E2; lia|].
  rewrite (proj2 (vat_Done lc 0 x) E3). simpl.
  destruct (x =? 0) eqn:E4; simpl; [|reflexivity].
  destruct (vsize rc =? 1) eqn:E5; simpl; [|reflexivity].
  destruct (vget_is_Some rc 0) as [y E6]; [apply N.eqb_eq in E5; lia|].
  rewrite (proj2 (vat_Done rc 0 y) E6). simpl.
  destruct (y =? 0) eqn:E7; simpl; [|reflexivity].
  destruct (vsize labels =? 1) eqn:E8; simpl; [|reflexivity].
  apply N.eqb_eq in E1, E4, E7, E8. subst. destruct Hv as [?|[?|[?|?]]]; congruence.
Qed.

End EntryAssertions.

Lemma construct_requires_single_stream_witness :
  construct false example_env [example_labelled_files; example_labelled_files]
    [example_labels] [2; 2] [3] [0] [0] 20 true = Fail AssertionFailed.
Proof.
  apply (construct_requires_single_stream example_env). left. vm_compute. discriminate.
Defined.

Section ConstructedRandomizer.
Context (ndebug : bool) {W : Type} (env : collaborators W).

Lemma process_stream_rand labels udim dur rr fm acc s acc' :
  process_stream ndebug env labels udim dur rr fm acc s = Done acc' →
  ∃ rz, st_rand acc' = Some rz
        ∧ _totalframes rz = cs_totalframes (st_state acc')
        ∧ framemode rz = fm
        ∧ currentsweep rz = SizeT.SIZE_MAX.
Proof.
  destruct s as [m files]. unfold process_stream. intros H.
  obind H as st E. obind H as ? Ea. obind H as ? Em. obind H as ? Et. obind H as ? Easr.
  obind H as chunks Ed. obind H as ? Ev. injection H as <-.
  eexists. split; [reflexivity|]. done.
Qed.

(** The randomizer of a constructed source counts the frames of the source
    and runs in its mode; no sweep is current yet. *)
Lemma construct_rand infiles labels vdim_ udim lc rc rr fm src :
  infiles ≠ [] →
  construct ndebug env infiles labels vdim_ udim lc rc rr fm = Done src →
  src_framemode src = fm
  ∧ ∃ rz, rand_ src = Some rz
          ∧ _totalframes rz = src_totalframes src
          ∧ framemode rz = src_framemode src
          ∧ currentsweep rz = SizeT.SIZE_MAX.
Proof.
  intros Hne H. unfold construct in H.
  do 6 (obind H as ? E; clear E).
  obind H as [uttisvalid uttduration] Eprobe. cbv zeta in H.
  obind H as acc Efold. injection H as <-. cbn. split; [done|].
  destruct (indexed infiles) as [|s l] eqn:El using rev_ind.
  { destruct infiles; [done|]. by rewrite indexed_cons in El. }
  rewrite foldM_app in Efold. obind Efold as acc1 E1.
  cbn [foldM] in Efold. obind Efold as acc2 E2. injection Efold as <-.
  by apply process_stream_rand in E2.
Qed.

End ConstructedRandomizer.

(** * The key of an utterance *)

Lemma drop_extension_rev_ext (ext rest : list Ascii.ascii) :
  Forall (λ a, is_ext_stop a = false) ext →
  drop_extension_rev (ext ++ "."%char :: rest) = Some rest.
Proof.
  induction 1 as [|a ext Ha _ IH]; cbn.
  - done.
  - destruct (bool_decide (a = "."%char)) eqn:E.
    + unfold is_ext_stop in Ha. rewrite E in Ha. done.
    + by rewrite Ha.
Qed.

Lemma drop_extension_rev_stop (ext rest : list Ascii.ascii) (a : Ascii.ascii) :
  Forall (λ a, is_ext_stop a = false) ext →
  is_ext_stop a = true → a ≠ "."%char →
  drop_extension_rev (ext ++ a :: rest) = None.
Proof.
  intros Hext Ha Hdot. induction Hext as [|b ext Hb _ IH]; cbn.
  - rewrite bool_decide_eq_false_2 by done. by rewrite Ha.
  - destruct (bool_decide (b = "."%char)) eqn:E.
    + unfold is_ext_stop in Hb. rewrite E in Hb. done.
    + by rewrite Hb.
Qed.

Lemma drop_extension_rev_none (l : list Ascii.ascii) :
  Forall (λ a, is_ext_stop a = false) l → drop_extension_rev l = None.
Proof.
  induction 1 as [|b ext Hb _ IH]; cbn; [done|].
  destruct (bool_decide (b = "."%char)) eqn:E.
  - unfold is_ext_stop in Hb. rewrite E in Hb. done.
  - by rewrite Hb.
Qed.

(** X1: [key ()] deletes the last extension of the logical path, and only an
    extension: the text after the last dot when it holds no path separator
    ([\], [/], [:]).  A path whose last dot is followed by a separator, or
    that has neither a dot nor a separator, is its own key. *)
Theorem key_deletes_last_extension (pp : parsedpath) (cb : N)
    (base ext : list Ascii.ascii) :
  Forall (λ a, is_ext_stop a = false) ext →
  (logicalpath pp = string_of_list_ascii (base ++ "."%char :: ext) →
     key {| ud_parsedpath := pp; classidsbegin := cb |} = string_of_list_ascii base)
  ∧ (∀ sep, is_ext_stop sep = true → sep ≠ "."%char →
       logicalpath pp = string_of_list_ascii (base ++ sep :: ext) →
       key {| ud_parsedpath := pp; classidsbegin := cb |} = logicalpath pp)
  ∧ (logicalpath pp = string_of_list_ascii ext →
       key {| ud_parsedpath := pp; classidsbegin := cb |} = logicalpath pp).
Proof.
  intros Hext. unfold key, remove_extension. cbn [ud_parsedpath].
  assert (Hrev : Forall (λ a, is_ext_stop a = false) (rev ext)).
  { apply Forall_forall. intros a Ha. rewrite Forall_forall in Hext. apply Hext.
    apply list_elem_of_In. apply list_elem_of_In, in_rev in Ha. done. }
  split; [|split].
  - intros ->. rewrite list_ascii_of_string_of_list_ascii.
    rewrite rev_app_distr. cbn [rev]. rewrite <- app_assoc. cbn [app].
    rewrite drop_extension_rev_ext by done. by rewrite rev_involutive.
  - intros sep Hsep Hdot ->. rewrite list_ascii_of_string_of_list_ascii.
    rewrite rev_app_distr. cbn [rev]. rewrite <- app_assoc. cbn [app].
    by rewrite drop_extension_rev_stop.
  - intros ->. rewrite list_ascii_of_string_of_list_ascii.
    by rewrite drop_extension_rev_none.
Qed.

Lemma key_deletes_last_extension_witness :
  key {| ud_parsedpath := example_path "dir.x/a.b.mfc" 4; classidsbegin := 0 |}
  = "dir.x/a.b"%string.
Proof.
  refine (proj1 (key_deletes_last_extension (example_path "dir.x/a.b.mfc" 4) 0
                   (list_ascii_of_string "dir.x/a.b") (list_ascii_of_string "mfc") _) _).
  - repeat constructor.
  - reflexivity.
Defined.

(** * The layout of a chunk *)

Lemma push_back_step (cd0 : utterancechunkdata) (u : utterancedesc) :
  isinram cd0 = false →
  push_back cd0 u
  = Done {| utteranceset := utteranceset cd0 ++ [u];
            firstframes := firstframes cd0 ++ [totalframes cd0];
            frames := frames cd0;
            totalframes := SizeT.add (totalframes cd0) (numframes u);
            lattices := lattices cd0 |}.
Proof. intros H. unfold push_back. by rewrite H. Qed.

Lemma push_back_fold (us : list utterancedesc) (cd0 : utterancechunkdata) :
  isinram cd0 = false → totalframes cd0 < SizeT.modulus →
  ∃ cd, foldM push_back us cd0 = Done cd
    ∧ utteranceset cd = utteranceset cd0 ++ us
    ∧ firstframes cd
      = firstframes cd0
        ++ map (λ i, SizeT.wrap (totalframes cd0 + sumN (map numframes (take i us))))
               (seq 0 (length us))
    ∧ totalframes cd = SizeT.wrap (totalframes cd0 + sumN (map numframes us))
    ∧ frames cd = frames cd0 ∧ lattices cd = lattices cd0.
Proof.
  revert cd0. induction us as [|u us IH]; intros cd0 Hram Hlt.
  - exists cd0. cbn. rewrite !app_nil_r, N.add_0_r, wrap_small by done. done.
  - cbn [foldM]. rewrite push_back_step by done. cbn [mbind outcome_bind].
    destruct (IH {| utteranceset := utteranceset cd0 ++ [u];
                    firstframes := firstframes cd0 ++ [totalframes cd0];
                    frames := frames cd0;
                    totalframes := SizeT.add (totalframes cd0) (numframes u);
                    lattices := lattices cd0 |})
      as (cd & Hcd & Hus & Hff & Htot & Hfr & Hlat); [done|apply add_lt|].
    exists cd. cbn [utteranceset firstframes totalframes frames lattices] in *.
    split; [exact Hcd|]. rewrite Hus, Hff, Htot, <- !app_assoc.
    split_and!; try done.
    + f_equal. cbn [length seq map take sumN foldr app]. rewrite N.add_0_r.
      rewrite wrap_small by done. f_equal.
      rewrite <- seq_shift, map_map. apply map_ext. intros i.
      cbn [take map sumN foldr]. fold (sumN (map numframes (take i us))).
      pose proof (add_wrap_l (totalframes cd0 + numframes u)
                    (sumN (map numframes (take i us)))) as E.
      unfold SizeT.add in E |- *. rewrite E. f_equal. lia.
    + cbn [map sumN foldr]. fold (sumN (map numframes us)).
      pose proof (add_wrap_l (totalframes cd0 + numframes u) (sumN (map numframes us))) as E.
      unfold SizeT.add in E |- *. rewrite E. f_equal. lia.
Qed.

(** X2: a chunk filled by [push_back] from the empty chunk holds the
    utterances in the order they were added, [firstframes[i]] is the number
    of frames of the utterances before [i] and [totalframes] that of all of
    them (as [size_t] values), and the chunk stays paged out.  On a chunk
    whose frames are in RAM, [push_back] throws a logic error. *)
Theorem push_back_layout (us : list utterancedesc) :
  (∃ cd, foldM push_back us empty_chunkdata = Done cd
     ∧ utteranceset cd = us
     ∧ firstframes cd
       = map (λ i, SizeT.wrap (sumN (map numframes (take i us)))) (seq 0 (length us))
     ∧ totalframes cd = SizeT.wrap (sumN (map numframes us))
     ∧ isinram cd = false)
  ∧ ∀ cd u, isinram cd = true → push_back cd u = Fail (LogicError LE_push_back_in_ram).
Proof.
  split.
  - destruct (push_back_fold us empty_chunkdata) as (cd & Hcd & Hus & Hff & Htot & Hfr & _);
      [done|done|].
    exists cd. split; [done|]. cbn in Hus, Hff, Htot, Hfr. split_and!; try done.
    unfold isinram. by rewrite Hfr.
  - intros cd u H. unfold push_back. by rewrite H.
Qed.

(** X3: in a chunk that [push_back] filled with [us], whose frames sum to a
    [size_t] value, and whose frames are in RAM, the stripe of utterance [i]
    starts at the number of frames of the utterances before it, has the
    utterance's number of frames, and ends within [totalframes]; so the
    stripes follow each other without gap or overlap.  While the chunk is
    paged out, [getutteranceframes] throws a logic error. *)
Theorem getutteranceframes_stripes (us : list utterancedesc) (cd0 : utterancechunkdata)
    (fr : N * N) (lat : list string) :
  foldM push_back us empty_chunkdata = Done cd0 →
  sumN (map numframes us) < SizeT.modulus →
  (isinram (set_frames cd0 fr lat) = true →
   ∀ i u, us !! i = Some u →
     getutteranceframes (set_frames cd0 fr lat) (N.of_nat i)
       = Done (sumN (map numframes (take i us)), numframes u)
     ∧ sumN (map numframes (take i us)) + numframes u
       = sumN (map numframes (take (S i) us))
     ∧ sumN (map numframes (take (S i) us)) ≤ totalframes cd0)
  ∧ (isinram (set_frames cd0 fr lat) = false →
     ∀ i, getutteranceframes (set_frames cd0 fr lat) i = Fail (LogicError LE_getutteranceframes)).
Proof.
  intros Hcd Hfit.
  destruct (push_back_fold us empty_chunkdata) as (cd & Hcd' & Hus & Hff & Htot & _);
    [done|done|].
  rewrite Hcd in Hcd'. injection Hcd' as <-. cbn in Hus, Hff, Htot.
  rewrite wrap_small in Htot by done.
  split.
  - intros Hram i u Hi. unfold getutteranceframes. rewrite Hram. cbn [negb].
    assert (Hle : ∀ k, sumN (map numframes (take k us)) ≤ sumN (map numframes us)).
    { intros k. rewrite <- firstn_map. apply sumN_take_all_le. }
    assert (Hlt : (i < length us)%nat) by (by eapply lookup_lt_Some).
    assert (Hts : vget (firstframes (set_frames cd0 fr lat)) (N.of_nat i)
                  = Some (sumN (map numframes (take i us)))).
    { unfold vget. rewrite Nat2N.id. cbn [set_frames firstframes]. rewrite Hff.
      rewrite list_lookup_fmap, lookup_seq_lt by done. cbn [fmap option_fmap option_map Nat.add].
      rewrite wrap_small; [done|]. eapply N.le_lt_trans; [apply Hle|done]. }
    unfold vat. rewrite Hts. cbn [mbind outcome_bind].
    unfold cd_numframes, vat, vget. rewrite Nat2N.id. cbn [set_frames utteranceset].
    rewrite Hus, Hi. cbn [mbind outcome_bind].
    assert (Hstep : sumN (map numframes (take i us)) + numframes u
                    = sumN (map numframes (take (S i) us))).
    { rewrite (take_S_r _ _ _ Hi), map_app, sumN_app. cbn. lia. }
    split; [done|]. split; [done|]. rewrite Htot. apply Hle.
  - intros Hram i. unfold getutteranceframes. by rewrite Hram.
Qed.

Lemma getutteranceframes_stripes_witness :
  getutteranceframes
    (set_frames (example_chunk [4; 6]) (2, 10) []) 1 = Done (4, 6).
Proof.
  refine (proj1 (proj1 (getutteranceframes_stripes
                   (map example_utterance [4; 6]) (example_chunk [4; 6]) (2, 10) [] _ _)
                   _ 1%nat (example_utterance 6) _)).
  - reflexivity.
  - reflexivity.
  - reflexivity.
  - reflexivity.
Defined.

(** * Paging a chunk in and out *)

Section Preserves.
Context {W : Type}.
Implicit Types P : @machine W → Prop.

Lemma preserves_mret {A} P (a : A) : preserves P (mret a).
Proof. intros s r s' HP [= _ <-]. done. Qed.

Lemma preserves_lift {A} P (o : outcome A) : preserves P (lift o).
Proof. intros s r s' HP [= _ <-]. done. Qed.

Lemma preserves_sthrow {A} P f : preserves P (sthrow f : stateful _ A).
Proof. intros s r s' HP [= _ <-]. done. Qed.

Lemma preserves_sget P : preserves P sget.
Proof. intros s r s' HP [= _ <-]. done. Qed.

Lemma preserves_bind {A B} P (op : stateful (@machine W) A)
    (k : A → stateful (@machine W) B) :
  preserves P op → (∀ a, preserves P (k a)) → preserves P (a ← op; k a).
Proof.
  intros Hop Hk s r s' HP H. unfold mbind, stateful_bind in H.
  destruct (op s) as [[a|e] s1] eqn:E.
  - eapply Hk; [|exact H]. eapply Hop; [|exact E]. done.
  - injection H as <- <-. eapply Hop; [|exact E]. done.
Qed.

Lemma preserves_foldS {A B} P (f : B → A → stateful (@machine W) B) l b :
  (∀ b a, preserves P (f b a)) → preserves P (foldS f l b).
Proof.
  intros Hf. revert b. induction l as [|a l IH]; intros b; cbn [foldS].
  - apply preserves_mret.
  - apply preserves_bind; [apply Hf|]. intros b'. apply IH.
Qed.

Lemma preserves_call_world {A} P (f : W → outcome A * W) :
  (∀ src w w', P (src, w) → P (src, w')) → preserves P (call_world f).
Proof.
  intros HP [src w] r s' H. unfold call_world. destruct (f w) as [r' w'] eqn:E.
  intros [= _ <-]. eauto.
Qed.

End Preserves.

Section ChunkPaging.
Context {W : Type} (env : collaborators W).
Implicit Types s : @machine W.

Lemma preserves_bind_Done {A B} (P : @machine W → Prop) (op : stateful (@machine W) A)
    (k : A → stateful (@machine W) B) :
  preserves P op →
  (∀ a, (∃ s s1, P s ∧ op s = (Done a, s1)) → preserves P (k a)) →
  preserves P (a ← op; k a).
Proof.
  intros Hop Hk s r s' HP H. unfold mbind, stateful_bind in H.
  destruct (op s) as [[a|e] s1] eqn:E.
  - eapply Hk; [by eauto| |exact H]. eapply Hop; [|exact E]. done.
  - injection H as <- <-. eapply Hop; [|exact E]. done.
Qed.

Lemma get_chunkdata_Done m idx s cd s' :
  get_chunkdata m idx s = (Done cd, s') → s' = s ∧ chunk_of (fst s) m idx = Some cd.
Proof.
  destruct s as [src w]. unfold get_chunkdata. intros H.
  sbind H as [src0 w0] s0 E0. apply sget_Done in E0 as [[= -> ->] ->].
  apply lift_Done in H as [H ->]. split; [done|].
  obind H as ac Eac. apply vat_Done in Eac. apply vat_Done in H.
  unfold chunk_of. cbn [fst]. rewrite Eac. exact H.
Qed.

Lemma get_chunkdata_of m idx src (w : W) cd :
  chunk_of src m idx = Some cd → get_chunkdata m idx (src, w) = (Done cd, (src, w)).
Proof.
  unfold chunk_of, get_chunkdata. intros H.
  destruct (vget (allchunks src) m) as [ac|] eqn:Eac; [|done]. cbn in H.
  unfold mbind, stateful_bind, sget, lift, vat. rewrite Eac. cbn. by rewrite H.
Qed.

Lemma put_chunkdata_of m idx cd src (w : W) cd0 :
  chunk_of src m idx = Some cd0 →
  ∃ src', put_chunkdata m idx cd (src, w) = (Done tt, (src', w))
          ∧ chunk_of src' m idx = Some cd
          ∧ featdim src' = featdim src ∧ featkind src' = featkind src
          ∧ sampperiod src' = sampperiod src.
Proof.
  unfold chunk_of. intros H.
  destruct (vget (allchunks src) m) as [ac|] eqn:Eac; [|done]. cbn in H.
  unfold put_chunkdata, smodify. rewrite Eac. eexists. split; [done|].
  cbn [set_chunks allchunks featdim featkind sampperiod]. split; [|done].
  unfold chunk_of. rewrite vget_vset_eq by (by eapply vget_lt). cbn.
  apply vget_vset_eq. by eapply vget_lt.
Qed.

Lemma preserves_put_chunkdata m idx us cd :
  utteranceset cd = us → preserves (holds (W:=W) m idx us) (put_chunkdata m idx cd).
Proof.
  intros Hus [src w] r s' (cd0 & Hcd0 & _) H.
  destruct (put_chunkdata_of m idx cd src w cd0 Hcd0) as (src' & Hput & Hof & _).
  rewrite Hput in H. injection H as <- <-. exists cd. done.
Qed.

Lemma preserves_get_chunkdata P m idx : preserves P (get_chunkdata (W:=W) m idx).
Proof.
  intros [src w] r s' HP. unfold get_chunkdata, mbind, stateful_bind, sget, lift.
  by intros [= _ <-].
Qed.

Lemma holds_get m idx us cd :
  (∃ s s1, holds m idx us s ∧ get_chunkdata m idx s = (Done cd, s1)) → utteranceset cd = us.
Proof.
  intros (s & s1 & (cd' & Hcd' & Hus) & H). apply get_chunkdata_Done in H as [_ H]. congruence.
Qed.

Lemma preserves_releasedata m idx us : preserves (holds (W:=W) m idx us) (releasedata m idx).
Proof.
  unfold releasedata. apply preserves_bind_Done; [apply preserves_get_chunkdata|].
  intros cd Hcd. apply holds_get in Hcd.
  destruct (_ =? 0); [apply preserves_sthrow|].
  destruct (negb _); [apply preserves_sthrow|].
  by apply preserves_put_chunkdata.
Qed.

Lemma preserves_read_utterance m idx us u i :
  preserves (holds (W:=W) m idx us) (read_utterance env m idx u i).
Proof.
  unfold read_utterance.
  apply preserves_bind; [apply preserves_sget|]. intros [src w].
  apply preserves_bind; [apply preserves_get_chunkdata|]. intros cd.
  apply preserves_bind; [apply preserves_lift|]. intros uttframes.
  apply preserves_bind; [apply preserves_lift|]. intros u'.
  apply preserves_bind; [apply preserves_lift|]. intros fk.
  apply preserves_bind; [apply preserves_lift|]. intros sp.
  apply preserves_bind; [by apply preserves_call_world|]. intros _.
  destruct (negb (lat_empty env)); [|apply preserves_mret].
  apply preserves_bind; [apply preserves_lift|]. intros _.
  apply preserves_bind; [by apply preserves_call_world|]. intros _.
  apply preserves_bind_Done; [apply preserves_get_chunkdata|].
  intros cd' Hcd. apply holds_get in Hcd. by apply preserves_put_chunkdata.
Qed.

Lemma preserves_requiredata_body m idx us :
  preserves (holds (W:=W) m idx us) (requiredata_body env m idx).
Proof.
  unfold requiredata_body.
  apply preserves_bind; [apply preserves_sget|]. intros [src w].
  apply preserves_bind_Done; [apply preserves_get_chunkdata|].
  intros cd Hcd. apply holds_get in Hcd.
  apply preserves_bind; [apply preserves_lift|]. intros fd.
  apply preserves_bind.
  { destruct (fd =? 0); [|apply preserves_mret].
    apply preserves_bind; [apply preserves_lift|]. intros u0.
    apply preserves_bind; [by apply preserves_call_world|]. intros [[fk fd'] sp].
    intros [src1 w1] r s' HP [= _ <-]. exact HP. }
  intros _.
  apply preserves_bind; [apply preserves_sget|]. intros [src2 w2].
  apply preserves_bind; [apply preserves_lift|]. intros fd2.
  apply preserves_bind; [by apply preserves_put_chunkdata|]. intros _.
  apply preserves_foldS. intros b a. apply preserves_read_utterance.
Qed.

(** X4: [requiredata] does not return in a broken state.  When it is called
    on a chunk that is not in RAM and leaves with an exception, the chunk is
    still there with the same utterances and is not in RAM, whatever the
    readers did; so the call can be tried again. *)
Theorem requiredata_exception_safe m idx src (w : W) cd e s' :
  chunk_of src m idx = Some cd → isinram cd = false →
  requiredata env m idx (src, w) = (Fail e, s') → is_exception e = true →
  ∃ cd', chunk_of (fst s') m idx = Some cd' ∧ isinram cd' = false
         ∧ utteranceset cd' = utteranceset cd.
Proof.
  intros Hcd Hram H He. unfold requiredata in H.
  unfold mbind at 1, stateful_bind at 1 in H. rewrite (get_chunkdata_of _ _ _ _ _ Hcd) in H.
  destruct (cd_numutterances cd =? 0) eqn:Evirgin.
  { injection H as <- <-. exists cd. done. }
  rewrite Hram in H. unfold try_catch_rethrow in H.
  assert (Hholds : holds (W:=W) m idx (utteranceset cd) (src, w)) by (exists cd; done).
  destruct (requiredata_body env m idx (src, w)) as [[[]|e0] s1] eqn:Ebody; [done|].
  pose proof (preserves_requiredata_body m idx _ _ _ _ Hholds Ebody) as (cd1 & Hcd1 & Hus1).
  destruct (is_exception e0) eqn:Ee0.
  2:{ injection H as <- <-. congruence. }
  destruct s1 as [src1 w1]. cbn [fst] in Hcd1.
  unfold releasedata in H.
  unfold mbind at 1, stateful_bind at 1 in H. rewrite (get_chunkdata_of _ _ _ _ _ Hcd1) in H.
  assert (Hn : cd_numutterances cd1 = cd_numutterances cd).
  { unfold cd_numutterances. by rewrite Hus1. }
  rewrite Hn, Evirgin in H.
  destruct (isinram cd1) eqn:Eram1; cbn [negb] in H.
  - destruct (put_chunkdata_of m idx (set_frames cd1 (0, 0) []) src1 w1 cd1 Hcd1)
      as (src2 & Hput & Hof & _).
    rewrite Hput in H. injection H as <- <-. eexists. split; [exact Hof|]. done.
  - injection H as <- <-. exists cd1. done.
Qed.

(** X5: the handler of [requiredata] can hide the exception it handles.  On
    the first read of a stream (its feature dimension is still 0), when the
    reader fails to get the information of the first file, nothing has been
    paged in yet, so [releasedata] in the handler throws its own logic error
    and that is what the caller gets; the source is left as it was. *)
Theorem requiredata_getinfo_failure_masked m idx src (w w' : W) cd u0 e :
  chunk_of src m idx = Some cd → isinram cd = false →
  vget (featdim src) m = Some 0 →
  vget (utteranceset cd) 0 = Some u0 →
  reader_getinfo env (ud_parsedpath u0) w = (Fail e, w') → is_exception e = true →
  requiredata env m idx (src, w)
  = (Fail (LogicError LE_releasedata_not_in_memory), (src, w')).
Proof.
  intros Hcd Hram Hfd Hu0 Hinfo He. unfold requiredata.
  unfold mbind at 1, stateful_bind at 1. rewrite (get_chunkdata_of _ _ _ _ _ Hcd).
  assert (Evirgin : (cd_numutterances cd =? 0) = false).
  { apply N.eqb_neq. apply vget_lt in Hu0. unfold cd_numutterances. lia. }
  rewrite Evirgin, Hram. unfold try_catch_rethrow.
  assert (Ebody : requiredata_body env m idx (src, w) = (Fail e, (src, w'))).
  { unfold requiredata_body.
    unfold mbind at 1, stateful_bind at 1. cbn [sget].
    unfold mbind at 1, stateful_bind at 1. rewrite (get_chunkdata_of _ _ _ _ _ Hcd).
    unfold mbind at 1, stateful_bind at 1. unfold lift at 1, vat at 1. rewrite Hfd.
    cbn [N.eqb].
    unfold mbind at 1, stateful_bind at 1.
    unfold mbind at 1, stateful_bind at 1. unfold lift at 1, vat at 1. rewrite Hu0.
    unfold mbind at 1, stateful_bind at 1. unfold call_world at 1. rewrite Hinfo. done. }
  rewrite Ebody, He. unfold releasedata.
  unfold mbind at 1, stateful_bind at 1. rewrite (get_chunkdata_of _ _ _ _ _ Hcd).
  rewrite Evirgin, Hram. done.
Qed.

End ChunkPaging.

Lemma requiredata_exception_safe_witness :
  ∃ cd', chunk_of (fst (snd (requiredata example_env_unreadable 0 0 (example_source, tt)))) 0 0
         = Some cd'
         ∧ isinram cd' = false ∧ utteranceset cd' = utteranceset (example_chunk [4; 6]).
Proof.
  refine (requiredata_exception_safe (W:=unit) example_env_unreadable 0 0 example_source tt
            (example_chunk [4; 6]) IOError _ _ _ _ _).
  - reflexivity.
  - reflexivity.
  - reflexivity.
  - reflexivity.
Defined.

Lemma requiredata_getinfo_failure_masked_witness :
  requiredata example_env_offline 0 0 (example_source, tt)
  = (Fail (LogicError LE_releasedata_not_in_memory), (example_source, tt)).
Proof.
  refine (requiredata_getinfo_failure_masked (W:=unit) example_env_offline 0 0 example_source
            tt tt (example_chunk [4; 6]) (example_utterance 4) IOError _ _ _ _ _ _).
  - reflexivity.
  - reflexivity.
  - reflexivity.
  - reflexivity.
  - reflexivity.
  - reflexivity.
Defined.

(** * Paging a randomized chunk out *)

Lemma filter_ext_elem {A} (P Q : A → Prop) `{∀ x, Decision (P x)} `{∀ x, Decision (Q x)}
    (l : list A) :
  (∀ x, x ∈ l → P x ↔ Q x) → filter P l = filter Q l.
Proof.
  induction l as [|a l IH]; intros Hext; [done|].
  rewrite !filter_cons. rewrite IH by (intros x Hx; apply Hext; by right).
  destruct (decide (P a)) as [Hp|Hp], (decide (Q a)) as [Hq|Hq]; try done.
  - exfalso. apply Hq, Hext; [left|done].
  - exfalso. apply Hp, Hext; [left|done].
Qed.

Lemma filter_none {A} (P : A → Prop) `{∀ x, Decision (P x)} (l : list A) :
  (∀ x, x ∈ l → ¬ P x) → filter P l = [].
Proof.
  induction l as [|a l IH]; intros Hno; [done|].
  rewrite filter_cons, decide_False by (apply Hno; left).
  apply IH. intros x Hx. apply Hno. by right.
Qed.

Section ReleaseChunk.
Context (ndebug : bool) {W : Type}.

Lemma getChunkData_Done src m k cd :
  getChunkData ndebug src m k = Done cd ↔
  ∃ idx, chunk_place ndebug src m k = Done idx ∧ chunk_of src m idx = Some cd.
Proof.
  unfold getChunkData, chunk_of. split.
  - intros H. obind H as idx Eidx. obind H as ac Eac. apply vat_Done in Eac, H.
    exists idx. rewrite Eac. done.
  - intros (idx & -> & H). cbn [mbind outcome_bind].
    destruct (vget (allchunks src) m) as [ac|] eqn:Eac; [|done]. cbn in H.
    unfold vat. rewrite Eac. cbn. by rewrite H.
Qed.

Lemma chunk_place_frame src src' m k :
  rand_ src' = rand_ src → chunk_place ndebug src' m k = chunk_place ndebug src m k.
Proof. intros H. unfold chunk_place, the_rand. by rewrite H. Qed.

Lemma getChunkData_frame src src' m k :
  rand_ src' = rand_ src → vget (allchunks src') m = vget (allchunks src) m →
  getChunkData ndebug src' m k = getChunkData ndebug src m k.
Proof.
  intros Hr Hm. unfold getChunkData. rewrite (chunk_place_frame _ _ _ _ Hr).
  unfold vat. by rewrite Hm.
Qed.

Lemma resident_frame src src' m k :
  rand_ src' = rand_ src → vget (allchunks src') m = vget (allchunks src) m →
  resident ndebug src' k m = resident ndebug src k m.
Proof. intros Hr Hm. unfold resident. by rewrite (getChunkData_frame _ _ _ _ Hr Hm). Qed.

Lemma put_chunkdata_eq m idx cd src (w : W) ac :
  vget (allchunks src) m = Some ac →
  put_chunkdata m idx cd (src, w)
  = (Done tt, (set_chunks src (vset (allchunks src) m (vset ac idx cd)), w)).
Proof. intros H. unfold put_chunkdata, smodify. by rewrite H. Qed.

(** One step of the loop of [releaserandomizedchunk] on a known chunk. *)
Lemma release_stream_step k n0 m src (w : W) cd :
  getChunkData ndebug src m k = Done cd →
  (isinram cd = true → cd_numutterances cd ≠ 0) →
  ∃ src',
    release_stream ndebug k n0 m (src, w)
    = (Done (if isinram cd then SizeT.add n0 1 else n0), (src', w))
    ∧ rand_ src' = rand_ src ∧ chunksinram src' = chunksinram src
    ∧ length (allchunks src') = length (allchunks src)
    ∧ (∀ m', m' ≠ m → vget (allchunks src') m' = vget (allchunks src) m')
    ∧ (∃ cd', getChunkData ndebug src' m k = Done cd' ∧ isinram cd' = false)
    ∧ (isinram cd = false → src' = src).
Proof.
  intros Hcd Hnv. pose proof Hcd as Hcd0.
  apply getChunkData_Done in Hcd as (idx & Hidx & Hof).
  unfold release_stream.
  unfold mbind at 1, stateful_bind at 1. cbn [sget].
  unfold mbind at 1, stateful_bind at 1. unfold lift at 1. rewrite Hidx.
  unfold mbind at 1, stateful_bind at 1. rewrite (get_chunkdata_of _ _ _ _ _ Hof).
  destruct (isinram cd) eqn:Eram.
  - unfold releasedata.
    unfold mbind at 1, stateful_bind at 1.
    unfold mbind at 1, stateful_bind at 1. rewrite (get_chunkdata_of _ _ _ _ _ Hof).
    assert ((cd_numutterances cd =? 0) = false) as -> by (apply N.eqb_neq; by apply Hnv).
    rewrite Eram. cbn [negb].
    unfold chunk_of in Hof.
    destruct (vget (allchunks src) m) as [ac|] eqn:Eac; [|done]. cbn in Hof.
    rewrite (put_chunkdata_eq _ _ _ _ _ _ Eac).
    eexists. split; [reflexivity|]. cbn [set_chunks rand_ chunksinram allchunks].
    split; [done|]. split; [done|]. split; [by rewrite length_vset|].
    split; [intros m' Hm'; by apply vget_vset_ne|]. split; [|done].
    exists (set_frames cd (0, 0) []). split; [|done].
    apply getChunkData_Done. exists idx. split; [done|].
    unfold chunk_of. cbn [set_chunks allchunks].
    rewrite vget_vset_eq by (by eapply vget_lt). cbn [mbind option_bind].
    apply vget_vset_eq. by eapply vget_lt.
  - exists src. split; [done|]. split_and!; try done. exists cd. done.
Qed.

Lemma release_fold k (w : W) (l : list N) :
  NoDup l → ∀ n0 src,
  (∀ m, m ∈ l → ∃ cd, getChunkData ndebug src m k = Done cd
                      ∧ (isinram cd = true → cd_numutterances cd ≠ 0)) →
  n0 + N.of_nat (length l) < SizeT.modulus →
  ∃ src',
    foldS (release_stream ndebug k) l n0 (src, w)
    = (Done (n0 + vsize (filter (λ m, resident ndebug src k m = true) l)), (src', w))
    ∧ rand_ src' = rand_ src ∧ chunksinram src' = chunksinram src
    ∧ length (allchunks src') = length (allchunks src)
    ∧ (∀ m, m ∉ l → vget (allchunks src') m = vget (allchunks src) m)
    ∧ (∀ m, m ∈ l → resident ndebug src' k m = false
                    ∧ ∃ cd, getChunkData ndebug src' m k = Done cd)
    ∧ ((∀ m, m ∈ l → resident ndebug src k m = false) → src' = src).
Proof.
  induction 1 as [|m l Hm Hnd IH]; intros n0 src Hknown Hfit.
  - exists src. cbn. rewrite N.add_0_r. split_and!; try done. intros m Hm. by apply elem_of_nil in Hm.
  - destruct (Hknown m) as (cd & Hcd & Hnv); [left|].
    destruct (release_stream_step k n0 m src w cd Hcd Hnv)
      as (src1 & Hstep & Hr1 & Hc1 & Hl1 & Hfr1 & (cd1 & Hcd1 & Hram1) & Hsame1).
    cbn [foldS]. unfold mbind at 1, stateful_bind at 1. rewrite Hstep.
    assert (Hne : ∀ m', m' ∈ l → m' ≠ m) by (intros m' Hm' ->; done).
    cbn [length] in Hfit.
    destruct (IH (if isinram cd then SizeT.add n0 1 else n0) src1)
      as (src' & Hfold & Hr & Hc & Hl & Hfr & Hres & Hsame).
    { intros m' Hm'. destruct (Hknown m') as (cd' & Hcd' & Hnv'); [by right|].
      exists cd'. split; [|done]. rewrite <- Hcd'. apply getChunkData_frame; [done|].
      apply Hfr1. by apply Hne. }
    { destruct (isinram cd); [rewrite add_small by lia|]; lia. }
    exists src'. rewrite Hfold.
    assert (Hfilter : filter (λ m0, resident ndebug src1 k m0 = true) l
                      = filter (λ m0, resident ndebug src k m0 = true) l).
    { apply filter_ext_elem. intros m' Hm'.
      rewrite (resident_frame src src1); [done|done|]. apply Hfr1. by apply Hne. }
    assert (Hresm : resident ndebug src k m = isinram cd).
    { unfold resident. by rewrite Hcd. }
    split.
    { f_equal. f_equal. rewrite Hfilter, filter_cons, Hresm.
      destruct (isinram cd) eqn:Eram.
      - rewrite decide_True by done. unfold vsize. cbn [length].
        rewrite add_small by lia. lia.
      - rewrite decide_False by done. done. }
    split; [congruence|]. split; [congruence|]. split; [congruence|].
    split.
    { intros m' Hm'. apply not_elem_of_cons in Hm' as [Hm1 Hm2].
      rewrite Hfr by done. by apply Hfr1. }
    split.
    { intros m' [->|Hm']%elem_of_cons; [|by apply Hres].
      assert (getChunkData ndebug src' m k = Done cd1) as Hcd'.
      { rewrite <- Hcd1. apply getChunkData_frame; [done|]. by apply Hfr. }
      split; [|by eauto]. unfold resident. by rewrite Hcd'. }
    intros Hnone. rewrite Hsame.
    + apply Hsame1. rewrite <- Hresm. apply Hnone. left.
    + intros m' Hm'. rewrite (resident_frame src src1); [apply Hnone; by right|done|].
      apply Hfr1. by apply Hne.
Qed.

(** X6: [releaserandomizedchunk (k)] on a chunk that every stream knows (and
    that holds utterances wherever it is in RAM) leaves it resident on no
    stream.  If it was resident on no stream (of at least one), nothing
    changes.  If it was resident on all streams, it is paged out on each and
    [chunksinram] is decremented.  If it was resident on some streams only,
    those are paged out all the same, [chunksinram] is not touched and the
    call throws a logic error. *)
Theorem releaserandomizedchunk_cases k src (w : W) :
  chunk_known ndebug src k → vsize (allchunks src) < SizeT.modulus →
  (∀ m cd, getChunkData ndebug src m k = Done cd → isinram cd = true →
           cd_numutterances cd ≠ 0) →
  ∃ r src',
    releaserandomizedchunk ndebug k (src, w) = (r, (src', w))
    ∧ numresident ndebug src' k = 0 ∧ chunk_known ndebug src' k
    ∧ (numresident ndebug src k = 0 → vsize (allchunks src) ≠ 0 → r = Done tt ∧ src' = src)
    ∧ (numresident ndebug src k = vsize (allchunks src) →
         r = Done tt ∧ chunksinram src' = SizeT.sub (chunksinram src) 1)
    ∧ (0 < numresident ndebug src k → numresident ndebug src k < vsize (allchunks src) →
         r = Fail (LogicError LE_release_inconsistent)
         ∧ chunksinram src' = chunksinram src).
Proof.
  intros Hknown Hfit Hnv.
  destruct (release_fold k w (stream_indices src) (indices_NoDup _) 0 src)
    as (src1 & Hfold & Hr & Hc & Hl & Hfr & Hres & Hsame).
  { intros m Hm. destruct (Hknown m Hm) as [cd Hcd]. exists cd. split; [done|]. by apply (Hnv m). }
  { unfold stream_indices. rewrite indices_length. unfold vsize in Hfit. lia. }
  rewrite N.add_0_l in Hfold. fold (numresident ndebug src k) in Hfold.
  assert (Hidx : ∀ s2, length (allchunks s2) = length (allchunks src) →
                       stream_indices s2 = stream_indices src).
  { intros s2 H2. unfold stream_indices, indices. by rewrite H2. }
  assert (Hnone : ∀ s2 : source, rand_ s2 = rand_ src1 → allchunks s2 = allchunks src1 →
                    numresident ndebug s2 k = 0 ∧ chunk_known ndebug s2 k).
  { intros s2 Hr2 Ha2.
    assert (Hl2 : length (allchunks s2) = length (allchunks src)) by congruence.
    split.
    - unfold numresident. rewrite (Hidx _ Hl2).
      rewrite filter_none; [done|]. intros m Hm.
      rewrite (resident_frame src1 s2 m k) by (by rewrite ?Ha2).
      destruct (Hres m Hm) as [-> _]. done.
    - intros m Hm. rewrite (Hidx _ Hl2) in Hm. destruct (Hres m Hm) as [_ [cd Hcd]].
      exists cd. rewrite <- Hcd. apply getChunkData_frame; [done|by rewrite Ha2]. }
  assert (Hrun : releaserandomizedchunk ndebug k (src, w)
            = (if (0 <? numresident ndebug src k)
                  && (numresident ndebug src k <? vsize (allchunks src))
               then sthrow (LogicError LE_release_inconsistent)
               else if numresident ndebug src k =? vsize (allchunks src)
                    then smodify (λ '(src, w),
                           (set_chunksinram src (SizeT.sub (chunksinram src) 1), w))
                    else mret tt) (src1, w)).
  { unfold releaserandomizedchunk.
    unfold mbind at 1, stateful_bind at 1. cbn [sget]. cbv zeta.
    unfold mbind at 1, stateful_bind at 1. rewrite Hfold. done. }
  pose proof (numresident_le ndebug src k) as Hle.
  destruct (N.eq_dec (numresident ndebug src k) (vsize (allchunks src))) as [Hall|Hnall].
  - exists (Done tt), (set_chunksinram src1 (SizeT.sub (chunksinram src1) 1)).
    rewrite Hrun, Hall, N.ltb_irrefl, andb_false_r, N.eqb_refl.
    split; [done|].
    destruct (Hnone (set_chunksinram src1 (SizeT.sub (chunksinram src1) 1))) as [H1 H2];
      [done|done|].
    split; [done|]. split; [done|]. split; [intros H0 HS; lia|].
    split; [intros _; cbn [set_chunksinram chunksinram]; by rewrite Hc|]. intros; lia.
  - destruct (N.eq_dec (numresident ndebug src k) 0) as [H0|Hn0].
    + exists (Done tt), src1. rewrite Hrun, H0.
      assert ((0 =? vsize (allchunks src)) = false) as -> by (apply N.eqb_neq; lia).
      cbn [N.ltb N.compare andb].
      destruct (Hnone src1) as [H1 H2]; [done|done|].
      split; [done|]. split; [done|]. split; [done|]. split.
      * intros _ _. split; [done|]. apply Hsame. intros m Hm.
        unfold numresident in H0.
        assert (filter (λ m, resident ndebug src k m = true) (stream_indices src) = [])
          as Hnil.
        { apply length_zero_iff_nil. unfold vsize in H0. lia. }
        destruct (resident ndebug src k m) eqn:Eres; [|done].
        exfalso. by eapply (filter_nil_not_elem_of _ _ m Hnil).
      * split; intros; lia.
    + exists (Fail (LogicError LE_release_inconsistent)), src1. rewrite Hrun.
      assert ((0 <? numresident ndebug src k) = true) as -> by (apply N.ltb_lt; lia).
      assert ((numresident ndebug src k <? vsize (allchunks src)) = true) as ->
        by (apply N.ltb_lt; lia).
      destruct (Hnone src1) as [H1 H2]; [done|done|].
      split; [done|]. split; [done|]. split; [done|].
      split; [intros; lia|]. split; [intros; lia|]. done.
Qed.

End ReleaseChunk.

Lemma releaserandomizedchunk_cases_witness :
  ∃ r src',
    releaserandomizedchunk false 1 (example_source_randomized, tt) = (r, (src', tt))
    ∧ numresident false src' 1 = 0.
Proof.
  destruct (releaserandomizedchunk_cases false 1 example_source_randomized tt)
    as (r & src' & H & Hn & _).
  - intros m Hm. vm_compute in Hm. apply list_elem_of_singleton in Hm as ->.
    eexists. vm_compute. reflexivity.
  - vm_compute. reflexivity.
  - intros m cd Hcd Hram. unfold cd_numutterances.
    destruct (utteranceset cd) eqn:E; [|done]. exfalso.
    revert Hcd Hram. unfold getChunkData. intros Hcd. obind Hcd as idx Eidx.
    obind Hcd as ac Eac. apply vat_Done in Eac, Hcd.
    destruct m as [|p]; [|destruct p; vm_compute in Eac; discriminate].
    vm_compute in Eac. injection Eac as <-.
    destruct idx as [|[[|[]|]|[|[]|]|]]; vm_compute in Hcd; try discriminate;
      injection Hcd as <-; vm_compute; discriminate.
  - exists r, src'. done.
Defined.

(** * The shuffle *)

Section ShuffleTotal.
Context {G : Type} (srand : N → G) (crand : G → N * G) (RAND_MAX : N).

Lemma vswap_total {A} (v : list A) i j :
  i < vsize v → j < vsize v → ∃ v', vswap v i j = Done v' ∧ length v' = length v.
Proof.
  intros Hi Hj. destruct (vget_is_Some v i Hi) as [a Ha], (vget_is_Some v j Hj) as [b Hb].
  unfold vswap, vat. rewrite Ha, Hb. cbn. eexists. split; [done|].
  by rewrite !length_vset.
Qed.

Lemma randomshuffle_step_total {A} (v : list A) (g : G) (i : N) :
  i < vsize v →
  ∃ v' g', randomshuffle_step crand (v, g) i = Done (v', g') ∧ length v' = length v.
Proof.
  intros Hi. unfold randomshuffle_step, rand.
  assert ((vsize v <=? 0) = false) as -> by (apply N.leb_gt; lia).
  destruct (crand g) as [r g1]. cbn [mbind outcome_bind].
  rewrite N.sub_0_r, N.add_0_l.
  assert (Hr : r mod vsize v < vsize v) by (apply N.mod_lt; lia).
  destruct (r mod vsize v =? i); [by eauto|].
  destruct (vswap_total v i (r mod vsize v) Hi Hr) as (v1 & -> & Hlen).
  cbn [mbind outcome_bind]. eauto.
Qed.

Lemma randomshuffle_steps_total {A} (l : list N) (v : list A) (g : G) :
  (∀ i, i ∈ l → i < vsize v) →
  ∃ v' g', foldM (randomshuffle_step crand) l (v, g) = Done (v', g') ∧ length v' = length v.
Proof.
  revert v g. induction l as [|i l IH]; intros v g Hl.
  - exists v, g. done.
  - destruct (randomshuffle_step_total v g i) as (v1 & g1 & Hstep & Hlen); [apply Hl; left|].
    cbn [foldM]. rewrite Hstep. cbn [mbind outcome_bind].
    destruct (IH v1 g1) as (v' & g' & Hfold & Hlen').
    { intros i' Hi'. unfold vsize. rewrite Hlen. apply Hl. by right. }
    exists v', g'. split; [done|]. congruence.
Qed.

(** X7: [randomshuffle] of a vector of at most [RAND_MAX * RAND_MAX]
    elements returns, for every seed and every generator, a vector with the
    same elements, each as often as before; of a longer vector it throws a
    runtime error.  Only the low 32 bits of the seed count. *)
Theorem randomshuffle_total_permutation {A} (v : list A) (seed : N) :
  (vsize v ≤ SizeT.mul RAND_MAX RAND_MAX →
     ∃ v', randomshuffle srand crand RAND_MAX v seed = Done v'
           ∧ v ≡ₚ v' ∧ length v' = length v)
  ∧ (SizeT.mul RAND_MAX RAND_MAX < vsize v →
     randomshuffle srand crand RAND_MAX v seed = Fail (RuntimeError RE_shuffle_too_large))
  ∧ randomshuffle srand crand RAND_MAX v (seed + 2 ^ 32)
    = randomshuffle srand crand RAND_MAX v seed.
Proof.
  split; [|split].
  - intros Hfit.
    destruct (randomshuffle_steps_total (indices v) v (srand (SizeT.to_uint seed)))
      as (v' & g' & Hfold & Hlen).
    { intros i Hi%indices_lt. unfold vsize. lia. }
    assert (Hrun : randomshuffle srand crand RAND_MAX v seed = Done v').
    { unfold randomshuffle.
      assert ((SizeT.mul RAND_MAX RAND_MAX <? vsize v) = false) as -> by (apply N.ltb_ge; lia).
      by rewrite Hfold. }
    exists v'. split; [done|]. split; [|done].
    eapply randomshuffle_Permutation. exact Hrun.
  - intros Hbig. unfold randomshuffle.
    assert ((SizeT.mul RAND_MAX RAND_MAX <? vsize v) = true) as -> by (by apply N.ltb_lt).
    done.
  - unfold randomshuffle.
    assert (SizeT.to_uint (seed + 2 ^ 32) = SizeT.to_uint seed) as ->; [|done].
    unfold SizeT.to_uint.
    rewrite <- (N.mul_1_l (2 ^ 32)) at 1. by rewrite N.Div0.mod_add.
Qed.

End ShuffleTotal.

Lemma randomshuffle_total_permutation_witness :
  ∃ v', randomshuffle lcg_srand lcg_rand 32767 [10; 20; 30; 40; 50] 3 = Done v'
        ∧ [10; 20; 30; 40; 50] ≡ₚ v' ∧ length v' = 5%nat.
Proof.
  refine (proj1 (randomshuffle_total_permutation lcg_srand lcg_rand 32767
                   [10; 20; 30; 40; 50] 3) _).
  vm_compute. discriminate.
Defined.

(** * The randomized chunks of every stream *)

Lemma mapO_Forall2 {A B} (f : A → outcome B) (l : list A) (l' : list B) :
  mapO f l = Done l' → Forall2 (λ a b, f a = Done b) l l'.
Proof.
  revert l'. induction l as [|a l IH]; intros l' H; cbn in H.
  - injection H as <-. constructor.
  - obind H as b Eb. obind H as bs Ebs. injection H as <-. constructor; [done|by apply IH].
Qed.

Section RebuildChunks.
Context {G : Type} (srand : N → G) (crand : G → N * G) (RAND_MAX : N) (ndebug : bool).

Lemma rebuild_chunkrefs fuel rz sweep allchunks rz' :
  rebuild srand crand RAND_MAX ndebug fuel rz sweep allchunks = Done rz' →
  Forall2 (λ ac rc, randomize_chunkrefs srand crand RAND_MAX ndebug ac sweep
                    = Done (map uttchunkdata rc))
          allchunks (randomizedchunks rz').
Proof.
  intros Hreb.
  destruct (rebuild_Done _ _ _ _ _ _ _ _ _ Hreb)
    as [ac0 rest chunkrefs placed rc0 refss rcs shuffled t Hac Hrr Hrp Hrand Hplace Hwin Hres
        Hshuf Hassign Hverify Hchunks Hpcw Hposmap Hfm HT' Hnu' Hrange Hsweep].
  subst allchunks. rewrite Hchunks. constructor.
  - apply place_chunks_timeline in Hplace as [Hmap _]; [|apply wrap_lt].
    apply compute_windows_same_place, same_place_uttchunkdata in Hwin.
    rewrite <- Hwin, Hmap. done.
  - apply mapO_Forall2 in Hrr, Hrp.
    apply Forall2_same_length_lookup_2.
    { apply Forall2_length in Hrr, Hrp. rewrite length_zip_with in Hrp. lia. }
    intros i ac rc Hac Hrc.
    destruct (Forall2_lookup_l _ _ _ _ _ Hrr Hac) as (refs & Hrefs & Hr).
    assert (Hz : zip rest refss !! i = Some (ac, refs)).
    { rewrite lookup_zip_with. rewrite Hac. cbn. rewrite Hrefs. done. }
    destruct (Forall2_lookup_l _ _ _ _ _ Hrp Hz) as (rc' & Hrc' & Hp).
    rewrite Hrc in Hrc'. injection Hrc' as <-. cbn in Hp.
    obind Hp as rc1 Hp1. obind Hp as ? Hp2. obind Hp as ? Hp3. injection Hp as ->.
    apply place_chunks_timeline in Hp1 as [Hmap _]; [|apply wrap_lt].
    by rewrite Hmap.
Qed.

Lemma randomize_chunkrefs_length_only (ac ac' : list utterancechunkdata) sweep :
  length ac = length ac' →
  randomize_chunkrefs srand crand RAND_MAX ndebug ac sweep
  = randomize_chunkrefs srand crand RAND_MAX ndebug ac' sweep.
Proof.
  intros Hlen. unfold randomize_chunkrefs, indices, vsize. by rewrite !Hlen.
Qed.

(** X8: after [lazyrandomization], the randomized chunks of every stream are
    that stream's chunks, each exactly once, in shuffled order; and two
    streams with equally many chunks have them in the same order, so
    position [k] means the same chunk on both. *)
Theorem lazyrandomization_chunks_aligned fuel rz globalts_ allchunks s rz' :
  current_is_built srand crand RAND_MAX ndebug rz globalts_ allchunks →
  lazyrandomization srand crand RAND_MAX ndebug fuel rz globalts_ allchunks = Done (s, rz') →
  Forall2 (λ ac rc, map uttchunkdata rc ≡ₚ indices ac) allchunks (randomizedchunks rz')
  ∧ ∀ m m' ac ac' rc rc',
      allchunks !! m = Some ac → allchunks !! m' = Some ac' →
      randomizedchunks rz' !! m = Some rc → randomizedchunks rz' !! m' = Some rc' →
      length ac = length ac' →
      map uttchunkdata rc = map uttchunkdata rc'.
Proof.
  intros Hcur H.
  destruct (lazyrandomization_built _ _ _ _ _ _ _ _ _ _ Hcur H)
    as (-> & _ & fuel0 & rz0 & _ & _ & _ & _ & Hreb).
  apply rebuild_chunkrefs in Hreb. split.
  - eapply Forall2_impl; [exact Hreb|]. intros ac rc Hr. cbv beta in Hr.
    symmetry. eapply randomize_chunkrefs_Permutation. exact Hr.
  - intros m m' ac ac' rc rc' Hac Hac' Hrc Hrc' Hlen.
    destruct (Forall2_lookup_l _ _ _ _ _ Hreb Hac) as (rc1 & Hrc1 & Hr).
    destruct (Forall2_lookup_l _ _ _ _ _ Hreb Hac') as (rc1' & Hrc1' & Hr').
    rewrite Hrc in Hrc1. rewrite Hrc' in Hrc1'. injection Hrc1 as <-. injection Hrc1' as <-.
    rewrite (randomize_chunkrefs_length_only ac ac' _ Hlen) in Hr. congruence.
Qed.

End RebuildChunks.

Lemma lazyrandomization_chunks_aligned_witness :
  ∃ rz', lazyrandomization lcg_srand lcg_rand 32767 false 100 (example_randomizer true) 25
           example_catalog = Done (1, rz')
         ∧ Forall2 (λ ac rc, map uttchunkdata rc ≡ₚ indices ac) example_catalog
             (randomizedchunks rz').
Proof.
  eexists. split; [vm_compute; reflexivity|].
  refine (proj1 (lazyrandomization_chunks_aligned lcg_srand lcg_rand 32767 false 100
                   (example_randomizer true) 25 example_catalog 1 _ _ _)).
  - apply example_randomizer_fresh. vm_compute; reflexivity.
  - vm_compute; reflexivity.
Defined.

(** * Within a sweep; the position map *)

Lemma posmap_fold_sound (refs : list sequenceref) (ps : list N) (m : gmap N N) :
  (∀ t q, m !! t = Some q → ∃ r, vget refs q = Some r ∧ sr_globalts r = t) →
  ∀ t q,
    fold_left (λ m pos, match vget refs pos with
                        | Some r => <[sr_globalts r := pos]> m
                        | None => m
                        end) ps m !! t = Some q →
    ∃ r, vget refs q = Some r ∧ sr_globalts r = t.
Proof.
  revert m. induction ps as [|p ps IH]; intros m Hm; [done|].
  cbn [fold_left]. apply IH. destruct (vget refs p) as [r|] eqn:Er; [|done].
  intros t q Hq. destruct (decide (sr_globalts r = t)) as [<-|Hne].
  - rewrite lookup_insert_eq in Hq. injection Hq as <-. eauto.
  - rewrite lookup_insert_ne in Hq by done. by apply Hm.
Qed.

Lemma posmap_fold_skip (refs : list sequenceref) (ps : list N) (m : gmap N N) (t : N) :
  (∀ q r, q ∈ ps → vget refs q = Some r → sr_globalts r ≠ t) →
  fold_left (λ m pos, match vget refs pos with
                      | Some r => <[sr_globalts r := pos]> m
                      | None => m
                      end) ps m !! t = m !! t.
Proof.
  revert m. induction ps as [|p ps IH]; intros m Hps; [done|].
  cbn [fold_left]. rewrite IH by (intros q r Hq; apply Hps; by right).
  destruct (vget refs p) as [r|] eqn:Er; [|done].
  rewrite lookup_insert_ne; [done|]. eapply Hps; [left|done].
Qed.

Lemma build_posmap_lookup (refs : list sequenceref) (p : nat) (r : sequenceref) :
  refs !! p = Some r →
  (∀ q r', (p < q)%nat → refs !! q = Some r' → sr_globalts r' ≠ sr_globalts r) →
  build_posmap refs !! sr_globalts r = Some (N.of_nat p).
Proof.
  intros Hp Hlater. unfold build_posmap, indices.
  assert (Hlt : (p < length refs)%nat) by (by eapply lookup_lt_Some).
  replace (length refs) with (p + S (length refs - S p))%nat by lia.
  rewrite seq_app, map_app, fold_left_app. cbn [seq map fold_left Nat.add].
  unfold vget at 2. rewrite Nat2N.id, Hp.
  rewrite posmap_fold_skip; [apply lookup_insert_eq|].
  intros q r' Hq Hr'. apply list_elem_of_fmap in Hq as (n & -> & Hn).
  apply elem_of_seq in Hn. unfold vget in Hr'. rewrite Nat2N.id in Hr'.
  eapply Hlater; [|exact Hr']. lia.
Qed.

Section SameSweep.
Context {G : Type} (srand : N → G) (crand : G → N * G) (RAND_MAX : N) (ndebug : bool).

(** X9: the randomization is built once per sweep.  After a completed
    [lazyrandomization], a further call for any time of the same sweep
    returns that sweep and leaves the state as it is, whatever the fuel and
    the catalog it is given. *)
Theorem lazyrandomization_same_sweep fuel fuel' rz globalts_ globalts' allchunks allchunks'
    s rz' :
  lazyrandomization srand crand RAND_MAX ndebug fuel rz globalts_ allchunks = Done (s, rz') →
  globalts' / _totalframes rz = s →
  lazyrandomization srand crand RAND_MAX ndebug fuel' rz' globalts' allchunks' = Done (s, rz').
Proof.
  intros H Hs. apply lazyrandomization_Done in H as (Hs0 & HT & Hcase).
  assert (Hpar : _totalframes rz' = _totalframes rz ∧ currentsweep rz' = s).
  { destruct Hcase as [[Hc ->]|[Hc Hreb]]; [done|].
    destruct (rebuild_parameters _ _ _ _ _ _ _ _ _ Hreb) as (_ & HT' & _ & _ & Hsw). done. }
  destruct Hpar as [HT' Hsw]. unfold lazyrandomization. rewrite HT'.
  assert ((_totalframes rz =? 0) = false) as -> by (apply N.eqb_neq; lia).
  rewrite Hs, Hsw, N.eqb_refl. done.
Qed.

Lemma rebuild_frame_sequences fuel rz sweep allchunks rz' :
  framemode rz = true →
  rebuild srand crand RAND_MAX ndebug fuel rz sweep allchunks = Done rz' →
  Forall (λ r, sr_numframes r = 1) (randomizedutterancerefs rz').
Proof.
  intros Hfm Hreb.
  destruct (rebuild_Done _ _ _ _ _ _ _ _ _ Hreb)
    as [ac0 rest chunkrefs placed rc0 refss rcs shuffled t Hac Hrr Hrp Hrand Hplace Hwin Hres
        Hshuf Hassign Hverify Hchunks Hpcw Hposmap Hfm' HT' Hnu' Hrange Hsweep].
  apply assign_times_Done in Hassign as [Hrefs _]; [|apply wrap_lt].
  apply Forall_forall. intros r Hr. apply list_elem_of_lookup_1 in Hr as [p Hp].
  rewrite Hrefs in Hp. apply timed_lookup in Hp as (r0 & _ & ->).
  cbn [sr_numframes with_time]. by rewrite Hfm.
Qed.

Lemma rebuild_posmap fuel rz sweep allchunks rz' :
  rebuild srand crand RAND_MAX ndebug fuel rz sweep allchunks = Done rz' →
  randomizedutteranceposmap rz' = build_posmap (randomizedutterancerefs rz').
Proof.
  intros Hreb.
  destruct (rebuild_Done _ _ _ _ _ _ _ _ _ Hreb)
    as [ac0 rest chunkrefs placed rc0 refss rcs shuffled t Hac Hrr Hrp Hrand Hplace Hwin Hres
        Hshuf Hassign Hverify Hchunks Hpcw Hposmap Hfm' HT' Hnu' Hrange Hsweep].
  done.
Qed.

Lemma tiles_increasing rz s p q r r' :
  timeline_tiles rz s →
  randomizedutterancerefs rz !! p = Some r → randomizedutterancerefs rz !! q = Some r' →
  (p < q)%nat → sr_globalts r + sr_numframes r ≤ sr_globalts r'.
Proof.
  intros (_ & _ & Hts & _) Hp Hq Hpq.
  rewrite (Hts _ _ Hp), (Hts _ _ Hq).
  assert (sumN (map sr_numframes (take (S p) (randomizedutterancerefs rz)))
          ≤ sumN (map sr_numframes (take q (randomizedutterancerefs rz)))) as Hle.
  { rewrite <- !firstn_map. apply sumN_take_le. lia. }
  rewrite (take_S_r _ _ _ Hp), map_app, sumN_app in Hle. cbn in Hle. lia.
Qed.

(** X10: the lookup table from start times to positions inverts the
    randomized sequence.  After [lazyrandomization] on a catalog that fits
    [size_t], in frame mode, or in utterance mode when no sequence is empty,
    the table maps a time to a position exactly when the sequence at that
    position starts at that time. *)
Theorem posmap_round_trip fuel rz globalts_ allchunks s rz' :
  catalog_fits rz (globalts_ / _totalframes rz) allchunks →
  current_is_built srand crand RAND_MAX ndebug rz globalts_ allchunks →
  lazyrandomization srand crand RAND_MAX ndebug fuel rz globalts_ allchunks = Done (s, rz') →
  (framemode rz = true ∨ Forall (λ r, 0 < sr_numframes r) (randomizedutterancerefs rz')) →
  ∀ t p, randomizedutteranceposmap rz' !! t = Some p
         ↔ ∃ r, vget (randomizedutterancerefs rz') p = Some r ∧ sr_globalts r = t.
Proof.
  intros Hfit Hcur H Hpos.
  destruct (lazyrandomization_built _ _ _ _ _ _ _ _ _ _ Hcur H)
    as (-> & HT0 & fuel0 & rz0 & Hfm & HT & Hnu & _ & Hreb).
  assert (Htiles : timeline_tiles rz' (globalts_ / _totalframes rz)).
  { eapply rebuild_timeline_tiles; [| |exact Hreb].
    - eapply catalog_fits_parameters; [| |exact Hfit]; done.
    - by rewrite HT. }
  assert (Hnz : Forall (λ r, 0 < sr_numframes r) (randomizedutterancerefs rz')).
  { destruct Hpos as [Hf|Hnz]; [|done].
    eapply Forall_impl; [eapply rebuild_frame_sequences; [|exact Hreb]; congruence|].
    intros r Hr. cbv beta in Hr. lia. }
  rewrite (rebuild_posmap _ _ _ _ _ Hreb). intros t p. split.
  - apply posmap_fold_sound. intros t' q Hq. by rewrite lookup_empty in Hq.
  - intros (r & Hr & <-). unfold vget in Hr.
    rewrite <- (N2Nat.id p). apply build_posmap_lookup; [done|].
    intros q r' Hpq Hq.
    pose proof (tiles_increasing _ _ _ _ _ _ Htiles Hr Hq Hpq) as Hinc.
    rewrite Forall_forall in Hnz.
    assert (0 < sr_numframes r) by (apply Hnz; by eapply list_elem_of_lookup_2).
    lia.
Qed.

End SameSweep.

Lemma lazyrandomization_same_sweep_witness :
  ∃ rz', lazyrandomization lcg_srand lcg_rand 32767 false 100 (example_randomizer true) 25
           example_catalog = Done (1, rz')
         ∧ lazyrandomization lcg_srand lcg_rand 32767 false 0 rz' 39 [] = Done (1, rz').
Proof.
  eexists. split; [vm_compute; reflexivity|].
  refine (lazyrandomization_same_sweep lcg_srand lcg_rand 32767 false 100 0
            (example_randomizer true) 25 39 example_catalog [] 1 _ _ _).
  - vm_compute; reflexivity.
  - vm_compute; reflexivity.
Defined.

Lemma posmap_round_trip_witness :
  ∃ rz', lazyrandomization lcg_srand lcg_rand 32767 false 100 (example_randomizer false) 47
           example_catalog = Done (2, rz')
         ∧ ∃ r, vget (randomizedutterancerefs rz') 3 = Some r
                ∧ randomizedutteranceposmap rz' !! sr_globalts r = Some 3.
Proof.
  eexists. split; [vm_compute; reflexivity|].
  eexists. split; [vm_compute; reflexivity|].
  refine (proj2 (posmap_round_trip lcg_srand lcg_rand 32767 false 100
                   (example_randomizer false) 47 example_catalog 2 _ _ _ _ _ _ 3) _).
  - apply example_catalog_fits. vm_compute; reflexivity.
  - apply example_randomizer_fresh. vm_compute; reflexivity.
  - vm_compute; reflexivity.
  - right. vm_compute. repeat constructor.
  - eexists. split; [vm_compute; reflexivity|]. vm_compute; reflexivity.
Defined.

(** * The chunk of a frame position *)

Section LowerBound.
Context (ac0 : list utterancechunkdata) (rc0 : list chunk) (t : N).
(** The end time of every chunk. *)
Context (E : N → N).
Context (HE : ∀ k, k < vsize rc0 → ∃ c, vget rc0 k = Some c ∧ globalte ac0 c = Done (E k)).
Context (Hmono : ∀ k k', k ≤ k' → E k ≤ E k').

Lemma lower_bound_first (fuel : nat) (first len : N) :
  (N.to_nat len < fuel)%nat → first + len ≤ vsize rc0 →
  (∀ k, k < first → E k ≤ t) →
  (∀ k, first + len ≤ k → t < E k) →
  ∃ r, lower_bound fuel ac0 rc0 t first len = Done r
       ∧ r ≤ vsize rc0
       ∧ (∀ k, k < r → E k ≤ t) ∧ (∀ k, r ≤ k → t < E k).
Proof.
  revert first len. induction fuel as [|fuel IH]; intros first len Hfuel Hin Hlow Hhigh; [lia|].
  cbn [lower_bound]. destruct (len =? 0) eqn:Elen.
  - apply N.eqb_eq in Elen. subst len. exists first. split; [done|].
    split; [lia|]. split; [done|]. intros k Hk. apply Hhigh. lia.
  - apply N.eqb_neq in Elen.
    assert (Hhalf : len / 2 < len) by (apply N.div_lt; lia).
    generalize dependent (len / 2). intros half Hhalf.
    destruct (HE (first + half)) as (c & Hc & Hte); [lia|].
    unfold vat. rewrite Hc. cbn [mbind outcome_bind]. rewrite Hte. cbn [mbind outcome_bind].
    destruct (E (first + half) <=? t) eqn:Ecmp.
    + apply N.leb_le in Ecmp. apply IH; [lia|lia| |].
      * intros k Hk. etrans; [apply (Hmono k (first + half)); lia|done].
      * intros k Hk. apply Hhigh. lia.
    + apply N.leb_gt in Ecmp. apply IH; [lia|lia|done|].
      intros k Hk. eapply N.lt_le_trans; [exact Ecmp|]. by apply Hmono.
Qed.

End LowerBound.

Section ChunkForFramePos.
Context {G : Type} (srand : N → G) (crand : G → N * G) (RAND_MAX : N) (ndebug : bool).

Lemma rebuild_chunk_timeline fuel rz sweep allchunks rz' :
  catalog_fits rz sweep allchunks →
  rebuild srand crand RAND_MAX ndebug fuel rz sweep allchunks = Done rz' →
  ∃ ac0 rest rc0 rcs,
    allchunks = ac0 :: rest ∧ randomizedchunks rz' = rc0 :: rcs
    ∧ firstpos true ac0 rc0 (length rc0) = _totalframes rz
    ∧ (∀ k c, rc0 !! k = Some c →
         globalts c = sweep * _totalframes rz + firstpos true ac0 rc0 k
         ∧ firstpos true ac0 rc0 (S k) = firstpos true ac0 rc0 k + totalframes (cd_of ac0 c)
         ∧ globalte ac0 c = Done (sweep * _totalframes rz + firstpos true ac0 rc0 (S k))).
Proof.
  intros (ac0 & rest & -> & Hwf & HT & Hnu & Hfit & Hnufit & Hsize) Hreb.
  destruct (rebuild_Done _ _ _ _ _ _ _ _ _ Hreb)
    as [ac0' rest' chunkrefs placed rc0 refss rcs shuffled t Hac Hrr Hrp Hrand Hplace Hwin Hres
        Hshuf Hassign Hverify Hchunks Hpcw Hposmap Hfm HT' Hnu' Hrange Hsweep].
  injection Hac as <- <-.
  destruct (rebuild_core srand crand RAND_MAX ndebug fuel (framemode rz) (_totalframes rz)
              (rz_numutterances rz) (randomizationrange rz) sweep ac0 chunkrefs placed rc0
              shuffled (randomizedutterancerefs rz') t)
    as (Hmul & Hvalid & Hvs & Hvs' & Hrefs & Hperm & Htot & Hwf' & Ht); try done.
  rewrite Hmul in Hplace.
  apply place_chunks_timeline in Hplace as [Hmap Htl]; [|lia].
  apply compute_windows_same_place in Hwin.
  apply (timeline_same_place _ _ _ _ Hwin) in Htl.
  exists ac0, rest, rc0, rcs. split; [done|]. split; [done|]. split; [done|].
  intros k c Hk. destruct (Htl k c Hk) as [Hg _].
  rewrite <- firstpos_frames in Hg by done.
  pose proof (firstpos_le_total true ac0 rc0 k) as Hle.
  pose proof (firstpos_le_total true ac0 rc0 (S k)) as HleS.
  rewrite wrap_small in Hg by lia.
  pose proof (firstpos_S true ac0 rc0 k c Hk) as HS.
  assert (Hc : chunk_wf (cd_of ac0 c)).
  { rewrite Forall_forall in Hwf'. apply Hwf'. by eapply list_elem_of_lookup_2. }
  unfold numseq in HS. unfold chunk_wf in Hc. rewrite <- Hc in HS.
  split; [done|]. split; [done|].
  unfold resolved in Hres. rewrite Forall_forall in Hres.
  destruct (Hres c) as [cd Hcd]; [by eapply list_elem_of_lookup_2|].
  unfold globalte, chunk_numframes, getchunkdata, vat. rewrite Hcd. cbn [mbind outcome_bind].
  assert (cd_of ac0 c = cd) as Hcd' by (unfold cd_of, chunk_at; by rewrite Hcd).
  rewrite Hcd' in HS. rewrite Hg, add_small by lia. f_equal. lia.
Qed.

Lemma chunkforframepos_timeline rz' ac0 rc0 rcs s T t :
  randomizedchunks rz' = rc0 :: rcs → 0 < T →
  firstpos true ac0 rc0 (length rc0) = T →
  (∀ k c, rc0 !! k = Some c →
     globalts c = s * T + firstpos true ac0 rc0 k
     ∧ firstpos true ac0 rc0 (S k) = firstpos true ac0 rc0 k + totalframes (cd_of ac0 c)
     ∧ globalte ac0 c = Done (s * T + firstpos true ac0 rc0 (S k))) →
  (s * T ≤ t → t < (s + 1) * T →
   ∃ k c,
     chunkforframepos rz' ac0 t = Done k ∧ vget rc0 k = Some c
     ∧ globalts c ≤ t ∧ t < globalts c + totalframes (cd_of ac0 c))
  ∧ (t < s * T → chunkforframepos rz' ac0 t = Fail (LogicError LE_chunkforframepos)).
Proof.
  intros Hchunks HT0 Htot Htl.
  set (E := λ k, s * T + firstpos true ac0 rc0 (S (N.to_nat k))).
  assert (HE : ∀ k, k < vsize rc0 → ∃ c, vget rc0 k = Some c ∧ globalte ac0 c = Done (E k)).
  { intros k Hk. destruct (vget_is_Some rc0 k Hk) as [c Hc]. exists c. split; [done|].
    by destruct (Htl _ _ Hc) as (_ & _ & ->). }
  assert (Hmono : ∀ k k', k ≤ k' → E k ≤ E k').
  { intros k k' Hkk. unfold E. apply N.add_le_mono_l. apply firstpos_mono. lia. }
  assert (Hne : 0 < vsize rc0).
  { unfold vsize. destruct rc0; [|cbn; lia]. cbn in Htot. lia. }
  assert (Hlast : ∀ k, vsize rc0 ≤ k → E k = (s + 1) * T).
  { intros k Hk. unfold E, firstpos. rewrite take_ge by (unfold vsize in Hk; lia).
    rewrite <- (take_ge rc0 (length rc0)) by lia. fold (firstpos true ac0 rc0 (length rc0)).
    rewrite Htot. lia. }
  assert (Hbelow : ∀ k, E k ≤ (s + 1) * T).
  { intros k. unfold E. pose proof (firstpos_le_total true ac0 rc0 (S (N.to_nat k))).
    rewrite Htot in *. lia. }
  assert (Hrun : ∀ r c, lower_bound (S (length rc0)) ac0 rc0 t 0 (vsize rc0) = Done r →
            vget rc0 r = Some c →
            chunkforframepos rz' ac0 t
            = if (t <? globalts c) || (E r <=? t) then Fail (LogicError LE_chunkforframepos)
              else Done r).
  { intros r c Hr Hc. unfold chunkforframepos. rewrite Hchunks.
    change (vat (rc0 :: rcs) 0) with (Done rc0). cbn [mbind outcome_bind].
    rewrite Hr. cbn [mbind outcome_bind]. unfold vat. rewrite Hc. cbn [mbind outcome_bind].
    destruct (HE r (vget_lt _ _ _ Hc)) as (c' & Hc' & Hte).
    rewrite Hc in Hc'. injection Hc' as <-. rewrite Hte. done. }
  split.
  - intros Hlo Hhi.
    destruct (lower_bound_first ac0 rc0 t E HE Hmono (S (length rc0)) 0 (vsize rc0))
      as (r & Hr & Hrn & Hlow & Hhigh).
    { unfold vsize. lia. } { lia. } { intros k Hk. lia. }
    { intros k Hk. rewrite Hlast by lia. done. }
    assert (Hrlt : r < vsize rc0).
    { destruct (N.eq_dec r (vsize rc0)) as [->|]; [|lia].
      specialize (Hlow (vsize rc0 - 1) ltac:(lia)).
      assert (E (vsize rc0 - 1) = (s + 1) * T); [|lia].
      unfold E. replace (S (N.to_nat (vsize rc0 - 1))) with (length rc0)
        by (unfold vsize in *; lia).
      rewrite Htot. lia. }
    destruct (vget_is_Some rc0 r Hrlt) as [c Hc].
    destruct (Htl _ _ Hc) as (Hg & HS & Hte).
    assert (Hgt : globalts c ≤ t).
    { rewrite Hg. destruct (N.eq_dec r 0) as [->|Hr0].
      - change (N.to_nat 0) with 0%nat. unfold firstpos. rewrite take_0.
        cbn [map sumN foldr]. by rewrite N.add_0_r.
      - specialize (Hlow (r - 1) ltac:(lia)). unfold E in Hlow.
        replace (S (N.to_nat (r - 1))) with (N.to_nat r) in Hlow by lia. done. }
    assert (Het : t < E r) by (apply Hhigh; lia).
    exists r, c. rewrite (Hrun r c Hr Hc).
    assert ((t <? globalts c) = false) as -> by (apply N.ltb_ge; done).
    assert ((E r <=? t) = false) as -> by (apply N.leb_gt; done).
    split; [done|]. split; [done|]. split; [done|].
    unfold E in Het. rewrite HS in Het. lia.
  - intros Hlo.
    destruct (lower_bound_first ac0 rc0 t E HE Hmono (S (length rc0)) 0 (vsize rc0))
      as (r & Hr & Hrn & Hlow & Hhigh).
    { unfold vsize. lia. } { lia. } { intros k Hk. lia. }
    { intros k Hk. rewrite Hlast by lia. lia. }
    assert (r = 0) as ->.
    { destruct (N.eq_dec r 0) as [|Hr0]; [done|]. specialize (Hlow 0 ltac:(lia)).
      unfold E in Hlow. lia. }
    destruct (vget_is_Some rc0 0 Hne) as [c Hc].
    destruct (Htl _ _ Hc) as (Hg & HS & Hte).
    rewrite (Hrun 0 c Hr Hc).
    assert ((t <? globalts c) = true) as ->; [|done].
    apply N.ltb_lt. rewrite Hg. lia.
Qed.


(** X11: after [lazyrandomization] for sweep [s] on a catalog that fits
    [size_t], [chunkforframepos] finds, for every time [t] of the sweep, a
    randomized chunk whose frame range holds [t]; it does not throw.  For a
    time before the sweep it throws its logic error. *)
Theorem chunkforframepos_in_sweep fuel rz globalts_ allchunks s rz' ac0 t :
  catalog_fits rz (globalts_ / _totalframes rz) allchunks →
  current_is_built srand crand RAND_MAX ndebug rz globalts_ allchunks →
  lazyrandomization srand crand RAND_MAX ndebug fuel rz globalts_ allchunks = Done (s, rz') →
  head allchunks = Some ac0 →
  (s * _totalframes rz ≤ t → t < (s + 1) * _totalframes rz →
   ∃ k rc0 c,
     chunkforframepos rz' ac0 t = Done k
     ∧ head (randomizedchunks rz') = Some rc0 ∧ vget rc0 k = Some c
     ∧ globalts c ≤ t ∧ t < globalts c + totalframes (cd_of ac0 c))
  ∧ (t < s * _totalframes rz →
     chunkforframepos rz' ac0 t = Fail (LogicError LE_chunkforframepos)).
Proof.
  intros Hfit Hcur H Hhead.
  destruct (lazyrandomization_built _ _ _ _ _ _ _ _ _ _ Hcur H)
    as (-> & HT0 & fuel0 & rz0 & Hfm & HT & Hnu & _ & Hreb).
  destruct (rebuild_chunk_timeline fuel0 rz0 (globalts_ / _totalframes rz) allchunks rz') as
    (ac0' & rest & rc0 & rcs & Hac & Hchunks & Htot & Htl); [|done|].
  { eapply catalog_fits_parameters; [| |exact Hfit]; done. }
  rewrite Hac in Hhead. injection Hhead as ->. rewrite HT in Htot, Htl.
  destruct (chunkforframepos_timeline rz' ac0 rc0 rcs (globalts_ / _totalframes rz)
              (_totalframes rz) t Hchunks HT0 Htot Htl) as [Hin Hbefore].
  split; [|exact Hbefore]. intros Hlo Hhi.
  destruct (Hin Hlo Hhi) as (k & c & Hk & Hc & Hts & Hte).
  exists k, rc0, c. rewrite Hchunks. done.
Qed.

End ChunkForFramePos.

Lemma chunkforframepos_in_sweep_witness :
  ∃ k rc0 c,
    chunkforframepos example_randomized
      [example_chunk [4; 6]; example_chunk [3; 2]; example_chunk [5]] 33 = Done k
    ∧ head (randomizedchunks example_randomized) = Some rc0 ∧ vget rc0 k = Some c
    ∧ globalts c ≤ 33
    ∧ 33 < globalts c
           + totalframes
               (cd_of [example_chunk [4; 6]; example_chunk [3; 2]; example_chunk [5]] c).
Proof.
  refine (proj1 (chunkforframepos_in_sweep lcg_srand lcg_rand 32767 false 100
                   (example_randomizer true) 25 example_catalog 1 example_randomized
                   [example_chunk [4; 6]; example_chunk [3; 2]; example_chunk [5]] 33
                   _ _ _ _) _ _).
  - apply example_catalog_fits. vm_compute; reflexivity.
  - apply example_randomizer_fresh. vm_compute; reflexivity.
  - vm_compute; reflexivity.
  - reflexivity.
  - vm_compute. discriminate.
  - vm_compute. reflexivity.
Defined.

(** * The first valid time of a sweep *)

Lemma assert_holds ndebug : assert ndebug true = Done tt.
Proof. unfold assert. by destruct ndebug. Qed.

Lemma getSequenceRef_lookup ndebug rz i r :
  vget (randomizedutterancerefs rz) i = Some r → getSequenceRef ndebug rz i = Done r.
Proof.
  intros H. unfold getSequenceRef.
  assert ((i <? vsize (randomizedutterancerefs rz)) = true) as ->
    by (apply N.ltb_lt; by eapply vget_lt).
  rewrite assert_holds. cbn [mbind outcome_bind]. by apply vat_Done.
Qed.

Lemma first_start_from_range ndebug rz (g : N) (len a : nat) :
  (a + len ≤ length (randomizedutterancerefs rz))%nat →
  ∃ found,
    first_start_from ndebug rz g (map N.of_nat (seq a len)) = Done found
    ∧ match found with
      | Some t =>
          ∃ p r, (a ≤ p < a + len)%nat ∧ randomizedutterancerefs rz !! p = Some r
                 ∧ sr_globalts r = t ∧ g ≤ t
                 ∧ ∀ q r', (a ≤ q < p)%nat → randomizedutterancerefs rz !! q = Some r' →
                           sr_globalts r' < g
      | None =>
          ∀ q r', (a ≤ q < a + len)%nat → randomizedutterancerefs rz !! q = Some r' →
                  sr_globalts r' < g
      end.
Proof.
  revert a. induction len as [|len IH]; intros a Hlen.
  - exists None. split; [done|]. intros q r' Hq. lia.
  - cbn [seq map first_start_from].
    destruct (lookup_lt_is_Some_2 (randomizedutterancerefs rz) a) as [r Hr]; [lia|].
    assert (Hget : getSequenceRef ndebug rz (N.of_nat a) = Done r).
    { apply getSequenceRef_lookup. unfold vget. by rewrite Nat2N.id. }
    rewrite Hget. cbn [mbind outcome_bind].
    destruct (g <=? sr_globalts r) eqn:Ecmp.
    + apply N.leb_le in Ecmp. exists (Some (sr_globalts r)). split; [done|].
      exists a, r. split; [lia|]. split; [done|]. split; [done|]. split; [done|].
      intros q r' Hq. lia.
    + apply N.leb_gt in Ecmp. destruct (IH (S a)) as (found & Hrun & Hspec); [lia|].
      exists found. split; [done|]. destruct found as [t|].
      * destruct Hspec as (p & r1 & Hp & Hr1 & Ht & Hg & Hbefore).
        exists p, r1. split; [lia|]. split; [done|]. split; [done|]. split; [done|].
        intros q r' Hq Hr'. destruct (decide (q = a)) as [->|Hne].
        -- rewrite Hr in Hr'. by injection Hr' as <-.
        -- apply (Hbefore q r'); [lia|done].
      * intros q r' Hq Hr'. destruct (decide (q = a)) as [->|Hne].
        -- rewrite Hr in Hr'. by injection Hr' as <-.
        -- apply (Hspec q r'); [lia|done].
Qed.

Section FirstValidGlobalts.
Context {G : Type} (srand : N → G) (crand : G → N * G) (RAND_MAX : N) (ndebug : bool).
Context {W : Type}.

Lemma rebuild_numsequences fuel rz sweep allchunks rz' :
  catalog_fits rz sweep allchunks →
  rebuild srand crand RAND_MAX ndebug fuel rz sweep allchunks = Done rz' →
  vsize (randomizedutterancerefs rz')
  = (if framemode rz then _totalframes rz else rz_numutterances rz).
Proof.
  intros (ac0 & rest & -> & Hwf & HT & Hnu & Hfit & Hnufit & Hsize) Hreb.
  destruct (rebuild_Done _ _ _ _ _ _ _ _ _ Hreb)
    as [ac0' rest' chunkrefs placed rc0 refss rcs shuffled t Hac Hrr Hrp Hrand Hplace Hwin Hres
        Hshuf Hassign Hverify Hchunks Hpcw Hposmap Hfm HT' Hnu' Hrange Hsweep].
  injection Hac as <- <-.
  destruct (rebuild_core srand crand RAND_MAX ndebug fuel (framemode rz) (_totalframes rz)
              (rz_numutterances rz) (randomizationrange rz) sweep ac0 chunkrefs placed rc0
              shuffled (randomizedutterancerefs rz') t)
    as (Hmul & Hvalid & Hvs & _); try done.
Qed.

(** X12: when the randomization for the sweep of [globalts] completes,
    [firstvalidglobalts (globalts)] returns a time from [globalts] to the end
    of that sweep and leaves the randomization in place.  In frame mode it is
    [globalts] itself.  In utterance mode it is the start of the first
    sequence that does not start before [globalts], or the end of the sweep
    if every sequence starts before [globalts]. *)
Theorem firstvalidglobalts_next_start fuel globalts_ src (w : W) rz s rz' :
  rand_ src = Some rz →
  src_totalframes src = _totalframes rz →
  catalog_fits rz (globalts_ / _totalframes rz) (allchunks src) →
  current_is_built srand crand RAND_MAX ndebug rz globalts_ (allchunks src) →
  lazyrandomization srand crand RAND_MAX ndebug fuel rz globalts_ (allchunks src)
    = Done (s, rz') →
  ∃ t, firstvalidglobalts srand crand RAND_MAX ndebug fuel globalts_ (src, w)
         = (Done t, (set_rand src rz', w))
       ∧ globalts_ ≤ t ∧ t ≤ (s + 1) * _totalframes rz
       ∧ (src_framemode src = true → t = globalts_)
       ∧ (src_framemode src = false →
            (∀ r, r ∈ randomizedutterancerefs rz' → globalts_ ≤ sr_globalts r →
                  t ≤ sr_globalts r)
            ∧ ((∃ r, r ∈ randomizedutterancerefs rz' ∧ sr_globalts r = t)
               ∨ t = (s + 1) * _totalframes rz)).
Proof.
  intros Hrand HT Hfit Hcur H.
  destruct (lazyrandomization_timeline_tiles _ _ _ _ _ _ _ _ _ _ Hfit Hcur H)
    as (Hs & HT' & Htiles).
  assert (Hv : vsize (randomizedutterancerefs rz') < SizeT.modulus).
  { destruct (lazyrandomization_built _ _ _ _ _ _ _ _ _ _ Hcur H)
      as (_ & _ & fuel0 & rz0 & Hfm0 & HT0 & Hnu0 & _ & Hreb).
    rewrite (rebuild_numsequences fuel0 rz0 s (allchunks src) rz');
      [|eapply catalog_fits_parameters; [| |rewrite Hs; exact Hfit]; done|done].
    rewrite Hfm0, HT0, Hnu0.
    destruct Hfit as (ac0 & rest & Hac & Hwf & HTs & Hnu & Hfits & Hnufit & Hsize).
    destruct (framemode rz); [nia|done]. }
  destruct Hfit as (ac0 & rest & Hac & Hwf & HTs & Hnu & Hfits & Hnufit & Hsize).
  pose proof (lazyrandomization_Done _ _ _ _ _ _ _ _ _ _ H) as (_ & Hpos & _).
  rewrite <- Hs in Hfits. set (T := _totalframes rz) in *.
  assert (Hin : s * T ≤ globalts_ ∧ globalts_ < (s + 1) * T).
  { rewrite Hs. split.
    - rewrite N.mul_comm. apply N.Div0.mul_div_le.
    - rewrite N.mul_comm. replace (globalts_ / T + 1) with (N.succ (globalts_ / T)) by lia.
      apply N.mul_succ_div_gt. lia. }
  assert (Hrun : firstvalidglobalts srand crand RAND_MAX ndebug fuel globalts_ (src, w)
            = (if src_framemode src then mret globalts_
               else
                 _ ← lift (assert ndebug
                             ((SizeT.mul s (src_totalframes src) <=? globalts_)
                              && (globalts_ <? SizeT.mul (SizeT.add s 1) (src_totalframes src))));
                 found ← lift (first_start_from ndebug rz' globalts_
                                 (N_range (getNumSequences rz')));
                 match found with
                 | Some t => mret t
                 | None =>
                     r ← lift (getSequenceRef ndebug rz' (SizeT.sub (getNumSequences rz') 1));
                     mret (sr_globalte r)
                 end) (set_rand src rz', w)).
  { unfold firstvalidglobalts.
    unfold mbind at 1, stateful_bind at 1. cbn [sget].
    unfold mbind at 1, stateful_bind at 1. unfold lift at 1, the_rand. rewrite Hrand.
    unfold mbind at 1, stateful_bind at 1. unfold lift at 1. rewrite H.
    unfold mbind at 1, stateful_bind at 1. cbn [smodify]. done. }
  rewrite Hrun. clear Hrun.
  destruct (src_framemode src) eqn:Efm.
  - exists globalts_. split; [done|]. split; [lia|]. split; [lia|]. split; [done|]. done.
  - assert (Hassert : ((SizeT.mul s (src_totalframes src) <=? globalts_)
                      && (globalts_ <? SizeT.mul (SizeT.add s 1) (src_totalframes src)))
                      = true).
    { rewrite HT. fold T. rewrite (add_small s 1) by nia.
      rewrite !mul_small by nia.
      apply andb_true_iff. split; [apply N.leb_le|apply N.ltb_lt]; lia. }
    rewrite Hassert, assert_holds.
    unfold mbind at 1, stateful_bind at 1. cbn [lift].
    destruct (first_start_from_range ndebug rz' globalts_
                (length (randomizedutterancerefs rz')) 0)
      as (found & Hfound & Hspec); [lia|].
    unfold N_range, getNumSequences, vsize. rewrite Nat2N.id, Hfound.
    unfold mbind at 1, stateful_bind at 1.
    pose proof Htiles as (Hsum & _ & Hts & (rl & Hlast & Hte)).
    rewrite HT' in Hts, Hte, Hsum. fold T in Hts, Hte, Hsum.
    assert (Hstart_le : ∀ p r, randomizedutterancerefs rz' !! p = Some r →
              sr_globalts r ≤ (s + 1) * T).
    { intros p r Hp. rewrite (Hts _ _ Hp).
      assert (sumN (map sr_numframes (take p (randomizedutterancerefs rz'))) ≤ T); [|lia].
      rewrite <- Hsum, <- firstn_map. apply sumN_take_all_le. }
    destruct found as [t|].
    + destruct Hspec as (p & r & Hp & Hr & Ht & Hg & Hbefore).
      exists t. split; [done|]. split; [done|]. split; [rewrite <- Ht; by eapply Hstart_le|].
      split; [done|]. intros _. split.
      * intros r' Hr' Hge. apply list_elem_of_lookup_1 in Hr' as [q Hq].
        destruct (decide (q < p)%nat) as [Hlt|Hnlt].
        -- specialize (Hbefore q r' ltac:(lia) Hq). lia.
        -- destruct (decide (q = p)) as [->|Hne].
           ++ rewrite Hr in Hq. injection Hq as <-. lia.
           ++ pose proof (tiles_increasing _ _ _ _ _ _ Htiles Hr Hq ltac:(lia)). lia.
      * left. exists r. split; [by eapply list_elem_of_lookup_2|done].
    + rewrite last_lookup in Hlast.
      assert (Hne : (0 < length (randomizedutterancerefs rz'))%nat).
      { destruct (randomizedutterancerefs rz'); [done|cbn; lia]. }
      assert (Hlastget : getSequenceRef ndebug rz'
                (SizeT.sub (N.of_nat (length (randomizedutterancerefs rz'))) 1) = Done rl).
      { apply getSequenceRef_lookup. unfold vget.
        unfold vsize in Hv. rewrite sub_small by lia.
        replace (N.to_nat (N.of_nat (length (randomizedutterancerefs rz')) - 1))
          with (Init.Nat.pred (length (randomizedutterancerefs rz'))) by lia.
        done. }
      rewrite Hlastget. cbn [lift].
      exists (sr_globalte rl). split; [done|]. rewrite Hte.
      split; [lia|]. split; [lia|]. split; [done|]. intros _. split; [|by right].
      intros r' Hr' Hge. apply list_elem_of_lookup_1 in Hr' as [q Hq].
      assert (q < length (randomizedutterancerefs rz'))%nat by (by eapply lookup_lt_Some).
      specialize (Hspec q r' ltac:(lia) Hq). lia.
Qed.

End FirstValidGlobalts.

Lemma firstvalidglobalts_next_start_witness :
  ∃ t, firstvalidglobalts lcg_srand lcg_rand 32767 false 100 47 (example_source_utterances, tt)
       = (Done t, (set_rand example_source_utterances example_randomized_utterances, tt))
       ∧ 47 ≤ t ∧ t ≤ 60.
Proof.
  destruct (firstvalidglobalts_next_start lcg_srand lcg_rand 32767 false 100 47
              example_source_utterances tt (example_randomizer false) 2
              example_randomized_utterances)
    as (t & Hrun & Hlo & Hhi & _).
  - reflexivity.
  - reflexivity.
  - apply (example_catalog_fits false). vm_compute; reflexivity.
  - apply (example_randomizer_fresh false). vm_compute; reflexivity.
  - vm_compute; reflexivity.
  - exists t. split; [exact Hrun|]. split; [exact Hlo|exact Hhi].
Defined.

(** * Batches without subsetting, and in utterance mode *)

Lemma filter_all {A} (P : A → Prop) `{∀ x, Decision (P x)} (l : list A) :
  (∀ x, x ∈ l → P x) → filter P l = l.
Proof.
  induction l as [|a l IH]; intros Hall; [done|].
  rewrite filter_cons, decide_True by (apply Hall; left).
  f_equal. apply IH. intros x Hx. apply Hall. by right.
Qed.

Section GetbatchWhole.
Context {G : Type} (srand : N → G) (crand : G → N * G) (RAND_MAX : N) (ndebug : bool).
Context {W : Type} (env : collaborators W).

(** X13: the call of [getbatch] without subsetting returns, in frame mode,
    every frame of the time range it reports: the columns of the first
    stream's matrix are the sequences at the positions
    [globalts .. globalts + framesadvanced) of the randomized sequence
    (reduced into the sweep), in that order, and there are [framesadvanced]
    of them. *)
Theorem getbatch_whole_returns fuel globalts_ framesrequested feat0 uids0 src (w : W) b m' :
  src_framemode src = true →
  getbatch_whole srand crand RAND_MAX ndebug env fuel globalts_ framesrequested feat0 uids0
    (src, w) = (Done b, m') →
  ∃ rz sweep rz' rs,
    rand_ src = Some rz
    ∧ lazyrandomization srand crand RAND_MAX ndebug fuel rz globalts_ (allchunks src)
        = Done (sweep, rz')
    ∧ rand_ (fst m') = Some rz'
    ∧ Forall2 (λ j r, vget (randomizedutterancerefs rz')
                           (SizeT.add globalts_ j mod src_totalframes src) = Some r)
              (N_range (framesadvanced b)) rs
    ∧ returned_frames b = map sr_triple rs
    ∧ length (returned_frames b) = N.to_nat (framesadvanced b).
Proof.
  intros Hfm H. unfold getbatch_whole in H.
  destruct (getbatch_returns _ _ _ _ _ _ _ _ _ _ _ _ _ _ _ _ Hfm H)
    as (rz & sweep & rz' & rs & Hrand & Hlazy & Hrs & Hret & Hstable).
  exists rz, sweep, rz', rs. split; [done|]. split; [done|].
  split. { destruct Hstable as (_ & _ & Hr & _). by rewrite Hr. }
  split; [done|].
  rewrite filter_all in Hret.
  2:{ intros r _. unfold in_subset. by rewrite N.mod_1_r. }
  split; [done|]. rewrite Hret, length_map.
  apply Forall2_length in Hrs. by rewrite <- Hrs, N_range_length.
Qed.

(** X14: in utterance mode [getbatch] delivers nothing.  Once the
    randomization for the sweep has completed, a build with assertions stops
    at [assert (0)]; a build without them returns [false], reports 0 frames
    advanced and hands the caller's vectors back as they came in. *)
Theorem getbatch_utterance_mode fuel globalts_ framesrequested subsetnum numsubsets
    feat0 uids0 src (w : W) rz sweep rz' :
  src_framemode src = false →
  0 < src_totalframes src →
  rand_ src = Some rz →
  lazyrandomization srand crand RAND_MAX ndebug fuel rz globalts_ (allchunks src)
    = Done (sweep, rz') →
  getbatch srand crand RAND_MAX ndebug env fuel globalts_ framesrequested subsetnum numsubsets
    feat0 uids0 (src, w)
  = (if ndebug
     then Done {| readfromdisk := false; framesadvanced := 0; feat := feat0; uids := uids0 |}
     else Fail AssertionFailed,
     (set_rand src rz', w)).
Proof.
  intros Hfm HT Hrand Hlazy. unfold getbatch.
  unfold mbind at 1, stateful_bind at 1. cbn [sget].
  assert ((0 <? src_totalframes src) = true) as -> by (by apply N.ltb_lt).
  rewrite assert_holds.
  unfold mbind at 1, stateful_bind at 1. cbn [lift].
  unfold mbind at 1, stateful_bind at 1. unfold lift at 1, the_rand. rewrite Hrand.
  unfold mbind at 1, stateful_bind at 1. unfold lift at 1. rewrite Hlazy.
  unfold mbind at 1, stateful_bind at 1. cbn [smodify].
  rewrite Hfm. cbn [negb].
  unfold mbind at 1, stateful_bind at 1. unfold lift at 1, assert.
  by destruct ndebug.
Qed.

End GetbatchWhole.

Lemma getbatch_whole_returns_witness :
  ∃ b m', getbatch_whole lcg_srand lcg_rand 32767 false example_env 100 15 7 [] []
            (example_source, tt) = (Done b, m')
          ∧ length (returned_frames b) = N.to_nat (framesadvanced b).
Proof.
  eexists _, _. split; [vm_compute; reflexivity|].
  destruct (getbatch_whole_returns lcg_srand lcg_rand 32767 false example_env 100 15 7 [] []
              example_source tt _ _ eq_refl ltac:(vm_compute; reflexivity))
    as (rz & sweep & rz' & rs & _ & _ & _ & _ & _ & Hlen).
  exact Hlen.
Defined.

Lemma getbatch_utterance_mode_witness :
  getbatch lcg_srand lcg_rand 32767 true example_env 100 47 7 0 1 [] []
    (example_source_utterances, tt)
  = (Done {| readfromdisk := false; framesadvanced := 0; feat := []; uids := [] |},
     (set_rand example_source_utterances example_randomized_utterances, tt)).
Proof.
  refine (getbatch_utterance_mode lcg_srand lcg_rand 32767 true example_env 100 47 7 0 1 [] []
            example_source_utterances tt (example_randomizer false) 2
            example_randomized_utterances _ _ _ _).
  - reflexivity.
  - reflexivity.
  - reflexivity.
  - vm_compute; reflexivity.
Defined.

(** * The label views of an utterance *)

Section LabelViews.
Context (ndebug : bool) {W : Type} (env : collaborators W).

Lemma getclassids_sentinels src r cd u :
  issupervised src = true →
  getChunkData ndebug src 0 (chunkindex r) = Done cd →
  vget (utteranceset cd) (utteranceindex r) = Some u →
  label_sentinels env src →
  getclassids ndebug env src r
  = Done (map (λ v, {| sv_v := v; sv_first := classidsbegin u; sv_n := numframes u |})
              (classids src)).
Proof.
  intros Hsup Hcd Hu Hsent.
  rewrite (getclassids_supervised ndebug env src r cd u Hsup Hcd Hu).
  apply mapO_all_Done. intros c Hin. apply marker_view_Done.
  apply (Hsent u); [|done]. by eapply catalog_of_chunk.
Qed.

(** X16: every frame of an utterance has its label.  Where the markers are
    in place and [classidsbegin + numframes] is a [size_t] value, each view
    that [getclassids] returns for an utterance reads, at every index below
    [numframes], the entry of its class-id vector at [classidsbegin] plus the
    index; at [numframes] and beyond it throws the bounds error. *)
Theorem getclassids_frames_readable src r cd u :
  issupervised src = true →
  getChunkData ndebug src 0 (chunkindex r) = Done cd →
  vget (utteranceset cd) (utteranceindex r) = Some u →
  label_sentinels env src →
  classidsbegin u + numframes u < SizeT.modulus →
  ∃ views,
    getclassids ndebug env src r = Done views
    ∧ length views = length (classids src)
    ∧ ∀ k sv, views !! k = Some sv →
        (∀ i, i < numframes u →
              ∃ c x, classids src !! k = Some c ∧ vget c (classidsbegin u + i) = Some x
                     ∧ sv_at sv i = Done x)
        ∧ (∀ i, numframes u ≤ i → sv_at sv i = Fail (LogicError LE_shiftedvector_bounds)).
Proof.
  intros Hsup Hcd Hu Hsent Hfit.
  pose proof (getclassids_sentinels src r cd u Hsup Hcd Hu Hsent) as Hviews.
  eexists. split; [exact Hviews|]. split; [by rewrite length_map|].
  intros k sv Hk. rewrite list_lookup_fmap in Hk.
  destruct (classids src !! k) as [c|] eqn:Ec; [|done]. injection Hk as <-.
  assert (Hin : c ∈ classids src) by (by eapply list_elem_of_lookup_2).
  assert (Hu' : u ∈ catalog_utterances src) by (by eapply catalog_of_chunk).
  destruct (Hsent u Hu') as [Hc _]. specialize (Hc c Hin).
  rewrite add_small in Hc by done. apply vget_lt in Hc.
  split.
  - intros i Hi. destruct (vget_is_Some c (classidsbegin u + i)) as [x Hx]; [lia|].
    exists c, x. split; [done|]. split; [done|].
    unfold sv_at. cbn [sv_n sv_first sv_v].
    assert ((numframes u <=? i) = false) as -> by (apply N.leb_gt; lia).
    rewrite add_small by lia. by apply vat_Done.
  - intros i Hi. unfold sv_at. cbn [sv_n].
    assert ((numframes u <=? i) = true) as -> by (by apply N.leb_le). done.
Qed.

End LabelViews.

Lemma example_source_labelled_sentinels : label_sentinels example_env example_source_labelled.
Proof.
  intros u Hu. vm_compute in Hu.
  repeat (apply elem_of_cons in Hu as [->|Hu]);
    [| | |by apply elem_of_nil in Hu].
  all: split; intros c Hc; vm_compute in Hc;
    apply list_elem_of_singleton in Hc as ->; vm_compute; reflexivity.
Qed.

Lemma getclassids_frames_readable_witness :
  ∃ views,
    getclassids false example_env example_source_labelled (mk_sequenceref 0 1 2) = Done views
    ∧ length views = 1%nat.
Proof.
  destruct (getclassids_frames_readable false example_env example_source_labelled
              (mk_sequenceref 0 1 2)
              (chunk_at (default [] (head (allchunks example_source_labelled))) 0)
              (example_utterance_at "b.mfc" 6 5))
    as (views & Hviews & Hlen & _).
  - reflexivity.
  - vm_compute; reflexivity.
  - reflexivity.
  - apply example_source_labelled_sentinels.
  - vm_compute; reflexivity.
  - exists views. split; [exact Hviews|exact Hlen].
Defined.

(** * The distribution of the utterances over chunks *)

Lemma push_back_filled (b : utterancechunkdata) (u : utterancedesc) :
  paged_out b → chunk_wf b →
  sumN (map numframes (utteranceset b)) ≤ chunkframes →
  vsize (utteranceset b) < 65535 →
  numframes u ≤ 65535 →
  ∃ b', push_back b u = Done b' ∧ utteranceset b' = utteranceset b ++ [u] ∧ chunk_filled b'.
Proof.
  intros Hp Hwf Hsum Hlen Hu. unfold push_back, isinram. rewrite Hp.
  cbn [matrix_empty fst snd N.mul N.eqb negb]. eexists. split; [done|].
  cbn [utteranceset]. split; [done|]. unfold chunk_filled, paged_out, chunk_wf.
  cbn [utteranceset frames totalframes]. split; [done|]. split.
  - rewrite map_app, sumN_app. cbn [map sumN foldr]. unfold chunk_wf in Hwf. rewrite Hwf.
    unfold chunkframes in Hsum. rewrite add_small; [lia|].
    change SizeT.modulus with 18446744073709551616. lia.
  - exists (utteranceset b), u. done.
Qed.

Lemma chunk_filled_open (b : utterancechunkdata) :
  chunk_filled b →
  (chunkframes <? totalframes b) || (65535 <=? cd_numutterances b) = false →
  sumN (map numframes (utteranceset b)) ≤ chunkframes
  ∧ vsize (utteranceset b) < 65535.
Proof.
  intros (_ & Hwf & _) Hopen. apply orb_false_iff in Hopen as [H1 H2].
  apply N.ltb_ge in H1. apply N.leb_gt in H2. unfold chunk_wf in Hwf.
  unfold cd_numutterances in H2. split; [by rewrite <- Hwf|lia].
Qed.

Lemma distribute_step (acc : list utterancechunkdata) (u : utterancedesc) :
  Forall chunk_filled acc →
  (∀ k cd, acc !! k = Some cd → (S k < length acc)%nat → chunk_full cd) →
  numframes u ≤ 65535 →
  ∃ acc', distribute acc u = Done acc'
    ∧ concat (map utteranceset acc') = concat (map utteranceset acc) ++ [u]
    ∧ Forall chunk_filled acc'
    ∧ (∀ k cd, acc' !! k = Some cd → (S k < length acc')%nat → chunk_full cd).
Proof.
  intros Hfilled Hfull Hu. unfold distribute.
  assert (Hnew : ∃ b', push_back empty_chunkdata u = Done b'
                       ∧ utteranceset b' = [u] ∧ chunk_filled b').
  { destruct (push_back_filled empty_chunkdata u) as (b' & Hb' & Hus & Hf);
      [done|done|vm_compute; discriminate|vm_compute; reflexivity|done|]. eauto. }
  destruct Hnew as (bn & Hbn & Husn & Hfn).
  destruct (last acc) as [b|] eqn:El.
  - apply last_Some in El as [l0 ->].
    apply Forall_app in Hfilled as [Hl0 Hb]. apply Forall_inv in Hb.
    destruct ((chunkframes <? totalframes b) || (65535 <=? cd_numutterances b)) eqn:Enew.
    + rewrite last_snoc. cbn -[push_back vset vsize].
      rewrite Hbn. cbn -[push_back vset vsize]. rewrite vset_last.
      eexists. split; [done|]. split.
      { rewrite !map_app, !concat_app. cbn [map concat]. by rewrite Husn, !app_nil_r. }
      split. { apply Forall_app. split; [apply Forall_app; split; [done|by constructor]|].
               by constructor. }
      intros k cd Hk Hlt. rewrite length_app in Hlt. cbn [length] in Hlt.
      rewrite lookup_app_l in Hk by lia.
      destruct (decide (S k < length (l0 ++ [b]))%nat) as [Hin|Hlast].
      * by eapply Hfull.
      * rewrite length_app in Hlt, Hlast. cbn [length] in Hlt, Hlast.
        rewrite lookup_app_r in Hk by lia.
        replace (k - length l0)%nat with 0%nat in Hk by lia. injection Hk as <-.
        apply orb_true_iff in Enew as [H1|H2]; [left; by apply N.ltb_lt|right; by apply N.leb_le].
    + rewrite last_snoc. cbn -[push_back vset vsize].
      destruct (chunk_filled_open b Hb Enew) as [Hsum Hlen].
      destruct Hb as (Hp & Hwf & _).
      destruct (push_back_filled b u Hp Hwf Hsum Hlen Hu) as (b' & Hb' & Hus' & Hf').
      rewrite Hb'. cbn -[push_back vset vsize]. rewrite vset_last.
      eexists. split; [done|]. split.
      { rewrite !map_app, !concat_app. cbn [map concat]. rewrite Hus', !app_nil_r.
        by rewrite app_assoc. }
      split. { apply Forall_app. split; [done|by constructor]. }
      intros k cd Hk Hlt. rewrite length_app in Hlt. cbn [length] in Hlt.
      rewrite lookup_app_l in Hk by lia.
      apply (Hfull k cd); [by rewrite lookup_app_l by lia|].
      rewrite length_app. cbn [length]. lia.
  - apply last_None in El as ->. cbn -[push_back vset vsize].
    rewrite Hbn. cbn -[push_back vset vsize].
    change (vset [empty_chunkdata] (vsize [empty_chunkdata] - 1) bn) with [bn].
    eexists. split; [done|]. split; [cbn [map concat app]; by rewrite Husn|].
    split; [by constructor|]. intros k cd Hk Hlt. cbn in Hlt. lia.
Qed.

Lemma distribute_fold (us : list utterancedesc) (acc : list utterancechunkdata) :
  Forall chunk_filled acc →
  (∀ k cd, acc !! k = Some cd → (S k < length acc)%nat → chunk_full cd) →
  Forall (λ u, numframes u ≤ 65535) us →
  ∃ chunks, foldM distribute us acc = Done chunks
    ∧ concat (map utteranceset chunks) = concat (map utteranceset acc) ++ us
    ∧ Forall chunk_filled chunks
    ∧ (∀ k cd, chunks !! k = Some cd → (S k < length chunks)%nat → chunk_full cd).
Proof.
  revert acc. induction us as [|u us IH]; intros acc Hfilled Hfull Hus.
  - exists acc. cbn. by rewrite app_nil_r.
  - apply Forall_cons in Hus as [Hu Hus].
    destruct (distribute_step acc u Hfilled Hfull Hu) as (acc1 & Hd & Hc1 & Hf1 & Hfull1).
    destruct (IH acc1 Hf1 Hfull1 Hus) as (chunks & Hfold & Hc & Hf & Hfl).
    exists chunks. cbn [foldM]. rewrite Hd. cbn [mbind outcome_bind].
    split; [done|]. split; [|done]. rewrite Hc, Hc1, <- app_assoc. done.
Qed.

(** X17: the distribution of the utterances of a stream over chunks, for
    utterances of at most 65535 frames each, completes and keeps every
    utterance, in order.  No chunk is empty or paged in, each holds at most
    65535 utterances and at most [chunkframes + 65535] frames, which its
    [totalframes] counts exactly; and a new chunk is begun only when the one
    before it is over [chunkframes] frames or holds 65535 utterances. *)
Theorem distribute_chunks (us : list utterancedesc) :
  Forall (λ u, numframes u ≤ 65535) us →
  ∃ chunks, foldM distribute us [] = Done chunks
    ∧ concat (map utteranceset chunks) = us
    ∧ Forall (λ cd, utteranceset cd ≠ [] ∧ isinram cd = false
                    ∧ cd_numutterances cd ≤ 65535
                    ∧ totalframes cd = sumN (map numframes (utteranceset cd))
                    ∧ totalframes cd ≤ chunkframes + 65535) chunks
    ∧ (∀ k cd, chunks !! k = Some cd → (S k < length chunks)%nat →
               chunkframes < totalframes cd ∨ 65535 ≤ cd_numutterances cd).
Proof.
  intros Hus.
  destruct (distribute_fold us []) as (chunks & Hfold & Hc & Hf & Hfull); [done| |done|].
  { intros k cd Hk. done. }
  exists chunks. split; [done|]. cbn in Hc. split; [done|]. split; [|exact Hfull].
  rewrite Forall_forall in Hf. rewrite Forall_forall in Hus.
  apply Forall_forall. intros cd Hcd.
  destruct (Hf cd Hcd) as (Hp & Hwf & us0 & u & Hset & Hsum & Hlen).
  assert (Hin : u ∈ us).
  { rewrite <- Hc. apply list_elem_of_In, in_concat. exists (utteranceset cd). split.
    - by apply in_map, list_elem_of_In.
    - rewrite Hset. apply in_or_app. right. by left. }
  specialize (Hus u Hin). cbv beta in Hus.
  split; [rewrite Hset; by destruct us0|].
  split; [unfold isinram; by rewrite Hp|].
  split; [unfold cd_numutterances, vsize in *; rewrite Hset, length_app; cbn [length]; lia|].
  split; [exact Hwf|]. unfold chunk_wf in Hwf. rewrite Hwf, Hset, map_app, sumN_app. cbn. lia.
Qed.

Lemma distribute_chunks_witness :
  ∃ chunks, foldM distribute (map example_utterance [60000; 40000; 3]) [] = Done chunks
            ∧ concat (map utteranceset chunks) = map example_utterance [60000; 40000; 3].
Proof.
  destruct (distribute_chunks (map example_utterance [60000; 40000; 3])) as (chunks & H1 & H2 & _).
  - repeat constructor; vm_compute; discriminate.
  - exists chunks. split; [exact H1|exact H2].
Defined.

(** * The catalog of a constructed source *)

Section ConstructedCatalog.
Context (ndebug : bool) {W : Type} (env : collaborators W).

Lemma push_labels_totals labels udim k st j st' :
  push_labels ndebug env labels udim k st j = Done st' →
  cs_utteranceset st' = cs_utteranceset st ∧ cs_totalframes st' = cs_totalframes st
  ∧ cs_uttisvalid st' = cs_uttisvalid st.
Proof.
  unfold push_labels. intros H.
  obind H as labels_j El. obind H as labseq Ef. obind H as cls Ec. obind H as pbs Ep.
  obind H as ncl En. obind H as cnt Ect. obind H as [[[cls' pbs'] ncl'] cnt'] Ee.
  cbv zeta in H. destruct (_ && _) in H; [done|]. obind H as ? Ea. injection H as <-. done.
Qed.

Lemma push_all_labels_totals labels udim k l st st' :
  foldM (push_labels ndebug env labels udim k) l st = Done st' →
  cs_utteranceset st' = cs_utteranceset st ∧ cs_totalframes st' = cs_totalframes st
  ∧ cs_uttisvalid st' = cs_uttisvalid st.
Proof.
  revert st. induction l as [|j l IH]; intros st H; cbn [foldM] in H.
  - by injection H as <-.
  - obind H as st1 E1. apply push_labels_totals in E1 as (Hu1 & Ht1 & Hv1).
    apply IH in H as (Hu & Ht & Hv). split_and!; congruence.
Qed.

(** What one file of the first stream does to the utterances and the frame
    count: nothing, or the file is added with its frames; and the validity
    flags only ever change to false. *)
Lemma process_file_totals labels udim dur st i pp st' :
  process_file ndebug env labels udim dur 0 st (i, pp) = Done st' →
  (∀ j, vget (cs_uttisvalid st') j = Some true → vget (cs_uttisvalid st) j = Some true)
  ∧ ((cs_utteranceset st' = cs_utteranceset st ∧ cs_totalframes st' = cs_totalframes st)
     ∨ (∃ cb, vget (cs_uttisvalid st) i = Some true
              ∧ cs_utteranceset st'
                = cs_utteranceset st ++ [{| ud_parsedpath := pp; classidsbegin := cb |}]
              ∧ cs_totalframes st' = SizeT.add (cs_totalframes st) (pp_numframes pp))).
Proof.
  intros H. unfold process_file in H. cbn [N.eqb] in H.
  obind H as st1 E1.
  assert (H1 : cs_utteranceset st1 = cs_utteranceset st
               ∧ cs_totalframes st1 = cs_totalframes st
               ∧ cs_uttisvalid st1 = cs_uttisvalid st).
  { destruct (true && nonempty labels) in E1.
    - obind E1 as c0 Ec0. by injection E1 as <-.
    - by injection E1 as <-. }
  destruct H1 as (Hu1 & Ht1 & Hv1). clear E1.
  obind H as valid Ev. apply vat_Done in Ev. rewrite Hv1 in Ev.
  destruct valid; cbn [negb] in H.
  2:{ injection H as <-. rewrite Hv1. split; [done|]. left. done. }
  obind H as cb Ecb. obind H as ? Ea. cbv zeta in H.
  obind H as [[st2 lacksmlf] skip] E2.
  assert (Hset : ∀ (v : list bool) j, v = cs_uttisvalid st →
            vget (vset v i false) j = Some true → vget v j = Some true).
  { intros v j _ Hj. rewrite vget_vset in Hj. destruct (decide (i = j)); [|done].
    by destruct (decide (i < vsize v)). }
  assert (H2 : cs_utteranceset st2 = cs_utteranceset st
               ∧ cs_totalframes st2 = cs_totalframes st
               ∧ (∀ j, vget (cs_uttisvalid st2) j = Some true →
                       vget (cs_uttisvalid st) j = Some true)
               ∧ (skip = false → cs_uttisvalid st2 = cs_uttisvalid st)).
  { destruct (nonempty labels) in E2.
    - obind E2 as labels0 El0. cbv zeta in E2.
      destruct (bool_decide _ || _) in E2; injection E2 as <- <- <-; cbn.
      + rewrite Hu1, Ht1, Hv1. split_and!; try done. intros j. by apply Hset.
      + rewrite Hu1, Ht1, Hv1. done.
    - injection E2 as <- <- <-. rewrite Hu1, Ht1, Hv1. done. }
  destruct H2 as (Hu2 & Ht2 & Hv2 & Hv2'). clear E2.
  destruct skip.
  { injection H as <-. split; [done|]. left. done. }
  specialize (Hv2' eq_refl).
  destruct (nonempty labels && negb lacksmlf) in H.
  - obind H as ok Eok. destruct ok; cbn [negb] in H.
    + apply push_all_labels_totals in H as (Hu & Ht & Hv).
      cbn [cs_utteranceset cs_totalframes cs_uttisvalid cs_add_totalframes cs_push_utterance]
        in Hu, Ht, Hv.
      split; [by rewrite Hv|]. right. exists cb. rewrite Hu, Ht, Hu2, Ht2. done.
    + injection H as <-. cbn. rewrite Hu2, Ht2, Hv2'. split; [|left; done].
      intros j. by apply Hset.
  - obind H as ? Ea2. injection H as <-. cbn. rewrite Hu2, Ht2, Hv2'.
    split; [done|]. right. exists cb. done.
Qed.

Lemma indexed_split_lookup {A} (v : list A) done i x rest :
  indexed v = done ++ (i, x) :: rest → v !! N.to_nat i = Some x.
Proof.
  intros H. pose proof (indexed_split _ _ _ _ _ H) as ->. rewrite Nat2N.id.
  assert (Hs : (indexed v).*2 = v).
  { unfold indexed. apply snd_zip. by rewrite indices_length. }
  rewrite H, fmap_app, fmap_cons in Hs. cbn in Hs. rewrite <- Hs.
  rewrite <- (length_fmap snd done). apply list_lookup_middle. done.
Qed.

Lemma process_files_totals labels udim dur files st st' :
  cs_utteranceset st = [] → cs_totalframes st = 0 →
  (∀ j, vget (cs_uttisvalid st) j = Some true →
        ∃ pp, files !! N.to_nat j = Some pp ∧ 2 ≤ pp_numframes pp ∧ pp_numframes pp ≤ 65535) →
  foldM (process_file ndebug env labels udim dur 0) (indexed files) st = Done st' →
  cs_totalframes st' = SizeT.wrap (sumN (map numframes (cs_utteranceset st')))
  ∧ Forall (λ u, 2 ≤ numframes u ∧ numframes u ≤ 65535) (cs_utteranceset st').
Proof.
  intros Hu0 Ht0 Hvalid H.
  set (P := λ (done : list (N * parsedpath)) (s : ctor_state),
         cs_totalframes s = SizeT.wrap (sumN (map numframes (cs_utteranceset s)))
         ∧ Forall (λ u, 2 ≤ numframes u ∧ numframes u ≤ 65535) (cs_utteranceset s)
         ∧ ∀ j, vget (cs_uttisvalid s) j = Some true → vget (cs_uttisvalid st) j = Some true).
  assert (HP : P (indexed files) st'); [|by destruct HP as (? & ? & _)].
  eapply (foldM_invariant P); [| |exact H].
  - unfold P. rewrite Hu0, Ht0. split; [done|]. split; [constructor|done].
  - intros done [i pp] rest b b' Hl (Hb1 & Hb2 & Hb3) Hstep.
    apply indexed_split_lookup in Hl.
    apply process_file_totals in Hstep as (Hv & [[Hu Ht]|(cb & Hvi & Hu & Ht)]).
    + unfold P. rewrite Hu, Ht. split; [done|]. split; [done|]. intros j Hj. by apply Hb3, Hv.
    + unfold P. rewrite Hu, Ht. split; [|split].
      * rewrite map_app, sumN_app, Hb1. cbn [map sumN foldr].
        unfold numframes at 2. cbn [ud_parsedpath]. rewrite N.add_0_r. apply add_wrap_l.
      * apply Forall_app. split; [done|]. constructor; [|constructor].
        destruct (Hvalid i (Hb3 i Hvi)) as (pp' & Hpp' & H2 & H65). rewrite Hl in Hpp'.
        injection Hpp' as <-. done.
      * intros j Hj. by apply Hb3, Hv.
Qed.

Lemma probe_single files valid dur :
  probe_durations ndebug [files] = Done (valid, dur) →
  valid = map probe_valid files ∧ forallb long_enough files = true.
Proof.
  unfold probe_durations. change (indexed [files]) with [(0, files)].
  cbn [foldM]. rewrite probe_stream0. destruct (forallb long_enough files); [|done].
  cbn [mbind outcome_bind fst]. intros H. obind H as ? Ea.
  destruct (_ <? _) in H; [done|]. by injection H as <- <-.
Qed.

Lemma sumN_concat_frames (chunks : list utterancechunkdata) :
  stream_frames chunks = sumN (map numframes (concat (map utteranceset chunks))).
Proof.
  unfold stream_frames. induction chunks as [|cd chunks IH]; [done|].
  cbn [map concat sumN foldr]. rewrite map_app, sumN_app. unfold sumN in *. by rewrite IH.
Qed.

Lemma sumN_concat_utterances (chunks : list utterancechunkdata) :
  stream_utterances chunks = vsize (concat (map utteranceset chunks)).
Proof.
  unfold stream_utterances, vsize. induction chunks as [|cd chunks IH]; [done|].
  cbn [map concat sumN foldr]. rewrite length_app. unfold sumN, cd_numutterances, vsize in *.
  rewrite IH. lia.
Qed.

Lemma frames_bound_utterances (us : list utterancedesc) :
  Forall (λ u, 2 ≤ numframes u ∧ numframes u ≤ 65535) us →
  vsize us ≤ sumN (map numframes us).
Proof.
  unfold vsize. induction 1 as [|u us [H2 _] _ IH]; [done|].
  cbn [length map sumN foldr]. unfold sumN in IH. lia.
Qed.

Lemma chunks_bound_utterances (chunks : list utterancechunkdata) :
  Forall chunk_filled chunks → vsize chunks ≤ vsize (concat (map utteranceset chunks)).
Proof.
  unfold vsize. induction 1 as [|cd chunks (_ & _ & us0 & u & Hset & _) _ IH]; [done|].
  cbn [length map concat]. rewrite length_app, Hset, length_app. cbn [length]. lia.
Qed.

End ConstructedCatalog.

Section ConstructReady.
Context {G : Type} (srand : N → G) (crand : G → N * G) (RAND_MAX : N).
Context (ndebug : bool) {W : Type} (env : collaborators W).

(** X18: a source constructed from one stream of feature files is ready for
    its randomizer.  Its chunks hold the utterances that were kept, no chunk
    is empty, every chunk counts its frames exactly, and the source counts
    the frames and the utterances of its chunks.  For every time whose sweep
    ends within [size_t], the catalog fits the randomizer and the
    randomizer holds no sweep yet, which is what the properties of
    [lazyrandomization] ask for. *)
Theorem construct_ready files labels vdim_ udim lc rc rr fm src :
  construct ndebug env [files] labels vdim_ udim lc rc rr fm = Done src →
  ∃ ac0,
    allchunks src = [ac0]
    ∧ rand_ src
      = Some (mk_randomizer fm (src_totalframes src) (numutterances src) rr)
    ∧ Forall (λ cd, utteranceset cd ≠ [] ∧ chunk_wf cd) ac0
    ∧ src_totalframes src = SizeT.wrap (stream_frames ac0)
    ∧ numutterances src = stream_utterances ac0
    ∧ ∀ globalts_ rz,
        rand_ src = Some rz →
        (globalts_ / stream_frames ac0 + 1) * stream_frames ac0 < SizeT.modulus →
        _totalframes rz = stream_frames ac0
        ∧ catalog_fits rz (globalts_ / _totalframes rz) (allchunks src)
        ∧ current_is_built srand crand RAND_MAX ndebug rz globalts_ (allchunks src).
Proof.
  intros H. unfold construct in H.
  do 6 (obind H as ? E; clear E).
  obind H as [uttisvalid uttduration] Eprobe. cbv zeta in H.
  apply probe_single in Eprobe as [-> Hlong].
  obind H as acc Efold. injection H as <-.
  cbn [allchunks rand_ src_totalframes numutterances].
  change (indexed [files]) with [(0, files)] in Efold. cbn [foldM] in Efold.
  obind Efold as acc1 E1. injection Efold as <-.
  unfold process_stream in E1. cbn [N.eqb st_state st_allchunks] in E1.
  obind E1 as st E. obind E1 as ? Ea. obind E1 as ? Em. obind E1 as ? Et. obind E1 as ? Easr.
  obind E1 as chunks Ed. obind E1 as ? Ev. injection E1 as <-.
  cbn [st_allchunks st_rand st_state st_numutterances].
  apply process_files_totals in E as [Htot Hus]; [|done|done|].
  2:{ intros j Hj. cbn [cs_uttisvalid cs_set_classidsbegin cs_set_utteranceset] in Hj.
      unfold vget in Hj. rewrite list_lookup_fmap in Hj.
      destruct (files !! N.to_nat j) as [pp|] eqn:Epp; [|done]. cbn in Hj.
      exists pp. split; [done|]. rewrite forallb_forall in Hlong.
      specialize (Hlong pp (proj1 (list_elem_of_In _ _) (list_elem_of_lookup_2 _ _ _ Epp))).
      unfold long_enough in Hlong. apply negb_true_iff, N.ltb_ge in Hlong.
      injection Hj as Hj. unfold probe_valid, too_long in Hj.
      apply negb_true_iff, N.ltb_ge in Hj. done. }
  destruct (distribute_fold (cs_utteranceset st) []) as (chunks' & Hd & Hc & Hf & _);
    [done|by intros k cd Hk| |].
  { eapply Forall_impl; [exact Hus|]. intros u [_ Hu]. done. }
  rewrite Ed in Hd. injection Hd as <-. cbn [map concat app] in Hc.
  exists chunks. change (length [files]) with 1%nat. cbn [replicate].
  change (vset [[]] 0 chunks) with [chunks].
  split; [done|]. split; [done|].
  assert (Hwf : Forall chunk_wf chunks).
  { eapply Forall_impl; [exact Hf|]. by intros cd (_ & Hwf & _). }
  split.
  { eapply Forall_impl; [exact Hf|]. intros cd (_ & Hwf' & us0 & u & Hset & _).
    split; [rewrite Hset; by destruct us0|done]. }
  assert (HSF : stream_frames chunks = sumN (map numframes (cs_utteranceset st))).
  { by rewrite sumN_concat_frames, Hc. }
  assert (HSU : stream_utterances chunks = vsize (cs_utteranceset st)).
  { by rewrite sumN_concat_utterances, Hc. }
  split; [by rewrite HSF|]. split; [by rewrite HSU|].
  intros globalts_ rz [= <-] Hfit. cbn [_totalframes rz_numutterances currentsweep mk_randomizer].
  set (SF := stream_frames chunks) in *.
  assert (Hlt : SF < SizeT.modulus).
  { revert Hfit. generalize (globalts_ / SF). intros q Hq. nia. }
  assert (HT : cs_totalframes st = SF).
  { rewrite Htot, <- HSF. by apply wrap_small. }
  rewrite HT.
  pose proof (frames_bound_utterances _ Hus) as Hbu.
  pose proof (chunks_bound_utterances _ Hf) as Hbc. rewrite Hc in Hbc. rewrite <- HSF in Hbu.
  split; [done|]. split.
  - exists chunks, []. cbn [_totalframes rz_numutterances mk_randomizer].
    split; [done|]. split; [done|]. split; [done|]. split; [by rewrite HSU|].
    split; [done|]. split; [fold SF in Hbu; lia|]. fold SF in Hbu. lia.
  - intros Hcur. exfalso. cbn [currentsweep _totalframes mk_randomizer] in Hcur.
    change SizeT.SIZE_MAX with (SizeT.modulus - 1) in Hcur.
    assert (0 < SizeT.modulus) by apply modulus_pos.
    destruct (N.eq_dec SF 0) as [H0|H0].
    + rewrite H0, N.div_0_r in Hcur. vm_compute in Hcur. discriminate.
    + revert Hfit Hcur. generalize (globalts_ / SF). intros q Hq Hcur. nia.
Qed.

End ConstructReady.

Lemma construct_ready_witness :
  ∃ ac0, allchunks example_source_constructed = [ac0]
         ∧ src_totalframes example_source_constructed = SizeT.wrap (stream_frames ac0)
         ∧ numutterances example_source_constructed = stream_utterances ac0.
Proof.
  destruct (construct_ready lcg_srand lcg_rand 32767 false example_env example_labelled_files
              [example_labels] [2] [3] [0] [0] 20 true example_source_constructed)
    as (ac0 & Hac & _ & _ & HT & Hn & _).
  - vm_compute; reflexivity.
  - exists ac0. split; [exact Hac|]. split; [exact HT|exact Hn].
Defined.

(** * The chunk windows *)

Lemma sub_self a : a < SizeT.modulus → SizeT.sub a a = 0.
Proof. intros H. rewrite sub_small by lia. lia. Qed.

Lemma advance_windowbegin_Done fuel rc gts half wb0 wb :
  vsize rc < SizeT.modulus →
  advance_windowbegin fuel rc gts half wb0 = Done wb →
  wb0 ≤ wb ∧ wb < vsize rc
  ∧ ∀ k c, vget rc k = Some c → SizeT.sub gts (globalts c) ≤ half → wb0 ≤ k → wb ≤ k.
Proof.
  intros Hfit. revert wb0. induction fuel as [|fuel IH]; intros wb0 H; [done|].
  cbn [advance_windowbegin] in H. obind H as c Ec. apply vat_Done in Ec.
  pose proof (vget_lt _ _ _ Ec) as Hlt.
  destruct (half <? SizeT.sub gts (globalts c)) eqn:Ecmp.
  - apply N.ltb_lt in Ecmp. rewrite add_small in H by lia.
    apply IH in H as (Hle & Hwb & Hstop). split; [lia|]. split; [done|].
    intros k c' Hk Hsub Hk0. apply (Hstop k c' Hk Hsub).
    destruct (N.eq_dec k wb0) as [->|]; [|lia].
    rewrite Ec in Hk. injection Hk as <-. lia.
  - injection H as <-. split; [lia|]. split; [done|]. intros k c' _ _ Hk0. done.
Qed.

Lemma advance_windowend_Done fuel ac rc gts half we0 we :
  vsize rc < SizeT.modulus →
  advance_windowend fuel ac rc gts half we0 = Done we →
  we0 ≤ we ∧ we ≤ N.max we0 (vsize rc).
Proof.
  intros Hfit. revert we0. induction fuel as [|fuel IH]; intros we0 H; [done|].
  cbn [advance_windowend] in H. destruct (we0 <? vsize rc) eqn:Elt.
  - apply N.ltb_lt in Elt. obind H as c Ec. obind H as te Ete.
    destruct (SizeT.sub te gts <? half).
    + rewrite add_small in H by lia. apply IH in H as [Hle Hmax]. lia.
    + injection H as <-. lia.
  - injection H as <-. lia.
Qed.

(** The window of chunk [k] as [compute_window] sets it: it starts from the
    window of the chunk before, and only moves right. *)
Lemma compute_window_Done ac range rc k rc' :
  vsize rc < SizeT.modulus →
  Forall (λ c, globalts c < SizeT.modulus) rc →
  compute_window ac range rc k = Done rc' →
  ∃ c wb we,
    vget rc k = Some c ∧ rc' = vset rc k (set_window c wb we)
    ∧ (k = 0 → wb = 0 ∧ 1 ≤ we ∧ we ≤ vsize rc)
    ∧ (0 < k → ∀ p, vget rc (k - 1) = Some p →
         windowbegin p ≤ wb ∧ windowend p ≤ we
         ∧ (windowbegin p ≤ k → wb ≤ k)
         ∧ (windowend p ≤ vsize rc → we ≤ vsize rc)).
Proof.
  intros Hfit Hg H. unfold compute_window in H.
  obind H as c Ec. apply vat_Done in Ec. obind H as [wb0 we0] E0.
  obind H as wb Ewb. obind H as we Ewe. injection H as <-.
  apply advance_windowbegin_Done in Ewb as (Hwb1 & Hwb2 & Hwb3); [|done].
  apply advance_windowend_Done in Ewe as (Hwe1 & Hwe2); [|done].
  assert (Hself : SizeT.sub (globalts c) (globalts c) = 0).
  { apply sub_self. rewrite Forall_forall in Hg. apply Hg.
    unfold vget in Ec. by eapply list_elem_of_lookup_2. }
  pose proof (vget_lt _ _ _ Ec) as Hk.
  exists c, wb, we. split; [done|]. split; [done|]. split.
  - intros ->. cbn [N.eqb] in E0. injection E0 as <- <-.
    split; [|clear Hwb3; lia]. specialize (Hwb3 0 c Ec). rewrite Hself in Hwb3.
    assert (wb ≤ 0) by (apply Hwb3; [apply N.le_0_l|reflexivity]). clear Hwb3. lia.
  - intros Hpos p Hp. assert ((k =? 0) = false) as Hk0 by (apply N.eqb_neq; lia).
    rewrite Hk0 in E0. obind E0 as p' Ep'. apply vat_Done in Ep'.
    rewrite Hp in Ep'. injection Ep' as <-. injection E0 as <- <-.
    split; [done|]. split; [done|]. split; [|clear Hwb3; lia].
    intros Hpk. apply (Hwb3 k c Ec); [|clear Hwb3; lia]. rewrite Hself. apply N.le_0_l.
Qed.

Lemma compute_windows_monotone ac range rc rc' :
  vsize rc < SizeT.modulus →
  Forall (λ c, globalts c < SizeT.modulus) rc →
  compute_windows ac range rc = Done rc' →
  windows_monotone rc'.
Proof.
  intros Hfit Hg H. unfold compute_windows in H.
  set (P := λ (done : list N) (cur : list chunk),
         length cur = length rc
         ∧ Forall (λ c, globalts c < SizeT.modulus) cur
         ∧ ∀ j c, (j < length done)%nat → cur !! j = Some c →
             windowbegin c ≤ N.of_nat j ∧ 1 ≤ windowend c ∧ windowend c ≤ vsize rc
             ∧ ∀ p, cur !! Init.Nat.pred j = Some p → (0 < j)%nat →
                    windowbegin p ≤ windowbegin c ∧ windowend p ≤ windowend c).
  assert (HP : P (indices rc) rc').
  { eapply (foldM_invariant P); [| |exact H].
    - unfold P. split; [done|]. split; [done|]. intros j c Hj. cbn in Hj. lia.
    - intros done k rest cur cur' Hl (Hlen & Hgc & Hinv) Hstep.
      apply indices_split in Hl as [-> Hdone].
      assert (Hfitc : vsize cur < SizeT.modulus) by (unfold vsize in *; by rewrite Hlen).
      apply compute_window_Done in Hstep as (c & wb & we & Hc & -> & H0 & Hpos); [|done|done].
      unfold vget in Hc. rewrite Nat2N.id in Hc.
      unfold P. split; [by rewrite length_vset|]. split.
      { unfold vset. rewrite Nat2N.id. apply Forall_insert; [done|].
        cbn. rewrite Forall_forall in Hgc. apply Hgc. by eapply list_elem_of_lookup_2. }
      intros j c' Hj Hc'. rewrite length_app in Hj. cbn [length] in Hj.
      unfold vset in Hc'. rewrite Nat2N.id in Hc'.
      destruct (decide (j = length done)) as [->|Hne].
      + rewrite list_lookup_insert_eq in Hc' by (by eapply lookup_lt_Some).
        injection Hc' as <-. cbn [windowbegin windowend set_window].
        destruct (length done) as [|n] eqn:En.
        * destruct (H0 eq_refl) as (-> & Hwe1 & Hwe2). unfold vsize in Hwe2.
          rewrite Hlen in Hwe2. split; [done|]. split; [done|]. split; [done|].
          intros p _ Hlt. lia.
        * assert (Hp : is_Some (cur !! n)) by (apply lookup_lt_is_Some; lia).
          destruct Hp as [p Hp].
          destruct (Hinv n p ltac:(lia) Hp) as (Hp1 & Hp2 & Hp3 & _).
          destruct (Hpos ltac:(lia) p) as (Hb & He & Hbk & Hek).
          { unfold vget. replace (N.to_nat (N.of_nat (S n) - 1)) with n by lia. done. }
          unfold vsize in Hek. rewrite Hlen in Hek.
          split; [apply Hbk; lia|]. split; [lia|]. split; [apply Hek; done|].
          intros p' Hp' _. cbn [Init.Nat.pred] in Hp'.
          unfold vset in Hp'. rewrite Nat2N.id in Hp'.
          rewrite list_lookup_insert_ne in Hp' by lia. rewrite Hp in Hp'.
          injection Hp' as <-. done.
      + rewrite list_lookup_insert_ne in Hc' by done.
        destruct (Hinv j c' ltac:(lia) Hc') as (H1 & H2 & H3 & H4).
        split; [done|]. split; [done|]. split; [done|].
        intros p Hp Hlt. unfold vset in Hp. rewrite Nat2N.id in Hp.
        rewrite list_lookup_insert_ne in Hp by lia. by apply H4. }
  destruct HP as (Hlen & _ & Hinv). rewrite indices_length in Hinv.
  assert (Hadj : ∀ d k c c', rc' !! k = Some c → rc' !! (k + d)%nat = Some c' →
            windowbegin c ≤ windowbegin c' ∧ windowend c ≤ windowend c').
  { induction d as [|d IH]; intros k c c' Hc Hc'.
    - rewrite Nat.add_0_r in Hc'. rewrite Hc in Hc'. injection Hc' as <-. lia.
    - assert (Hm : is_Some (rc' !! (k + d)%nat)).
      { apply lookup_lt_is_Some. apply lookup_lt_Some in Hc'. lia. }
      destruct Hm as [m Hm]. destruct (IH k c m Hc Hm) as [Hb He].
      assert (Hlt : (k + S d < length rc)%nat).
      { rewrite <- Hlen. by eapply lookup_lt_Some. }
      destruct (Hinv (k + S d)%nat c' Hlt Hc') as (_ & _ & _ & Hprev).
      destruct (Hprev m) as [Hb' He']; [|lia|lia].
      replace (Init.Nat.pred (k + S d)) with (k + d)%nat by lia. done. }
  intros k k' c c' Hkk Hc Hc'.
  destruct (Hadj (k' - k)%nat k c c' Hc) as [Hb He].
  { replace (k + (k' - k))%nat with k' by lia. done. }
  assert (Hlt : (k < length rc)%nat) by (rewrite <- Hlen; by eapply lookup_lt_Some).
  destruct (Hinv k c Hlt Hc) as (H1 & H2 & H3 & _).
  unfold vsize. rewrite Hlen. done.
Qed.

Section WindowsMonotone.
Context {G : Type} (srand : N → G) (crand : G → N * G) (RAND_MAX : N) (ndebug : bool).

Lemma rebuild_windows_monotone fuel rz sweep allchunks rz' :
  catalog_fits rz sweep allchunks →
  rebuild srand crand RAND_MAX ndebug fuel rz sweep allchunks = Done rz' →
  ∃ rc0, head (randomizedchunks rz') = Some rc0 ∧ windows_monotone rc0.
Proof.
  intros (ac0 & rest & -> & Hwf & HT & Hnu & Hfit & Hnufit & Hsize) Hreb.
  destruct (rebuild_Done _ _ _ _ _ _ _ _ _ Hreb)
    as [ac0' rest' chunkrefs placed rc0 refss rcs shuffled t Hac Hrr Hrp Hrand Hplace Hwin Hres
        Hshuf Hassign Hverify Hchunks Hpcw Hposmap Hfm HT' Hnu' Hrange Hsweep].
  injection Hac as <- <-. exists rc0. rewrite Hchunks. split; [done|].
  apply (compute_windows_monotone ac0 (randomizationrange rz) placed); [| |done].
  - apply place_chunks_length in Hplace. apply randomize_chunkrefs_Permutation in Hrand.
    apply Permutation_length in Hrand. rewrite indices_length in Hrand.
    unfold vsize in *. rewrite Hplace, <- Hrand. done.
  - apply place_chunks_timeline in Hplace as [_ Htl]; [|apply wrap_lt].
    apply Forall_forall. intros c Hc. apply list_elem_of_lookup_1 in Hc as [k Hk].
    destruct (Htl k c Hk) as [-> _]. apply wrap_lt.
Qed.

(** X19: the chunk windows only move right.  After [lazyrandomization] on a
    catalog that fits [size_t], along the randomized chunks of the first
    stream neither [windowbegin] nor [windowend] ever decreases, the window
    of chunk [k] begins at [k] or before it, and every window ends after at
    least one chunk and within the chunks: a chunk that has left the window
    is not asked for again in the sweep. *)
Theorem lazyrandomization_windows_monotone fuel rz globalts_ allchunks s rz' :
  catalog_fits rz (globalts_ / _totalframes rz) allchunks →
  current_is_built srand crand RAND_MAX ndebug rz globalts_ allchunks →
  lazyrandomization srand crand RAND_MAX ndebug fuel rz globalts_ allchunks = Done (s, rz') →
  ∃ rc0, head (randomizedchunks rz') = Some rc0
         ∧ ∀ k k' c c', (k ≤ k')%nat → rc0 !! k = Some c → rc0 !! k' = Some c' →
             windowbegin c ≤ windowbegin c' ∧ windowend c ≤ windowend c'
             ∧ windowbegin c ≤ N.of_nat k ∧ 1 ≤ windowend c ∧ windowend c ≤ vsize rc0.
Proof.
  intros Hfit Hcur H.
  destruct (lazyrandomization_built _ _ _ _ _ _ _ _ _ _ Hcur H)
    as (-> & HT0 & fuel0 & rz0 & Hfm & HT & Hnu & _ & Hreb).
  destruct (rebuild_windows_monotone fuel0 rz0 (globalts_ / _totalframes rz) allchunks rz')
    as (rc0 & Hhead & Hmono); [|done|].
  { eapply catalog_fits_parameters; [| |exact Hfit]; done. }
  exists rc0. split; [done|]. exact Hmono.
Qed.

End WindowsMonotone.

Lemma lazyrandomization_windows_monotone_witness :
  ∃ rc0, head (randomizedchunks example_randomized) = Some rc0
         ∧ ∀ k k' c c', (k ≤ k')%nat → rc0 !! k = Some c → rc0 !! k' = Some c' →
             windowbegin c ≤ windowbegin c' ∧ windowend c ≤ windowend c'
             ∧ windowbegin c ≤ N.of_nat k ∧ 1 ≤ windowend c ∧ windowend c ≤ vsize rc0.
Proof.
  refine (lazyrandomization_windows_monotone lcg_srand lcg_rand 32767 false 100
            (example_randomizer true) 25 example_catalog 1 example_randomized _ _ _).
  - apply example_catalog_fits. vm_compute; reflexivity.
  - apply example_randomizer_fresh. vm_compute; reflexivity.
  - vm_compute; reflexivity.
Defined.

(** * A request for no frames *)

Section ZeroFrames.
Context {G : Type} (srand : N → G) (crand : G → N * G) (RAND_MAX : N) (ndebug : bool).
Context {W : Type} (env : collaborators W).

(** X20: a request for zero frames at the first frame of a sweep other than
    sweep 0 makes [getbatch] throw.  In frame mode, once the randomization of
    the sweep has completed, the last frame of the request is computed as
    [globalts - 1], which lies in the sweep before, so [chunkforframepos]
    throws its logic error; nothing has been paged by then. *)
Theorem getbatch_zero_frames_at_sweep_start fuel globalts_ subsetnum numsubsets feat0 uids0
    src (w : W) rz s rz' :
  src_framemode src = true →
  rand_ src = Some rz →
  src_totalframes src = _totalframes rz →
  catalog_fits rz (globalts_ / _totalframes rz) (allchunks src) →
  current_is_built srand crand RAND_MAX ndebug rz globalts_ (allchunks src) →
  lazyrandomization srand crand RAND_MAX ndebug fuel rz globalts_ (allchunks src)
    = Done (s, rz') →
  globalts_ = s * _totalframes rz → 0 < s →
  getbatch srand crand RAND_MAX ndebug env fuel globalts_ 0 subsetnum numsubsets
    feat0 uids0 (src, w)
  = (Fail (LogicError LE_chunkforframepos), (set_rand src rz', w)).
Proof.
  intros Hfm Hrand HT Hfit Hcur H Hg Hs.
  destruct (lazyrandomization_built _ _ _ _ _ _ _ _ _ _ Hcur H)
    as (Hsw & HT0 & fuel0 & rz0 & Hfm0 & HT1 & Hnu & _ & Hreb).
  destruct (rebuild_chunk_timeline srand crand RAND_MAX ndebug fuel0 rz0 s (allchunks src) rz')
    as (ac0 & rest & rc0 & rcs & Hac & Hchunks & Htot & Htl); [|done|].
  { eapply catalog_fits_parameters; [| |rewrite Hsw; exact Hfit]; done. }
  rewrite HT1 in Htot, Htl.
  destruct Hfit as (ac0' & rest' & Hac' & _ & _ & _ & Hfits & _).
  rewrite <- Hsw in Hfits. set (T := _totalframes rz) in *.
  destruct (chunkforframepos_timeline rz' ac0 rc0 rcs s T globalts_ Hchunks HT0 Htot Htl)
    as [Hin _].
  destruct (Hin ltac:(lia) ltac:(lia)) as (k & c & Hk & _).
  destruct (chunkforframepos_timeline rz' ac0 rc0 rcs s T (globalts_ - 1) Hchunks HT0 Htot Htl)
    as [_ Hbefore].
  specialize (Hbefore ltac:(lia)).
  unfold getbatch.
  unfold mbind at 1, stateful_bind at 1. cbn [sget].
  rewrite HT. fold T.
  assert ((0 <? T) = true) as -> by (by apply N.ltb_lt).
  rewrite assert_holds.
  unfold mbind at 1, stateful_bind at 1. cbn [lift].
  unfold mbind at 1, stateful_bind at 1. unfold lift at 1, the_rand. rewrite Hrand.
  unfold mbind at 1, stateful_bind at 1. unfold lift at 1. rewrite H.
  unfold mbind at 1, stateful_bind at 1. cbn [smodify].
  rewrite Hfm. cbn [negb]. cbv zeta.
  rewrite Hac.
  unfold mbind at 1, stateful_bind at 1. unfold lift at 1.
  change (vat (ac0 :: rest) 0) with (Done ac0).
  unfold mbind at 1, stateful_bind at 1. unfold lift at 1. rewrite Hk.
  assert (Hlast : SizeT.sub (N.min (SizeT.add globalts_ 0) (SizeT.add (SizeT.mul s T) T))
                            1 = globalts_ - 1).
  { rewrite (add_small globalts_ 0) by lia. rewrite (mul_small s T) by lia.
    rewrite (add_small (s * T) T) by lia. rewrite N.add_0_r.
    rewrite N.min_l by lia. apply sub_small; lia. }
  rewrite Hlast.
  unfold mbind at 1, stateful_bind at 1. unfold lift at 1. rewrite Hbefore. done.
Qed.

End ZeroFrames.

Lemma getbatch_zero_frames_at_sweep_start_witness :
  getbatch lcg_srand lcg_rand 32767 true example_env 100 20 0 0 1 [] [] (example_source, tt)
  = (Fail (LogicError LE_chunkforframepos), (set_rand example_source example_randomized, tt)).
Proof.
  refine (getbatch_zero_frames_at_sweep_start lcg_srand lcg_rand 32767 true example_env 100
            20 0 1 [] [] example_source tt (example_randomizer true) 1 example_randomized
            _ _ _ _ _ _ _ _).
  - reflexivity.
  - reflexivity.
  - reflexivity.
  - apply (example_catalog_fits true). vm_compute; reflexivity.
  - intros Hc. vm_compute in Hc. discriminate.
  - vm_compute; reflexivity.
  - reflexivity.
  - reflexivity.
Defined.

(** * The frames of a batch and the window that is paged in *)

Lemma chunkforframepos_Done rz ac0 t k :
  chunkforframepos rz ac0 t = Done k →
  ∃ rc0 c te, vget (randomizedchunks rz) 0 = Some rc0 ∧ vget rc0 k = Some c
              ∧ globalte ac0 c = Done te ∧ globalts c ≤ t ∧ t < te.
Proof.
  unfold chunkforframepos. intros H.
  obind H as rc0 Erc0. apply vat_Done in Erc0. obind H as k' Ek.
  obind H as c Ec. apply vat_Done in Ec. obind H as te Ete.
  destruct ((t <? globalts c) || (te <=? t)) eqn:Echeck; [done|]. injection H as <-.
  apply orb_false_iff in Echeck as [H1 H2]. apply N.ltb_ge in H1. apply N.leb_gt in H2.
  exists rc0, c, te. done.
Qed.

Section BatchWindow.
Context {G : Type} (srand : N → G) (crand : G → N * G) (RAND_MAX : N) (ndebug : bool).

Lemma rebuild_pcw fuel rz sweep allchunks rz' ac0 rc0 :
  rebuild srand crand RAND_MAX ndebug fuel rz sweep allchunks = Done rz' →
  head allchunks = Some ac0 → head (randomizedchunks rz') = Some rc0 →
  positionchunkwindows rz' = seqs (framemode rz) (λ k _ _, k) ac0 rc0.
Proof.
  intros Hreb Hac0 Hrc0.
  destruct (rebuild_Done _ _ _ _ _ _ _ _ _ Hreb)
    as [ac0' rest chunkrefs placed rc0' refss rcs shuffled t Hac Hrr Hrp Hrand Hplace Hwin Hres
        Hshuf Hassign Hverify Hchunks Hpcw Hposmap Hfm HT' Hnu' Hrange Hsweep].
  rewrite Hac in Hac0. rewrite Hchunks in Hrc0. cbn in Hac0, Hrc0.
  injection Hac0 as <-. injection Hrc0 as <-. done.
Qed.

Lemma rebuild_batch_window fuel rz sweep allchunks rz' ac0 rc0 t t' tp kf kl cf cl r :
  catalog_fits rz sweep allchunks → framemode rz = true →
  rebuild srand crand RAND_MAX ndebug fuel rz sweep allchunks = Done rz' →
  head allchunks = Some ac0 → head (randomizedchunks rz') = Some rc0 →
  sweep * _totalframes rz ≤ t → t ≤ tp → tp ≤ t' → t' < (sweep + 1) * _totalframes rz →
  chunkforframepos rz' ac0 t = Done kf → chunkforframepos rz' ac0 t' = Done kl →
  vget rc0 kf = Some cf → vget rc0 kl = Some cl →
  vget (randomizedutterancerefs rz') (tp - sweep * _totalframes rz) = Some r →
  windowbegin cf ≤ chunkindex r ∧ chunkindex r < windowend cl.
Proof.
  intros Hfit Hfm Hreb Hac0 Hrc0 Hlo Htp Htp' Hhi Hkf Hkl Hcf Hcl Hr.
  destruct (rebuild_chunk_timeline srand crand RAND_MAX ndebug fuel rz sweep allchunks rz'
              Hfit Hreb)
    as (ac0' & rest & rc0' & rcs & Hac & Hchunks & Htot & Htl).
  rewrite Hac in Hac0. rewrite Hchunks in Hrc0. cbn in Hac0, Hrc0.
  injection Hac0 as ->. injection Hrc0 as ->.
  destruct (rebuild_windows_monotone srand crand RAND_MAX ndebug fuel rz sweep allchunks rz'
              Hfit Hreb) as (rc0' & Hrc0' & Hmono).
  rewrite Hchunks in Hrc0'. cbn in Hrc0'. injection Hrc0' as <-.
  pose proof (rebuild_window_containment srand crand RAND_MAX ndebug fuel rz sweep allchunks
                rz' Hfit Hreb) as Hwc.
  pose proof (rebuild_pcw fuel rz sweep allchunks rz' ac0 rc0 Hreb) as Hpcw.
  rewrite Hac, Hchunks in Hpcw. specialize (Hpcw eq_refl eq_refl). rewrite Hfm in Hpcw.
  destruct (rebuild_parameters _ _ _ _ _ _ _ _ _ Hreb) as (Hfm' & HT' & _).
  set (T := _totalframes rz) in *. set (p := tp - sweep * T) in *.
  (* the defining chunk of the position *)
  destruct (Hwc p) as (r' & wb & we & Hr' & Hpw & Hwb & Hwe).
  { unfold numsequences. rewrite Hfm', Hfm, HT'. fold T. unfold p. lia. }
  rewrite Hr in Hr'. injection Hr' as <-.
  unfold position_window in Hpw. rewrite Hpcw, Hchunks in Hpw.
  destruct (vget (seqs true (λ k _ _, k) ac0 rc0) p) as [w|] eqn:Ew; [|done].
  cbn [mbind option_bind] in Hpw. change (vget (rc0 :: rcs) 0) with (Some rc0) in Hpw.
  cbn [mbind option_bind] in Hpw.
  destruct (vget rc0 w) as [c|] eqn:Ec; [|done]. cbn [mbind option_bind] in Hpw.
  injection Hpw as <- <-.
  unfold vget in Ew. apply pcw_lookup in Ew as (k & c' & -> & Hk & Hplo & Hphi).
  rewrite N2Nat.id in Hplo, Hphi.
  assert (c' = c) as ->.
  { unfold vget in Ec. rewrite Nat2N.id in Ec. congruence. }
  (* the chunks of the first and of the last frame *)
  apply chunkforframepos_Done in Hkf as (rc1 & cf' & tef & Hrc1 & Hcf' & Htef & Hf1 & Hf2).
  apply chunkforframepos_Done in Hkl as (rc2 & cl' & tel & Hrc2 & Hcl' & Htel & Hl1 & Hl2).
  rewrite Hchunks in Hrc1, Hrc2. cbn in Hrc1, Hrc2.
  injection Hrc1 as <-. injection Hrc2 as <-.
  rewrite Hcf in Hcf'. rewrite Hcl in Hcl'. injection Hcf' as <-. injection Hcl' as <-.
  unfold vget in Hcf, Hcl.
  destruct (Htl _ _ Hcf) as (Hgf & _ & Htef'). destruct (Htl _ _ Hcl) as (Hgl & _ & Htel').
  rewrite Htef in Htef'. rewrite Htel in Htel'. injection Htef' as ->. injection Htel' as ->.
  assert (Hkfk : (N.to_nat kf ≤ k)%nat).
  { destruct (decide (N.to_nat kf ≤ k)%nat) as [|Hn]; [done|]. exfalso.
    pose proof (firstpos_mono true ac0 rc0 (S k) (N.to_nat kf) ltac:(lia)). unfold p in *. lia. }
  assert (Hkkl : (k ≤ N.to_nat kl)%nat).
  { destruct (decide (k ≤ N.to_nat kl)%nat) as [|Hn]; [done|]. exfalso.
    pose proof (firstpos_mono true ac0 rc0 (S (N.to_nat kl)) k ltac:(lia)). unfold p in *. lia. }
  destruct (Hmono _ _ _ _ Hkfk Hcf Hk) as (Hb1 & _).
  destruct (Hmono _ _ _ _ Hkkl Hk Hcl) as (_ & He2 & _).
  lia.
Qed.

(** X21: every frame of a batch lies in the chunk window that [getbatch]
    pages in.  After [lazyrandomization] in frame mode on a catalog that
    fits [size_t], for two times [t ≤ t'] of the sweep whose chunks
    [chunkforframepos] finds, the sequence at every position from [t] to
    [t'] lies in a chunk between the window begin of the chunk of [t] and
    the window end of the chunk of [t']; so [requirerandomizedchunk] does not
    find it outside the chunk range. *)
Theorem batch_frames_inside_window fuel rz globalts_ allchunks s rz' ac0 rc0
    t t' tp kf kl cf cl r :
  catalog_fits rz (globalts_ / _totalframes rz) allchunks →
  current_is_built srand crand RAND_MAX ndebug rz globalts_ allchunks →
  framemode rz = true →
  lazyrandomization srand crand RAND_MAX ndebug fuel rz globalts_ allchunks = Done (s, rz') →
  head allchunks = Some ac0 → head (randomizedchunks rz') = Some rc0 →
  s * _totalframes rz ≤ t → t ≤ tp → tp ≤ t' → t' < (s + 1) * _totalframes rz →
  chunkforframepos rz' ac0 t = Done kf → chunkforframepos rz' ac0 t' = Done kl →
  vget rc0 kf = Some cf → vget rc0 kl = Some cl →
  vget (randomizedutterancerefs rz') (tp - s * _totalframes rz) = Some r →
  windowbegin cf ≤ chunkindex r ∧ chunkindex r < windowend cl
  ∧ ((chunkindex r <? windowbegin cf) || (windowend cl <=? chunkindex r)) = false.
Proof.
  intros Hfit Hcur Hfm H Hac0 Hrc0 Hlo Htp Htp' Hhi Hkf Hkl Hcf Hcl Hr.
  destruct (lazyrandomization_built _ _ _ _ _ _ _ _ _ _ Hcur H)
    as (-> & HT0 & fuel0 & rz0 & Hfm0 & HT & Hnu & _ & Hreb).
  destruct (rebuild_batch_window fuel0 rz0 (globalts_ / _totalframes rz) allchunks rz' ac0 rc0
              t t' tp kf kl cf cl r) as [Hb He]; rewrite ?HT; try done.
  { eapply catalog_fits_parameters; [| |exact Hfit]; done. }
  { congruence. }
  split; [done|]. split; [done|].
  apply orb_false_iff. split; [by apply N.ltb_ge|by apply N.leb_gt].
Qed.

End BatchWindow.

Lemma batch_frames_inside_window_witness :
  ∃ rc0 cf cl r,
    head (randomizedchunks example_randomized) = Some rc0
    ∧ vget rc0 0 = Some cf ∧ vget rc0 1 = Some cl
    ∧ vget (randomizedutterancerefs example_randomized) (28 - 1 * 20) = Some r
    ∧ windowbegin cf ≤ chunkindex r ∧ chunkindex r < windowend cl
    ∧ ((chunkindex r <? windowbegin cf) || (windowend cl <=? chunkindex r)) = false.
Proof.
  eexists _, _, _, _.
  split; [vm_compute; reflexivity|]. split; [vm_compute; reflexivity|].
  split; [vm_compute; reflexivity|]. split; [vm_compute; reflexivity|].
  refine (batch_frames_inside_window lcg_srand lcg_rand 32767 false 100
            (example_randomizer true) 25 example_catalog 1 example_randomized
            [example_chunk [4; 6]; example_chunk [3; 2]; example_chunk [5]] _
            25 31 28 0 1 _ _ _ _ _ _ _ _ _ _ _ _ _ _ _ _ _ _).
  - apply example_catalog_fits. vm_compute; reflexivity.
  - apply example_randomizer_fresh. vm_compute; reflexivity.
  - reflexivity.
  - vm_compute; reflexivity.
  - reflexivity.
  - vm_compute; reflexivity.
  - vm_compute. discriminate.
  - vm_compute. discriminate.
  - vm_compute. discriminate.
  - vm_compute. reflexivity.
  - vm_compute; reflexivity.
  - vm_compute; reflexivity.
  - vm_compute; reflexivity.
  - vm_compute; reflexivity.
  - vm_compute; reflexivity.
Defined.

(** * Streams of different lengths *)

Section StreamCardinality.
Context {W : Type} (env : collaborators W).

Lemma probe_stream_cardinality (m : N) (files : list parsedpath) (st : list bool * list N) :
  m ≠ 0 → vsize files ≠ vsize st.1 →
  probe_stream st (m, files) = Fail (RuntimeError RE_stream_cardinality).
Proof.
  intros Hm Hsize. unfold probe_stream.
  assert ((m =? 0) = false) as -> by (by apply N.eqb_neq).
  assert ((vsize files =? vsize st.1) = false) as -> by (by apply N.eqb_neq).
  done.
Qed.

(** X22: in a build without assertions, feature streams must list equally
    many files.  When the files of the first stream all have at least 2
    frames and the second stream lists a different number of files, the
    constructor throws the runtime error "all feature files must have same
    number of utterances", whatever follows. *)
Theorem construct_stream_cardinality f0 f1 rest labels vdim_ udim lc rc rr fm :
  forallb long_enough f0 = true → length f1 ≠ length f0 →
  construct true env (f0 :: f1 :: rest) labels vdim_ udim lc rc rr fm
  = Fail (RuntimeError RE_stream_cardinality).
Proof.
  intros Hlong Hlen. unfold construct. rewrite !assert_true, !assertM_true.
  cbn [mbind outcome_bind].
  assert (Hprobe : probe_durations true (f0 :: f1 :: rest)
                   = Fail (RuntimeError RE_stream_cardinality)).
  { unfold probe_durations. rewrite indexed_cons. cbn [length seq map zip zip_with foldM].
    rewrite probe_stream0, Hlong. cbn [mbind outcome_bind].
    rewrite probe_stream_cardinality; [done|done|].
    cbn [fst]. unfold vsize. rewrite length_map. lia. }
  by rewrite Hprobe.
Qed.

End StreamCardinality.

Lemma construct_stream_cardinality_witness :
  construct true example_env
    [example_labelled_files; [example_path "a.fbank" 4; example_path "b.fbank" 6]]
    [example_labels] [2; 2] [3] [0; 0] [0; 0] 20 true
  = Fail (RuntimeError RE_stream_cardinality).
Proof.
  refine (construct_stream_cardinality example_env example_labelled_files
            [example_path "a.fbank" 4; example_path "b.fbank" 6] [] [example_labels]
            [2; 2] [3] [0; 0] [0; 0] 20 true _ _).
  - reflexivity.
  - vm_compute. discriminate.
Defined.

(** * Paging a randomized chunk in *)

Section PagingIn.
Context {W : Type} (env : collaborators W).
Implicit Types s : @machine W.

Lemma preserves_try_catch_rethrow {A} (P : @machine W → Prop)
    (body : stateful (@machine W) A) handler :
  preserves P body → preserves P handler → preserves P (try_catch_rethrow body handler).
Proof.
  intros Hb Hh s r s' HP H. unfold try_catch_rethrow in H.
  destruct (body s) as [[a|e] s1] eqn:E.
  - injection H as <- <-. eapply Hb; [|exact E]. done.
  - assert (P s1) by (eapply Hb; [|exact E]; done).
    destruct (is_exception e).
    + destruct (handler s1) as [[[]|e'] s2] eqn:E2; injection H as <- <-;
        (eapply Hh; [|exact E2]; done).
    + by injection H as <- <-.
Qed.

Lemma preserves_attempt_from (P : @machine W → Prop) n (body : stateful (@machine W) unit) :
  preserves P body → preserves P (attempt_from n body).
Proof.
  intros Hb. induction n as [|n IH]; intros s r s' HP H; cbn [attempt_from] in H.
  - destruct (body s) as [[a|e] s1] eqn:E; injection H as <- <-; (eapply Hb; [|exact E]; done).
  - destruct (body s) as [[a|e] s1] eqn:E.
    + injection H as <- <-. eapply Hb; [|exact E]. done.
    + assert (P s1) by (eapply Hb; [|exact E]; done).
      destruct (is_exception e); [by eapply IH|]. by injection H as <- <-.
Qed.

(** What an [attempt] that returns has run last: the body, from a state that
    every property the body preserves has reached. *)
Lemma attempt_from_Done n (body : stateful (@machine W) unit) s s' :
  attempt_from n body s = (Done tt, s') →
  ∃ s0, body s0 = (Done tt, s') ∧ ∀ P : @machine W → Prop, preserves P body → P s → P s0.
Proof.
  revert s. induction n as [|n IH]; intros s H; cbn [attempt_from] in H.
  - destruct (body s) as [[[]|e] s1] eqn:E; [|done]. injection H as <-. exists s. done.
  - destruct (body s) as [[[]|e] s1] eqn:E.
    + injection H as <-. exists s. done.
    + destruct (is_exception e); [|done].
      destruct (IH s1 H) as (s0 & Hs0 & Hreach). exists s0. split; [done|].
      intros P HP HPs. apply Hreach; [done|]. eapply HP; [|exact E]. done.
Qed.

(** The properties that paging the chunk at [(m, idx)] leaves in place: they
    do not look at the world or at the feature information, and are kept
    when the chunk is replaced by itself with other frames and lattices. *)
Section Walk.
Context (m idx : N) (P : @machine W → Prop).
Context (Hworld : ∀ src w w', P (src, w) → P (src, w')).
Context (Hfeat : ∀ src w fk fd sp, P (src, w) → P (set_featinfo src fk fd sp, w)).
Context (Hput : ∀ cd fr lat,
           (∃ s s1, P s ∧ get_chunkdata m idx s = (Done cd, s1)) →
           preserves P (put_chunkdata m idx (set_frames cd fr lat))).

Lemma walk_releasedata : preserves P (releasedata m idx).
Proof.
  unfold releasedata. apply preserves_bind_Done; [apply preserves_get_chunkdata|].
  intros cd Hcd. destruct (_ =? 0); [apply preserves_sthrow|].
  destruct (negb _); [apply preserves_sthrow|]. by apply Hput.
Qed.

Lemma walk_read_utterance u i : preserves P (read_utterance env m idx u i).
Proof.
  unfold read_utterance.
  apply preserves_bind; [apply preserves_sget|]. intros [src w].
  apply preserves_bind; [apply preserves_get_chunkdata|]. intros cd.
  apply preserves_bind; [apply preserves_lift|]. intros uttframes.
  apply preserves_bind; [apply preserves_lift|]. intros u'.
  apply preserves_bind; [apply preserves_lift|]. intros fk.
  apply preserves_bind; [apply preserves_lift|]. intros sp.
  apply preserves_bind; [by apply preserves_call_world|]. intros _.
  destruct (negb (lat_empty env)); [|apply preserves_mret].
  apply preserves_bind; [apply preserves_lift|]. intros _.
  apply preserves_bind; [by apply preserves_call_world|]. intros _.
  apply preserves_bind_Done; [apply preserves_get_chunkdata|].
  intros cd' Hcd. by apply Hput.
Qed.

Lemma walk_requiredata_body : preserves P (requiredata_body env m idx).
Proof.
  unfold requiredata_body.
  apply preserves_bind; [apply preserves_sget|]. intros [src w].
  apply preserves_bind_Done; [apply preserves_get_chunkdata|].
  intros cd Hcd.
  apply preserves_bind; [apply preserves_lift|]. intros fd.
  apply preserves_bind.
  { destruct (fd =? 0); [|apply preserves_mret].
    apply preserves_bind; [apply preserves_lift|]. intros u0.
    apply preserves_bind; [by apply preserves_call_world|]. intros [[fk fd'] sp].
    intros [src1 w1] r s' HP [= _ <-]. by apply Hfeat. }
  intros _.
  apply preserves_bind; [apply preserves_sget|]. intros [src2 w2].
  apply preserves_bind; [apply preserves_lift|]. intros fd2.
  apply preserves_bind; [by apply Hput|]. intros _.
  apply preserves_foldS. intros b a. apply walk_read_utterance.
Qed.

Lemma walk_requiredata : preserves P (requiredata env m idx).
Proof.
  unfold requiredata. apply preserves_bind; [apply preserves_get_chunkdata|]. intros cd.
  destruct (_ =? 0); [apply preserves_sthrow|].
  destruct (isinram cd); [apply preserves_sthrow|].
  apply preserves_try_catch_rethrow; [apply walk_requiredata_body|apply walk_releasedata].
Qed.

End Walk.

Lemma chunk_has_get m idx (Q : utterancechunkdata → Prop) cd :
  (∃ s s1, chunk_has m idx Q s ∧ get_chunkdata m idx s = (Done cd, s1)) → Q cd.
Proof.
  intros (s & s1 & (cd' & Hcd' & HQ) & H). apply get_chunkdata_Done in H as [_ H]. congruence.
Qed.

Lemma preserves_put_has m idx (Q : utterancechunkdata → Prop) cd :
  Q cd → preserves (chunk_has (W:=W) m idx Q) (put_chunkdata m idx cd).
Proof.
  intros HQ [src w] r s' (cd0 & Hcd0 & _) H.
  destruct (put_chunkdata_of m idx cd src w cd0 Hcd0) as (src' & Hput & Hof & _).
  rewrite Hput in H. injection H as <- <-. exists cd. done.
Qed.

(** A frame count of the chunk stays through every paging of the chunk. *)
Lemma preserves_totalframes_requiredata m idx tf :
  preserves (chunk_has (W:=W) m idx (λ c, totalframes c = tf)) (requiredata env m idx).
Proof.
  apply walk_requiredata.
  - intros src w w' H. exact H.
  - intros src w fk fd sp H. exact H.
  - intros cd fr lat Hcd. apply chunk_has_get in Hcd. by apply preserves_put_has.
Qed.

(** What the reading of the utterances keeps of the chunk: everything that
    does not depend on the lattices. *)
Lemma preserves_read_has m idx (Q : utterancechunkdata → Prop) l :
  (∀ c lat, Q c → Q (set_frames c (frames c) lat)) →
  preserves (chunk_has (W:=W) m idx Q) (foldS (read_utterance env m idx) l tt).
Proof.
  intros HQ. apply preserves_foldS. intros b a. unfold read_utterance.
  apply preserves_bind; [apply preserves_sget|]. intros [src w].
  apply preserves_bind; [apply preserves_get_chunkdata|]. intros cd.
  apply preserves_bind; [apply preserves_lift|]. intros uttframes.
  apply preserves_bind; [apply preserves_lift|]. intros u'.
  apply preserves_bind; [apply preserves_lift|]. intros fk.
  apply preserves_bind; [apply preserves_lift|]. intros sp.
  apply preserves_bind; [by apply preserves_call_world|]. intros _.
  destruct (negb (lat_empty env)); [|apply preserves_mret].
  apply preserves_bind; [apply preserves_lift|]. intros _.
  apply preserves_bind; [by apply preserves_call_world|]. intros _.
  apply preserves_bind_Done; [apply preserves_get_chunkdata|].
  intros cd' Hcd. apply chunk_has_get in Hcd. apply preserves_put_has. by apply HQ.
Qed.

(** What a [requiredata] that returns leaves: the chunk with a matrix of the
    stream's feature dimension by the chunk's frames. *)
Lemma requiredata_Done m idx src (w : W) s' :
  getinfo_positive env →
  requiredata env m idx (src, w) = (Done tt, s') →
  ∃ cd cd' fd,
    chunk_of src m idx = Some cd ∧ chunk_of (fst s') m idx = Some cd'
    ∧ frames cd' = (fd, totalframes cd) ∧ totalframes cd' = totalframes cd ∧ 0 < fd
    ∧ utteranceset cd' = utteranceset cd ∧ cd_numutterances cd ≠ 0.
Proof.
  intros Hpos H. unfold requiredata in H.
  sbind H as cd s0 Eget. apply get_chunkdata_Done in Eget as [-> Hcd]. cbn [fst] in Hcd.
  destruct (cd_numutterances cd =? 0) eqn:Evirgin; [done|]. apply N.eqb_neq in Evirgin.
  destruct (isinram cd); [done|].
  unfold try_catch_rethrow in H.
  destruct (requiredata_body env m idx (src, w)) as [[[]|e] s1] eqn:Ebody.
  2:{ destruct (is_exception e); [|done].
      by destruct (releasedata m idx s1) as [[[]|e'] s2]. }
  injection H as <-. unfold requiredata_body in Ebody.
  sbind Ebody as [src0 w0] s0 E0. apply sget_Done in E0 as [[= -> ->] ->].
  sbind Ebody as cd0 s0 Eget. apply get_chunkdata_Done in Eget as [-> Hcd0].
  cbn [fst] in Hcd0. rewrite Hcd in Hcd0. injection Hcd0 as <-.
  slift Ebody as fd0 Efd0. apply vat_Done in Efd0.
  sbind Ebody as ? s2 Einfo.
  assert (Hs2 : ∃ src2 w2, s2 = (src2, w2) ∧ allchunks src2 = allchunks src
                ∧ ∃ fd, vget (featdim src2) m = Some fd ∧ 0 < fd).
  { destruct (fd0 =? 0) eqn:Ez.
    - slift Einfo as u0 Eu0. sbind Einfo as [[fk fd'] sp] s3 Ecall.
      unfold call_world in Ecall. destruct (reader_getinfo env (ud_parsedpath u0) w)
        as [r w'] eqn:Einf. injection Ecall as -> <-.
      apply smodify_Done in Einfo. cbv beta iota in Einfo.
      eexists _, _. split; [exact Einfo|]. cbn [set_featinfo allchunks featdim].
      split; [done|]. exists fd'. split; [apply vget_vset_eq; by eapply vget_lt|].
      by eapply Hpos.
    - apply mret_Done in Einfo as [_ ->]. exists src, w. split; [done|]. split; [done|].
      exists fd0. split; [done|]. apply N.eqb_neq in Ez. lia. }
  destruct Hs2 as (src2 & w2 & -> & Hac2 & fd & Hfd & Hfdpos).
  sbind Ebody as [src3 w3] s3 E3. apply sget_Done in E3 as [[= -> ->] ->].
  slift Ebody as fd' Efd'. apply vat_Done in Efd'. rewrite Hfd in Efd'. injection Efd' as <-.
  sbind Ebody as ? s4 Eput.
  assert (Hcd2 : chunk_of src2 m idx = Some cd).
  { unfold chunk_of in *. by rewrite Hac2. }
  destruct (put_chunkdata_of m idx
              (set_frames cd (fd, totalframes cd)
                 (if negb (lat_empty env)
                  then replicate (length (utteranceset cd)) (String.EmptyString)
                  else lattices cd)) src2 w2 cd Hcd2) as (src4 & Hput & Hof & _).
  rewrite Hput in Eput. injection Eput as _ <-.
  assert (Hhas : chunk_has (W:=W) m idx
                   (λ c, frames c = (fd, totalframes cd) ∧ totalframes c = totalframes cd
                         ∧ utteranceset c = utteranceset cd)
                   (src4, w2)).
  { eexists. split; [exact Hof|]. done. }
  assert (HQ : ∀ c lat,
             frames c = (fd, totalframes cd) ∧ totalframes c = totalframes cd
             ∧ utteranceset c = utteranceset cd →
             frames (set_frames c (frames c) lat) = (fd, totalframes cd)
             ∧ totalframes (set_frames c (frames c) lat) = totalframes cd
             ∧ utteranceset (set_frames c (frames c) lat) = utteranceset cd) by done.
  pose proof (preserves_read_has m idx _ _ HQ _ _ _ Hhas Ebody)
    as (cd' & Hcd' & Hfr & Htf & Hus).
  exists cd, cd', fd. done.
Qed.

Lemma preserves_outside_put m idx src0 cd :
  preserves (outside_stream (W:=W) m src0) (put_chunkdata m idx cd).
Proof.
  intros [src w] r s' (Hr & Hc & Hl & Hm) H. unfold put_chunkdata, smodify in H.
  destruct (vget (allchunks src) m) as [ac|] eqn:Eac; injection H as _ <-; [|done].
  unfold outside_stream. cbn [fst set_chunks rand_ chunksinram allchunks] in *.
  split; [done|]. split; [done|]. split; [by rewrite length_vset|].
  intros m' Hm'. rewrite vget_vset_ne by done. by apply Hm.
Qed.

Lemma preserves_outside_attempt m idx src0 n :
  preserves (outside_stream (W:=W) m src0) (attempt_from n (requiredata env m idx)).
Proof.
  apply preserves_attempt_from. apply walk_requiredata.
  - intros src w w' H. exact H.
  - intros src w fk fd sp H. exact H.
  - intros cd fr lat _. apply preserves_outside_put.
Qed.

End PagingIn.

Section PageInChunk.
Context (ndebug : bool) {W : Type} (env : collaborators W).

(** One stream of the loop that pages a randomized chunk in. *)
Lemma page_in_stream_Done k m src (w : W) s' cd :
  getinfo_positive env →
  getChunkData ndebug src m k = Done cd → 0 < totalframes cd →
  page_in_stream ndebug env k tt m (src, w) = (Done tt, s') →
  outside_stream m src s'
  ∧ ∃ cd', getChunkData ndebug (fst s') m k = Done cd' ∧ isinram cd' = true
           ∧ cd_numutterances cd' ≠ 0.
Proof.
  intros Hpos Hcd Htf H. apply getChunkData_Done in Hcd as (idx & Hidx & Hof).
  unfold page_in_stream in H.
  sbind H as [src0 w0] s0 E0. apply sget_Done in E0 as [[= -> ->] ->].
  slift H as idx' Eidx. rewrite Hidx in Eidx. injection Eidx as <-.
  sbind H as ? s1 Eget. apply get_chunkdata_Done in Eget as [-> _].
  unfold attempt in H.
  assert (Hout : outside_stream m src s').
  { eapply preserves_outside_attempt; [|exact H]. done. }
  split; [done|].
  apply attempt_from_Done in H as ([src1 w1] & Hreq & Hreach).
  assert (Hkeep : chunk_has (W:=W) m idx (λ c, totalframes c = totalframes cd) (src1, w1)).
  { apply Hreach; [apply preserves_totalframes_requiredata|]. exists cd. done. }
  destruct Hkeep as (cd1 & Hcd1 & Htf1).
  apply requiredata_Done in Hreq
    as (cd1' & cd' & fd & Hcd1' & Hcd' & Hfr & _ & Hfd & Hus & Hnv); [|done].
  cbn [fst] in Hcd1, Hcd1'. rewrite Hcd1 in Hcd1'. injection Hcd1' as <-.
  exists cd'. split; [|split].
  - apply getChunkData_Done. exists idx. split; [|done].
    rewrite <- Hidx. apply chunk_place_frame. by destruct Hout as (Hr & _).
  - unfold isinram, matrix_empty. rewrite Hfr, Htf1. cbn [fst snd].
    apply negb_true_iff, N.eqb_neq. lia.
  - unfold cd_numutterances in *. by rewrite Hus.
Qed.

Lemma page_in_fold k (l : list N) :
  getinfo_positive env → NoDup l → ∀ src (w : W) s',
  (∀ m, m ∈ l → ∃ cd, getChunkData ndebug src m k = Done cd ∧ 0 < totalframes cd) →
  foldS (page_in_stream ndebug env k) l tt (src, w) = (Done tt, s') →
  rand_ (fst s') = rand_ src ∧ chunksinram (fst s') = chunksinram src
  ∧ length (allchunks (fst s')) = length (allchunks src)
  ∧ (∀ m, m ∉ l → vget (allchunks (fst s')) m = vget (allchunks src) m)
  ∧ (∀ m, m ∈ l → resident ndebug (fst s') k m = true
                  ∧ ∃ cd, getChunkData ndebug (fst s') m k = Done cd
                          ∧ cd_numutterances cd ≠ 0).
Proof.
  intros Hpos. induction 1 as [|m l Hm Hnd IH]; intros src w s' Hknown H.
  - cbn [foldS] in H. apply mret_Done in H as [_ ->]. cbn [fst]. split_and!; try done.
    intros m Hm. by apply elem_of_nil in Hm.
  - cbn [foldS] in H. sbind H as [] [src1 w1] Estep.
    destruct (Hknown m) as (cd & Hcd & Htf); [left|].
    apply (page_in_stream_Done k m src w (src1, w1) cd Hpos Hcd Htf) in Estep
      as ((Hr1 & Hc1 & Hl1 & Hfr1) & cd1 & Hcd1 & Hram1 & Hnv1).
    cbn [fst] in *.
    assert (Hne : ∀ m', m' ∈ l → m' ≠ m) by (intros m' Hm' ->; done).
    apply IH in H as (Hr & Hc & Hl & Hfr & Hres).
    2:{ intros m' Hm'. destruct (Hknown m') as (cd' & Hcd' & Htf'); [by right|].
        exists cd'. split; [|done]. rewrite <- Hcd'. apply getChunkData_frame; [done|].
        apply Hfr1. by apply Hne. }
    split; [congruence|]. split; [congruence|]. split; [congruence|]. split.
    { intros m' Hm'. apply not_elem_of_cons in Hm' as [Hm1 Hm2].
      rewrite Hfr by done. by apply Hfr1. }
    intros m' [->|Hm']%elem_of_cons; [|by apply Hres].
    assert (getChunkData ndebug (fst s') m k = Done cd1) as Hcd'.
    { rewrite <- Hcd1. apply getChunkData_frame; [done|]. by apply Hfr. }
    split; [|by eauto]. unfold resident. by rewrite Hcd'.
Qed.

End PageInChunk.

Section RequireThenResident.
Context (ndebug : bool) {W : Type} (env : collaborators W).

(** The state that a [requirerandomizedchunk] returning [true] leaves: the
    one after the loop over the streams, with [chunksinram] incremented; in
    it the chunk is in RAM, with its utterances, on every stream. *)
Lemma requirerandomizedchunk_paged_in k wb we src (w : W) src' w' :
  getinfo_positive env →
  chunk_known ndebug src k → vsize (allchunks src) < SizeT.modulus →
  (∀ m cd, getChunkData ndebug src m k = Done cd → 0 < totalframes cd) →
  requirerandomizedchunk ndebug env k wb we (src, w) = (Done true, (src', w')) →
  ∃ src1,
    src' = set_chunksinram src1 (SizeT.add (chunksinram src1) 1)
    ∧ rand_ src1 = rand_ src ∧ chunksinram src1 = chunksinram src
    ∧ length (allchunks src1) = length (allchunks src)
    ∧ (∀ m, m ∈ stream_indices src →
         resident ndebug src1 k m = true
         ∧ ∃ cd, getChunkData ndebug src1 m k = Done cd ∧ cd_numutterances cd ≠ 0).
Proof.
  intros Hpos Hknown Hfit Hframes H.
  unfold requirerandomizedchunk in H.
  destruct ((k <? wb) || (we <=? k)) eqn:Ewin; [done|].
  unfold mbind at 1, stateful_bind at 1 in H. cbn [sget] in H. cbv zeta in H.
  unfold mbind at 1, stateful_bind at 1 in H.
  rewrite (count_inram_all ndebug k src w Hknown Hfit) in H.
  destruct (numresident ndebug src k =? vsize (allchunks src)) eqn:Eall; [done|].
  destruct (numresident ndebug src k =? 0) eqn:Enone; [|done].
  unfold page_in_chunk in H.
  sbind H as [] [src1 w1] Efold. sbind H as ? s2 Emod.
  apply smodify_Done in Emod. cbv beta iota in Emod. subst s2.
  apply mret_Done in H as [_ [= -> ->]].
  apply (page_in_fold ndebug env k (stream_indices src) Hpos (indices_NoDup _)) in Efold
    as (Hr & Hc & Hl & _ & Hres).
  2:{ intros m Hm. destruct (Hknown m Hm) as [cd Hcd]. exists cd. split; [done|].
      by eapply Hframes. }
  exists src1. done.
Qed.

(** X23: a chunk that [requirerandomizedchunk] has paged in is resident.
    When the reader reports feature dimensions other than 0 and the chunk
    has frames on every stream, a call that returns [true] leaves the chunk
    in RAM on every stream and has counted it in [chunksinram], with the
    randomizer untouched; the same call made again returns [false] and
    changes nothing. *)
Theorem requirerandomizedchunk_then_resident k wb we src (w : W) src' w' :
  getinfo_positive env →
  chunk_known ndebug src k → vsize (allchunks src) < SizeT.modulus →
  (∀ m cd, getChunkData ndebug src m k = Done cd → 0 < totalframes cd) →
  requirerandomizedchunk ndebug env k wb we (src, w) = (Done true, (src', w')) →
  numresident ndebug src' k = vsize (allchunks src')
  ∧ chunksinram src' = SizeT.add (chunksinram src) 1
  ∧ rand_ src' = rand_ src
  ∧ requirerandomizedchunk ndebug env k wb we (src', w') = (Done false, (src', w')).
Proof.
  intros Hpos Hknown Hfit Hframes H.
  assert (Ewin : (k <? wb) || (we <=? k) = false).
  { unfold requirerandomizedchunk in H. by destruct ((k <? wb) || (we <=? k)). }
  destruct (requirerandomizedchunk_paged_in k wb we src w src' w' Hpos Hknown Hfit Hframes H)
    as (src1 & -> & Hr & Hc & Hl & Hres).
  set (src' := set_chunksinram src1 (SizeT.add (chunksinram src1) 1)).
  assert (Hidx : stream_indices src' = stream_indices src).
  { unfold stream_indices, indices. cbn [src' set_chunksinram allchunks]. by rewrite Hl. }
  assert (Hsame : ∀ m, getChunkData ndebug src' m k = getChunkData ndebug src1 m k).
  { intros m. by apply getChunkData_frame. }
  assert (Hknown' : chunk_known ndebug src' k).
  { intros m Hm. rewrite Hidx in Hm. destruct (Hres m Hm) as [_ (cd & Hcd & _)].
    exists cd. by rewrite Hsame. }
  assert (Hnum : numresident ndebug src' k = vsize (allchunks src')).
  { unfold numresident. rewrite filter_all.
    - unfold vsize, stream_indices. by rewrite indices_length.
    - intros m Hm. rewrite Hidx in Hm. destruct (Hres m Hm) as [Hm1 _].
      unfold resident in *. by rewrite Hsame. }
  assert (Hfit' : vsize (allchunks src') < SizeT.modulus).
  { unfold vsize in *. cbn [src' set_chunksinram allchunks]. by rewrite Hl. }
  split; [done|]. split; [cbn [src' set_chunksinram chunksinram]; by rewrite Hc|].
  split; [done|].
  unfold requirerandomizedchunk. rewrite Ewin.
  unfold mbind at 1, stateful_bind at 1. cbn [sget]. cbv zeta.
  unfold mbind at 1, stateful_bind at 1.
  rewrite (count_inram_all ndebug k src' w' Hknown' Hfit').
  rewrite Hnum, N.eqb_refl. done.
Qed.

End RequireThenResident.

Lemma example_env_positive : getinfo_positive example_env.
Proof. intros pp w fk fd sp w' [= _ <- _ _]. done. Qed.

Lemma requirerandomizedchunk_then_resident_witness :
  ∃ src', requirerandomizedchunk false example_env 1 0 2 (example_source_randomized, tt)
          = (Done true, (src', tt))
          ∧ requirerandomizedchunk false example_env 1 0 2 (src', tt)
            = (Done false, (src', tt)).
Proof.
  eexists. split; [vm_compute; reflexivity|].
  refine (proj2 (proj2 (proj2
            (requirerandomizedchunk_then_resident false example_env 1 0 2
               example_source_randomized tt _ tt example_env_positive _ _ _ _)))).
  - intros m Hm. vm_compute in Hm. apply list_elem_of_singleton in Hm as ->.
    eexists. vm_compute; reflexivity.
  - vm_compute; reflexivity.
  - intros m cd Hcd. unfold getChunkData in Hcd.
    obind Hcd as idx Eidx. obind Hcd as ac Eac. apply vat_Done in Eac, Hcd.
    destruct m as [|p]; [|destruct p; vm_compute in Eac; discriminate].
    vm_compute in Eac. injection Eac as <-.
    destruct idx as [|[[|[]|]|[|[]|]|]]; vm_compute in Hcd; try discriminate;
      injection Hcd as <-; vm_compute; reflexivity.
  - vm_compute; reflexivity.
Defined.

Section RequireThenRelease.
Context (ndebug : bool) {W : Type} (env : collaborators W).

(** X24: paging a chunk in and out again.  After a [requirerandomizedchunk]
    that returned [true] (under the conditions of X23), a
    [releaserandomizedchunk] of the same chunk returns without an error,
    leaves the chunk known to, and resident on, no stream, and brings
    [chunksinram] back to the value it had before the chunk was paged in; the
    randomizer is untouched. *)
Theorem require_then_release_round_trip k wb we src (w : W) src' w' :
  getinfo_positive env →
  chunk_known ndebug src k → vsize (allchunks src) < SizeT.modulus →
  chunksinram src < SizeT.modulus →
  (∀ m cd, getChunkData ndebug src m k = Done cd → 0 < totalframes cd) →
  requirerandomizedchunk ndebug env k wb we (src, w) = (Done true, (src', w')) →
  ∃ src'',
    releaserandomizedchunk ndebug k (src', w') = (Done tt, (src'', w'))
    ∧ numresident ndebug src'' k = 0 ∧ chunk_known ndebug src'' k
    ∧ chunksinram src'' = chunksinram src
    ∧ rand_ src'' = rand_ src.
Proof.
  intros Hpos Hknown Hfit Hcount Hframes H.
  destruct (requirerandomizedchunk_paged_in ndebug env k wb we src w src' w'
              Hpos Hknown Hfit Hframes H) as (src1 & -> & Hr & Hc & Hl & Hres).
  set (src' := set_chunksinram src1 (SizeT.add (chunksinram src1) 1)).
  assert (Hidx : ∀ s2, length (allchunks s2) = length (allchunks src) →
                       stream_indices s2 = stream_indices src).
  { intros s2 H2. unfold stream_indices, indices. by rewrite H2. }
  assert (Hsame : ∀ m, getChunkData ndebug src' m k = getChunkData ndebug src1 m k).
  { intros m. by apply getChunkData_frame. }
  destruct (release_fold ndebug k w' (stream_indices src') (indices_NoDup _) 0 src')
    as (src2 & Hfold & Hr2 & Hc2 & Hl2 & _ & Hres2 & _).
  { intros m Hm. rewrite (Hidx src') in Hm by done.
    destruct (Hres m Hm) as [_ (cd & Hcd & Hnv)]. exists cd. by rewrite Hsame. }
  { unfold stream_indices. rewrite indices_length. unfold vsize in Hfit.
    cbn [src' set_chunksinram allchunks]. lia. }
  assert (Hall : vsize (filter (λ m, resident ndebug src' k m = true) (stream_indices src'))
                 = vsize (allchunks src')).
  { rewrite filter_all.
    - unfold vsize, stream_indices. by rewrite indices_length.
    - intros m Hm. rewrite (Hidx src') in Hm by done. destruct (Hres m Hm) as [Hm1 _].
      unfold resident in *. by rewrite Hsame. }
  rewrite N.add_0_l, Hall in Hfold.
  set (src'' := set_chunksinram src2 (SizeT.sub (chunksinram src2) 1)).
  assert (Hl'' : length (allchunks src'') = length (allchunks src)).
  { cbn [src'' set_chunksinram allchunks]. rewrite Hl2. done. }
  exists src''. split; [|split; [|split; [|split]]].
  - unfold releaserandomizedchunk.
    unfold mbind at 1, stateful_bind at 1. cbn [sget]. cbv zeta.
    unfold mbind at 1, stateful_bind at 1. rewrite Hfold.
    by rewrite N.ltb_irrefl, andb_false_r, N.eqb_refl.
  - unfold numresident. rewrite (Hidx _ Hl''), filter_none; [done|]. intros m Hm.
    rewrite (resident_frame ndebug src2 src'' m k) by done.
    rewrite <- (Hidx src') in Hm by done. destruct (Hres2 m Hm) as [-> _]. done.
  - intros m Hm. rewrite (Hidx _ Hl'') in Hm. rewrite <- (Hidx src') in Hm by done.
    destruct (Hres2 m Hm) as [_ [cd Hcd]]. exists cd. rewrite <- Hcd.
    by apply getChunkData_frame.
  - cbn [src'' set_chunksinram chunksinram]. rewrite Hc2.
    cbn [src' set_chunksinram chunksinram]. rewrite Hc.
    clear - Hcount. revert Hcount. generalize (chunksinram src). intros c Hc.
    unfold SizeT.sub, SizeT.add, SizeT.wrap.
    rewrite (N.mod_small 1) by done.
    destruct (N.eq_dec (c + 1) SizeT.modulus) as [E|E].
    + rewrite E, N.Div0.mod_same, N.add_0_l. rewrite N.mod_small; lia.
    + rewrite (N.mod_small (c + 1)) by lia.
      replace (c + 1 + (SizeT.modulus - 1)) with (c + 1 * SizeT.modulus) by lia.
      rewrite N.Div0.mod_add. by apply N.mod_small.
  - cbn [src'' set_chunksinram rand_]. by rewrite Hr2.
Qed.

End RequireThenRelease.

Lemma require_then_release_round_trip_witness :
  ∃ src' src'',
    requirerandomizedchunk false example_env 1 0 2 (example_source_randomized, tt)
    = (Done true, (src', tt))
    ∧ releaserandomizedchunk false 1 (src', tt) = (Done tt, (src'', tt))
    ∧ chunksinram src'' = chunksinram example_source_randomized.
Proof.
  eexists.
  destruct (require_then_release_round_trip false example_env 1 0 2
              example_source_randomized tt
              (fst (snd (requirerandomizedchunk false example_env 1 0 2
                           (example_source_randomized, tt)))) tt example_env_positive)
    as (src'' & Hrel & _ & _ & Hc & _).
  - intros m Hm. vm_compute in Hm. apply list_elem_of_singleton in Hm as ->.
    eexists. vm_compute; reflexivity.
  - vm_compute; reflexivity.
  - vm_compute; reflexivity.
  - intros m cd Hcd. unfold getChunkData in Hcd.
    obind Hcd as idx Eidx. obind Hcd as ac Eac. apply vat_Done in Eac, Hcd.
    destruct m as [|p]; [|destruct p; vm_compute in Eac; discriminate].
    vm_compute in Eac. injection Eac as <-.
    destruct idx as [|[[|[]|]|[|[]|]|]]; vm_compute in Hcd; try discriminate;
      injection Hcd as <-; vm_compute; reflexivity.
  - vm_compute; reflexivity.
  - exists src''. split; [vm_compute; reflexivity|]. split; [exact Hrel|exact Hc].
Defined.

Section SweepDeterminism.
Context {G : Type} (srand : N → G) (crand : G → N * G) (RAND_MAX : N) (ndebug : bool).

(** C2 (sweep determinism): the randomization is a function of the sweep and
    the catalog.  Take two executions of [lazyrandomization] on the same
    catalog, at two times [t1] and [t2] of the same sweep, from two
    randomizers that agree on their parameters only (each may hold the state
    of any other sweep, or the state that [rebuild] left for this catalog)
    and with any amounts of fuel.  When both complete they return the
    same sweep, the sweep of [t1], and leave the same randomized sequences
    with the same [globalts], the same randomized chunks of the first stream
    with their windows, hence the same window at every position, the same
    placement of the chunks of every stream, and the same position tables.
    The generator is the explicit seeded one: [srand sweep] for the chunk
    shuffle and [srand (sweep + 1)] for the sequence shuffle. *)
Theorem lazyrandomization_deterministic fuel1 fuel2 rz1 rz2 t1 t2 allchunks s1 s2 rz1' rz2' :
  framemode rz1 = framemode rz2 →
  _totalframes rz1 = _totalframes rz2 →
  rz_numutterances rz1 = rz_numutterances rz2 →
  randomizationrange rz1 = randomizationrange rz2 →
  t1 / _totalframes rz1 = t2 / _totalframes rz2 →
  current_is_built srand crand RAND_MAX ndebug rz1 t1 allchunks →
  current_is_built srand crand RAND_MAX ndebug rz2 t2 allchunks →
  lazyrandomization srand crand RAND_MAX ndebug fuel1 rz1 t1 allchunks = Done (s1, rz1') →
  lazyrandomization srand crand RAND_MAX ndebug fuel2 rz2 t2 allchunks = Done (s2, rz2') →
  s1 = s2 ∧ s1 = t1 / _totalframes rz1
  ∧ randomizedutterancerefs rz1' = randomizedutterancerefs rz2'
  ∧ map sr_globalts (randomizedutterancerefs rz1') = map sr_globalts (randomizedutterancerefs rz2')
  ∧ head (randomizedchunks rz1') = head (randomizedchunks rz2')
  ∧ (∀ p, position_window rz1' p = position_window rz2' p)
  ∧ map (map chunk_placement) (randomizedchunks rz1')
    = map (map chunk_placement) (randomizedchunks rz2')
  ∧ positionchunkwindows rz1' = positionchunkwindows rz2'
  ∧ randomizedutteranceposmap rz1' = randomizedutteranceposmap rz2'.
Proof.
  intros Hfm HT Hnu Hrange Hsweep Hc1 Hc2 H1 H2.
  destruct (lazyrandomization_built _ _ _ _ _ _ _ _ _ _ Hc1 H1)
    as (-> & _ & f1 & r1 & Hfm1 & HT1 & Hnu1 & Hr1 & Hreb1).
  destruct (lazyrandomization_built _ _ _ _ _ _ _ _ _ _ Hc2 H2)
    as (-> & _ & f2 & r2 & Hfm2 & HT2 & Hnu2 & Hr2 & Hreb2).
  rewrite <- Hsweep in Hreb2 |- *.
  assert (Hsame : rz1' = rz2').
  { eapply (rebuild_deterministic _ _ _ _ f1 f2 r1 r2); [| | | |exact Hreb1|exact Hreb2];
      congruence. }
  split; [done|]. split; [done|].
  split; [by rewrite Hsame|]. split; [by rewrite Hsame|]. split; [by rewrite Hsame|].
  split; [intros p; by rewrite Hsame|].
  split; [by rewrite Hsame|]. split; by rewrite Hsame.
Qed.

End SweepDeterminism.

(** The randomizer of the small catalog holds the state of sweep 1. *)
Lemma example_randomized_stale globalts_ :
  40 ≤ globalts_ →
  current_is_built lcg_srand lcg_rand 32767 false example_randomized globalts_ example_catalog.
Proof.
  intros Hg Hc. exfalso.
  change (currentsweep example_randomized) with 1 in Hc.
  change (_totalframes example_randomized) with 20 in Hc.
  assert (2 ≤ globalts_ / 20) by (apply N.div_le_lower_bound; lia). lia.
Qed.

Lemma lazyrandomization_deterministic_witness :
  ∃ rz1' rz2',
    lazyrandomization lcg_srand lcg_rand 32767 false 100 (example_randomizer true) 43
      example_catalog = Done (2, rz1')
    ∧ lazyrandomization lcg_srand lcg_rand 32767 false 60 example_randomized 57
        example_catalog = Done (2, rz2')
    ∧ randomizedutterancerefs rz1' = randomizedutterancerefs rz2'
    ∧ head (randomizedchunks rz1') = head (randomizedchunks rz2').
Proof.
  eexists _, _. split; [vm_compute; reflexivity|]. split; [vm_compute; reflexivity|].
  edestruct (lazyrandomization_deterministic lcg_srand lcg_rand 32767 false 100 60
              (example_randomizer true) example_randomized 43 57 example_catalog
              2 2)
    as (_ & _ & Hrefs & _ & Hchunks & _).
  - reflexivity.
  - reflexivity.
  - reflexivity.
  - reflexivity.
  - vm_compute; reflexivity.
  - apply example_randomizer_fresh. vm_compute; reflexivity.
  - apply example_randomized_stale. vm_compute; discriminate.
  - vm_compute; reflexivity.
  - vm_compute; reflexivity.
  - split; [exact Hrefs|exact Hchunks].
Defined.

(** * Utterances out of range *)







Section OutOfRange.
Context (ndebug : bool) {W : Type} (env : collaborators W).












End OutOfRange.

Section ShortAndLongUtterances.
Context (ndebug : bool) {W : Type} (env : collaborators W).


End ShortAndLongUtterances.


(** * The retries of a load *)

Section Retries.
Context {St : Type}.
Implicit Types (body : stateful St unit) (s : St).

(** What [attempt_from n] has run when it ends: at most [n + 1] runs of the
    body, all but the last failed with an exception. *)
Lemma attempt_from_ends n body s r s' :
  attempt_from n body s = (r, s') → ends_within (S n) body s r s'.
Proof.
  revert s. induction n as [|n IH]; intros s H; cbn [attempt_from] in H.
  - exists 0%nat. split; [lia|]. cbn [nth_run].
    destruct (body s) as [[[]|e] s1]; injection H as <- <-; done.
  - destruct (body s) as [[[]|e] s1] eqn:E.
    + injection H as <- <-. exists 0%nat. split; [lia|]. cbn [nth_run]. by rewrite E.
    + destruct (is_exception e) eqn:Ee.
      * destruct (IH s1 H) as (j & Hj & Hrun & Hlast).
        exists (S j). split; [lia|]. cbn [nth_run]. rewrite E, Ee. split; [done|].
        destruct r as [[]|e']; [done|]. intros He'. specialize (Hlast He'). lia.
      * injection H as <- <-. exists 0%nat. split; [lia|]. cbn [nth_run]. rewrite E.
        split; [done|]. intros He. congruence.
Qed.

Lemma ends_attempt_from n body s r s' :
  ends_within (S n) body s r s' → attempt_from n body s = (r, s').
Proof.
  revert s. induction n as [|n IH]; intros s (j & Hj & Hrun & Hlast).
  - assert (j = 0%nat) as -> by lia. cbn [nth_run] in Hrun. injection Hrun as Hrun.
    cbn [attempt_from]. rewrite Hrun. by destruct r as [[]|e].
  - cbn [attempt_from]. destruct j as [|j]; cbn [nth_run] in Hrun.
    + injection Hrun as Hrun. rewrite Hrun. destruct r as [[]|e]; [done|].
      destruct (is_exception e); [|done]. specialize (Hlast eq_refl). lia.
    + destruct (body s) as [[[]|e] s1]; [done|].
      destruct (is_exception e); [|done]. apply IH. exists j. split; [lia|]. split; [done|].
      destruct r as [[]|e']; [done|]. intros He'. specialize (Hlast He'). lia.
Qed.

End Retries.

(** * The cases of [requirerandomizedchunk] *)

Section PagingCases.
Context (ndebug : bool) {W : Type} (env : collaborators W).

Lemma numresident_all src k :
  (∀ m, m ∈ stream_indices src → resident ndebug src k m = true) →
  numresident ndebug src k = vsize (allchunks src).
Proof.
  intros H. unfold numresident. rewrite filter_all by done.
  unfold vsize, stream_indices. by rewrite indices_length.
Qed.

(** The load of one stream is the retried [requiredata] of its chunk. *)
Lemma page_in_stream_attempt k m idx src (w : W) cd :
  chunk_place ndebug src m k = Done idx → chunk_of src m idx = Some cd →
  page_in_stream ndebug env k tt m (src, w) = attempt 5 (requiredata env m idx) (src, w).
Proof.
  intros Hidx Hof. unfold page_in_stream.
  unfold mbind at 1, stateful_bind at 1. cbn [sget].
  unfold mbind at 1, stateful_bind at 1. unfold lift at 1. rewrite Hidx.
  unfold mbind at 1, stateful_bind at 1. rewrite (get_chunkdata_of _ _ _ _ _ Hof). done.
Qed.

(** The loop over the streams, however it ends: every load that was made
    started on a stream not yet touched and ended within five attempts, and
    the loop stops at the first load that fails. *)
Lemma page_in_fold_ends k (l : list N) :
  NoDup l → ∀ src (w : W) r s',
  (∀ m, m ∈ l → ∃ cd, getChunkData ndebug src m k = Done cd) →
  foldS (page_in_stream ndebug env k) l tt (src, w) = (r, s') →
  rand_ (fst s') = rand_ src ∧ chunksinram (fst s') = chunksinram src
  ∧ length (allchunks (fst s')) = length (allchunks src)
  ∧ match r with
    | Done _ =>
        ∀ m, m ∈ l →
          ∃ idx s0 s1, chunk_place ndebug src m k = Done idx
                       ∧ vget (allchunks (fst s0)) m = vget (allchunks src) m
                       ∧ ends_within 5 (requiredata env m idx) s0 (Done tt) s1
    | Fail e =>
        ∃ m idx s0, m ∈ l ∧ chunk_place ndebug src m k = Done idx
                    ∧ vget (allchunks (fst s0)) m = vget (allchunks src) m
                    ∧ ends_within 5 (requiredata env m idx) s0 (Fail e) s'
    end.
Proof.
  induction 1 as [|m l Hm Hnd IH]; intros src w r s' Hknown H.
  - cbn [foldS] in H. injection H as <- <-. cbn [fst]. split_and!; try done.
    intros m Hm. by apply elem_of_nil in Hm.
  - destruct (Hknown m) as (cd & Hcd); [left|].
    apply getChunkData_Done in Hcd as (idx & Hidx & Hof).
    cbn [foldS] in H. unfold mbind at 1, stateful_bind at 1 in H.
    rewrite (page_in_stream_attempt k m idx src w cd Hidx Hof) in H.
    destruct (attempt 5 (requiredata env m idx) (src, w)) as [[[]|e] [src1 w1]] eqn:Eatt.
    all: assert (Hout : outside_stream m src (src1, w1))
           by (eapply preserves_outside_attempt; [|exact Eatt]; done).
    all: destruct Hout as (Hr1 & Hc1 & Hl1 & Hfr1); cbn [fst] in Hr1, Hc1, Hl1, Hfr1.
    + assert (Hne : ∀ m', m' ∈ l → m' ≠ m) by (intros m' Hm' ->; done).
      apply IH in H as (Hr & Hc & Hl & Hres).
      2:{ intros m' Hm'. destruct (Hknown m') as (cd' & Hcd'); [by right|].
          exists cd'. rewrite <- Hcd'. apply getChunkData_frame; [done|].
          apply Hfr1. by apply Hne. }
      split; [congruence|]. split; [congruence|]. split; [congruence|].
      destruct r as [[]|e].
      * intros m' [->|Hm']%elem_of_cons.
        -- exists idx, (src, w), (src1, w1). split; [done|]. split; [done|].
           by apply attempt_from_ends.
        -- destruct (Hres m' Hm') as (idx' & s0 & s1 & Hidx' & Hv & Hends).
           exists idx', s0, s1.
           split; [by rewrite <- (chunk_place_frame ndebug src src1 m' k Hr1)|].
           split; [|done]. rewrite Hv. apply Hfr1. by apply Hne.
      * destruct Hres as (m' & idx' & s0 & Hm' & Hidx' & Hv & Hends).
        exists m', idx', s0. split; [by right|].
        split; [by rewrite <- (chunk_place_frame ndebug src src1 m' k Hr1)|].
        split; [|done]. rewrite Hv. apply Hfr1. by apply Hne.
    + injection H as <- <-. cbn [fst]. split; [done|]. split; [done|]. split; [done|].
      exists m, idx, (src, w). split; [left|]. split; [done|]. split; [done|].
      by apply attempt_from_ends.
Qed.

(** C7 (paging a chunk in): [requirerandomizedchunk (k, windowbegin, windowend)]
    throws a logic error, leaving everything as it was, when [k] is outside
    [[windowbegin, windowend)].  For [k] inside, with the chunk known on every
    stream: if it is resident on all streams the call returns [false] and
    changes nothing; if it is resident on some streams only, it throws a
    logic error and changes nothing.  If it is resident on none, the call
    loads the chunk stream by stream, each load being [requiredata] tried at
    most 5 times.  A call that returns has returned [true], every stream's
    load has ended well within 5 attempts from a state in which the stream
    was untouched, [chunksinram] is one more, and the chunk is resident on
    every stream where the reader reports feature dimensions other than 0
    and the chunk has frames.  A call that throws has left [chunksinram] as
    it was and throws what some stream's load threw at its last attempt, the
    fifth if it is an exception.  The randomizer is untouched either way.
    For the load of the first stream, which starts in the state of the call:
    if its attempts end in a failure, that failure is the call's; if they
    end well and there is one stream, the call returns [true] in the state
    that the load left, with [chunksinram] incremented. *)
Theorem requirerandomizedchunk_cases k wb we src (w : W) :
  ((k < wb ∨ we ≤ k) →
     requirerandomizedchunk ndebug env k wb we (src, w)
     = (Fail (LogicError LE_require_outside_window), (src, w)))
  ∧ (wb ≤ k → k < we →
     chunk_known ndebug src k → vsize (allchunks src) < SizeT.modulus →
     (numresident ndebug src k = vsize (allchunks src) →
        requirerandomizedchunk ndebug env k wb we (src, w) = (Done false, (src, w)))
     ∧ (0 < numresident ndebug src k → numresident ndebug src k < vsize (allchunks src) →
        requirerandomizedchunk ndebug env k wb we (src, w)
        = (Fail (LogicError LE_require_inconsistent), (src, w)))
     ∧ (numresident ndebug src k = 0 → vsize (allchunks src) ≠ 0 →
        (∀ r src' w',
           requirerandomizedchunk ndebug env k wb we (src, w) = (r, (src', w')) →
           rand_ src' = rand_ src
           ∧ match r with
             | Done b =>
                 b = true
                 ∧ chunksinram src' = SizeT.add (chunksinram src) 1
                 ∧ (∀ m, m ∈ stream_indices src →
                      ∃ idx s0 s1,
                        chunk_place ndebug src m k = Done idx
                        ∧ vget (allchunks (fst s0)) m = vget (allchunks src) m
                        ∧ ends_within 5 (requiredata env m idx) s0 (Done tt) s1)
                 ∧ (getinfo_positive env →
                    (∀ m cd, getChunkData ndebug src m k = Done cd → 0 < totalframes cd) →
                    numresident ndebug src' k = vsize (allchunks src'))
             | Fail e =>
                 chunksinram src' = chunksinram src
                 ∧ ∃ m idx s0,
                     m ∈ stream_indices src
                     ∧ chunk_place ndebug src m k = Done idx
                     ∧ vget (allchunks (fst s0)) m = vget (allchunks src) m
                     ∧ ends_within 5 (requiredata env m idx) s0 (Fail e) (src', w')
             end)
        ∧ (∀ idx r s1,
             chunk_place ndebug src 0 k = Done idx →
             ends_within 5 (requiredata env 0 idx) (src, w) r s1 →
             match r with
             | Fail e => requirerandomizedchunk ndebug env k wb we (src, w) = (Fail e, s1)
             | Done _ =>
                 vsize (allchunks src) = 1 →
                 requirerandomizedchunk ndebug env k wb we (src, w)
                 = (Done true,
                    (set_chunksinram (fst s1) (SizeT.add (chunksinram src) 1), snd s1))
             end))).
Proof.
  split.
  - intros Hout. unfold requirerandomizedchunk.
    assert (((k <? wb) || (we <=? k)) = true) as ->; [|done].
    apply orb_true_iff. destruct Hout; [left; by apply N.ltb_lt|right; by apply N.leb_le].
  - intros Hwb Hwe Hknown Hfit.
    assert (Hin : ((k <? wb) || (we <=? k)) = false).
    { apply orb_false_iff. split; [apply N.ltb_ge|apply N.leb_gt]; lia. }
    assert (Hrun : requirerandomizedchunk ndebug env k wb we (src, w)
              = (if numresident ndebug src k =? vsize (allchunks src) then mret false
                 else if numresident ndebug src k =? 0 then page_in_chunk ndebug env src k
                 else sthrow (LogicError LE_require_inconsistent)) (src, w)).
    { unfold requirerandomizedchunk. rewrite Hin.
      unfold mbind at 1, stateful_bind at 1. unfold sget at 1. cbv beta iota zeta.
      unfold mbind at 1, stateful_bind at 1. rewrite count_inram_all by done. done. }
    rewrite Hrun. split; [|split].
    + intros ->. rewrite N.eqb_refl. done.
    + intros H0 HS.
      assert ((numresident ndebug src k =? vsize (allchunks src)) = false) as ->
        by (apply N.eqb_neq; lia).
      assert ((numresident ndebug src k =? 0) = false) as -> by (apply N.eqb_neq; lia).
      done.
    + intros H0 HS. rewrite H0.
      assert ((0 =? vsize (allchunks src)) = false) as -> by (apply N.eqb_neq; lia).
      rewrite N.eqb_refl. clear Hrun.
      assert (Hpage : ∀ r1 s1,
                foldS (page_in_stream ndebug env k) (stream_indices src) tt (src, w) = (r1, s1) →
                page_in_chunk ndebug env src k (src, w)
                = match r1 with
                  | Done _ =>
                      (Done true,
                       (set_chunksinram (fst s1) (SizeT.add (chunksinram (fst s1)) 1), snd s1))
                  | Fail e => (Fail e, s1)
                  end).
      { intros r1 [src1 w1] E. unfold page_in_chunk.
        unfold mbind at 1, stateful_bind at 1. rewrite E. by destruct r1 as [[]|e]. }
      split.
      * intros r src' w' H.
        destruct (foldS (page_in_stream ndebug env k) (stream_indices src) tt (src, w))
          as [r1 [src1 w1]] eqn:Efold.
        rewrite (Hpage r1 (src1, w1) eq_refl) in H.
        pose proof (page_in_fold_ends k (stream_indices src) (indices_NoDup _) src w r1
                      (src1, w1) Hknown Efold) as (Hr & Hc & Hl & Hends).
        cbn [fst snd] in H, Hr, Hc, Hl.
        destruct r1 as [[]|e]; injection H as <- <- <-.
        -- split; [done|]. split; [done|].
           split; [cbn [set_chunksinram chunksinram]; by rewrite Hc|].
           split; [exact Hends|]. intros Hpos Hframes.
           apply (page_in_fold ndebug env k (stream_indices src) Hpos (indices_NoDup _))
             in Efold as (_ & _ & _ & _ & Hres).
           2:{ intros m Hm. destruct (Hknown m Hm) as [cd Hcd]. exists cd.
               split; [done|]. by eapply Hframes. }
           apply numresident_all. intros m Hm.
           assert (stream_indices (set_chunksinram src1 (SizeT.add (chunksinram src1) 1))
                   = stream_indices src) as Hidx.
           { unfold stream_indices, indices. cbn [set_chunksinram allchunks]. by rewrite Hl. }
           rewrite Hidx in Hm. destruct (Hres m Hm) as [Hm1 _]. cbn [fst] in Hm1.
           by rewrite (resident_frame ndebug src1).
        -- split; [done|]. split; [done|]. exact Hends.
      * intros idx r s1 Hidx Hends. apply ends_attempt_from in Hends.
        assert (H0in : 0 ∈ stream_indices src).
        { unfold stream_indices, indices, vsize in *.
          destruct (allchunks src); [done|]. cbn. left. }
        destruct (Hknown 0 H0in) as [cd Hcd].
        apply getChunkData_Done in Hcd as (idx' & Hidx' & Hof).
        rewrite Hidx in Hidx'. injection Hidx' as <-.
        assert (Hfirst : ∃ rest, stream_indices src = 0 :: rest
                          ∧ (vsize (allchunks src) = 1 → rest = [])).
        { unfold stream_indices, indices, vsize in *.
          destruct (allchunks src) as [|ac0 [|ac1 acs]]; [done| |].
          - exists []. done.
          - eexists. split; [reflexivity|]. cbn [length]. lia. }
        destruct Hfirst as (rest & Hidxs & Hone).
        assert (Hstep : page_in_stream ndebug env k tt 0 (src, w) = (r, s1)).
        { by rewrite (page_in_stream_attempt k 0 idx src w cd Hidx Hof). }
        destruct r as [[]|e].
        -- intros H1. specialize (Hone H1). subst rest.
           assert (Hc1 : chunksinram (fst s1) = chunksinram src).
           { assert (outside_stream 0 src s1) as (_ & Hc1 & _); [|done].
             eapply preserves_outside_attempt; [|exact Hends]. done. }
           rewrite (Hpage (Done tt) s1), Hc1; [done|].
           rewrite Hidxs. cbn [foldS]. unfold mbind at 1, stateful_bind at 1.
           rewrite Hstep. done.
        -- rewrite (Hpage (Fail e) s1); [done|].
           rewrite Hidxs. cbn [foldS]. unfold mbind at 1, stateful_bind at 1.
           by rewrite Hstep.
Qed.

End PagingCases.

Lemma example_env_flaky_positive : getinfo_positive example_env_flaky.
Proof. intros pp w fk fd sp w' [= _ <- _ _]. done. Qed.

Lemma requirerandomizedchunk_cases_witness :
  ∃ src',
    requirerandomizedchunk false example_env_flaky 1 0 2 (example_source_randomized, 2%nat)
    = (Done true, (src', 0%nat))
    ∧ chunksinram src' = 1
    ∧ numresident false src' 1 = 1.
Proof.
  eexists. split; [vm_compute; reflexivity|].
  destruct (requirerandomizedchunk_cases false example_env_flaky 1 0 2
              example_source_randomized 2%nat) as [_ Hin].
  destruct Hin as (_ & _ & Hnone).
  - vm_compute. discriminate.
  - vm_compute; reflexivity.
  - intros m Hm. vm_compute in Hm. apply list_elem_of_singleton in Hm as ->.
    eexists. vm_compute; reflexivity.
  - vm_compute; reflexivity.
  - destruct Hnone as [Hends _].
    + vm_compute; reflexivity.
    + vm_compute. discriminate.
    + edestruct (Hends (Done true)) as (_ & _ & Hc & _ & Hres).
      * vm_compute; reflexivity.
      * split; [exact Hc|]. apply Hres; [apply example_env_flaky_positive|].
        intros m cd Hcd. unfold getChunkData in Hcd.
        obind Hcd as idx Eidx. obind Hcd as ac Eac. apply vat_Done in Eac, Hcd.
        destruct m as [|p]; [|destruct p; vm_compute in Eac; discriminate].
        vm_compute in Eac. injection Eac as <-.
        destruct idx as [|[[|[]|]|[|[]|]|]]; vm_compute in Hcd; try discriminate;
          injection Hcd as <-; vm_compute; reflexivity.
Defined.
